(** * Attendee in-meeting media agent: the Teams payload and the bot output manager

    A shallow embedding of the JavaScript that runs inside the meeting page
    (the Teams chromedriver payload and [BotOutputManager] of
    [shared_chromedriver_payload.js]) together with the properties its
    specification states about it.

    Conventions of the embedding:
    - JavaScript numbers that hold timestamps, counters and lengths are
      integers in the code paths below ([Date.now()], array lengths, frame
      sizes) and are modelled as [Z]; audio samples are IEEE floats and are
      modelled as primitive floats, and so are the audio clock, the
      durations and the sample rates of the output manager.
    - a [Map], and a plain object that the code enumerates, is an ordered
      association list ([JsMap]): enumeration is in insertion order and
      assigning to a key that exists keeps its position;
    - a plain object that is only read and written by key is a [gmap];
    - the module-level singletons ([dominantSpeakerManager], [ws], ...) are
      threaded through explicitly. *)

From Stdlib Require Import ZArith Lia Floats Ascii.
From stdpp Require Import base option list strings gmap pretty.

Open Scope Z_scope.

#[local] Set Warnings "-inexact-float".

(* ================================================================== *)
(** * Part I: the program                                              *)
(* ================================================================== *)

(** ** JavaScript helpers *)

(** [arr.slice(-n)]: the last [n] elements, the whole array when it is shorter. *)
Definition slice_last {A} (n : nat) (l : list A) : list A :=
  drop (length l - n)%nat l.

(** [arr.shift()]: remove the first element (a no-op on the empty array). *)
Definition shift {A} (l : list A) : list A := tail l.

(** Truthiness of a string value: every string but the empty one. *)
Definition truthy (s : string) : bool :=
  match s with EmptyString => false | _ => true end.

(** Insertion-ordered maps: [Map], and objects the code enumerates with
    [Object.entries]. *)
Module JsMap.
Section defs.
Context {K V : Type} `{EqDecision K}.

Definition t := list (K * V).

Definition empty : t := [].

Fixpoint get (k : K) (m : t) : option V :=
  match m with
  | [] => None
  | (k', v) :: m' => if decide (k = k') then Some v else get k m'
  end.

(** [m.set(k, v)] / [o[k] = v]: overwrite in place, or append. *)
Fixpoint set (k : K) (v : V) (m : t) : t :=
  match m with
  | [] => [(k, v)]
  | (k', v') :: m' =>
      if decide (k = k') then (k, v) :: m' else (k', v') :: set k v m'
  end.

Fixpoint delete (k : K) (m : t) : t :=
  match m with
  | [] => []
  | (k', v') :: m' =>
      if decide (k = k') then m' else (k', v') :: delete k m'
  end.

Definition keys (m : t) : list K := m.*1.
Definition values (m : t) : list V := m.*2.
Definition entries (m : t) : list (K * V) := m.
Definition has (k : K) (m : t) : bool := bool_decide (is_Some (get k m)).
End defs.
Arguments t : clear implicits.
End JsMap.

(** ** Speaker attribution: intervals and the per-participant state machine *)

Inductive IntervalType := IStart | IEnd.

#[global] Instance IntervalType_eq_dec : EqDecision IntervalType.
Proof. solve_decision. Defined.

(** [{type: 'start' | 'end', timestampMs}] *)
Record SpeechInterval := mkInterval { itype : IntervalType; timestampMs : Z }.

(** [{timestampMs, speakerId}] *)
Record CaptionAudioTime := mkCaption { captionTimestampMs : Z; speakerId : string }.

Module DominantSpeakerManager.

Record t := mk {
  dominantSpeakerStreamId : option string;
  captionAudioTimes : list CaptionAudioTime;
  speechIntervalsPerParticipant : JsMap.t string (list SpeechInterval)
}.

(** The constructor. *)
Definition new : t := mk None [] JsMap.empty.

Definition with_intervals (o : JsMap.t string (list SpeechInterval)) (d : t) : t :=
  mk (dominantSpeakerStreamId d) (captionAudioTimes d) o.

(** [this.speechIntervalsPerParticipant[speakerId]], an absent list read as empty. *)
Definition intervalsOf (speaker : string) (d : t) : list SpeechInterval :=
  default [] (JsMap.get speaker (speechIntervalsPerParticipant d)).

(** The common body of [addSpeechIntervalStart] and [addSpeechIntervalEnd]:
    create the list when the key is absent (an array is always truthy), then
    push onto it. *)
Definition pushInterval (i : SpeechInterval) (speaker : string) (d : t) : t :=
  let o := speechIntervalsPerParticipant d in
  let o1 := match JsMap.get speaker o with
            | Some _ => o
            | None => JsMap.set speaker [] o
            end in
  let o2 := match JsMap.get speaker o1 with
            | Some l => JsMap.set speaker (l ++ [i]) o1
            | None => o1
            end in
  with_intervals o2 d.

Definition addSpeechIntervalStart (ts : Z) (speaker : string) (d : t) : t :=
  pushInterval (mkInterval IStart ts) speaker d.

Definition addSpeechIntervalEnd (ts : Z) (speaker : string) (d : t) : t :=
  pushInterval (mkInterval IEnd ts) speaker d.

Definition addCaptionAudioTime (ts : Z) (speaker : string) (d : t) : t :=
  mk (dominantSpeakerStreamId d)
     (captionAudioTimes d ++ [mkCaption ts speaker])
     (speechIntervalsPerParticipant d).

(** [getLastSpeakerIdForTimestampMs(timestampMs)]: the speaker of the caption
    time with the highest timestamp among those at or before [tMs];
    [reduce] without an initial value starts from the first element and the
    strict [>] keeps the earlier element on a tie. *)
Definition getLastSpeakerIdForTimestampMs (tMs : Z) (d : t) : option string :=
  let captionAudioTimesBeforeTimestampMs :=
    filter (fun c => captionTimestampMs c <= tMs) (captionAudioTimes d) in
  match captionAudioTimesBeforeTimestampMs with
  | [] => None
  | c0 :: rest =>
      Some (speakerId
              (foldl (fun max c =>
                        if decide (captionTimestampMs max < captionTimestampMs c)
                        then c else max) c0 rest))
  end.

(** The inner loop of [getSpeakerIdForTimestampMsUsingSpeechIntervals] over
    one participant's intervals; the state is [(isCurrentlySpeaking,
    timestampMsOfLastStart)] and the loop breaks at the first interval after
    [tMs]. *)
Fixpoint scanIntervals (tMs : Z) (intervals : list SpeechInterval)
    (st : bool * option Z) : bool * option Z :=
  match intervals with
  | [] => st
  | interval :: rest =>
      if decide (tMs < timestampMs interval) then st
      else match itype interval with
           | IStart => scanIntervals tMs rest (true, Some (timestampMs interval))
           | IEnd => scanIntervals tMs rest (false, st.2)
           end
  end.

(** [{speakerId, timestampMsOfLastStart}]; the timestamp is [null] until a
    start has been seen. *)
Record SpeakerAtTimestamp := mkSpeakerAt {
  atSpeakerId : string;
  timestampMsOfLastStart : option Z
}.

(** A [null] operand of [<] converts to [0]. *)
Definition toNumber (o : option Z) : Z := default 0 o.

Definition speakersAtTimestamp (tMs : Z) (d : t) : list SpeakerAtTimestamp :=
  flat_map (fun '(speaker, intervals) =>
              let '(isCurrentlySpeaking, lastStart) :=
                scanIntervals tMs intervals (false, None) in
              if isCurrentlySpeaking then [mkSpeakerAt speaker lastStart] else [])
           (JsMap.entries (speechIntervalsPerParticipant d)).

Definition getSpeakerIdForTimestampMsUsingSpeechIntervals (tMs : Z) (d : t)
    : option string :=
  let speakers := speakersAtTimestamp tMs d in
  match speakers with
  | [] => None
  | [s] => Some (atSpeakerId s)
  | s0 :: rest =>
      let tieBreaker :=
        if decide (0 < length (captionAudioTimes d))%nat then
          match getLastSpeakerIdForTimestampMs tMs d with
          | Some participantForLastCaptionAudioTime =>
              if truthy participantForLastCaptionAudioTime
                 && existsb (fun s => bool_decide
                                        (atSpeakerId s = participantForLastCaptionAudioTime))
                            speakers
              then Some participantForLastCaptionAudioTime
              else None
          | None => None
          end
        else None in
      match tieBreaker with
      | Some p => Some p
      | None =>
          Some (atSpeakerId
                  (foldl (fun min s =>
                            if decide (toNumber (timestampMsOfLastStart s)
                                       < toNumber (timestampMsOfLastStart min))
                            then s else min) s0 rest))
      end
  end.

End DominantSpeakerManager.

Inductive SpeakingState := NOT_SPEAKING | SPEAKING.

#[global] Instance SpeakingState_eq_dec : EqDecision SpeakingState.
Proof. solve_decision. Defined.

(** [{isSpeaking, timestamp}] *)
Record Sample := mkSample { isSpeaking : bool; timestamp : Z }.

Module ParticipantSpeakingStateMachine.

Record t := mk {
  participantId : string;
  state : SpeakingState;
  samples : list Sample
}.

Definition new (pid : string) : t := mk pid NOT_SPEAKING [].

(** [addSample(sample)]; the second component is the global
    [dominantSpeakerManager] the method writes to. *)
Definition addSample (sample : Sample)
    (st : t * DominantSpeakerManager.t) : t * DominantSpeakerManager.t :=
  let '(m, dsm) := st in
  let samples1 := samples m ++ [sample] in
  let samples2 := if decide (10 < length samples1)%nat then shift samples1 else samples1 in
  let lastFiveSamples := slice_last 5 samples2 in
  if decide (length lastFiveSamples < 5)%nat then
    (mk (participantId m) (state m) samples2, dsm)
  else
    let majorityOfLastFiveSamplesWereTrue :=
      bool_decide (3 < length (filter (fun s => isSpeaking s = true) lastFiveSamples))%nat in
    let previousState := state m in
    let firstOfLastFiveSamplesTimestamp :=
      match lastFiveSamples with s :: _ => timestamp s | [] => 0 end in
    let newState := if majorityOfLastFiveSamplesWereTrue then SPEAKING else NOT_SPEAKING in
    let m' := mk (participantId m) newState samples2 in
    match previousState, newState with
    | NOT_SPEAKING, SPEAKING =>
        (m', DominantSpeakerManager.addSpeechIntervalStart
               firstOfLastFiveSamplesTimestamp (participantId m) dsm)
    | SPEAKING, NOT_SPEAKING =>
        (m', DominantSpeakerManager.addSpeechIntervalEnd
               (firstOfLastFiveSamplesTimestamp - 100) (participantId m) dsm)
    | _, _ => (m', dsm)
    end.

(** Feeding a sequence of samples, oldest first. *)
Definition addSamples (ss : list Sample)
    (st : t * DominantSpeakerManager.t) : t * DominantSpeakerManager.t :=
  foldl (fun st s => addSample s st) st ss.

End ParticipantSpeakingStateMachine.

(** ** The websocket client and its wire framing *)

(** The value handed to [sendJson]; only its shape matters here. *)
Inductive Json :=
| JString (s : string)
| JNumber (n : Z)
| JObject (fields : list JsonField)
with JsonField :=
| JField (name : string) (value : Json).

(** What went out on the socket: a JSON message (type tag 1 followed by the
    text of [JSON.stringify]) or the bytes of a binary message. *)
Inductive Sent :=
| SentJson (data : Json)
| SentBytes (message : list Z).

(** Typed arrays and [DataView]: a byte is a [Z] in [0, 256). *)
Module ByteArray.

Definition is_byte (b : Z) : Prop := 0 <= b < 256.

(** [new Uint8Array(n)]: [n] zero bytes. *)
Definition create (n : nat) : list Z := replicate n 0.

(** [n] little-endian bytes of [v]; on a negative [v] this is the two's
    complement representation, on a [v] too large it wraps. *)
Fixpoint le_bytes (n : nat) (v : Z) : list Z :=
  match n with
  | O => []
  | S n' => v `mod` 256 :: le_bytes n' (v `div` 256)
  end.

(** The unsigned value of little-endian bytes. *)
Fixpoint le_value (bs : list Z) : Z :=
  match bs with
  | [] => 0
  | b :: bs' => b + 256 * le_value bs'
  end.

(** The signed (two's complement) value of [n] little-endian bytes. *)
Definition le_signed (bs : list Z) : Z :=
  let u := le_value bs in
  let m := 2 ^ (8 * Z.of_nat (length bs)) in
  if decide (u < m `div` 2) then u else u - m.

(** [array.set(src, off)]: copy [src] into the array at [off]; a
    [RangeError] ([None]) when it does not fit. *)
Definition set (src : list Z) (off : nat) (buf : list Z) : option (list Z) :=
  if decide (off + length src ≤ length buf)%nat
  then Some (take off buf ++ src ++ drop (off + length src) buf)
  else None.

Definition setUint8 (off : nat) (v : Z) := set (le_bytes 1 v) off.
Definition setInt32 (off : nat) (v : Z) := set (le_bytes 4 v) off.
Definition setBigInt64 (off : nat) (v : Z) := set (le_bytes 8 v) off.

(** [new TextEncoder().encode(s)]: strings are held as their UTF-8 bytes. *)
Definition encodeText (s : string) : list Z :=
  (fun a => Z.of_N (Ascii.N_of_ascii a)) <$> String.list_ascii_of_string s.

End ByteArray.

Module WebSocketClient.

Definition MESSAGE_TYPES_JSON : Z := 1.
Definition MESSAGE_TYPES_VIDEO : Z := 2.
Definition MESSAGE_TYPES_AUDIO : Z := 3.
Definition MESSAGE_TYPES_ENCODED_MP4_CHUNK : Z := 4.
Definition MESSAGE_TYPES_PER_PARTICIPANT_AUDIO : Z := 5.

(** [readyStateOpen] is [this.ws.readyState === originalWebSocket.OPEN]. *)
Record t := mk {
  readyStateOpen : bool;
  mediaSendingEnabled : bool;
  outbox : list Sent
}.

Definition send (m : Sent) (ws : t) : t :=
  mk (readyStateOpen ws) (mediaSendingEnabled ws) (outbox ws ++ [m]).

Definition sendJson (data : Json) (ws : t) : t :=
  if negb (readyStateOpen ws) then ws else send (SentJson data) ws.

(** The body of the [try] block of [sendPerParticipantAudio]; [audioData] is
    the byte content of [audioData.buffer]. *)
Definition perParticipantAudioMessage (participantId : string) (audioData : list Z)
    : option (list Z) :=
  let participantIdBytes := ByteArray.encodeText participantId in
  let message :=
    ByteArray.create (4 + 1 + length participantIdBytes + length audioData) in
  message ← ByteArray.setInt32 0 MESSAGE_TYPES_PER_PARTICIPANT_AUDIO message;
  message ← ByteArray.setUint8 4 (Z.of_nat (length participantIdBytes)) message;
  message ← ByteArray.set participantIdBytes 5 message;
  ByteArray.set audioData (5 + length participantIdBytes) message.

Definition sendPerParticipantAudio (participantId : string) (audioData : list Z)
    (ws : t) : t :=
  if negb (readyStateOpen ws) then ws
  else if negb (mediaSendingEnabled ws) then ws
  else match perParticipantAudioMessage participantId audioData with
       | Some message => send (SentBytes message) ws
       | None => ws
       end.

(** The body of the [try] block of [sendVideo]; [timestamp] is an integer
    ([BigInt(timestamp)] throws on any other number). *)
Definition videoMessage (timestamp : Z) (streamId : string) (width height : Z)
    (videoData : list Z) : option (list Z) :=
  let streamIdBytes := ByteArray.encodeText streamId in
  let message :=
    ByteArray.create (4 + 8 + 4 + length streamIdBytes + 4 + 4 + length videoData) in
  message ← ByteArray.setInt32 0 MESSAGE_TYPES_VIDEO message;
  message ← ByteArray.setBigInt64 4 timestamp message;
  message ← ByteArray.setInt32 12 (Z.of_nat (length streamIdBytes)) message;
  message ← ByteArray.set streamIdBytes 16 message;
  let streamIdOffset := (16 + length streamIdBytes)%nat in
  message ← ByteArray.setInt32 streamIdOffset width message;
  message ← ByteArray.setInt32 (streamIdOffset + 4) height message;
  ByteArray.set videoData (streamIdOffset + 8) message.

Definition sendVideo (timestamp : Z) (streamId : string) (width height : Z)
    (videoData : list Z) (ws : t) : t :=
  if negb (readyStateOpen ws) then ws
  else if negb (mediaSendingEnabled ws) then ws
  else match videoMessage timestamp streamId width height videoData with
       | Some message => send (SentBytes message) ws
       | None => ws
       end.

End WebSocketClient.

(** ** The virtual-to-physical stream mapping manager *)

(** The value of a session-description attribute: the text after the first
    colon, or [true] for a flag attribute without one. *)
Inductive AttrValue :=
| AFlag
| AStr (s : string).

#[global] Instance AttrValue_eq_dec : EqDecision AttrValue.
Proof. solve_decision. Defined.

(** [{displayName, id}] *)
Record Participant := mkParticipant {
  displayName : string;
  participantUuid : string
}.

(** A roster media stream as [syncVirtualStreamsFromParticipant] stores it. *)
Record VirtualStream := mkVirtualStream {
  sourceId : string;
  isScreenShare : bool;
  isWebcam : bool;
  isActive : bool;
  participant : Participant
}.

(** [{clientStreamId, serverStreamId}]: the [x-source-streamid] of a media
    section and the [msid] of its ssrc lines. *)
Record PhysicalStream := mkPhysicalStream {
  clientStreamId : AttrValue;
  serverStreamId : string
}.

(** Truthiness of [obj[key]] for an object holding strings. *)
Definition truthy_opt (o : option string) : bool :=
  match o with Some s => truthy s | None => false end.

(** [s.includes(sub)] *)
Fixpoint includes (sub s : string) : bool :=
  String.prefix sub s
  || match s with
     | EmptyString => false
     | String _ s' => includes sub s'
     end.

Module VirtualStreamToPhysicalStreamMappingManager.

Record t := mk {
  virtualStreams : JsMap.t string VirtualStream;
  physicalStreamsByClientStreamId : JsMap.t AttrValue PhysicalStream;
  physicalStreamsByServerStreamId : JsMap.t string PhysicalStream;
  physicalClientStreamIdToVirtualStreamIdMapping : gmap string string;
  virtualStreamIdToPhysicalClientStreamIdMapping : gmap string string
}.

Definition new : t := mk JsMap.empty JsMap.empty JsMap.empty ∅ ∅.

(** [virtualStreamIdToParticipant]; the argument is [null] until a dominant
    speaker has been signalled. *)
Definition virtualStreamIdToParticipant (virtualStreamId : option string) (m : t)
    : option Participant :=
  match virtualStreamId with
  | Some v => participant <$> JsMap.get v (virtualStreams m)
  | None => None
  end.

(** [dominantSpeakerManager.getDominantSpeaker()] *)
Definition getDominantSpeaker (dsm : DominantSpeakerManager.t) (m : t)
    : option Participant :=
  virtualStreamIdToParticipant (DominantSpeakerManager.dominantSpeakerStreamId dsm) m.

(** The filter of the loop in [getVirtualVideoStreamIdToSend]. *)
Definition hasPhysicalStreamAndIsNotBot (m : t) (virtualStream : VirtualStream) : bool :=
  let hasCorrespondingPhysicalStream :=
    truthy_opt (virtualStreamIdToPhysicalClientStreamIdMapping m !! sourceId virtualStream) in
  let isNotVirtualStreamForBot :=
    negb (truthy_opt (physicalClientStreamIdToVirtualStreamIdMapping m !! sourceId virtualStream)) in
  (isScreenShare virtualStream || isWebcam virtualStream)
  && isNotVirtualStreamForBot && hasCorrespondingPhysicalStream.

Definition virtualSteamsThatHavePhysicalStreams (m : t) : list VirtualStream :=
  List.filter (hasPhysicalStreamAndIsNotBot m) (JsMap.values (virtualStreams m)).

Definition getVirtualVideoStreamIdToSend (dsm : DominantSpeakerManager.t) (m : t)
    : option string :=
  let candidates := virtualSteamsThatHavePhysicalStreams m in
  match candidates with
  | [] => None
  | first :: _ =>
      match List.find (fun v => isScreenShare v && isActive v) candidates with
      | Some firstActiveScreenShareStream => Some (sourceId firstActiveScreenShareStream)
      | None =>
          let fromDominantSpeaker :=
            match getDominantSpeaker dsm m with
            | Some dominantSpeaker =>
                List.find (fun v =>
                             bool_decide (participantUuid (participant v)
                                          = participantUuid dominantSpeaker)
                             && isWebcam v && isActive v) candidates
            | None => None
            end in
          match fromDominantSpeaker with
          | Some dominantSpeakerVideoStream => Some (sourceId dominantSpeakerVideoStream)
          | None => Some (sourceId first)
          end
      end
  end.

Definition getVideoStreamIdToSend (dsm : DominantSpeakerManager.t) (m : t)
    : option string :=
  match getVirtualVideoStreamIdToSend dsm m with
  | Some virtualVideoStreamIdToSend =>
      if truthy virtualVideoStreamIdToSend then
        let physicalClientStreamId :=
          virtualStreamIdToPhysicalClientStreamIdMapping m !! virtualVideoStreamIdToSend in
        let physicalStream :=
          match physicalClientStreamId with
          | Some c => JsMap.get (AStr c) (physicalStreamsByClientStreamId m)
          | None => None
          end in
        serverStreamId <$> physicalStream
      else
        List.find (includes "Video") (JsMap.keys (physicalStreamsByServerStreamId m))
  | None =>
      List.find (includes "Video") (JsMap.keys (physicalStreamsByServerStreamId m))
  end.

Definition upsertPhysicalStreams (physicalStreams : list PhysicalStream) (m : t) : t :=
  foldl (fun m physicalStream =>
           mk (virtualStreams m)
              (JsMap.set (clientStreamId physicalStream) physicalStream
                         (physicalStreamsByClientStreamId m))
              (JsMap.set (serverStreamId physicalStream) physicalStream
                         (physicalStreamsByServerStreamId m))
              (physicalClientStreamIdToVirtualStreamIdMapping m)
              (virtualStreamIdToPhysicalClientStreamIdMapping m))
        m physicalStreams.

(** [upsertVirtualStream]; [sourceId] is already the [toString()] of the
    roster's value. *)
Definition upsertVirtualStream (virtualStream : VirtualStream) (m : t) : t :=
  mk (JsMap.set (sourceId virtualStream) virtualStream (virtualStreams m))
     (physicalStreamsByClientStreamId m)
     (physicalStreamsByServerStreamId m)
     (physicalClientStreamIdToVirtualStreamIdMapping m)
     (virtualStreamIdToPhysicalClientStreamIdMapping m).

(** [upsertPhysicalClientStreamIdToVirtualStreamIdMapping]; both arguments
    are the [toString()] of the caller's values. *)
Definition upsertPhysicalClientStreamIdToVirtualStreamIdMapping
    (physicalClientStreamIdString virtualStreamIdString : string) (m : t) : t :=
  let forward := physicalClientStreamIdToVirtualStreamIdMapping m in
  let inverse := virtualStreamIdToPhysicalClientStreamIdMapping m in
  if decide (virtualStreamIdString = "-1") then
    let virtualStreamIdToDelete := forward !! physicalClientStreamIdString in
    let inverse' :=
      match virtualStreamIdToDelete with
      | Some v => if truthy v then delete v inverse else inverse
      | None => inverse
      end in
    mk (virtualStreams m) (physicalStreamsByClientStreamId m)
       (physicalStreamsByServerStreamId m)
       (delete physicalClientStreamIdString forward) inverse'
  else
    mk (virtualStreams m) (physicalStreamsByClientStreamId m)
       (physicalStreamsByServerStreamId m)
       (<[physicalClientStreamIdString := virtualStreamIdString]> forward)
       (<[virtualStreamIdString := physicalClientStreamIdString]> inverse).

End VirtualStreamToPhysicalStreamMappingManager.

(** ** Session descriptions *)

(** String methods used by the parser. *)
Module JsString.

Definition CRLF : string :=
  String (Ascii.ascii_of_nat 13) (String (Ascii.ascii_of_nat 10) EmptyString).

(** [s.startsWith(p)] *)
Definition startsWith (p s : string) : bool := String.prefix p s.

(** [s.substr(n)] / [s.substring(n)]: drop the first [n] characters. *)
Fixpoint substr (n : nat) (s : string) : string :=
  match n, s with
  | O, _ => s
  | S n', String _ s' => substr n' s'
  | S _, EmptyString => EmptyString
  end.

Fixpoint firstChars (n : nat) (s : string) : string :=
  match n, s with
  | S n', String c s' => String c (firstChars n' s')
  | _, _ => EmptyString
  end.

(** [s.substring(a, b)] for [a <= b]. *)
Definition substring (a b : nat) (s : string) : string :=
  firstChars (b - a) (substr a s).

(** [s.indexOf(c)] for a one-character [c]; [None] is [-1]. *)
Fixpoint indexOf (c : Ascii.ascii) (s : string) : option nat :=
  match s with
  | EmptyString => None
  | String c' s' => if decide (c = c') then Some O else S <$> indexOf c s'
  end.

(** [s.split(sep)] for a non-empty separator: [skip] counts the characters of
    a separator still to be passed over, [cur] is the piece being read. *)
Fixpoint split_go (sep s : string) (skip : nat) (cur : string) : list string :=
  match s with
  | EmptyString => [cur]
  | String c s' =>
      match skip with
      | S k => split_go sep s' k cur
      | O =>
          if String.prefix sep s
          then cur :: split_go sep s' (String.length sep - 1) EmptyString
          else split_go sep s' 0 (cur +:+ String c EmptyString)
      end
  end.

Definition split (sep s : string) : list string := split_go sep s 0 EmptyString.

End JsString.

(** [[...new Set(xs)]]: the distinct elements in order of first occurrence. *)
Fixpoint distinct {A} `{EqDecision A} (seen xs : list A) : list A :=
  match xs with
  | [] => []
  | x :: xs' =>
      if decide (x ∈ seen) then distinct seen xs' else x :: distinct (x :: seen) xs'
  end.

Module Sdp.

(** One [m=] section as [parseSDP] builds it. *)
Record MediaEntry := mkMedia {
  mediaType : string;
  description : string;
  attributes : gmap string (list AttrValue);
  connection : option string;
  bandwidth : option string
}.

Record Parsed := mkParsed {
  media : list MediaEntry;
  sessionAttributes : gmap string (list AttrValue);
  version : option string;
  origin : option string;
  session : option string;
  sessionConnection : option string;
  timing : option string;
  sessionBandwidth : option string
}.

Definition emptyParsed : Parsed :=
  mkParsed [] ∅ None None None None None None.

(** [attrs[key].push(value)], creating the array first when the key is absent. *)
Definition pushAttribute (key : string) (value : AttrValue)
    (attrs : gmap string (list AttrValue)) : gmap string (list AttrValue) :=
  <[key := default [] (attrs !! key) ++ [value]]> attrs.

(** [currentMedia] is the entry pushed last; attribute lines mutate it in
    place. *)
Fixpoint updateCurrentMedia (f : MediaEntry → MediaEntry) (l : list MediaEntry)
    : list MediaEntry :=
  match l with
  | [] => []
  | [x] => [f x]
  | x :: l' => x :: updateCurrentMedia f l'
  end.

(** The key and value of an [a=] line. *)
Definition attributeOfLine (line : string) : string * AttrValue :=
  match JsString.indexOf ":"%char line with
  | None => (JsString.substr 2 line, AFlag)
  | Some colonIndex =>
      (JsString.substring 2 colonIndex line,
       AStr (JsString.substr (colonIndex + 1) line))
  end.

(** The body of the loop over the lines.  The two last branches of the source
    ([c=] and [b=] inside a media section) come after the session-level
    branches for the same prefixes and are never taken. *)
Definition parseLine (parsed : Parsed) (line : string) : Parsed :=
  let 'mkParsed md attrs v o s c t b := parsed in
  if JsString.startsWith "v=" line then
    mkParsed md attrs (Some (JsString.substr 2 line)) o s c t b
  else if JsString.startsWith "o=" line then
    mkParsed md attrs v (Some (JsString.substr 2 line)) s c t b
  else if JsString.startsWith "s=" line then
    mkParsed md attrs v o (Some (JsString.substr 2 line)) c t b
  else if JsString.startsWith "c=" line then
    mkParsed md attrs v o s (Some (JsString.substr 2 line)) t b
  else if JsString.startsWith "t=" line then
    mkParsed md attrs v o s c (Some (JsString.substr 2 line)) b
  else if JsString.startsWith "b=" line then
    mkParsed md attrs v o s c t (Some (JsString.substr 2 line))
  else if JsString.startsWith "m=" line then
    let currentMedia :=
      mkMedia (JsString.substr 2 (default EmptyString (head (JsString.split " " line))))
              line ∅ None None in
    mkParsed (md ++ [currentMedia]) attrs v o s c t b
  else if JsString.startsWith "a=" line then
    let '(key, value) := attributeOfLine line in
    match md with
    | [] => mkParsed md (pushAttribute key value attrs) v o s c t b
    | _ =>
        mkParsed (updateCurrentMedia
                    (fun cm => mkMedia (mediaType cm) (description cm)
                                       (pushAttribute key value (attributes cm))
                                       (connection cm) (bandwidth cm)) md)
                 attrs v o s c t b
    end
  else parsed.

Definition parseSDP (sdp : string) : Parsed :=
  foldl parseLine emptyParsed (JsString.split JsString.CRLF sdp).

Definition truthyAttr (v : AttrValue) : bool :=
  match v with AFlag => true | AStr s => truthy s end.

(** [extractMSID(rawSSRCEntry)]; the outer [None] is the [TypeError] of calling
    [split] on the flag value [true], the inner one is [null]. *)
Definition extractMSID (rawSSRCEntry : AttrValue) : option (option string) :=
  match rawSSRCEntry with
  | AFlag => None
  | AStr raw =>
      if negb (truthy raw) then Some None
      else
        Some (match List.find (JsString.startsWith "msid:") (JsString.split " " raw) with
              | Some part => head (JsString.split " " (JsString.substr 5 part))
              | None => None
              end)
  end.

(** The body of the loop of [extractStreamIdToSSRCMappingFromSDP] for one
    media entry: the records it pushes. *)
Definition mappingOfMediaEntry (sdpMediaEntry : MediaEntry)
    : option (list PhysicalStream) :=
  let sdpMediaEntrySSRCNumbersRaw := default [] (attributes sdpMediaEntry !! "ssrc") in
  msids ← mapM extractMSID sdpMediaEntrySSRCNumbersRaw;
  let sdpMediaEntrySSRCNumbers := distinct [] msids in
  let streamIds := default [] (attributes sdpMediaEntry !! "x-source-streamid") in
  let streamId := head streamIds in
  Some (omap (fun ssrc =>
                match ssrc, streamId with
                | Some msid, Some sid =>
                    if truthy msid && truthyAttr sid
                    then Some (mkPhysicalStream sid msid) else None
                | _, _ => None
                end)
             sdpMediaEntrySSRCNumbers).

Definition extractStreamIdToSSRCMappingFromSDP (sdp : string)
    : option (list PhysicalStream) :=
  (fun pushed => mjoin pushed) <$> mapM mappingOfMediaEntry (media (parseSDP sdp)).

(** The wrapper installed over [setRemoteDescription]: extract the mapping
    and upsert it; nothing is upserted when the extraction throws. *)
Definition setRemoteDescription (sdp : string)
    (m : VirtualStreamToPhysicalStreamMappingManager.t)
    : VirtualStreamToPhysicalStreamMappingManager.t :=
  match extractStreamIdToSSRCMappingFromSDP sdp with
  | Some mapping =>
      VirtualStreamToPhysicalStreamMappingManager.upsertPhysicalStreams mapping m
  | None => m
  end.

End Sdp.

(** ** The per-participant audio pipeline ([handleAudioTrack]) *)

Module AudioPipeline.

Definition ACTIVE_SPEAKER_LATENCY_MS : Z := 2000.

(** [value !== 0] on a sample. *)
Definition isNonZero (value : float) : bool := negb (PrimFloat.eqb value 0%float).

(** [audioData.some(value => value !== 0)] *)
Definition someNonZero (audioData : list float) : bool := existsb isNonZero audioData.

(** [currentFormat]; [numberOfChannels] is the constant 1 and is left out. *)
Record AudioFormat := mkFormat {
  originalNumberOfChannels : Z;
  numberOfFrames : Z;
  sampleRate : Z;
  format : string;
  duration : Z
}.

#[global] Instance AudioFormat_eq_dec : EqDecision AudioFormat.
Proof. solve_decision. Defined.

(** A frame handed to [transform]: its format and [audioData], the mono copy
    of its samples that the transform computes first (the plane itself for a
    mono frame, the average of the planes otherwise); [controllerActive] is
    [controller.desiredSize !== null]. *)
Record AudioFrame := mkFrame {
  frameFormat : AudioFormat;
  frameAudioData : list float;
  controllerActive : bool
}.

(** [{audioArrivalTime, audioData}] *)
Record QueuedAudio := mkQueued {
  audioArrivalTime : Z;
  audioData : list float
}.

Record DebugInfo := mkDebug {
  framesWithoutDominantSpeaker : Z;
  framesWithDominantSpeaker : Z;
  totalFrames : Z
}.

Definition zeroDebugInfo : DebugInfo := mkDebug 0 0 0.

(** A chunk that left the queue: the clock reading of the loop condition that
    admitted it and the speaker it was attributed to.  This record is kept
    for the statements about timing; the code has no such list. *)
Record Dequeued := mkDequeued {
  admittedAt : Z;
  chunk : QueuedAudio;
  attributedTo : option string
}.

(** The variables one call of [handleAudioTrack] closes over. *)
Record Track := mkTrack {
  trackId : string;
  lastAudioFormat : option AudioFormat;
  audioDataQueue : list QueuedAudio;
  trackIsNonSilent : bool;
  handleAudioTrackDebugInfo : DebugInfo;
  timeSinceLastDebugInfoSend : Z;
  queueProcessingInterval : nat;
  dequeued : list Dequeued
}.

(** The globals the pipeline touches.  [tick] counts the calls of
    [Date.now()] so far, [nextTimerId] the timers created, [clearedIntervals]
    the timers [clearInterval] was called on, [receiverMap] is the map of
    [ReceiverManager]. *)
Record World := mkWorld {
  tick : nat;
  ws : WebSocketClient.t;
  dominantSpeakerManager : DominantSpeakerManager.t;
  globalAudioQueueIntervalsSet : gset nat;
  nextTimerId : nat;
  clearedIntervals : gset nat;
  receiverMap : JsMap.t string bool
}.

Definition withWs (s : WebSocketClient.t) (w : World) : World :=
  mkWorld (tick w) s (dominantSpeakerManager w) (globalAudioQueueIntervalsSet w)
          (nextTimerId w) (clearedIntervals w) (receiverMap w).

Definition jsonMessage (type : string) (fields : list JsonField) : Json :=
  JObject (JField "type" (JString type) :: fields).

Definition trackMessage (type : string) (id : string) : Json :=
  jsonMessage type [JField "trackId" (JString id)].

Definition debugInfoJson (d : DebugInfo) : Json :=
  JObject [JField "framesWithoutDominantSpeaker" (JNumber (framesWithoutDominantSpeaker d));
           JField "framesWithDominantSpeaker" (JNumber (framesWithDominantSpeaker d));
           JField "totalFrames" (JNumber (totalFrames d))].

Definition formatJson (f : AudioFormat) : Json :=
  JObject [JField "numberOfChannels" (JNumber 1);
           JField "originalNumberOfChannels" (JNumber (originalNumberOfChannels f));
           JField "numberOfFrames" (JNumber (numberOfFrames f));
           JField "sampleRate" (JNumber (sampleRate f));
           JField "format" (JString (format f));
           JField "duration" (JNumber (duration f))].

Section pipeline.

(** [Date.now()]: the reading of the [n]-th call. *)
Variable clock : nat → Z.

(** The bytes of [audioData.buffer] for a [Float32Array] of samples. *)
Variable bufferBytes : list float → list Z.

(** [ReceiverManager.addReceiver(receiver)]; the receiver is named by its
    track id. *)
Definition addReceiver (receiver : string) (w : World) : World :=
  if negb (truthy receiver) || bool_decide (is_Some (JsMap.get receiver (receiverMap w)))
  then w
  else
    let s := WebSocketClient.sendJson
               (jsonMessage "ReceiverManagerUpdate"
                  [JField "update" (JString "addReceiver");
                   JField "receiverTrackId" (JString receiver)]) (ws w) in
    mkWorld (tick w) s (dominantSpeakerManager w) (globalAudioQueueIntervalsSet w)
            (nextTimerId w) (clearedIntervals w)
            (JsMap.set receiver false (receiverMap w)).

(** The synchronous part of [handleAudioTrack(event)]: the closure variables,
    the registration of the receiver, the 100ms timer and the diagnostic for
    a second queue. *)
Definition handleAudioTrack (id receiver : string) (w : World) : Track * World :=
  let w := addReceiver receiver w in
  let queueProcessingInterval := nextTimerId w in
  let intervals := {[queueProcessingInterval]} ∪ globalAudioQueueIntervalsSet w in
  let s := if decide (1 < size intervals)%nat
           then WebSocketClient.sendJson (trackMessage "MultipleAudioQueuesDetected" id) (ws w)
           else ws w in
  (mkTrack id None [] false zeroDebugInfo 0 queueProcessingInterval [],
   mkWorld (tick w) s (dominantSpeakerManager w) intervals
           (S (nextTimerId w)) (clearedIntervals w) (receiverMap w)).

(** The body of the [while] loop of [processAudioQueue] for the chunk just
    shifted off the queue. *)
Definition processChunk (queued : QueuedAudio) (dsm : DominantSpeakerManager.t)
    (st : WebSocketClient.t * DebugInfo) : WebSocketClient.t * DebugInfo * option string :=
  let '(s, d) := st in
  let dominantSpeakerId :=
    DominantSpeakerManager.getSpeakerIdForTimestampMsUsingSpeechIntervals
      (audioArrivalTime queued) dsm in
  let total := totalFrames d + 1 in
  match dominantSpeakerId with
  | Some speaker =>
      if truthy speaker then
        (WebSocketClient.sendPerParticipantAudio speaker (bufferBytes (audioData queued)) s,
         mkDebug (framesWithoutDominantSpeaker d) (framesWithDominantSpeaker d + 1) total,
         Some speaker)
      else
        (s, mkDebug (framesWithoutDominantSpeaker d + 1) (framesWithDominantSpeaker d) total,
         None)
  | None =>
      (s, mkDebug (framesWithoutDominantSpeaker d + 1) (framesWithDominantSpeaker d) total,
       None)
  end.

(** The [while] loop: each evaluation of the condition on a non-empty queue
    reads the clock once. *)
Fixpoint drainLoop (dsm : DominantSpeakerManager.t) (queue : list QueuedAudio)
    (n : nat) (st : WebSocketClient.t * DebugInfo) (log : list Dequeued)
    : list QueuedAudio * nat * (WebSocketClient.t * DebugInfo) * list Dequeued :=
  match queue with
  | [] => (queue, n, st, log)
  | queued :: rest =>
      let now := clock n in
      if decide (ACTIVE_SPEAKER_LATENCY_MS <= now - audioArrivalTime queued) then
        let '(s, d, speaker) := processChunk queued dsm st in
        drainLoop dsm rest (S n) (s, d) (log ++ [mkDequeued now queued speaker])
      else (queue, S n, st, log)
  end.

(** [processAudioQueue()], the callback of the 100ms timer. *)
Definition processAudioQueue (t : Track) (w : World) : Track * World :=
  let '(queue, n, (s, d), log) :=
    drainLoop (dominantSpeakerManager w) (audioDataQueue t) (tick w)
              (ws w, handleAudioTrackDebugInfo t) (dequeued t) in
  let now := clock n in
  if decide (10000 <= now - timeSinceLastDebugInfoSend t) then
    let s := WebSocketClient.sendJson
               (jsonMessage "HandleAudioTrackDebugInfo"
                  [JField "trackId" (JString (trackId t));
                   JField "debugInfo" (debugInfoJson d)]) s in
    (mkTrack (trackId t) (lastAudioFormat t) queue (trackIsNonSilent t)
             zeroDebugInfo (clock (S n)) (queueProcessingInterval t) log,
     mkWorld (S (S n)) s (dominantSpeakerManager w) (globalAudioQueueIntervalsSet w)
             (nextTimerId w) (clearedIntervals w) (receiverMap w))
  else
    (mkTrack (trackId t) (lastAudioFormat t) queue (trackIsNonSilent t)
             d (timeSinceLastDebugInfoSend t) (queueProcessingInterval t) log,
     mkWorld (S n) s (dominantSpeakerManager w) (globalAudioQueueIntervalsSet w)
             (nextTimerId w) (clearedIntervals w) (receiverMap w)).

(** [transform(frame, controller)] of the track's [TransformStream]. *)
Definition transform (frame : AudioFrame) (t : Track) (w : World) : Track * World :=
  if negb (controllerActive frame) then (t, w)
  else
    let data := frameAudioData frame in
    let currentFormat := frameFormat frame in
    let formatChanged :=
      match lastAudioFormat t with
      | None => true
      | Some f => negb (bool_decide (currentFormat = f))
      end in
    let s := if formatChanged
             then WebSocketClient.sendJson
                    (jsonMessage "AudioFormatUpdate" [JField "format" (formatJson currentFormat)])
                    (ws w)
             else ws w in
    let lastFormat := if formatChanged then Some currentFormat else lastAudioFormat t in
    let becomesNonSilent := negb (trackIsNonSilent t) && someNonZero data in
    let s := if becomesNonSilent
             then WebSocketClient.sendJson (trackMessage "WebRTCTrackIsNonSilent" (trackId t)) s
             else s in
    let nonSilent := if becomesNonSilent then true else trackIsNonSilent t in
    if negb nonSilent then
      (mkTrack (trackId t) lastFormat (audioDataQueue t) nonSilent
               (handleAudioTrackDebugInfo t) (timeSinceLastDebugInfoSend t)
               (queueProcessingInterval t) (dequeued t),
       withWs s w)
    else if bool_decide (1 < size (globalAudioQueueIntervalsSet w))%nat
            && negb (someNonZero data) then
      (mkTrack (trackId t) lastFormat (audioDataQueue t) nonSilent
               (handleAudioTrackDebugInfo t) (timeSinceLastDebugInfoSend t)
               (queueProcessingInterval t) (dequeued t),
       withWs s w)
    else
      (mkTrack (trackId t) lastFormat
               (audioDataQueue t ++ [mkQueued (clock (tick w)) data]) nonSilent
               (handleAudioTrackDebugInfo t) (timeSinceLastDebugInfoSend t)
               (queueProcessingInterval t) (dequeued t),
       mkWorld (S (tick w)) s (dominantSpeakerManager w) (globalAudioQueueIntervalsSet w)
               (nextTimerId w) (clearedIntervals w) (receiverMap w)).

(** The listener of the track's [ended] event: [clearInterval] and a
    notification.  The timer's id stays in [globalAudioQueueIntervalsSet]. *)
Definition trackEnded (t : Track) (w : World) : World :=
  mkWorld (tick w)
          (WebSocketClient.sendJson (trackMessage "AudioTrackEnded" (trackId t)) (ws w))
          (dominantSpeakerManager w) (globalAudioQueueIntervalsSet w) (nextTimerId w)
          ({[queueProcessingInterval t]} ∪ clearedIntervals w) (receiverMap w).

End pipeline.
End AudioPipeline.

(** ** The bot output manager: the queue of synthesized audio ([BotOutputManager]) *)

Module BotOutputManager.

(** The numbers of this class (the audio clock in seconds, durations, sample
    rates, timer delays) are IEEE doubles.  [!x] holds of a number that is
    [0], [-0] or [NaN]. *)
Definition isNaN (x : float) : bool := negb (PrimFloat.eqb x x).

Definition falsy (x : float) : bool := PrimFloat.eqb x 0 || isNaN x.

(** The test [!this.nextPlayTime || this.nextPlayTime < currentTime]. *)
Definition unsetOrBehind (nextPlayTime currentTime : float) : bool :=
  falsy nextPlayTime || PrimFloat.ltb nextPlayTime currentTime.

(** [Math.max(0, x)]. *)
Definition max0 (x : float) : float :=
  if isNaN x then x else if PrimFloat.ltb 0 x then x else 0%float.

(** [array.length] as a number. *)
Definition lengthOf {A} (l : list A) : float :=
  PrimFloat.of_uint63 (Uint63.of_Z (Z.of_nat (length l))).

(** A store into a [Float32Array]: the double is rounded to single precision
    (to nearest, ties to even). *)
Definition fround (x : float) : float :=
  match Prim2SF x with
  | S754_finite s m e => SF2Prim (binary_round 24 128 s m e)
  | _ => x
  end.

(** The argument of [playPCMAudio]: a [Float32Array], or another array of
    numbers (an [Int16Array], a plain array). *)
Inductive PcmData :=
| Float32Array (samples : list float)
| NumberArray (samples : list float).

(** An entry of [audioQueue]. *)
Record Chunk := mkChunk { data : list float; duration : float }.

(** The two kinds of [setTimeout] calls of the class, with their delay in
    milliseconds. *)
Inductive Timeout :=
| ProcessQueueAfter (ms : float)
| TurnOffMicAfter (ms : float).

Inductive MicCallback := TurnOnMic | TurnOffMic.

(** A call [source.start(when)] on a buffer source filled from [chunk]. *)
Record Started := mkStarted { when : float; chunk : Chunk }.

(** The fields of the manager that the audio queue uses, and a record of what
    it asked of the page: the timers set (a timer's id is its position in
    [timeouts], counted from one), the timers cleared, the microphone
    callbacks called and the sources started. *)
Record t := mk {
  sourceAudioTrack : bool;
  audioQueue : list Chunk;
  isPlayingAudioQueue : bool;
  nextPlayTime : float;
  sampleRate : float;
  numChannels : float;
  turnOffMicTimeout : option nat;
  timeouts : list Timeout;
  clearedTimeouts : list nat;
  micCallbacks : list MicCallback;
  started : list Started
}.

(** The state the constructor leaves. *)
Definition new : t :=
  mk false [] false 0%float 44100%float 1%float None [] [] [] [].

Definition setTimeout (tm : Timeout) (m : t) : nat * t :=
  (S (length (timeouts m)),
   mk (sourceAudioTrack m) (audioQueue m) (isPlayingAudioQueue m) (nextPlayTime m)
      (sampleRate m) (numChannels m) (turnOffMicTimeout m)
      (timeouts m ++ [tm]) (clearedTimeouts m) (micCallbacks m) (started m)).

Definition clearTimeout (id : nat) (m : t) : t :=
  mk (sourceAudioTrack m) (audioQueue m) (isPlayingAudioQueue m) (nextPlayTime m)
     (sampleRate m) (numChannels m) (turnOffMicTimeout m)
     (timeouts m) (clearedTimeouts m ++ [id]) (micCallbacks m) (started m).

Definition withTurnOffMicTimeout (tm : option nat) (m : t) : t :=
  mk (sourceAudioTrack m) (audioQueue m) (isPlayingAudioQueue m) (nextPlayTime m)
     (sampleRate m) (numChannels m) tm
     (timeouts m) (clearedTimeouts m) (micCallbacks m) (started m).

Definition callMic (c : MicCallback) (m : t) : t :=
  mk (sourceAudioTrack m) (audioQueue m) (isPlayingAudioQueue m) (nextPlayTime m)
     (sampleRate m) (numChannels m) (turnOffMicTimeout m)
     (timeouts m) (clearedTimeouts m) (micCallbacks m ++ [c]) (started m).

(** [_createSourceAudioTrack]: the audio context and the source track are
    created on first use. *)
Definition _createSourceAudioTrack (m : t) : t :=
  if sourceAudioTrack m then m
  else mk true (audioQueue m) (isPlayingAudioQueue m) (nextPlayTime m)
          (sampleRate m) (numChannels m) (turnOffMicTimeout m)
          (timeouts m) (clearedTimeouts m) (micCallbacks m) (started m).

Definition ensureMicOn (m : t) : t := callMic TurnOnMic m.

Definition disableMic (m : t) : t := callMic TurnOffMic m.

Section audio_context.

(** Whether [audioContext.createBuffer(numberOfChannels, length, sampleRate)]
    returns a buffer; it throws on arguments the context does not support (no
    channel, no frame, a sample rate out of its range). *)
Variable createBuffer : float → float → float → bool.

(** [_processAudioQueue], run while [audioContext.currentTime] is
    [currentTime].  When [createBuffer] throws, the call ends there: the head
    chunk is gone, nothing is started and no timer is set. *)
Definition _processAudioQueue (currentTime : float) (m : t) : t :=
  match audioQueue m with
  | [] =>
      let m1 :=
        mk (sourceAudioTrack m) [] false (nextPlayTime m)
           (sampleRate m) (numChannels m) (turnOffMicTimeout m)
           (timeouts m) (clearedTimeouts m) (micCallbacks m) (started m) in
      let m2 :=
        match turnOffMicTimeout m1 with
        | Some id => clearTimeout id m1
        | None => m1
        end in
      let '(id, m3) := setTimeout (TurnOffMicAfter 2000) m2 in
      withTurnOffMicTimeout (Some id) m3
  | head :: rest =>
      let anchor :=
        if unsetOrBehind (nextPlayTime m) currentTime
        then currentTime else nextPlayTime m in
      let frames := (lengthOf (data head) / numChannels m)%float in
      if createBuffer (numChannels m) frames (sampleRate m) then
        let next := (anchor + duration head)%float in
        let timeUntilNextProcessMs := ((next - currentTime) * 1000 * 0.8)%float in
        mk (sourceAudioTrack m) rest true next
           (sampleRate m) (numChannels m) (turnOffMicTimeout m)
           (timeouts m ++ [ProcessQueueAfter (max0 timeUntilNextProcessMs)])
           (clearedTimeouts m) (micCallbacks m)
           (started m ++ [mkStarted anchor head])
      else
        mk (sourceAudioTrack m) rest true anchor
           (sampleRate m) (numChannels m) (turnOffMicTimeout m)
           (timeouts m) (clearedTimeouts m) (micCallbacks m) (started m)
  end.

(** The samples [playPCMAudio] enqueues: a [Float32Array] as it is, any other
    array scaled by 1/32768 into a new [Float32Array]. *)
Definition toFloat32 (pcmData : PcmData) : list float :=
  match pcmData with
  | Float32Array samples => samples
  | NumberArray samples => (fun v => fround (v / 32768)%float) <$> samples
  end.

(** The settings are replaced when the call gives other ones ([!==]). *)
Definition updateSettings (sampleRate' numChannels' : float) (m : t) : t :=
  if negb (PrimFloat.eqb (sampleRate m) sampleRate')
     || negb (PrimFloat.eqb (numChannels m) numChannels')
  then mk (sourceAudioTrack m) (audioQueue m) (isPlayingAudioQueue m) (nextPlayTime m)
          sampleRate' numChannels' (turnOffMicTimeout m)
          (timeouts m) (clearedTimeouts m) (micCallbacks m) (started m)
  else m.

(** [this.audioQueue.push(chunk)]. *)
Definition pushChunk (c : Chunk) (m : t) : t :=
  mk (sourceAudioTrack m) (audioQueue m ++ [c]) (isPlayingAudioQueue m) (nextPlayTime m)
     (sampleRate m) (numChannels m) (turnOffMicTimeout m)
     (timeouts m) (clearedTimeouts m) (micCallbacks m) (started m).

(** A pending microphone timer is cleared: new audio is coming. *)
Definition cancelTurnOffMic (m : t) : t :=
  match turnOffMicTimeout m with
  | Some id => withTurnOffMicTimeout None (clearTimeout id m)
  | None => m
  end.

(** [playPCMAudio(pcmData, sampleRate, numChannels)], called while the audio
    clock reads [currentTime]. *)
Definition playPCMAudio (pcmData : PcmData) (sampleRate' numChannels' : float)
    (currentTime : float) (m : t) : t :=
  let m := ensureMicOn (_createSourceAudioTrack m) in
  let m := updateSettings sampleRate' numChannels' m in
  let audioData := toFloat32 pcmData in
  let duration := (lengthOf audioData / (numChannels' * sampleRate'))%float in
  let m := cancelTurnOffMic (pushChunk (mkChunk audioData duration) m) in
  if isPlayingAudioQueue m then m else _processAudioQueue currentTime m.

(** The callback of the microphone timer [id], if the timer was not cleared. *)
Definition turnOffMicTimeoutFired (id : nat) (m : t) : t :=
  if bool_decide (id ∈ clearedTimeouts m) then m
  else match audioQueue m with
       | [] => disableMic m
       | _ => m
       end.

End audio_context.

End BotOutputManager.

(** ** The websocket client: the other senders and the receiver *)

Module WebSocketFrames.

Import WebSocketClient.

(** The bytes [sendJson] puts on the socket for the text [jsonBytes] (the
    UTF-8 bytes of [JSON.stringify(data)]): the body of its [try] block. *)
Definition jsonMessage (jsonBytes : list Z) : option (list Z) :=
  let message := ByteArray.create (4 + length jsonBytes) in
  message ← ByteArray.setInt32 0 MESSAGE_TYPES_JSON message;
  ByteArray.set jsonBytes 4 message.

(** [sendClosedCaptionUpdate(item)] *)
Definition sendClosedCaptionUpdate (item : Json) (ws : t) : t :=
  if negb (mediaSendingEnabled ws) then ws
  else sendJson (JObject [JField "type" (JString "CaptionUpdate");
                          JField "caption" item]) ws.

(** The body of the [try] block of [sendMixedAudio]. *)
Definition mixedAudioMessage (audioData : list Z) : option (list Z) :=
  let message := ByteArray.create (4 + length audioData) in
  message ← ByteArray.setInt32 0 MESSAGE_TYPES_AUDIO message;
  ByteArray.set audioData 4 message.

(** [sendMixedAudio(timestamp, audioData)]; the timestamp is not used. *)
Definition sendMixedAudio (timestamp : Z) (audioData : list Z) (ws : t) : t :=
  if negb (readyStateOpen ws) then ws
  else if negb (mediaSendingEnabled ws) then ws
  else match mixedAudioMessage audioData with
       | Some message => send (SentBytes message) ws
       | None => ws
       end.

(** The body of the [try] block of [sendAudio]; [timestamp] is an integer
    ([BigInt(timestamp)] throws on any other number) and so is [streamId],
    which [setInt32] takes modulo [2^32]. *)
Definition audioMessage (timestamp streamId : Z) (audioData : list Z)
    : option (list Z) :=
  let message := ByteArray.create (4 + 8 + 4 + length audioData) in
  message ← ByteArray.setInt32 0 MESSAGE_TYPES_AUDIO message;
  message ← ByteArray.setBigInt64 4 timestamp message;
  message ← ByteArray.setInt32 12 streamId message;
  ByteArray.set audioData 16 message.

Definition sendAudio (timestamp streamId : Z) (audioData : list Z) (ws : t) : t :=
  if negb (readyStateOpen ws) then ws
  else if negb (mediaSendingEnabled ws) then ws
  else match audioMessage timestamp streamId audioData with
       | Some message => send (SentBytes message) ws
       | None => ws
       end.

(** What [handleMessage] makes of a message from the server: the text it
    hands to [JSON.parse] (as UTF-8 bytes), or the type it does not know. *)
Inductive Received :=
| ReceivedJson (jsonBytes : list Z)
| UnknownMessageType (messageType : Z).

(** [view.getInt32(byteOffset, true)]: a [RangeError] when four bytes are not
    there. *)
Definition getInt32 (byteOffset : nat) (data : list Z) : option Z :=
  if decide (byteOffset + 4 ≤ length data)%nat
  then Some (ByteArray.le_signed (take 4 (drop byteOffset data)))
  else None.

(** [handleMessage(data)] *)
Definition handleMessage (data : list Z) : option Received :=
  messageType ← getInt32 0 data;
  if decide (messageType = MESSAGE_TYPES_JSON)
  then Some (ReceivedJson (drop 4 data))
  else Some (UnknownMessageType messageType).

End WebSocketFrames.

(** ** The roster, the source requests and the rest of the mapping manager *)

Module StreamMapping.

Import VirtualStreamToPhysicalStreamMappingManager.

Definition withVirtualStreams (vs : JsMap.t string VirtualStream) (m : t) : t :=
  mk vs (physicalStreamsByClientStreamId m) (physicalStreamsByServerStreamId m)
     (physicalClientStreamIdToVirtualStreamIdMapping m)
     (virtualStreamIdToPhysicalClientStreamIdMapping m).

(** [removeVirtualStreamsForParticipant(participantId)]: the streams of the
    participant are collected first, then deleted one by one by their
    [sourceId]. *)
Definition removeVirtualStreamsForParticipant (participantId : string) (m : t) : t :=
  let virtualStreamsToRemove :=
    List.filter (fun virtualStream =>
                   bool_decide (participantUuid (participant virtualStream) = participantId))
                (JsMap.values (virtualStreams m)) in
  foldl (fun m virtualStream =>
           withVirtualStreams (JsMap.delete (sourceId virtualStream) (virtualStreams m)) m)
        m virtualStreamsToRemove.

(** An attribute value used as a property key: [true] becomes ["true"]. *)
Definition propertyKey (v : AttrValue) : string :=
  match v with AFlag => "true" | AStr s => s end.

(** [physicalServerStreamIdToParticipant(physicalServerStreamId)]; [None] is
    [null]. *)
Definition physicalServerStreamIdToParticipant (physicalServerStreamId : string) (m : t)
    : option Participant :=
  match JsMap.get physicalServerStreamId (physicalStreamsByServerStreamId m) with
  | None => None
  | Some physicalStream =>
      let physicalClientStreamId := clientStreamId physicalStream in
      if negb (Sdp.truthyAttr physicalClientStreamId) then None
      else
        match physicalClientStreamIdToVirtualStreamIdMapping m
              !! propertyKey physicalClientStreamId with
        | None => None
        | Some virtualStreamId =>
            if negb (truthy virtualStreamId) then None
            else participant <$> JsMap.get virtualStreamId (virtualStreams m)
        end
  end.

(** A media stream of a roster endpoint; [mediaSourceId] is the [toString()]
    of its [sourceId], and a missing [type] or [direction] is a string that
    equals none of the compared ones. *)
Record MediaStream := mkMediaStream {
  mediaSourceId : string;
  mediaType : string;
  direction : string
}.

(** A participant of a roster update, as the callers pass it: with its
    [details].  [endpoints] holds the values of the [endpoints] object in
    enumeration order, each the [mediaStreams] array of its call, when the
    endpoint has a call with such an array. *)
Record RosterParticipant := mkRosterParticipant {
  state : string;
  details : Participant;
  endpoints : option (list (option (list MediaStream)))
}.

(** The [mediaStreams] array the function collects. *)
Definition collectMediaStreams (p : RosterParticipant) : list MediaStream :=
  match endpoints p with
  | None => []
  | Some es => mjoin (omap id es)
  end.

Definition virtualStreamOf (p : RosterParticipant) (mediaStream : MediaStream)
    : VirtualStream :=
  let isScreenShare := bool_decide (mediaType mediaStream = "applicationsharing-video") in
  let isWebcam := bool_decide (mediaType mediaStream = "video") in
  let isActive := bool_decide (direction mediaStream = "sendrecv")
                  || bool_decide (direction mediaStream = "sendonly") in
  mkVirtualStream (mediaSourceId mediaStream) isScreenShare isWebcam isActive
                  (mkParticipant (displayName (details p)) (participantUuid (details p))).

(** [syncVirtualStreamsFromParticipant(participant)] *)
Definition syncVirtualStreamsFromParticipant (p : RosterParticipant) (m : t) : t :=
  if decide (state p = "inactive") then
    removeVirtualStreamsForParticipant (participantUuid (details p)) m
  else
    foldl (fun m mediaStream => upsertVirtualStream (virtualStreamOf p mediaStream) m)
          m (collectMediaStreams p).

(** [processSourceRequest(item)]: the two numbers of
    [item.controlVideoStreaming.controlInfo], [None] when the path to one is
    missing.  A number is falsy when it is [0]. *)
Definition processSourceRequest (sourceId streamMsid : option Z) (m : t) : t :=
  match sourceId, streamMsid with
  | Some sourceId, Some streamMsid =>
      if bool_decide (sourceId = 0) || bool_decide (streamMsid = 0) then m
      else upsertPhysicalClientStreamIdToVirtualStreamIdMapping
             (pretty streamMsid) (pretty sourceId) m
  | _, _ => m
  end.

(** [setDominantSpeakerStreamId] of the dominant speaker manager, as
    [processDominantSpeakerHistoryMessage] calls it with [item.history[0]]. *)
Definition setDominantSpeakerStreamId (dominantSpeakerStreamId : Z)
    (d : DominantSpeakerManager.t) : DominantSpeakerManager.t :=
  DominantSpeakerManager.mk (Some (pretty dominantSpeakerStreamId))
    (DominantSpeakerManager.captionAudioTimes d)
    (DominantSpeakerManager.speechIntervalsPerParticipant d).

End StreamMapping.

(** ** Utterance ids for caption chunks ([UtteranceIdGenerator]) *)

Module UtteranceIdGenerator.

(** [_activeIds], and how many ids [_generate] has produced. *)
Record t := mk {
  _activeIds : JsMap.t string string;
  generated : nat
}.

Definition new : t := mk JsMap.empty 0.

Section generator.

(** The injected [_generate]: the id its [n]-th call returns
    ([crypto.randomUUID()] by default). *)
Variable generate : nat → string.

(** [next(speakerKey, isFinal)]: the id for this chunk, and the generator
    after the call.  An id that is the empty string is not reused ([!id]). *)
Definition next (speakerKey : string) (isFinal : bool) (g : t) : string * t :=
  let reusable :=
    match JsMap.get speakerKey (_activeIds g) with
    | Some id => if truthy id then Some id else None
    | None => None
    end in
  match reusable with
  | None =>
      let id := generate (generated g) in
      (id,
       if negb isFinal
       then mk (JsMap.set speakerKey id (_activeIds g)) (S (generated g))
       else mk (_activeIds g) (S (generated g)))
  | Some id =>
      (id,
       if isFinal
       then mk (JsMap.delete speakerKey (_activeIds g)) (generated g)
       else g)
  end.

(** [dispose()] *)
Definition dispose (g : t) : t := mk JsMap.empty (generated g).

End generator.

End UtteranceIdGenerator.

(** ** Finalization of transcript messages ([TranscriptMessageFinalizationManager]) *)

Module TranscriptMessageFinalizationManager.

(** A transcript message of the meeting SDK: [userId] is a number, [text] a
    string (a missing text behaves as the empty one) and [done] is read for
    its truthiness. *)
Record Message := mkMessage {
  userId : Z;
  msgId : string;
  text : string;
  done : bool
}.

(** The object handed to [window.ws.sendClosedCaptionUpdate]. *)
Record Caption := mkCaption {
  deviceId : string;
  captionId : string;
  captionText : string;
  isFinal : bool
}.

(** [_activeMessages] and the caption updates handed to the socket client so
    far. *)
Record t := mk {
  _activeMessages : JsMap.t Z Message;
  sent : list Caption
}.

Definition new : t := mk JsMap.empty [].

(** [text.replace(/\x00/g, '')] *)
Fixpoint removeNul (s : string) : string :=
  match s with
  | EmptyString => EmptyString
  | String c s' =>
      if decide (c = Ascii.zero) then removeNul s' else String c (removeNul s')
  end.

Definition messageConverted (message : Message) : Caption :=
  mkCaption (pretty (userId message)) (msgId message)
            (if truthy (text message) then removeNul (text message) else "")
            (done message).

(** [sendMessage(message)] *)
Definition sendMessage (message : Message) (st : t) : t :=
  mk (_activeMessages st) (sent st ++ [messageConverted message]).

(** [addMessage(message)] *)
Definition addMessage (message : Message) (st : t) : t :=
  let st :=
    match JsMap.get (userId message) (_activeMessages st) with
    | Some existingMessageForUser =>
        if decide (msgId existingMessageForUser ≠ msgId message) then
          let st :=
            sendMessage (mkMessage (userId existingMessageForUser)
                                   (msgId existingMessageForUser)
                                   (text existingMessageForUser) true) st in
          mk (JsMap.delete (userId message) (_activeMessages st)) (sent st)
        else st
    | None => st
    end in
  let st := mk (JsMap.set (userId message) message (_activeMessages st)) (sent st) in
  let st := sendMessage message st in
  if done message
  then mk (JsMap.delete (userId message) (_activeMessages st)) (sent st)
  else st.

End TranscriptMessageFinalizationManager.

(** ** Chat messages ([ChatMessageManager]) *)

Module ChatMessageManager.

(** The text after the first [>] of [s], if there is one. *)
Fixpoint afterTagEnd (s : string) : option string :=
  match s with
  | EmptyString => None
  | String c s' => if decide (c = ">"%char) then Some s' else afterTagEnd s'
  end.

(** [html.replace(/<[^>]*>/g, '')]: the scan of the global replace, bounded
    by the number of characters left.  At a [<] that a [>] follows, the text
    through that [>] is dropped and the scan goes on behind it; any other
    character is kept. *)
Fixpoint stripHtmlFrom (fuel : nat) (html : string) : string :=
  match fuel, html with
  | O, _ => html
  | _, EmptyString => EmptyString
  | S fuel, String c rest =>
      if decide (c = "<"%char) then
        match afterTagEnd rest with
        | Some behind => stripHtmlFrom fuel behind
        | None => String c (stripHtmlFrom fuel rest)
        end
      else String c (stripHtmlFrom fuel rest)
  end.

(** [stripHtml(html)] *)
Definition stripHtml (html : string) : string :=
  stripHtmlFrom (String.length html) html.

(** A chat message of the Teams client; a field that is missing is the empty
    string (both are falsy). *)
Record ChatMessage := mkChatMessage {
  clientMessageId : string;
  from : string;
  content : string;
  originalArrivalTime : string
}.

(** The object handed to [this.ws.sendJson]; [timestamp] is [None] when the
    arrival time is not a date ([NaN], sent as [null]). *)
Record ChatUpdate := mkChatUpdate {
  message_uuid : string;
  participant_uuid : string;
  timestamp : option Z;
  text : string
}.

Record t := mk {
  chatMessages : gmap string ChatMessage;
  sent : list ChatUpdate
}.

Definition new : t := mk ∅ [].

(** [isNewOrUpdatedChatMessage(chatMessage)] *)
Definition isNewOrUpdatedChatMessage (chatMessage : ChatMessage) (st : t) : bool :=
  match chatMessages st !! clientMessageId chatMessage with
  | None => true
  | Some currentMessage =>
      negb (bool_decide (content currentMessage = content chatMessage))
      || negb (bool_decide (originalArrivalTime currentMessage
                            = originalArrivalTime chatMessage))
      || negb (bool_decide (from currentMessage = from chatMessage))
  end.

Section dates.

(** [new Date(s).getTime()]: milliseconds since the epoch, [None] for a text
    that is not a date. *)
Variable getTime : string → option Z.

(** [handleChatMessage(chatMessage)] *)
Definition handleChatMessage (chatMessage : ChatMessage) (st : t) : t :=
  if negb (truthy (clientMessageId chatMessage)) then st
  else if negb (truthy (from chatMessage)) then st
  else if negb (truthy (content chatMessage)) then st
  else if negb (truthy (originalArrivalTime chatMessage)) then st
  else if negb (isNewOrUpdatedChatMessage chatMessage st) then st
  else
    let timestamp_ms := getTime (originalArrivalTime chatMessage) in
    mk (<[clientMessageId chatMessage := chatMessage]> (chatMessages st))
       (sent st ++ [mkChatUpdate (clientMessageId chatMessage) (from chatMessage)
                                 ((fun ms => ms `div` 1000) <$> timestamp_ms)
                                 (stripHtml (content chatMessage))]).

End dates.

End ChatMessageManager.

(** ** Who is speaking: the receivers and their contributing sources
    ([ReceiverManager], [CallManager.getSpeakingParticipantIds]) *)

Module ReceiverManager.

(** An entry of [receiver.getContributingSources()]. *)
Record ContributingSource := mkContributingSource { source : Z; timestamp : float }.

(** A participant of the active call. *)
Record Participant := mkParticipant { id : string; hasAudioSource : Z → bool }.

(** What [getSpeakingParticipantIds] returns: the array [[]] or a [Set]. *)
Inductive SpeakingParticipantIds :=
| EmptyArray
| IdSet (ids : list string).

(** [set.add(id)] *)
Definition add (id : string) (ids : list string) : list string :=
  if bool_decide (id ∈ ids) then ids else ids ++ [id].

(** [CallManager.getSpeakingParticipantIds(contributingSources)];
    [participants] is [this.activeCall.participants], [None] when there is no
    active call or it has no participants. *)
Definition getSpeakingParticipantIds (participants : option (list Participant))
    (contributingSources : list ContributingSource) : SpeakingParticipantIds :=
  match participants with
  | None => EmptyArray
  | Some participants =>
      IdSet (foldl (fun speakingParticipantIds participant =>
                      if existsb (fun contributingSource =>
                                    hasAudioSource participant (source contributingSource))
                                 contributingSources
                         && truthy (id participant)
                      then add (id participant) speakingParticipantIds
                      else speakingParticipantIds)
                   [] participants)
  end.

(** The manager with the globals it works on: the store of the dominant
    speaker manager, the socket, and the number of readings of [Date.now()]
    taken so far.  A receiver is named by the id of its track. *)
Record t := mk {
  receiverMap : JsMap.t string bool;
  participantSpeakingStateMachineMap : JsMap.t string ParticipantSpeakingStateMachine.t;
  dominantSpeakerManager : DominantSpeakerManager.t;
  ws : WebSocketClient.t;
  dateNowCalls : nat
}.

Definition new : t :=
  mk JsMap.empty JsMap.empty DominantSpeakerManager.new (WebSocketClient.mk true true []) 0.

(** What a poll finds on the page. *)
Record Snapshot := mkSnapshot {
  getContributingSources : string → list ContributingSource;
  participants : option (list Participant)
}.

(** How a loop body ends: normally, or by an exception that leaves the
    method. *)
Inductive Outcome :=
| Normal (st : t)
| Thrown (st : t).

Definition stateOf (o : Outcome) : t :=
  match o with Normal st | Thrown st => st end.

(** [addReceiver(receiver)] *)
Definition addReceiver (receiver : string) (st : t) : t :=
  if negb (truthy receiver) || JsMap.has receiver (receiverMap st) then st
  else
    mk (JsMap.set receiver false (receiverMap st))
       (participantSpeakingStateMachineMap st) (dominantSpeakerManager st)
       (WebSocketClient.sendJson
          (AudioPipeline.jsonMessage "ReceiverManagerUpdate"
             [JField "update" (JString "addReceiver");
              JField "receiverTrackId" (JString receiver)]) (ws st))
       (dateNowCalls st).

(** A number that is an integer, as a double ([Date.now()] is not negative
    and below 2^53). *)
Definition numberOf (n : Z) : float := PrimFloat.of_uint63 (Uint63.of_Z n).

(** The loop over [participantSpeakingStateMachineMap]: every machine gets a
    sample. *)
Fixpoint addSamples (ids : list string) (currentTime : Z)
    (machines : list (string * ParticipantSpeakingStateMachine.t))
    (dsm : DominantSpeakerManager.t)
    : list (string * ParticipantSpeakingStateMachine.t) * DominantSpeakerManager.t :=
  match machines with
  | [] => ([], dsm)
  | (participantId, participantSpeakingStateMachine) :: machines =>
      let '(machine, dsm) :=
        ParticipantSpeakingStateMachine.addSample
          (mkSample (bool_decide (participantId ∈ ids)) currentTime)
          (participantSpeakingStateMachine, dsm) in
      let '(machines, dsm) := addSamples ids currentTime machines dsm in
      ((participantId, machine) :: machines, dsm)
  end.

Section clock.

(** The readings of [Date.now()], in the order they are taken. *)
Variable clock : nat → Z.

(** The body of the loop of [pollReceivers] for one entry of [receiverMap].
    On the array [[]] the call [speakingParticipantIds.has] throws, as soon
    as there is a state machine to ask for. *)
Definition pollReceiver (page : Snapshot) (entry : string * bool) (st : t) : Outcome :=
  let '(receiver, isActive) := entry in
  let contributingSources := getContributingSources page receiver in
  let st :=
    if bool_decide (0 < length contributingSources)%nat && negb isActive then
      mk (JsMap.set receiver true (receiverMap st))
         (participantSpeakingStateMachineMap st) (dominantSpeakerManager st)
         (WebSocketClient.sendJson
            (AudioPipeline.jsonMessage "ReceiverManagerUpdate"
               [JField "update" (JString "setReceiverActive");
                JField "receiverTrackId" (JString receiver)]) (ws st))
         (dateNowCalls st)
    else st in
  if negb isActive then Normal st
  else
    let currentTime := clock (dateNowCalls st) in
    let recentContributingSources :=
      filter (fun contributingSource =>
                PrimFloat.leb (numberOf currentTime - timestamp contributingSource) 50 = true)
             contributingSources in
    let speakingParticipantIds :=
      getSpeakingParticipantIds (participants page) recentContributingSources in
    let ids := match speakingParticipantIds with EmptyArray => [] | IdSet ids => ids end in
    let machines :=
      foldl (fun machines speakingParticipantId =>
               if JsMap.has speakingParticipantId machines then machines
               else JsMap.set speakingParticipantId
                      (ParticipantSpeakingStateMachine.new speakingParticipantId) machines)
            (participantSpeakingStateMachineMap st) ids in
    match speakingParticipantIds, machines with
    | EmptyArray, _ :: _ =>
        Thrown (mk (receiverMap st) machines (dominantSpeakerManager st) (ws st)
                   (S (dateNowCalls st)))
    | _, _ =>
        let '(machines, dsm) :=
          addSamples ids currentTime (JsMap.entries machines) (dominantSpeakerManager st) in
        Normal (mk (receiverMap st) machines dsm (ws st) (S (dateNowCalls st)))
    end.

(** The loop of [pollReceivers] over the entries left. *)
Fixpoint pollEntries (page : Snapshot) (entries : list (string * bool)) (st : t) : Outcome :=
  match entries with
  | [] => Normal st
  | entry :: entries =>
      match pollReceiver page entry st with
      | Normal st => pollEntries page entries st
      | Thrown st => Thrown st
      end
  end.

(** [pollReceivers()] *)
Definition pollReceivers (page : Snapshot) (st : t) : Outcome :=
  pollEntries page (JsMap.entries (receiverMap st)) st.

End clock.

End ReceiverManager.

(** ** The users of the meeting ([UserManager] of the Teams payload) *)

Module UserManager.

(** The values the fields of a user hold. *)
Inductive JsValue :=
| VUndefined
| VString (s : string)
| VBool (b : bool).

#[global] Instance JsValue_eq_dec : EqDecision JsValue.
Proof. solve_decision. Defined.

(** [!!v] *)
Definition truthyValue (v : JsValue) : bool :=
  match v with
  | VUndefined => false
  | VString s => truthy s
  | VBool b => b
  end.

(** An object: its properties in the order they were made. *)
Definition JsObject := JsMap.t string JsValue.

(** [o.name] *)
Definition prop (name : string) (o : JsObject) : JsValue :=
  default VUndefined (JsMap.get name o).

(** What [JSON.stringify(o)] shows of an object with such values: the
    properties that are not [undefined], in their order.  Two objects have
    the same text exactly when they agree on this. *)
Definition stringify (o : JsObject) : list (string * JsValue) :=
  filter (fun property => snd property ≠ VUndefined) o.

(** A participant of the roster, with the id of the call added. *)
Record Details := mkDetails { id : JsValue; displayName : JsValue }.

Record User := mkUser {
  details : Details;
  state : JsValue;
  meetingRole : JsValue;
  callId : JsValue
}.

(** The argument of the [UsersUpdate] message handed to [ws.sendJson]. *)
Record UsersUpdate := mkUsersUpdate {
  newUsers : list JsObject;
  removedUsers : list (option JsObject);
  updatedUsers : list (option JsObject)
}.

Record t := mk {
  allUsersMap : JsMap.t JsValue JsObject;
  currentUsersMap : JsMap.t JsValue JsObject;
  sent : list UsersUpdate
}.

Definition new : t := mk JsMap.empty JsMap.empty [].

(** [getUserByDeviceId(deviceId)] *)
Definition getUserByDeviceId (deviceId : JsValue) (st : t) : option JsObject :=
  JsMap.get deviceId (allUsersMap st).

(** [convertUser(user)]; [currentUserId] is what
    [window.callManager?.getCurrentUserId()] returns. *)
Definition convertUser (currentUserId : JsValue) (user : User) : JsObject :=
  [("deviceId", id (details user));
   ("displayName", displayName (details user));
   ("fullName", displayName (details user));
   ("profile", VString "");
   ("status", state user);
   ("humanized_status",
    VString (if decide (state user = VString "active") then "in_meeting"
             else "not_in_meeting"));
   ("isCurrentUser",
    VBool (truthyValue currentUserId && bool_decide (id (details user) = currentUserId)));
   ("isHost", VBool (bool_decide (meetingRole user = VString "organizer")));
   ("meetingId", callId user)]%string.

(** The object stored in [allUsersMap] for a user. *)
Definition allUsersEntry (user : JsObject) : JsObject :=
  [("deviceId", prop "deviceId" user);
   ("displayName", prop "displayName" user);
   ("fullName", prop "fullName" user);
   ("profile", prop "profile" user);
   ("status", prop "status" user);
   ("humanized_status", prop "humanized_status" user);
   ("parentDeviceId", prop "parentDeviceId" user);
   ("isCurrentUser", prop "isCurrentUser" user);
   ("isHost", prop "isHost" user);
   ("meetingId", prop "meetingId" user)]%string.

(** The object stored in [currentUsersMap] for a user. *)
Definition currentUsersEntry (user : JsObject) : JsObject :=
  [("deviceId", prop "deviceId" user);
   ("displayName", prop "displayName" user);
   ("fullName", prop "fullName" user);
   ("profilePicture", prop "profilePicture" user);
   ("status", prop "status" user);
   ("humanized_status", prop "humanized_status" user);
   ("parentDeviceId", prop "parentDeviceId" user);
   ("isCurrentUser", prop "isCurrentUser" user);
   ("isHost", prop "isHost" user);
   ("meetingId", prop "meetingId" user)]%string.

(** [set.add(v)] *)
Definition add (v : JsValue) (set : list JsValue) : list JsValue :=
  if bool_decide (v ∈ set) then set else set ++ [v].

(** [newUsersListSynced(newUsersList)] *)
Definition newUsersListSynced (newUsersList : list JsObject) (st : t) : t :=
  let previousUserIds := JsMap.keys (currentUsersMap st) in
  let newUserIds := prop "deviceId" <$> newUsersList in
  let updatedUserIds :=
    foldl (fun updatedUserIds user =>
             if bool_decide (prop "deviceId" user ∈ previousUserIds)
                && negb (bool_decide
                           (stringify <$> JsMap.get (prop "deviceId" user) (currentUsersMap st)
                            = Some (stringify user)))
             then add (prop "deviceId" user) updatedUserIds
             else updatedUserIds)
          [] newUsersList in
  let allUsersMap' :=
    foldl (fun allUsersMap user =>
             JsMap.set (prop "deviceId" user) (allUsersEntry user) allUsersMap)
          (allUsersMap st) newUsersList in
  let newUsers :=
    filter (fun user => prop "deviceId" user ∉ previousUserIds) newUsersList in
  let removedUsers :=
    (fun id => JsMap.get id (currentUsersMap st))
      <$> filter (fun id => id ∉ newUserIds) previousUserIds in
  let currentUsersMap' :=
    foldl (fun currentUsersMap user =>
             JsMap.set (prop "deviceId" user) (currentUsersEntry user) currentUsersMap)
          JsMap.empty newUsersList in
  let updatedUsers := (fun id => JsMap.get id currentUsersMap') <$> updatedUserIds in
  mk allUsersMap' currentUsersMap'
     (if bool_decide (0 < length newUsers)%nat || bool_decide (0 < length removedUsers)%nat
         || bool_decide (0 < length updatedUsers)%nat
      then sent st ++ [mkUsersUpdate newUsers removedUsers updatedUsers]
      else sent st).

(** [singleUserSynced(user)] *)
Definition singleUserSynced (currentUserId : JsValue) (user : User) (st : t) : t :=
  let convertedUser := convertUser currentUserId user in
  let allUsers := JsMap.values (currentUsersMap st) ++ [convertedUser] in
  let uniqueUsers :=
    JsMap.values
      (foldl (fun map singleUser => JsMap.set (prop "deviceId" singleUser) singleUser map)
             JsMap.empty allUsers) in
  newUsersListSynced uniqueUsers st.

End UserManager.

(** ** The frames of a video track ([handleVideoTrack]) *)

Module VideoTrack.

(** A frame of the track: its display size, and the bytes [copyTo] gives
    after the conversion to I420 ([None] when the conversion throws). *)
Record VideoFrame := mkVideoFrame {
  displayWidth : Z;
  displayHeight : Z;
  i420 : option (list Z)
}.

(** The variables of the closure of one track, and what the transform did
    with the frames: the frames handed on to the video element, the frames
    closed, and the clock readings at which a frame was handed to
    [ws.sendVideo]. *)
Record t := mk {
  firstStreamId : option string;
  lastFrameTime : float;
  enqueued : list VideoFrame;
  closed : list VideoFrame;
  relayedAt : list float
}.

(** The state when the track arrives; [firstStreamId] is
    [event.streams[0]?.id]. *)
Definition new (firstStreamId : option string) : t := mk firstStreamId 0 [] [] [].

Definition targetFPS : float := 24.

Definition frameInterval : float := 1000 / targetFPS.

(** [BigInt(Math.floor(x))]; [BigInt] throws on a number that is not
    finite. *)
Definition floor (x : float) : option Z :=
  match Prim2SF x with
  | S754_zero _ => Some 0
  | S754_finite s m e =>
      let n := if s then Z.neg m else Z.pos m in
      Some (if 0 <=? e then n * 2 ^ e else n `div` 2 ^ (- e))
  | _ => None
  end.

Definition enqueue (frame : VideoFrame) (st : t) : t :=
  mk (firstStreamId st) (lastFrameTime st) (enqueued st ++ [frame]) (closed st)
     (relayedAt st).

Definition close (frame : VideoFrame) (st : t) : t :=
  mk (firstStreamId st) (lastFrameTime st) (enqueued st) (closed st ++ [frame])
     (relayedAt st).

(** [transform(frame, controller)], run while [performance.now()] reads
    [currentTime]; [desiredSizeIsNull] is [controller.desiredSize === null],
    and the two managers are the globals as they are then.  An exception in
    the [try] block closes the frame; [controller.enqueue] is taken to
    succeed when [desiredSize] is not null. *)
Definition transform (desiredSizeIsNull : bool) (currentTime : float)
    (dsm : DominantSpeakerManager.t) (m : VirtualStreamToPhysicalStreamMappingManager.t)
    (frame : option VideoFrame) (st : t * WebSocketClient.t) : t * WebSocketClient.t :=
  let '(track, ws) := st in
  match frame with
  | None => st
  | Some frame =>
      if desiredSizeIsNull then (close frame track, ws)
      else if truthy_opt (firstStreamId track)
              && bool_decide (firstStreamId track
                              = VirtualStreamToPhysicalStreamMappingManager.getVideoStreamIdToSend
                                  dsm m)
      then
        if PrimFloat.leb frameInterval (currentTime - lastFrameTime track) then
          match i420 frame, floor (currentTime * 1000) with
          | Some data, Some currentTimeMicros =>
              (enqueue frame
                 (mk (firstStreamId track) currentTime (enqueued track) (closed track)
                     (relayedAt track ++ [currentTime])),
               WebSocketClient.sendVideo currentTimeMicros (default "" (firstStreamId track))
                 (displayWidth frame) (displayHeight frame) data ws)
          | _, _ => (close frame track, ws)
          end
        else (enqueue frame track, ws)
      else (enqueue frame track, ws)
  end.

End VideoTrack.

(** ** Joining and leaving a Zoom meeting (the listeners of the Zoom payload) *)

Module ZoomMeeting.

(** The flags of the payload, whether [onBehalfToken] is set, and the
    arguments of the calls of [window.ws.sendJson], oldest first. *)
Record t := mk {
  onBehalfToken : bool;
  userEnteredMeeting : bool;
  userEncounteredOnBehalfTokenUserNotInMeetingError : bool;
  userEncounteredGenericJoinError : bool;
  sendJsonCalls : list Json
}.

Definition new (onBehalfToken : bool) : t := mk onBehalfToken false false false [].

Definition sendJson (data : Json) (st : t) : t :=
  mk (onBehalfToken st) (userEnteredMeeting st)
     (userEncounteredOnBehalfTokenUserNotInMeetingError st)
     (userEncounteredGenericJoinError st) (sendJsonCalls st ++ [data]).

Definition meetingStatusChange (change : string) (more : list JsonField) : Json :=
  JObject (JField "type" (JString "MeetingStatusChange")
           :: JField "change" (JString change) :: more).

(** [isGenericJoinError(code)]; the code is a number or [undefined]. *)
Definition isGenericJoinError (code : option Z) (st : t) : bool :=
  bool_decide (code = Some 1) && negb (userEnteredMeeting st).

(** The [error] callback of [ZoomMtg.join]; [errorCode] is
    [error?.errorCode]. *)
Definition joinError (errorCode : option Z) (error : Json) (st : t) : t :=
  if isGenericJoinError errorCode st then
    mk (onBehalfToken st) (userEnteredMeeting st)
       (userEncounteredOnBehalfTokenUserNotInMeetingError st) true (sendJsonCalls st)
  else sendJson (meetingStatusChange "failed_to_join" [JField "reason" error]) st.

(** [handleJoinFailureFromConsoleIntercept(code, reason)] *)
Definition handleJoinFailureFromConsoleIntercept (code : Z) (reason : string) (st : t) : t :=
  if bool_decide (code = 1) && onBehalfToken st && negb (userEnteredMeeting st) then
    mk (onBehalfToken st) (userEnteredMeeting st) true
       (userEncounteredGenericJoinError st) (sendJsonCalls st)
  else if isGenericJoinError (Some code) st then
    mk (onBehalfToken st) (userEnteredMeeting st)
       (userEncounteredOnBehalfTokenUserNotInMeetingError st) true (sendJsonCalls st)
  else
    sendJson (meetingStatusChange "failed_to_join"
                [JField "reason"
                   (JObject [JField "errorCode" (JNumber code);
                             JField "errorMessage" (JString reason);
                             JField "method" (JString "join")])]) st.

(** The listener of [onJoinSpeed]; [level] is [data.level]. *)
Definition onJoinSpeed (level : Z) (st : t) : t :=
  if bool_decide (level = 13) then
    sendJson (JObject [JField "type" (JString "ChatStatusChange");
                       JField "change" (JString "ready_to_send")])
      (mk (onBehalfToken st) true
          (userEncounteredOnBehalfTokenUserNotInMeetingError st)
          (userEncounteredGenericJoinError st) (sendJsonCalls st))
  else st.

(** The listener of [onMeetingStatus]. *)
Definition onMeetingStatus (meetingStatus : Z) (st : t) : t :=
  if bool_decide (meetingStatus = 3) && userEnteredMeeting st
  then sendJson (meetingStatusChange "meeting_ended" []) st
  else st.

(** The listener of [onUserLeave], for data without a [userId]. *)
Definition onUserLeave (reasonCode : Z) (st : t) : t :=
  let st :=
    if bool_decide (reasonCode = 7) then
      sendJson (meetingStatusChange "failed_to_join"
                  [JField "reason"
                     (JObject [JField "method" (JString "removed_from_waiting_room")])]) st
    else st in
  if bool_decide (reasonCode = 6) || bool_decide (reasonCode = 0)
     || bool_decide (reasonCode = 1)
  then sendJson (meetingStatusChange "removed_from_meeting" []) st
  else st.

End ZoomMeeting.

(* ================================================================== *)
(** * Part II: the vocabulary of the specification                     *)
(* ================================================================== *)

Module PSM := ParticipantSpeakingStateMachine.
Module DSM := DominantSpeakerManager.

(** ** Speaking state machine *)

(** The machine of participant [pid] after the samples [ss], started from
    its constructor and an arbitrary interval store [d0]. *)
Definition machine_after (pid : string) (d0 : DSM.t) (ss : list Sample)
    : PSM.t * DSM.t :=
  PSM.addSamples ss (PSM.new pid, d0).

(** How many samples of a window report speech. *)
Definition trues (w : list Sample) : nat :=
  length (filter (fun s => isSpeaking s = true) w).

(** The timestamp of the first sample of a window. *)
Definition first_timestamp (w : list Sample) : Z :=
  match w with s :: _ => timestamp s | [] => 0 end.

(** ** Speaker attribution *)

(** The last interval event at or before [T], in the order of the list. *)
Definition last_event_at (T : Z) (l : list SpeechInterval) : option SpeechInterval :=
  last (filter (fun i => timestampMs i <= T) l).

(** A participant is open at [T] when the last interval event at or before
    [T] is a start; the result is the timestamp of that start. *)
Definition open_since (T : Z) (l : list SpeechInterval) : option Z :=
  match last_event_at T l with
  | Some i => match itype i with IStart => Some (timestampMs i) | IEnd => None end
  | None => None
  end.

(** The open set at [T]: the open participants with the start of their
    current interval, in the order the store enumerates them. *)
Definition open_set (T : Z) (d : DSM.t) : list (string * Z) :=
  omap (fun '(p, l) => (fun t => (p, t)) <$> open_since T l)
       (JsMap.entries (DSM.speechIntervalsPerParticipant d)).

(** The most recent caption-correlation entry at or before [T]: no entry at
    or before [T] is later, and among entries with the same timestamp it is
    the one appended first. *)
Definition most_recent_caption (T : Z) (cs : list CaptionAudioTime)
    (c : CaptionAudioTime) : Prop :=
  ∃ l1 l2, cs = l1 ++ c :: l2 ∧ captionTimestampMs c <= T ∧
    (∀ c', c' ∈ l1 → captionTimestampMs c' <= T →
           captionTimestampMs c' < captionTimestampMs c) ∧
    (∀ c', c' ∈ l2 → captionTimestampMs c' <= T →
           captionTimestampMs c' <= captionTimestampMs c).

Definition le_opt (o : option Z) (z : Z) : bool :=
  match o with Some x => bool_decide (x <= z) | None => true end.

(** The interval lists one state machine writes: starts and ends alternate,
    beginning with a start; a start is not earlier than the start and the end
    before it, and an end is not earlier than the end before it.  An end may
    be earlier than its own start (it is backed off by 100ms). *)
Fixpoint well_timed_from (isOpen : bool) (lastStart lastEnd : option Z)
    (l : list SpeechInterval) : bool :=
  match l with
  | [] => true
  | i :: l' =>
      match itype i, isOpen with
      | IStart, false =>
          le_opt lastStart (timestampMs i) && le_opt lastEnd (timestampMs i)
          && well_timed_from true (Some (timestampMs i)) lastEnd l'
      | IEnd, true =>
          le_opt lastEnd (timestampMs i)
          && well_timed_from false lastStart (Some (timestampMs i)) l'
      | _, _ => false
      end
  end.

Definition well_timed (l : list SpeechInterval) : Prop :=
  well_timed_from false None None l = true.

(** A store whose lists are all well timed and whose participant
    identifiers are non-empty strings. *)
Definition well_formed_store (d : DSM.t) : Prop :=
  Forall (fun e => e.1 ≠ "" ∧ well_timed e.2)
         (JsMap.entries (DSM.speechIntervalsPerParticipant d)).

(** Where the reading of a list stands after its last interval: whether an
    interval is open, and the last start and the last end. *)
Fixpoint timing_after (isOpen : bool) (lastStart lastEnd : option Z)
    (l : list SpeechInterval) : bool * option Z * option Z :=
  match l with
  | [] => (isOpen, lastStart, lastEnd)
  | i :: l' =>
      match itype i with
      | IStart => timing_after true (Some (timestampMs i)) lastEnd l'
      | IEnd => timing_after false lastStart (Some (timestampMs i)) l'
      end
  end.

(** Samples arrive in the order of their timestamps. *)
Definition non_decreasing (ss : list Sample) : Prop :=
  ∀ i j a b, (i ≤ j)%nat → ss !! i = Some a → ss !! j = Some b →
             timestamp a <= timestamp b.

(** What the machine has written for its participant after the samples
    [ss]: a well-timed list, open exactly when the machine is [SPEAKING],
    whose last start is not after the first sample of the current window of
    five and whose last end is at least 100ms before it. *)
Definition shape_after (pid : string) (d0 : DSM.t) (ss : list Sample) : Prop :=
  let st := machine_after pid d0 ss in
  let l := DSM.intervalsOf pid (snd st) in
  well_timed l ∧
  ∃ a e,
    timing_after false None None l
    = (bool_decide (PSM.state (fst st) = SPEAKING), a, e) ∧
    ((length ss < 5)%nat → a = None ∧ e = None) ∧
    ((5 ≤ length ss)%nat →
       le_opt a (first_timestamp (slice_last 5 ss)) = true ∧
       le_opt e (first_timestamp (slice_last 5 ss) - 100) = true).

(** A store with two open participants at time 30 and no caption data; the
    end of the second participant's first interval is backed off to before
    its start. *)
Definition two_open_store : DSM.t :=
  DSM.mk None []
    [("A", [mkInterval IStart 10]);
     ("B", [mkInterval IStart 20; mkInterval IEnd 15; mkInterval IStart 25])].

(** The steps of the two [reduce] calls of the attribution: the later of two
    captions, the earlier of two starts (the element met first wins a tie),
    and an open interval as the scan reports it. *)
Definition later_caption (max c : CaptionAudioTime) : CaptionAudioTime :=
  if decide (captionTimestampMs max < captionTimestampMs c) then c else max.

Definition earlier_speaker (min s : DSM.SpeakerAtTimestamp) : DSM.SpeakerAtTimestamp :=
  if decide (DSM.toNumber (DSM.timestampMsOfLastStart s)
             < DSM.toNumber (DSM.timestampMsOfLastStart min))
  then s else min.

Definition speaker_entry (e : string * Z) : DSM.SpeakerAtTimestamp :=
  let '(p, t) := e in DSM.mkSpeakerAt p (Some t).

(** ** Wire framing *)

(** A decoded wire message. *)
Inductive WireMessage :=
| PerParticipantAudio (participantId : string) (samples : list Z)
| Video (timestamp : Z) (streamId : string) (width height : Z) (pixels : list Z).

(** [new TextDecoder().decode(bytes)] on the byte-string representation. *)
Definition decodeText (bs : list Z) : string :=
  String.string_of_list_ascii ((fun b => Ascii.ascii_of_N (Z.to_N b)) <$> bs).

(** Modelled from the spec: the receiver of the binary messages is not among
    the sources, so the decoder follows the framing the specification gives:
    a 4-byte little-endian type tag; for [PER_PARTICIPANT_AUDIO] a 1-byte
    participant-id length, the participant-id bytes and the sample payload;
    for [VIDEO] an 8-byte timestamp, a 4-byte stream-id length, the stream-id
    bytes, a 4-byte width, a 4-byte height and the pixel payload. *)
Definition decode (message : list Z) : option WireMessage :=
  if decide (length message < 4)%nat then None
  else
    let tag := ByteArray.le_signed (take 4 message) in
    let body := drop 4 message in
    if decide (tag = WebSocketClient.MESSAGE_TYPES_PER_PARTICIPANT_AUDIO) then
      match body with
      | [] => None
      | len :: rest =>
          let n := Z.to_nat len in
          if decide (length rest < n)%nat then None
          else Some (PerParticipantAudio (decodeText (take n rest)) (drop n rest))
      end
    else if decide (tag = WebSocketClient.MESSAGE_TYPES_VIDEO) then
      if decide (length body < 12)%nat then None
      else
        let timestamp := ByteArray.le_signed (take 8 body) in
        let n := Z.to_nat (ByteArray.le_signed (take 4 (drop 8 body))) in
        let rest := drop 12 body in
        if decide (length rest < n + 8)%nat then None
        else Some (Video timestamp (decodeText (take n rest))
                         (ByteArray.le_signed (take 4 (drop n rest)))
                         (ByteArray.le_signed (take 4 (drop (n + 4) rest)))
                         (drop (n + 8) rest))
    else None.

(** The framing of a per-participant audio message, written out. *)
Definition perParticipantAudioFrame (participantId : string) (samples : list Z) : list Z :=
  ByteArray.le_bytes 4 WebSocketClient.MESSAGE_TYPES_PER_PARTICIPANT_AUDIO
  ++ [Z.of_nat (length (ByteArray.encodeText participantId))]
  ++ ByteArray.encodeText participantId
  ++ samples.

(** The framing of a video message, written out. *)
Definition videoFrame (timestamp : Z) (streamId : string) (width height : Z)
    (pixels : list Z) : list Z :=
  ByteArray.le_bytes 4 WebSocketClient.MESSAGE_TYPES_VIDEO
  ++ ByteArray.le_bytes 8 timestamp
  ++ ByteArray.le_bytes 4 (Z.of_nat (length (ByteArray.encodeText streamId)))
  ++ ByteArray.encodeText streamId
  ++ ByteArray.le_bytes 4 width
  ++ ByteArray.le_bytes 4 height
  ++ pixels.

(** ** Reconciliation links *)

Module Mgr := VirtualStreamToPhysicalStreamMappingManager.

(** A sequence of source-selection operations: each pairs a local description
    identifier with a roster source identifier, the sentinel "-1" asking for
    the link of the local identifier to be removed. *)
Definition apply_selections (ops : list (string * string)) (m : Mgr.t) : Mgr.t :=
  foldl (fun m op => Mgr.upsertPhysicalClientStreamIdToVirtualStreamIdMapping op.1 op.2 m)
        m ops.

(** The forward and the reverse map are mutual inverses. *)
Definition mutual_inverses (m : Mgr.t) : Prop :=
  ∀ p v, Mgr.physicalClientStreamIdToVirtualStreamIdMapping m !! p = Some v
         ↔ Mgr.virtualStreamIdToPhysicalClientStreamIdMapping m !! v = Some p.

(** An operation that overwrites nothing: a deletion, or an insertion whose
    two identifiers are both unlinked (and whose roster identifier is a
    non-empty string). *)
Definition selection_is_fresh (m : Mgr.t) (op : string * string) : Prop :=
  op.2 = "-1" ∨
  (op.2 ≠ "" ∧
   Mgr.physicalClientStreamIdToVirtualStreamIdMapping m !! op.1 = None ∧
   Mgr.virtualStreamIdToPhysicalClientStreamIdMapping m !! op.2 = None).

Fixpoint selections_are_fresh (m : Mgr.t) (ops : list (string * string)) : Prop :=
  match ops with
  | [] => True
  | op :: rest =>
      selection_is_fresh m op ∧
      selections_are_fresh
        (Mgr.upsertPhysicalClientStreamIdToVirtualStreamIdMapping op.1 op.2 m) rest
  end.

(** The links are inverse of each other and no link ends at the empty id. *)
Definition links_consistent (m : Mgr.t) : Prop :=
  mutual_inverses m ∧
  ∀ p v, Mgr.physicalClientStreamIdToVirtualStreamIdMapping m !! p = Some v → v ≠ "".

(** ** Selection of the video source *)

(** The roster source is itself linked as a local description identifier:
    it is the agent's own outgoing stream. *)
Definition is_agent_own_stream (m : Mgr.t) (v : VirtualStream) : Prop :=
  truthy_opt (Mgr.physicalClientStreamIdToVirtualStreamIdMapping m !! sourceId v) = true.

(** The roster source has a reconciliation link to a local description
    identifier. *)
Definition has_reconciliation_link (m : Mgr.t) (v : VirtualStream) : Prop :=
  truthy_opt (Mgr.virtualStreamIdToPhysicalClientStreamIdMapping m !! sourceId v) = true.

(** The PhysicalStream record bound, through the reconciliation link, to a
    roster source identifier. *)
Definition bound_physical_stream (m : Mgr.t) (source : string) : option PhysicalStream :=
  c ← Mgr.virtualStreamIdToPhysicalClientStreamIdMapping m !! source;
  JsMap.get (AStr c) (Mgr.physicalStreamsByClientStreamId m).

(** The roster source has a resolved PhysicalStream: it is linked to a
    local description identifier, and a record has been ingested for that
    identifier. *)
Definition has_resolved_physical_stream (m : Mgr.t) (v : VirtualStream) : Prop :=
  has_reconciliation_link m v ∧ is_Some (bound_physical_stream m (sourceId v)).

#[global] Instance is_agent_own_stream_dec m v : Decision (is_agent_own_stream m v).
Proof. unfold is_agent_own_stream. apply _. Defined.

#[global] Instance has_reconciliation_link_dec m v :
  Decision (has_reconciliation_link m v).
Proof. unfold has_reconciliation_link. apply _. Defined.

#[global] Instance has_resolved_physical_stream_dec m v :
  Decision (has_resolved_physical_stream m v).
Proof. unfold has_resolved_physical_stream. apply _. Defined.




Definition active_screenshare (v : VirtualStream) : Prop :=
  isScreenShare v = true ∧ isActive v = true.

Definition active_webcam_of (speaker : Participant) (v : VirtualStream) : Prop :=
  participantUuid (participant v) = participantUuid speaker
  ∧ isWebcam v = true ∧ isActive v = true.

(** [x] is the first element of [l] with property [P]. *)
Definition first_such {A} (P : A → Prop) (l : list A) (x : A) : Prop :=
  ∃ l1 l2, l = l1 ++ x :: l2 ∧ P x ∧ ∀ y, y ∈ l1 → ¬ P y.

(** The roster holds the stream [v] under the source identifier [id]. *)
Definition roster_stream (m : Mgr.t) (id : string) (v : VirtualStream) : Prop :=
  ∃ before after,
    JsMap.entries (Mgr.virtualStreams m) = before ++ (id, v) :: after
    ∧ id ∉ before.*1.

(** The dominant speaker that was signalled from outside: the participant of
    the roster stream that the last dominant-speaker message named. *)
Definition signalled_dominant_speaker (dsm : DSM.t) (m : Mgr.t)
    (speaker : Participant) : Prop :=
  ∃ id v, DSM.dominantSpeakerStreamId dsm = Some id
          ∧ roster_stream m id v ∧ participant v = speaker.

(** The source the specification selects among [sources]: the first active
    screenshare; otherwise the active webcam of the signalled dominant
    speaker; otherwise the first of them. *)
Inductive selected_among (dsm : DSM.t) (m : Mgr.t) (sources : list VirtualStream)
    : VirtualStream → Prop :=
| select_screenshare x :
    first_such active_screenshare sources x →
    selected_among dsm m sources x
| select_dominant_speaker speaker x :
    (∀ y, y ∈ sources → ¬ active_screenshare y) →
    signalled_dominant_speaker dsm m speaker →
    first_such (active_webcam_of speaker) sources x →
    selected_among dsm m sources x
| select_first x rest :
    (∀ y, y ∈ sources → ¬ active_screenshare y) →
    (∀ speaker y, signalled_dominant_speaker dsm m speaker →
                  y ∈ sources → ¬ active_webcam_of speaker y) →
    sources = x :: rest →
    selected_among dsm m sources x.


(** The scenario of the specification: the selection message links
    description id "55" to roster source "9", an active webcam of "P2", and
    the session description bound "55" to the local stream "stream-55". *)
Definition scenario_manager : Mgr.t :=
  Mgr.upsertPhysicalStreams [mkPhysicalStream (AStr "55") "stream-55"]
    (Mgr.upsertVirtualStream
       (mkVirtualStream "9" false true true (mkParticipant "Second" "P2"))
       (Mgr.upsertPhysicalClientStreamIdToVirtualStreamIdMapping "55" "9" Mgr.new)).





(** ** Session-description ingestion *)

(** Upserting a list of records under their keys, as the loop of
    [upsertPhysicalStreams] does for each of its two indexes. *)
Definition upsertAll {K V} `{EqDecision K} (key : V → K) (l : list V)
    (m : JsMap.t K V) : JsMap.t K V :=
  foldl (fun m x => JsMap.set (key x) x m) m l.

(** The record upserted last under key [k]. *)
Definition lastWithKey {K V} `{EqDecision K} (key : V → K) (k : K) (l : list V)
    : option V :=
  last (filter (fun x => key x = k) l).

(** The synchronization-source lines of a media section. *)
Definition ssrcLines (section : Sdp.MediaEntry) : list AttrValue :=
  default [] (Sdp.attributes section !! "ssrc").

(** The section carries a stream-grouping identifier: one of its
    synchronization-source lines has a non-empty [msid]. *)
Definition has_grouping_id (section : Sdp.MediaEntry) : Prop :=
  ∃ raw g, raw ∈ ssrcLines section ∧ Sdp.extractMSID raw = Some (Some g) ∧ g ≠ "".

(** The section carries a roster-correlation identifier: its first
    [x-source-streamid] attribute has a value. *)
Definition has_roster_id (section : Sdp.MediaEntry) : Prop :=
  ∃ sid, head (default [] (Sdp.attributes section !! "x-source-streamid")) = Some sid
         ∧ Sdp.truthyAttr sid = true.

(** All synchronization-source lines of the section that carry a
    stream-grouping identifier carry [group], and one of them does. *)
Definition shares_grouping_id (section : Sdp.MediaEntry) (group : string) : Prop :=
  (∀ raw, raw ∈ ssrcLines section →
          Sdp.extractMSID raw = Some (Some group) ∨ Sdp.extractMSID raw = Some None)
  ∧ ∃ raw, raw ∈ ssrcLines section ∧ Sdp.extractMSID raw = Some (Some group).

(** The record one stream-grouping identifier yields, as the loop of
    [mappingOfMediaEntry] computes it. *)
Definition recordFor (streamId : option AttrValue) (ssrc : option string)
    : option PhysicalStream :=
  match ssrc, streamId with
  | Some msid, Some sid =>
      if truthy msid && Sdp.truthyAttr sid
      then Some (mkPhysicalStream sid msid) else None
  | _, _ => None
  end.

(** The two indexes of the store hold each key once. *)
Definition store_indexes_wf (m : Mgr.t) : Prop :=
  NoDup (JsMap.keys (Mgr.physicalStreamsByClientStreamId m))
  ∧ NoDup (JsMap.keys (Mgr.physicalStreamsByServerStreamId m)).

(** A session description whose single media section has four
    synchronization-source lines, two of them naming the stream "stream-55",
    and the roster-correlation identifier "55". *)
Definition sample_sdp : string :=
  "v=0" +:+ JsString.CRLF +:+
  "o=- 1 2 IN IP4 0.0.0.0" +:+ JsString.CRLF +:+
  "s=session" +:+ JsString.CRLF +:+
  "m=video 9 UDP/TLS/RTP/SAVPF 107" +:+ JsString.CRLF +:+
  "a=mid:2" +:+ JsString.CRLF +:+
  "a=recvonly" +:+ JsString.CRLF +:+
  "a=x-source-streamid:55" +:+ JsString.CRLF +:+
  "a=ssrc:1001 cname:abc" +:+ JsString.CRLF +:+
  "a=ssrc:1001 msid:stream-55 track-a" +:+ JsString.CRLF +:+
  "a=ssrc:1002 cname:abc" +:+ JsString.CRLF +:+
  "a=ssrc:1002 msid:stream-55 track-a" +:+ JsString.CRLF.

(** The same section without its roster-correlation identifier. *)
Definition sample_sdp_without_roster_id : string :=
  "v=0" +:+ JsString.CRLF +:+
  "m=video 9 UDP/TLS/RTP/SAVPF 107" +:+ JsString.CRLF +:+
  "a=ssrc:1001 msid:stream-55 track-a" +:+ JsString.CRLF.

(** A section with a roster-correlation identifier and no stream-grouping
    identifier. *)
Definition sample_sdp_without_grouping_id : string :=
  "v=0" +:+ JsString.CRLF +:+
  "m=video 9 UDP/TLS/RTP/SAVPF 107" +:+ JsString.CRLF +:+
  "a=x-source-streamid:55" +:+ JsString.CRLF +:+
  "a=ssrc:1001 cname:abc" +:+ JsString.CRLF.

(** A description of two media sections: an audio section with neither
    identifier, then the video section of the first sample. *)
Definition sample_sdp_two_sections : string :=
  "v=0" +:+ JsString.CRLF +:+
  "m=audio 9 UDP/TLS/RTP/SAVPF 111" +:+ JsString.CRLF +:+
  "a=mid:0" +:+ JsString.CRLF +:+
  "m=video 9 UDP/TLS/RTP/SAVPF 107" +:+ JsString.CRLF +:+
  "a=x-source-streamid:55" +:+ JsString.CRLF +:+
  "a=ssrc:1001 msid:stream-55 track-a" +:+ JsString.CRLF +:+
  "a=ssrc:1002 msid:stream-55 track-a" +:+ JsString.CRLF.

(** ** Executions of the audio pipeline *)

Module AP := AudioPipeline.

(** The callbacks the page dispatches, one at a time: a new audio track, a
    frame on the track whose timer is [interval], a firing of that timer, the
    end of that track, an update of the attribution engine's store, and a
    change of the socket's state or of media sending. *)
Inductive Event :=
| EvTrack (id receiver : string)
| EvFrame (interval : nat) (frame : AP.AudioFrame)
| EvPoll (interval : nat)
| EvEnded (interval : nat)
| EvAttribution (d : DSM.t)
| EvSocket (open enabled : bool).

Record System := mkSystem {
  world : AP.World;
  tracks : list AP.Track
}.

Definition initialSystem (ws0 : WebSocketClient.t) : System :=
  mkSystem (AP.mkWorld 0 ws0 DSM.new ∅ 0 ∅ JsMap.empty) [].

(** The track whose queue the timer [interval] polls. *)
Definition trackOf (interval : nat) (sys : System) : option AP.Track :=
  List.find (fun t => bool_decide (AP.queueProcessingInterval t = interval)) (tracks sys).

Definition replaceTrack (t' : AP.Track) (ts : list AP.Track) : list AP.Track :=
  (fun t => if decide (AP.queueProcessingInterval t = AP.queueProcessingInterval t')
            then t' else t) <$> ts.

Section executions.
Variable clock : nat → Z.
Variable bufferBytes : list float → list Z.

Definition step (sys : System) (ev : Event) : System :=
  let w := world sys in
  match ev with
  | EvTrack id receiver =>
      let '(t, w') := AP.handleAudioTrack id receiver w in
      mkSystem w' (tracks sys ++ [t])
  | EvFrame interval frame =>
      match trackOf interval sys with
      | Some t =>
          let '(t', w') := AP.transform clock frame t w in
          mkSystem w' (replaceTrack t' (tracks sys))
      | None => sys
      end
  | EvPoll interval =>
      if decide (interval ∈ AP.clearedIntervals w) then sys
      else match trackOf interval sys with
           | Some t =>
               let '(t', w') := AP.processAudioQueue clock bufferBytes t w in
               mkSystem w' (replaceTrack t' (tracks sys))
           | None => sys
           end
  | EvEnded interval =>
      match trackOf interval sys with
      | Some t => mkSystem (AP.trackEnded t w) (tracks sys)
      | None => sys
      end
  | EvAttribution d =>
      mkSystem (AP.mkWorld (AP.tick w) (AP.ws w) d (AP.globalAudioQueueIntervalsSet w)
                           (AP.nextTimerId w) (AP.clearedIntervals w) (AP.receiverMap w))
               (tracks sys)
  | EvSocket open enabled =>
      mkSystem (AP.withWs (WebSocketClient.mk open enabled
                             (WebSocketClient.outbox (AP.ws w))) w)
               (tracks sys)
  end.

(** The system after a sequence of callbacks, in any interleaving. *)
Definition run (events : list Event) (sys : System) : System :=
  foldl step sys events.

End executions.

(** The binary messages among what the socket sent. *)
Definition audioMessages (sent : list Sent) : list (list Z) :=
  omap (fun m => match m with SentBytes b => Some b | SentJson _ => None end) sent.

(** What the socket sends for a chunk that left the queue. *)
Definition emission (bufferBytes : list float → list Z) (s : WebSocketClient.t)
    (e : AP.Dequeued) : list (list Z) :=
  match AP.attributedTo e with
  | Some speaker =>
      if WebSocketClient.readyStateOpen s && WebSocketClient.mediaSendingEnabled s
      then option_list (WebSocketClient.perParticipantAudioMessage speaker
                          (bufferBytes (AP.audioData (AP.chunk e))))
      else []
  | None => []
  end.



(** Two socket states with the same connection state and media switch. *)
Definition sameFlags (s s' : WebSocketClient.t) : Prop :=
  WebSocketClient.readyStateOpen s' = WebSocketClient.readyStateOpen s ∧
  WebSocketClient.mediaSendingEnabled s' = WebSocketClient.mediaSendingEnabled s.

(** What a callback leaves alone in the world. *)
Definition sameTimers (w w' : AP.World) : Prop :=
  AP.globalAudioQueueIntervalsSet w' = AP.globalAudioQueueIntervalsSet w ∧
  AP.nextTimerId w' = AP.nextTimerId w ∧
  AP.clearedIntervals w' = AP.clearedIntervals w.

(** A chunk left its queue no earlier than the attribution latency after
    its arrival. *)
Definition admittedInTime (e : AP.Dequeued) : Prop :=
  AP.audioArrivalTime (AP.chunk e) + AP.ACTIVE_SPEAKER_LATENCY_MS <= AP.admittedAt e.

(** The tracks whose polling timer has not been cleared. *)
Definition activeQueues (sys : System) : list AP.Track :=
  filter (fun t => AP.queueProcessingInterval t ∉ AP.clearedIntervals (world sys))
         (tracks sys).


(** Every track's timer is registered in the global set, and timers are
    pairwise distinct. *)
Definition timersRegistered (sys : System) : Prop :=
  NoDup (AP.queueProcessingInterval <$> tracks sys) ∧
  (∀ t, t ∈ tracks sys →
        AP.queueProcessingInterval t ∈ AP.globalAudioQueueIntervalsSet (world sys)) ∧
  (∀ j, j ∈ AP.globalAudioQueueIntervalsSet (world sys) →
        (j < AP.nextTimerId (world sys))%nat).

(** A clock that advances by 100ms per reading, a byte view of four zero
    bytes per sample, and a silent and a non-silent frame. *)
Definition sample_clock (n : nat) : Z := 100 * Z.of_nat n.

Definition sample_bufferBytes (samples : list float) : list Z :=
  replicate (4 * length samples) 0.

Definition silent_frame : AP.AudioFrame :=
  AP.mkFrame (AP.mkFormat 1 2 48000 "f32-planar" 10000) [0%float; 0%float] true.

Definition speech_frame : AP.AudioFrame :=
  AP.mkFrame (AP.mkFormat 1 2 48000 "f32-planar" 10000) [0%float; 0.5%float] true.

(** ** The output scheduler *)

Module BOM := BotOutputManager.

(** The start times handed to [source.start], in the order of the calls. *)
Definition scheduledStarts (m : BOM.t) : list float := BOM.when <$> BOM.started m.

(** The chunk [playPCMAudio] makes of its argument, and its duration. *)
Definition chunkDuration (pcmData : BOM.PcmData) (sampleRate numChannels : float) : float :=
  (BOM.lengthOf (BOM.toFloat32 pcmData) / (numChannels * sampleRate))%float.

Definition chunkOf (pcmData : BOM.PcmData) (sampleRate numChannels : float) : BOM.Chunk :=
  BOM.mkChunk (BOM.toFloat32 pcmData) (chunkDuration pcmData sampleRate numChannels).

(** The audio context makes a buffer for the chunk. *)
Definition bufferAccepted (createBuffer : float → float → float → bool)
    (sampleRate numChannels : float) (pcmData : BOM.PcmData) : Prop :=
  createBuffer numChannels
    (BOM.lengthOf (BOM.toFloat32 pcmData) / numChannels)%float sampleRate = true.

(** Chunks enqueued back to back, all while the audio clock reads [now]; and
    the timer-driven drains that follow, one per clock reading. *)
Definition enqueueAll (createBuffer : float → float → float → bool)
    (chunks : list BOM.PcmData) (sampleRate numChannels now : float)
    (m : BOM.t) : BOM.t :=
  foldl (fun m pcmData => BOM.playPCMAudio createBuffer pcmData sampleRate numChannels now m)
        m chunks.

Definition drainAll (createBuffer : float → float → float → bool)
    (readings : list float) (m : BOM.t) : BOM.t :=
  foldl (fun m currentTime => BOM._processAudioQueue createBuffer currentTime m) m readings.

Definition backToBack (createBuffer : float → float → float → bool) (m0 : BOM.t)
    (chunks : list BOM.PcmData) (sampleRate numChannels now : float)
    (readings : list float) : BOM.t :=
  drainAll createBuffer readings
    (enqueueAll createBuffer chunks sampleRate numChannels now m0).

(** The clock readings of the drains that take the chunks: on a manager
    that is not playing, the first [playPCMAudio] drains at once. *)
Definition drainReadings (m0 : BOM.t) (now : float) (readings : list float) : list float :=
  if BOM.isPlayingAudioQueue m0 then readings else now :: readings.

(** The rule of the specification for the start times: a chunk starts at
    [nextPlayTime], which is first reset to the clock when it is unset or
    behind it, and [nextPlayTime] then advances by the duration. *)
Fixpoint startsFrom (D nextPlayTime : float) (readings : list float) : list float :=
  match readings with
  | [] => []
  | now :: readings =>
      let start := if BOM.unsetOrBehind nextPlayTime now then now else nextPlayTime in
      start :: startsFrom D (start + D)%float readings
  end.

(** Consecutive start times are exactly [D] apart, in the arithmetic of the
    code: the later one is the earlier one plus [D]. *)
Definition exactlyApart (D : float) (starts : list float) : Prop :=
  ∀ k s s', starts !! k = Some s → starts !! S k = Some s' → s' = (s + D)%float.

(** No chunk starts before the chunk before it ends. *)
Definition nonOverlapping (D : float) (starts : list float) : Prop :=
  ∀ k s s', starts !! k = Some s → starts !! S k = Some s' →
            PrimFloat.ltb s' (s + D)%float = false.

(** Every drain runs in time: it finds [nextPlayTime], which advances by [D]
    per drain, set and not behind its clock reading. *)
Fixpoint onTime (D nextPlayTime : float) (readings : list float) : Prop :=
  match readings with
  | [] => True
  | now :: readings =>
      BOM.unsetOrBehind nextPlayTime now = false ∧
      onTime D (nextPlayTime + D)%float readings
  end.

(** Every drain after the first runs in time. *)
Definition laterDrainsOnTime (D nextPlayTime : float) (readings : list float) : Prop :=
  match startsFrom D nextPlayTime readings with
  | [] => True
  | start :: _ => onTime D (start + D)%float (tail readings)
  end.

(** The audio clock does not read a negative time. *)
Definition clockNotNegative (readings : list float) : Prop :=
  Forall (fun now => PrimFloat.ltb now 0 = false) readings.

(** A number that is not zero, infinite or [NaN]. *)
Definition isFinite (x : float) : bool :=
  match Prim2SF x with S754_finite _ _ _ => true | _ => false end.

(** Every chunk of the queue lasts [D] and the audio context makes a buffer
    for it. *)
Definition queueAccepted (createBuffer : float → float → float → bool)
    (m : BOM.t) (D : float) : Prop :=
  Forall (fun c => BOM.duration c = D ∧
                   createBuffer (BOM.numChannels m)
                     (BOM.lengthOf (BOM.data c) / BOM.numChannels m)%float
                     (BOM.sampleRate m) = true)
         (BOM.audioQueue m).

(** The queue is being played with the given settings: a drain is pending. *)
Definition playing (sampleRate numChannels : float) (m : BOM.t) : Prop :=
  BOM.isPlayingAudioQueue m = true ∧ BOM.turnOffMicTimeout m = None ∧
  BOM.sampleRate m = sampleRate ∧ BOM.numChannels m = numChannels.

(** An audio context with the limits every context supports: 1 to 32
    channels, at least one frame, 8000 to 96000 samples per second. *)
Definition standardCreateBuffer (numberOfChannels length sampleRate : float) : bool :=
  PrimFloat.leb 1 numberOfChannels && PrimFloat.leb numberOfChannels 32
  && PrimFloat.ltb 0 length
  && PrimFloat.leb 8000 sampleRate && PrimFloat.leb sampleRate 96000.

(** One second of silence at 8000 samples per second, one channel. *)
Definition secondOfSilence : BOM.PcmData := BOM.Float32Array (replicate (Z.to_nat 8000) 0%float).

(** ** The other websocket messages *)

Module WSF := WebSocketFrames.

(** A client that can send media, and one whose media sending is off. *)
Definition open_client : WebSocketClient.t := WebSocketClient.mk true true [].

(** A call of one of the senders of the client. *)
Inductive SenderCall :=
| CallSendJson (data : Json)
| CallSendClosedCaptionUpdate (item : Json)
| CallSendMixedAudio (timestamp : Z) (audioData : list Z)
| CallSendAudio (timestamp streamId : Z) (audioData : list Z)
| CallSendPerParticipantAudio (participantId : string) (audioData : list Z)
| CallSendVideo (timestamp : Z) (streamId : string) (width height : Z) (videoData : list Z).

Definition senderCall (ws : WebSocketClient.t) (c : SenderCall) : WebSocketClient.t :=
  match c with
  | CallSendJson data => WebSocketClient.sendJson data ws
  | CallSendClosedCaptionUpdate item => WSF.sendClosedCaptionUpdate item ws
  | CallSendMixedAudio timestamp audioData => WSF.sendMixedAudio timestamp audioData ws
  | CallSendAudio timestamp streamId audioData =>
      WSF.sendAudio timestamp streamId audioData ws
  | CallSendPerParticipantAudio participantId audioData =>
      WebSocketClient.sendPerParticipantAudio participantId audioData ws
  | CallSendVideo timestamp streamId width height videoData =>
      WebSocketClient.sendVideo timestamp streamId width height videoData ws
  end.

Definition senderCalls (cs : list SenderCall) (ws : WebSocketClient.t) : WebSocketClient.t :=
  foldl senderCall ws cs.

(** The messages of the [sendJson] calls among the calls. *)
Definition jsonCalls (cs : list SenderCall) : list Sent :=
  omap (fun c => match c with CallSendJson data => Some (SentJson data) | _ => None end) cs.

(** The eight bytes at offset 4 read as a signed integer ([getBigInt64]). *)
Definition getBigInt64 (byteOffset : nat) (data : list Z) : Z :=
  ByteArray.le_signed (take 8 (drop byteOffset data)).

(** ** The roster and the mapping manager *)

Module SM := StreamMapping.

(** The operations that change the mapping manager. *)
Inductive ManagerOp :=
| OpUpsertPhysicalStreams (physicalStreams : list PhysicalStream)
| OpUpsertVirtualStream (virtualStream : VirtualStream)
| OpRemoveVirtualStreamsForParticipant (participantId : string)
| OpUpsertLink (physicalClientStreamId virtualStreamId : string)
| OpSyncParticipant (p : SM.RosterParticipant)
| OpSourceRequest (sourceId streamMsid : option Z).

Definition managerOp (m : Mgr.t) (op : ManagerOp) : Mgr.t :=
  match op with
  | OpUpsertPhysicalStreams physicalStreams => Mgr.upsertPhysicalStreams physicalStreams m
  | OpUpsertVirtualStream virtualStream => Mgr.upsertVirtualStream virtualStream m
  | OpRemoveVirtualStreamsForParticipant participantId =>
      SM.removeVirtualStreamsForParticipant participantId m
  | OpUpsertLink physicalClientStreamId virtualStreamId =>
      Mgr.upsertPhysicalClientStreamIdToVirtualStreamIdMapping
        physicalClientStreamId virtualStreamId m
  | OpSyncParticipant p => SM.syncVirtualStreamsFromParticipant p m
  | OpSourceRequest sourceId streamMsid => SM.processSourceRequest sourceId streamMsid m
  end.

(** The manager after a sequence of operations on a new one. *)
Definition managerAfter (ops : list ManagerOp) : Mgr.t := foldl managerOp Mgr.new ops.

(** Every roster stream is stored under its own [sourceId], and once. *)
Definition streams_keyed (vs : JsMap.t string VirtualStream) : Prop :=
  NoDup (JsMap.keys vs) ∧ Forall (fun e => fst e = sourceId (snd e)) vs.

(** The stream belongs to the participant. *)
Definition belongs_to (participantId : string) (v : VirtualStream) : bool :=
  bool_decide (participantUuid (participant v) = participantId).

(** The ids of the roster streams of a participant. *)
Definition mediaSourceIds (p : SM.RosterParticipant) : list string :=
  SM.mediaSourceId <$> SM.collectMediaStreams p.

(** A roster participant with a webcam and a screen share, and one that left. *)
Definition sample_roster_participant : SM.RosterParticipant :=
  SM.mkRosterParticipant "active" (mkParticipant "Ada" "8:ada")
    (Some [Some [SM.mkMediaStream "1053" "video" "sendrecv"];
           None;
           Some [SM.mkMediaStream "1054" "applicationsharing-video" "inactive"]]).

Definition sample_physical_stream : PhysicalStream :=
  mkPhysicalStream (AStr "2331") "mainVideo-39016".

(** ** Utterance ids *)

Module UIG := UtteranceIdGenerator.

(** The ids given to a sequence of caption chunks, each a speaker key and
    whether it is the final chunk of its utterance, and the generator left. *)
Fixpoint utteranceIds (generate : nat → string) (chunks : list (string * bool))
    (g : UIG.t) : list string * UIG.t :=
  match chunks with
  | [] => ([], g)
  | (speakerKey, isFinal) :: chunks =>
      let '(id, g) := UIG.next generate speakerKey isFinal g in
      let '(ids, g) := utteranceIds generate chunks g in
      (id :: ids, g)
  end.

(** Ids as a counter would give them: ["u0"], ["u1"], ... *)
Definition counted_id (n : nat) : string := String "u" (pretty n).

(** Every id in use was produced by an earlier call of [generate], and no
    speaker has two entries. *)
Definition ids_known (generate : nat → string) (g : UIG.t) : Prop :=
  ∀ k a, JsMap.get k (UIG._activeIds g) = Some a →
         ∃ n, (n < UIG.generated g)%nat ∧ a = generate n.

Definition generator_wf (generate : nat → string) (g : UIG.t) : Prop :=
  NoDup (JsMap.keys (UIG._activeIds g)) ∧ ids_known generate g.

(** The active id of speaker [s], if there is one, was produced at call [n0]
    or later. *)
Definition fresh_since (generate : nat → string) (s : string) (n0 : nat) (g : UIG.t)
    : Prop :=
  JsMap.get s (UIG._activeIds g) = None
  ∨ ∃ n, (n0 ≤ n < UIG.generated g)%nat
         ∧ JsMap.get s (UIG._activeIds g) = Some (generate n).

(** ** Finalization of transcript messages *)

Module TMF := TranscriptMessageFinalizationManager.

Definition addMessages (messages : list TMF.Message) (st : TMF.t) : TMF.t :=
  foldl (fun st message => TMF.addMessage message st) st messages.

(** The caption updates of one device, in the order they were sent. *)
Definition updatesOf (device : string) (sent : list TMF.Caption) : list TMF.Caption :=
  filter (fun c => TMF.deviceId c = device) sent.

(** In a sequence of updates, an update followed by an update of another
    caption is final. *)
Definition finalized_before_next (updates : list TMF.Caption) : Prop :=
  ∀ i c c', updates !! i = Some c → updates !! S i = Some c' →
            TMF.captionId c ≠ TMF.captionId c' → TMF.isFinal c = true.

(** What the manager keeps: a user has an active message exactly when the
    last update sent for them is not final, and it is the message of that
    update. *)
Definition active_is_last_update (st : TMF.t) : Prop :=
  NoDup (JsMap.keys (TMF._activeMessages st)) ∧
  ∀ u, match JsMap.get u (TMF._activeMessages st) with
       | Some m =>
           TMF.userId m = u ∧ TMF.done m = false ∧
           last (updatesOf (pretty u) (TMF.sent st)) = Some (TMF.messageConverted m)
       | None =>
           ∀ c, last (updatesOf (pretty u) (TMF.sent st)) = Some c → TMF.isFinal c = true
       end.

(** ** Chat messages *)

Module CMM := ChatMessageManager.

(** The text holds a tag: a [<] with a [>] somewhere behind it. *)
Definition has_tag (s : string) : Prop :=
  ∃ before inside behind,
    s = before +:+ String "<" (inside +:+ String ">" behind).

Definition handleChatMessages (getTime : string → option Z)
    (chatMessages : list CMM.ChatMessage) (st : CMM.t) : CMM.t :=
  foldl (fun st chatMessage => CMM.handleChatMessage getTime chatMessage st) st chatMessages.

(** The message lacks one of the four fields the handler asks for. *)
Definition incomplete (c : CMM.ChatMessage) : Prop :=
  CMM.clientMessageId c = "" ∨ CMM.from c = "" ∨ CMM.content c = ""
  ∨ CMM.originalArrivalTime c = "".

(** The update the handler sends for a message. *)
Definition chatUpdateOf (getTime : string → option Z) (c : CMM.ChatMessage) : CMM.ChatUpdate :=
  CMM.mkChatUpdate (CMM.clientMessageId c) (CMM.from c)
    ((fun ms => ms `div` 1000) <$> getTime (CMM.originalArrivalTime c))
    (CMM.stripHtml (CMM.content c)).

(** The complete messages of a list that carry the id. *)
Definition completeWithId (id : string) (cs : list CMM.ChatMessage) : list CMM.ChatMessage :=
  filter (fun c => ¬ incomplete c ∧ CMM.clientMessageId c = id) cs.

Definition sample_chat_message : CMM.ChatMessage :=
  CMM.mkChatMessage "m1" "8:orgid:ab" "<p>hello</p>" "2024-05-01T10:00:00.000Z".

(** ** The output manager on the event loop of the page *)

(** What happens to the manager: [playPCMAudio] is called, or one of the
    timers it set runs out.  [currentTime] is what the audio clock reads
    then. *)
Inductive OutputEvent :=
| PlayPCMAudio (pcmData : BOM.PcmData) (sampleRate numChannels currentTime : float)
| TimerFired (id : nat) (currentTime : float).

(** The manager, and the timers of it that ran out. *)
Record Page := mkPage { manager : BOM.t; firedTimers : list nat }.

(** The timer with the id (ids count from one). *)
Definition timerOf (id : nat) (m : BOM.t) : option BOM.Timeout :=
  match id with O => None | S k => BOM.timeouts m !! k end.

(** A timer runs its callback once, and not at all when it was cleared
    before.  Timers may run out in any order and at any time after they are
    set: the delays are not modelled, so that what holds here holds of every
    schedule of the page. *)
Definition pageStep (createBuffer : float → float → float → bool)
    (p : Page) (e : OutputEvent) : Page :=
  match e with
  | PlayPCMAudio pcmData sampleRate numChannels currentTime =>
      mkPage (BOM.playPCMAudio createBuffer pcmData sampleRate numChannels currentTime
                (manager p))
             (firedTimers p)
  | TimerFired id currentTime =>
      if bool_decide (id ∈ firedTimers p)
         || bool_decide (id ∈ BOM.clearedTimeouts (manager p)) then p
      else match timerOf id (manager p) with
           | Some (BOM.ProcessQueueAfter _) =>
               mkPage (BOM._processAudioQueue createBuffer currentTime (manager p))
                      (id :: firedTimers p)
           | Some (BOM.TurnOffMicAfter _) =>
               mkPage (BOM.turnOffMicTimeoutFired id (manager p)) (id :: firedTimers p)
           | None => p
           end
  end.

Definition pageAfter (createBuffer : float → float → float → bool)
    (events : list OutputEvent) : Page :=
  foldl (pageStep createBuffer) (mkPage BOM.new []) events.

(** The timer was set and has neither run out nor been cleared. *)
Definition liveTimer (p : Page) (id : nat) (t : BOM.Timeout) : Prop :=
  timerOf id (manager p) = Some t ∧ (id ∉ firedTimers p)
  ∧ (id ∉ BOM.clearedTimeouts (manager p)).

Definition pending (p : Page) (id : nat) : Prop := ∃ t, liveTimer p id t.

Definition pendingDrain (p : Page) (id : nat) : Prop :=
  ∃ ms, liveTimer p id (BOM.ProcessQueueAfter ms).

Definition pendingTurnOffMic (p : Page) (id : nat) : Prop :=
  ∃ ms, liveTimer p id (BOM.TurnOffMicAfter ms).

(** The microphone is not turned off twice in a row. *)
Definition noDoubleOff (calls : list BOM.MicCallback) : Prop :=
  ∀ i, calls !! i = Some BOM.TurnOffMic → calls !! S i ≠ Some BOM.TurnOffMic.

(** The chunks the calls of [playPCMAudio] made, in the order of the calls. *)
Definition enqueuedChunks (events : list OutputEvent) : list BOM.Chunk :=
  events ≫= (fun e => match e with
                      | PlayPCMAudio pcmData sampleRate numChannels _ =>
                          [chunkOf pcmData sampleRate numChannels]
                      | TimerFired _ _ => []
                      end).

(** The audio context makes every buffer it is asked for. *)
Definition alwaysCreates (createBuffer : float → float → float → bool) : Prop :=
  ∀ numberOfChannels length sampleRate,
    createBuffer numberOfChannels length sampleRate = true.

(** The manager after the statements of [playPCMAudio] that come before the
    test of [isPlayingAudioQueue]. *)
Definition prepared (pcmData : BOM.PcmData) (sampleRate numChannels : float)
    (m : BOM.t) : BOM.t :=
  BOM.cancelTurnOffMic
    (BOM.pushChunk (chunkOf pcmData sampleRate numChannels)
       (BOM.updateSettings sampleRate numChannels
          (BOM.ensureMicOn (BOM._createSourceAudioTrack m)))).

(** What holds of the page between two events. *)
Definition page_inv (createBuffer : float → float → float → bool) (p : Page) : Prop :=
  let m := manager p in
  (∀ id, id ∈ firedTimers p ∨ id ∈ BOM.clearedTimeouts m → is_Some (timerOf id m)) ∧
  (∀ id, BOM.turnOffMicTimeout m = Some id →
         ∃ ms, timerOf id m = Some (BOM.TurnOffMicAfter ms)) ∧
  (∀ id, pendingTurnOffMic p id →
         BOM.turnOffMicTimeout m = Some id ∧ BOM.audioQueue m = []
         ∧ BOM.isPlayingAudioQueue m = false) ∧
  (BOM.isPlayingAudioQueue m = false → ∀ id, ¬ pendingDrain p id) ∧
  (∀ id id', pendingDrain p id → pendingDrain p id' → id = id') ∧
  (last (BOM.micCallbacks m) = Some BOM.TurnOffMic →
   BOM.audioQueue m = [] ∧ BOM.isPlayingAudioQueue m = false ∧ ∀ id, ¬ pending p id) ∧
  noDoubleOff (BOM.micCallbacks m) ∧
  (BOM.audioQueue m ≠ [] → BOM.isPlayingAudioQueue m = true) ∧
  (alwaysCreates createBuffer → BOM.isPlayingAudioQueue m = true →
   ∃ id, pendingDrain p id).

(** What holds when [_processAudioQueue] is entered. *)
Definition drain_due (p : Page) : Prop :=
  let m := manager p in
  (∀ id, id ∈ firedTimers p ∨ id ∈ BOM.clearedTimeouts m → is_Some (timerOf id m)) ∧
  (∀ id, BOM.turnOffMicTimeout m = Some id →
         ∃ ms, timerOf id m = Some (BOM.TurnOffMicAfter ms)) ∧
  (∀ id, ¬ pending p id) ∧
  last (BOM.micCallbacks m) ≠ Some BOM.TurnOffMic ∧
  noDoubleOff (BOM.micCallbacks m).

(** The chunks enqueued so far are the ones taken from the queue, then the
    ones still in it; the chunks started are among the ones taken, in order,
    and are all of them when every buffer is made. *)
Definition fifo_inv (createBuffer : float → float → float → bool)
    (chunks : list BOM.Chunk) (m : BOM.t) : Prop :=
  ∃ taken,
    chunks = taken ++ BOM.audioQueue m ∧
    sublist (BOM.chunk <$> BOM.started m) taken ∧
    (alwaysCreates createBuffer → BOM.chunk <$> BOM.started m = taken).

(** ** Who is speaking *)

Module RM := ReceiverManager.

(** What happens to the receiver manager: a receiver is added, or the 100ms
    timer runs [pollReceivers] on what the page shows then. *)
Inductive ReceiverOp :=
| AddReceiver (receiver : string)
| PollReceivers (page : RM.Snapshot).

Definition receiverOp (clock : nat → Z) (st : RM.t) (op : ReceiverOp) : RM.t :=
  match op with
  | AddReceiver receiver => RM.addReceiver receiver st
  | PollReceivers page => RM.stateOf (RM.pollReceivers clock page st)
  end.

Definition receiversAfter (clock : nat → Z) (ops : list ReceiverOp) : RM.t :=
  foldl (receiverOp clock) RM.new ops.

(** The clock of the page does not run backwards. *)
Definition monotone (clock : nat → Z) : Prop :=
  ∀ i j, (i ≤ j)%nat → clock i <= clock j.

(** The machine of the entry and the intervals of its participant are what
    a machine of its own makes of some samples, taken in the order of their
    timestamps and not after the next reading of the clock. *)
Definition tracked (clock : nat → Z) (readings : nat) (dsm : DSM.t)
    (entry : string * PSM.t) : Prop :=
  fst entry ≠ "" ∧
  ∃ ss, non_decreasing ss ∧
        (∀ s, s ∈ ss → timestamp s <= clock readings) ∧
        fst (machine_after (fst entry) DSM.new ss) = snd entry ∧
        DSM.intervalsOf (fst entry) (snd (machine_after (fst entry) DSM.new ss))
        = DSM.intervalsOf (fst entry) dsm.

(** What holds of the receiver manager between two calls. *)
Definition receivers_inv (clock : nat → Z) (st : RM.t) : Prop :=
  NoDup (JsMap.keys (RM.participantSpeakingStateMachineMap st)) ∧
  NoDup (JsMap.keys (DSM.speechIntervalsPerParticipant (RM.dominantSpeakerManager st))) ∧
  (∀ x, x ∈ JsMap.keys (DSM.speechIntervalsPerParticipant (RM.dominantSpeakerManager st)) →
        x ∈ JsMap.keys (RM.participantSpeakingStateMachineMap st)) ∧
  Forall (tracked clock (RM.dateNowCalls st) (RM.dominantSpeakerManager st))
         (RM.participantSpeakingStateMachineMap st).

(** A page on which the participant with source 7 was heard at time 1000. *)
Definition heard_participant : RM.Snapshot :=
  RM.mkSnapshot (fun _ => [RM.mkContributingSource 7 1000%float])
                (Some [RM.mkParticipant "8:orgid:ab" (fun source => bool_decide (source = 7))]).

(** ** The users of the meeting *)

Module UM := UserManager.

(** What happens to the user manager. *)
Inductive UserOp :=
| SingleUserSynced (currentUserId : UM.JsValue) (user : UM.User)
| NewUsersListSynced (newUsersList : list UM.JsObject).

Definition userOp (st : UM.t) (op : UserOp) : UM.t :=
  match op with
  | SingleUserSynced currentUserId user => UM.singleUserSynced currentUserId user st
  | NewUsersListSynced newUsersList => UM.newUsersListSynced newUsersList st
  end.

Definition usersAfter (ops : list UserOp) : UM.t := foldl userOp UM.new ops.

(** The current users are stored under their device id, as objects of the
    shape [newUsersListSynced] gives them. *)
Definition current_users_wf (current : JsMap.t UM.JsValue UM.JsObject) : Prop :=
  NoDup (JsMap.keys current) ∧
  Forall (fun entry => UM.prop "deviceId" (snd entry) = fst entry
                       ∧ UM.currentUsersEntry (snd entry) = snd entry) current.

(** ** The frames of a video track *)

Module VT := VideoTrack.

(** A call of the transform: what the page shows then, and the frame. *)
Record FrameEvent := mkFrameEvent {
  desiredSizeIsNull : bool;
  currentTime : float;
  speakers : DSM.t;
  streams : Mgr.t;
  frame : option VT.VideoFrame
}.

Definition frameEvent (st : VT.t * WebSocketClient.t) (e : FrameEvent)
    : VT.t * WebSocketClient.t :=
  VT.transform (desiredSizeIsNull e) (currentTime e) (speakers e) (streams e) (frame e) st.

Definition framesAfter (firstStreamId : option string) (ws : WebSocketClient.t)
    (events : list FrameEvent) : VT.t * WebSocketClient.t :=
  foldl frameEvent (VT.new firstStreamId, ws) events.

(** The track relays the frame of the event: it hands it to [ws.sendVideo]. *)
Definition relays (st : VT.t * WebSocketClient.t) (e : FrameEvent) : Prop :=
  VT.relayedAt (fst (frameEvent st e)) = VT.relayedAt (fst st) ++ [currentTime e].

(** Clock readings that are a frame interval apart, in the arithmetic of the
    code, the first one from 0. *)
Fixpoint spaced (previous : float) (readings : list float) : Prop :=
  match readings with
  | [] => True
  | t :: readings =>
      PrimFloat.leb VT.frameInterval (t - previous) = true ∧ spaced t readings
  end.

Definition sample_frame : VT.VideoFrame := VT.mkVideoFrame 2 2 (Some [16; 16; 16; 16; 128; 128]).

(** ** Joining and leaving a Zoom meeting *)

Module ZM := ZoomMeeting.

Inductive ZoomEvent :=
| JoinError (errorCode : option Z) (error : Json)
| JoinFailureFromConsole (code : Z) (reason : string)
| OnJoinSpeed (level : Z)
| OnMeetingStatus (meetingStatus : Z)
| OnUserLeave (reasonCode : Z).

Definition zoomEvent (st : ZM.t) (e : ZoomEvent) : ZM.t :=
  match e with
  | JoinError errorCode error => ZM.joinError errorCode error st
  | JoinFailureFromConsole code reason => ZM.handleJoinFailureFromConsoleIntercept code reason st
  | OnJoinSpeed level => ZM.onJoinSpeed level st
  | OnMeetingStatus meetingStatus => ZM.onMeetingStatus meetingStatus st
  | OnUserLeave reasonCode => ZM.onUserLeave reasonCode st
  end.

Definition zoomAfter (onBehalfToken : bool) (events : list ZoomEvent) : ZM.t :=
  foldl zoomEvent (ZM.new onBehalfToken) events.

Definition ready_to_send : Json :=
  JObject [JField "type" (JString "ChatStatusChange");
           JField "change" (JString "ready_to_send")].

Definition meeting_ended : Json := ZM.meetingStatusChange "meeting_ended" [].

(* ================================================================== *)
(** * Part III: properties                                             *)
(* ================================================================== *)

(** ** Lists: the sliding window *)

Section slice_facts.
Context {A : Type}.
Implicit Types l : list A.

Lemma slice_last_length n l : length (slice_last n l) = (length l `min` n)%nat.
Proof. unfold slice_last. rewrite length_drop. lia. Qed.

Lemma slice_last_all n l : (length l ≤ n)%nat → slice_last n l = l.
Proof.
  intros Hle. unfold slice_last.
  replace (length l - n)%nat with 0%nat by lia. reflexivity.
Qed.

Lemma slice_last_slice_last n k l :
  (n ≤ k)%nat → slice_last n (slice_last k l) = slice_last n l.
Proof.
  intros Hnk. unfold slice_last. rewrite length_drop, drop_drop.
  f_equal. lia.
Qed.

Lemma tail_drop k l : tail (drop k l) = drop (S k) l.
Proof.
  revert k. induction l as [|x l IH]; intros [|k]; simpl; try reflexivity.
  apply IH.
Qed.

(** Pushing onto a window capped at [n] and shifting on overflow keeps
    exactly the last [n] elements of everything pushed so far. *)
Lemma slice_last_push n l x :
  (0 < n)%nat →
  (if decide (n < length (slice_last n l ++ [x]))%nat
   then shift (slice_last n l ++ [x]) else slice_last n l ++ [x])
  = slice_last n (l ++ [x]).
Proof.
  intros Hn. rewrite length_app, slice_last_length. simpl.
  unfold slice_last, shift. rewrite length_app. simpl.
  case_decide as Hc.
  - assert (Hlen : (n ≤ length l)%nat) by lia.
    rewrite drop_app_le by lia.
    replace (length l + 1 - n)%nat with (S (length l - n)) by lia.
    rewrite <- tail_drop.
    destruct (drop (length l - n) l) eqn:Hd; [|reflexivity].
    apply (f_equal length) in Hd. rewrite length_drop in Hd. simpl in Hd. lia.
  - replace (length l - n)%nat with 0%nat by lia.
    replace (length l + 1 - n)%nat with 0%nat by lia.
    reflexivity.
Qed.
End slice_facts.

(** ** Insertion-ordered maps *)

Section jsmap_facts.
Context {K V : Type} `{EqDecision K}.
Implicit Types m : JsMap.t K V.

Lemma jsmap_get_set_eq k v m : JsMap.get k (JsMap.set k v m) = Some v.
Proof.
  induction m as [|[k' v'] m IH]; simpl.
  - by rewrite decide_True.
  - destruct (decide (k = k')) as [->|Hne]; simpl.
    + by rewrite decide_True.
    + by rewrite decide_False.
Qed.

Lemma jsmap_get_set_ne k k' v m :
  k ≠ k' → JsMap.get k' (JsMap.set k v m) = JsMap.get k' m.
Proof.
  intros Hne. induction m as [|[k0 v0] m IH]; simpl.
  - by rewrite decide_False.
  - destruct (decide (k = k0)) as [->|Hk]; simpl.
    + by rewrite !decide_False.
    + destruct (decide (k' = k0)); [done | apply IH].
Qed.

Lemma jsmap_get_Some_keys k v m : JsMap.get k m = Some v → k ∈ JsMap.keys m.
Proof.
  induction m as [|[k' v'] m IH]; simpl; [done|].
  destruct (decide (k = k')) as [->|Hne]; intros Hg.
  - apply list_elem_of_here.
  - apply list_elem_of_further, IH, Hg.
Qed.

Lemma jsmap_get_None_keys k m : JsMap.get k m = None ↔ k ∉ JsMap.keys m.
Proof.
  induction m as [|[k' v'] m IH]; simpl.
  - split; [intros _; apply not_elem_of_nil | done].
  - rewrite not_elem_of_cons. destruct (decide (k = k')) as [->|Hne].
    + split; [done | intros [Hk _]; done].
    + rewrite IH. tauto.
Qed.

Lemma jsmap_get_entry k v m :
  NoDup (JsMap.keys m) → (k, v) ∈ JsMap.entries m → JsMap.get k m = Some v.
Proof.
  unfold JsMap.entries. induction m as [|[k' v'] m IH]; simpl.
  - intros _ Hin. by apply elem_of_nil in Hin.
  - rewrite NoDup_cons. intros [Hk Hnd] Hin.
    apply elem_of_cons in Hin as [Heq|Hin].
    + inversion Heq; subst. by rewrite decide_True.
    + destruct (decide (k = k')) as [->|Hne].
      * exfalso. apply Hk. apply list_elem_of_fmap. by exists (k', v).
      * by apply IH.
Qed.

Lemma jsmap_entry_get k v m : JsMap.get k m = Some v → (k, v) ∈ JsMap.entries m.
Proof.
  unfold JsMap.entries. induction m as [|[k' v'] m IH]; simpl; [done|].
  destruct (decide (k = k')) as [->|Hne]; intros Hg.
  - inversion Hg; subst. apply list_elem_of_here.
  - apply list_elem_of_further, IH, Hg.
Qed.

(** Assigning to a key that exists keeps the enumeration order. *)
Lemma jsmap_keys_set_present k v m :
  is_Some (JsMap.get k m) → JsMap.keys (JsMap.set k v m) = JsMap.keys m.
Proof.
  unfold JsMap.keys. induction m as [|[k' v'] m IH]; simpl.
  - intros [? ?]; done.
  - destruct (decide (k = k')) as [->|Hne]; simpl; [done|].
    intros Hs. f_equal. by apply IH.
Qed.

(** Assigning to a new key appends it. *)
Lemma jsmap_keys_set_absent k v m :
  JsMap.get k m = None → JsMap.keys (JsMap.set k v m) = JsMap.keys m ++ [k].
Proof.
  unfold JsMap.keys. induction m as [|[k' v'] m IH]; simpl; [done|].
  destruct (decide (k = k')) as [->|Hne]; simpl; [done|].
  intros Hs. f_equal. by apply IH.
Qed.

Lemma jsmap_set_NoDup k v m :
  NoDup (JsMap.keys m) → NoDup (JsMap.keys (JsMap.set k v m)).
Proof.
  intros Hnd. destruct (JsMap.get k m) as [x|] eqn:Hg.
  - rewrite jsmap_keys_set_present; [done | by eexists].
  - rewrite jsmap_keys_set_absent by done.
    apply NoDup_app. split_and!; [done | | apply NoDup_singleton].
    intros y Hy Hy'. apply list_elem_of_singleton in Hy' as ->.
    by apply jsmap_get_None_keys in Hg.
Qed.
End jsmap_facts.

(** ** The interval store *)

Lemma pushInterval_same i p d :
  DSM.intervalsOf p (DSM.pushInterval i p d) = DSM.intervalsOf p d ++ [i].
Proof.
  unfold DSM.intervalsOf, DSM.pushInterval. simpl.
  destruct (JsMap.get p (DSM.speechIntervalsPerParticipant d)) as [l|] eqn:Hg.
  - rewrite Hg. by rewrite jsmap_get_set_eq.
  - rewrite jsmap_get_set_eq. by rewrite jsmap_get_set_eq.
Qed.

Lemma pushInterval_other i p q d :
  p ≠ q → DSM.intervalsOf q (DSM.pushInterval i p d) = DSM.intervalsOf q d.
Proof.
  intros Hne. unfold DSM.intervalsOf, DSM.pushInterval. simpl.
  destruct (JsMap.get p (DSM.speechIntervalsPerParticipant d)) as [l|] eqn:Hg.
  - rewrite Hg. by rewrite jsmap_get_set_ne.
  - rewrite jsmap_get_set_eq. by rewrite !jsmap_get_set_ne.
Qed.

Lemma pushInterval_captions i p d :
  DSM.captionAudioTimes (DSM.pushInterval i p d) = DSM.captionAudioTimes d.
Proof. reflexivity. Qed.

(** ** The speaking state machine *)

Section speaking_machine.
Variable pid : string.
Variable d0 : DSM.t.

#[local] Abbreviation machine_after := (machine_after pid d0).

Lemma machine_after_snoc ss s :
  machine_after (ss ++ [s]) = PSM.addSample s (machine_after ss).
Proof. unfold machine_after, PSM.addSamples. by rewrite foldl_app. Qed.

Lemma addSample_participantId s st :
  PSM.participantId (PSM.addSample s st).1 = PSM.participantId st.1.
Proof.
  destruct st as [m d]. unfold PSM.addSample.
  case_decide; [done|]. destruct (PSM.state m); case_bool_decide; done.
Qed.

Lemma addSample_samples s st :
  PSM.samples (PSM.addSample s st).1 =
  (if decide (10 < length (PSM.samples st.1 ++ [s]))%nat
   then shift (PSM.samples st.1 ++ [s]) else PSM.samples st.1 ++ [s]).
Proof.
  destruct st as [m d]. unfold PSM.addSample.
  case_decide; [done|]. destruct (PSM.state m); case_bool_decide; done.
Qed.

Lemma machine_after_participantId ss :
  PSM.participantId (machine_after ss).1 = pid.
Proof.
  induction ss as [|s ss IH] using rev_ind; [done|].
  by rewrite machine_after_snoc, addSample_participantId.
Qed.

(** The window holds the most recent 10 samples. *)
Lemma machine_after_samples ss :
  PSM.samples (machine_after ss).1 = slice_last 10 ss.
Proof.
  induction ss as [|s ss IH] using rev_ind; [done|].
  rewrite machine_after_snoc, addSample_samples, IH.
  apply slice_last_push. lia.
Qed.

(** One call of [addSample], with the window it decides on made explicit. *)
Lemma addSample_step s m d :
  let w := slice_last 5 (if decide (10 < length (PSM.samples m ++ [s]))%nat
                         then shift (PSM.samples m ++ [s]) else PSM.samples m ++ [s]) in
  let st' := PSM.addSample s (m, d) in
  ((length w < 5)%nat → PSM.state st'.1 = PSM.state m ∧ st'.2 = d) ∧
  ((5 ≤ length w)%nat →
     (PSM.state st'.1 = SPEAKING ↔ (4 ≤ trues w)%nat) ∧
     (PSM.state st'.1 = NOT_SPEAKING ↔ (trues w < 4)%nat) ∧
     (PSM.state m = NOT_SPEAKING → PSM.state st'.1 = SPEAKING →
        st'.2 = DSM.addSpeechIntervalStart (first_timestamp w) (PSM.participantId m) d) ∧
     (PSM.state m = SPEAKING → PSM.state st'.1 = NOT_SPEAKING →
        st'.2 = DSM.addSpeechIntervalEnd (first_timestamp w - 100) (PSM.participantId m) d) ∧
     (PSM.state st'.1 = PSM.state m → st'.2 = d)).
Proof.
  cbn zeta. unfold PSM.addSample, trues, first_timestamp.
  set (w := slice_last 5 _). split; intros Hw.
  - by rewrite decide_True.
  - rewrite decide_False by lia.
    case_bool_decide as Hmaj; destruct (PSM.state m) eqn:Hst; simpl;
      (split_and!; [split | split | | | ]; try done; try lia).
Qed.

(** No transition is evaluated before the fifth sample. *)
Lemma machine_after_warmup ss :
  (length ss < 5)%nat →
  PSM.state (machine_after ss).1 = NOT_SPEAKING ∧ (machine_after ss).2 = d0.
Proof.
  induction ss as [|s ss IH] using rev_ind; [done|].
  rewrite length_app. simpl. intros Hlen.
  destruct IH as [IHs IHd]; [lia|].
  rewrite machine_after_snoc.
  destruct (machine_after ss) as [m d] eqn:Hm. simpl in IHs, IHd.
  pose proof (addSample_step s m d) as [Hshort _]. cbn zeta in Hshort.
  destruct Hshort as [Hs Hd].
  - rewrite slice_last_length. destruct (decide _).
    + unfold shift. destruct (PSM.samples m ++ [s]) eqn:E; simpl; [lia|].
      pose proof (machine_after_samples ss) as Hw. rewrite Hm in Hw. simpl in Hw.
      apply (f_equal length) in E. rewrite length_app, Hw, slice_last_length in E.
      simpl in E. lia.
    + pose proof (machine_after_samples ss) as Hw. rewrite Hm in Hw. simpl in Hw.
      rewrite length_app, Hw, slice_last_length. simpl. lia.
  - split; congruence.
Qed.

(** C1. For every sample sequence [ss] fed to a fresh machine and every
    further sample [s]: the window is the last 10 samples of [ss ++ [s]];
    while fewer than 5 samples exist the state stays [NOT_SPEAKING] and the
    interval store is untouched; from the fifth sample on the state after
    the call is [SPEAKING] exactly when at least 4 of the last 5 samples are
    true; a [NOT_SPEAKING] to [SPEAKING] transition appends a start interval
    at the timestamp of the first of those 5 samples, a [SPEAKING] to
    [NOT_SPEAKING] transition appends an end interval at that timestamp
    minus 100, in both cases to this participant's list only; and when the
    state does not change the store does not change. *)
Theorem addSample_hysteresis (ss : list Sample) (s : Sample) :
  let before := machine_after ss in
  let after := PSM.addSample s before in
  let five := slice_last 5 (ss ++ [s]) in
  PSM.samples after.1 = slice_last 10 (ss ++ [s]) ∧
  (length (PSM.samples after.1) ≤ 10)%nat ∧
  ((length (ss ++ [s]) < 5)%nat →
     PSM.state before.1 = NOT_SPEAKING ∧ PSM.state after.1 = NOT_SPEAKING ∧
     after.2 = before.2) ∧
  ((5 ≤ length (ss ++ [s]))%nat →
     length five = 5%nat ∧
     (PSM.state after.1 = SPEAKING ↔ (4 ≤ trues five)%nat) ∧
     (PSM.state after.1 = NOT_SPEAKING ↔ (trues five < 4)%nat) ∧
     (PSM.state before.1 = NOT_SPEAKING → PSM.state after.1 = SPEAKING →
        DSM.intervalsOf pid after.2 =
          DSM.intervalsOf pid before.2 ++ [mkInterval IStart (first_timestamp five)] ∧
        (∀ q, q ≠ pid → DSM.intervalsOf q after.2 = DSM.intervalsOf q before.2)) ∧
     (PSM.state before.1 = SPEAKING → PSM.state after.1 = NOT_SPEAKING →
        DSM.intervalsOf pid after.2 =
          DSM.intervalsOf pid before.2 ++ [mkInterval IEnd (first_timestamp five - 100)] ∧
        (∀ q, q ≠ pid → DSM.intervalsOf q after.2 = DSM.intervalsOf q before.2)) ∧
     (PSM.state after.1 = PSM.state before.1 → after.2 = before.2)).
Proof.
  cbn zeta.
  assert (Hwin : PSM.samples (PSM.addSample s (machine_after ss)).1
                 = slice_last 10 (ss ++ [s])).
  { rewrite <- machine_after_snoc. apply machine_after_samples. }
  split; [exact Hwin|]. split; [rewrite Hwin, slice_last_length; lia|].
  pose proof (machine_after_samples ss) as Hprev.
  pose proof (machine_after_participantId ss) as Hpid.
  destruct (machine_after ss) as [m d] eqn:Hm. simpl in Hprev, Hpid.
  pose proof (addSample_step s m d) as Hstep. cbn zeta in Hstep.
  rewrite Hprev in Hstep.
  rewrite (slice_last_push 10 ss s) in Hstep by lia.
  rewrite slice_last_slice_last in Hstep by lia.
  destruct Hstep as [Hshort Hlong].
  assert (Hfive : length (slice_last 5 (ss ++ [s])) = (length (ss ++ [s]) `min` 5)%nat)
    by apply slice_last_length.
  split.
  - intros Hlen. destruct Hshort as [Hs Hd]; [lia|].
    assert (Hss : (length ss < 5)%nat) by (rewrite length_app in Hlen; simpl in Hlen; lia).
    pose proof (machine_after_warmup ss Hss) as [Hst _].
    rewrite Hm in Hst. simpl in *. split_and!; congruence.
  - intros Hlen. destruct Hlong as (Hsp & Hns & Hstart & Hend & Hsame); [lia|].
    split; [lia|]. split; [exact Hsp|]. split; [exact Hns|].
    rewrite Hpid in Hstart, Hend. split_and!.
    + intros H1 H2. rewrite (Hstart H1 H2). unfold DSM.addSpeechIntervalStart.
      split; [apply pushInterval_same|].
      intros q Hq. apply pushInterval_other. congruence.
    + intros H1 H2. rewrite (Hend H1 H2). unfold DSM.addSpeechIntervalEnd.
      split; [apply pushInterval_same|].
      intros q Hq. apply pushInterval_other. congruence.
    + exact Hsame.
Qed.
End speaking_machine.

(** ** Speaker attribution *)

Section attribution.
Implicit Types (T : Z).

Lemma le_opt_trans o x y : le_opt o x = true → x <= y → le_opt o y = true.
Proof.
  destruct o as [z|]; simpl; [|done].
  rewrite !bool_decide_eq_true. lia.
Qed.

(** In a well-timed suffix every event is at or after the last end and every
    start is at or after the last start. *)
Lemma well_timed_from_bounds l : ∀ isOpen a e,
  well_timed_from isOpen a e l = true →
  ∀ i, i ∈ l →
    le_opt e (timestampMs i) = true ∧
    (itype i = IStart → le_opt a (timestampMs i) = true).
Proof.
  induction l as [|j l IH]; intros isOpen a e Hwt i Hin.
  - by apply elem_of_nil in Hin.
  - simpl in Hwt. destruct (itype j) eqn:Hj, isOpen; try done.
    + apply andb_true_iff in Hwt as [Hwt Hrest].
      apply andb_true_iff in Hwt as [Ha He].
      apply elem_of_cons in Hin as [->|Hin]; [by rewrite Hj|].
      destruct (IH _ _ _ Hrest i Hin) as [H1 H2]. split; [done|].
      intros Hs. specialize (H2 Hs). simpl in H2.
      apply bool_decide_eq_true in H2. by apply (le_opt_trans _ (timestampMs j)).
    + apply andb_true_iff in Hwt as [He Hrest].
      apply elem_of_cons in Hin as [->|Hin]; [by rewrite Hj|].
      destruct (IH _ _ _ Hrest i Hin) as [H1 H2]. split; [|done].
      simpl in H1. apply bool_decide_eq_true in H1.
      by apply (le_opt_trans _ (timestampMs j)).
Qed.

Lemma last_event_at_cons_later T i l :
  T < timestampMs i → last_event_at T (i :: l) = last_event_at T l.
Proof.
  intros Hlt. unfold last_event_at. rewrite filter_cons.
  by rewrite decide_False by lia.
Qed.

Lemma last_event_at_cons T i l :
  timestampMs i <= T →
  last_event_at T (i :: l) =
    match last_event_at T l with Some j => Some j | None => Some i end.
Proof.
  intros Hle. unfold last_event_at. rewrite filter_cons.
  rewrite decide_True by lia. apply last_cons.
Qed.

Lemma last_event_at_elem T l i :
  last_event_at T l = Some i → i ∈ l ∧ timestampMs i <= T.
Proof.
  unfold last_event_at. intros Hl. apply last_Some in Hl as [l' Hl'].
  assert (Hin : i ∈ filter (λ i, timestampMs i <= T) l).
  { rewrite Hl'. apply elem_of_app. right. apply list_elem_of_here. }
  apply list_elem_of_filter in Hin. tauto.
Qed.

(** The scan of the code and the last event at or before [T] agree on
    well-timed lists, from any state of the loop. *)
Lemma scanIntervals_last_event T l : ∀ isOpen a e ls,
  well_timed_from isOpen a e l = true →
  let r := DSM.scanIntervals T l (isOpen, ls) in
  r.1 = match last_event_at T l with
        | Some i => bool_decide (itype i = IStart)
        | None => isOpen
        end ∧
  (r.1 = true →
   r.2 = match last_event_at T l with
         | Some i => Some (timestampMs i)
         | None => ls
         end).
Proof.
  induction l as [|i l IH]; intros isOpen a e ls Hwt; cbn zeta.
  - done.
  - simpl DSM.scanIntervals. simpl in Hwt. case_decide as Hbreak.
    + rewrite last_event_at_cons_later by done. simpl.
      destruct (last_event_at T l) as [j|] eqn:Hlast; [|done].
      apply last_event_at_elem in Hlast as [Hj HjT].
      destruct (itype i) eqn:Hi, isOpen; try done.
      * apply andb_true_iff in Hwt as [_ Hrest].
        destruct (well_timed_from_bounds _ _ _ _ Hrest j Hj) as [_ Hstart].
        destruct (itype j) eqn:Hty; [|done].
        specialize (Hstart eq_refl). simpl in Hstart.
        apply bool_decide_eq_true in Hstart. lia.
      * apply andb_true_iff in Hwt as [_ Hrest].
        destruct (well_timed_from_bounds _ _ _ _ Hrest j Hj) as [Hge _].
        simpl in Hge. apply bool_decide_eq_true in Hge. lia.
    + rewrite last_event_at_cons by lia.
      destruct (itype i) eqn:Hi, isOpen; try done.
      * apply andb_true_iff in Hwt as [_ Hrest].
        destruct (IH _ _ _ (Some (timestampMs i)) Hrest) as [H1 H2].
        destruct (last_event_at T l) as [j|]; [done|].
        split; [by rewrite H1, Hi|]. intros Hr. by apply H2.
      * apply andb_true_iff in Hwt as [_ Hrest].
        destruct (IH _ _ _ ls Hrest) as [H1 H2].
        destruct (last_event_at T l) as [j|]; [done|].
        split; [by rewrite H1, Hi|]. intros Hr. congruence.
Qed.

(** The per-participant loop returns "speaking" exactly for the open
    participants, with the start of the open interval. *)
Lemma scanIntervals_open_since T l :
  well_timed l →
  (let '(speaking, lastStart) := DSM.scanIntervals T l (false, None) in
   if speaking then lastStart else None) = open_since T l.
Proof.
  intros Hwt. destruct (scanIntervals_last_event T l _ _ _ None Hwt) as [H1 H2].
  destruct (DSM.scanIntervals T l (false, None)) as [speaking lastStart].
  simpl in H1, H2. unfold open_since.
  destruct (last_event_at T l) as [i|].
  - destruct speaking.
    + rewrite H2 by done. symmetry in H1. apply bool_decide_eq_true in H1. by rewrite H1.
    + symmetry in H1. apply bool_decide_eq_false in H1. by destruct (itype i).
  - by subst speaking.
Qed.

Lemma speakersAtTimestamp_open_set T d :
  well_formed_store d →
  DSM.speakersAtTimestamp T d =
    (fun '(p, t) => DSM.mkSpeakerAt p (Some t)) <$> open_set T d.
Proof.
  unfold well_formed_store, DSM.speakersAtTimestamp, open_set.
  induction (JsMap.entries (DSM.speechIntervalsPerParticipant d)) as [|[p l] es IH];
    intros Hwf; [done|].
  apply Forall_cons in Hwf as [[_ Hwt] Hwf]. simpl in Hwt.
  simpl. rewrite (IH Hwf).
  pose proof (scanIntervals_open_since T l Hwt) as Hs.
  destruct (scanIntervals_last_event T l _ _ _ None Hwt) as [H1 H2].
  destruct (DSM.scanIntervals T l (false, None)) as [speaking lastStart].
  simpl in H1, H2. rewrite <- Hs. destruct speaking; [|done].
  specialize (H2 eq_refl).
  destruct (last_event_at T l) as [i|]; [|done]. rewrite H2. reflexivity.
Qed.

(** *** The caption tie-breaker *)

(** [reduce] with the strict comparison returns the first element of maximal
    timestamp. *)
Lemma foldl_later_caption_split c0 rest :
  ∃ l1 l2, c0 :: rest = l1 ++ foldl later_caption c0 rest :: l2 ∧
    (∀ c', c' ∈ l1 → captionTimestampMs c' < captionTimestampMs (foldl later_caption c0 rest)) ∧
    (∀ c', c' ∈ l2 → captionTimestampMs c' <= captionTimestampMs (foldl later_caption c0 rest)).
Proof.
  induction rest as [|c rest IH] using rev_ind.
  - exists [], []. simpl. split_and!; [done | |]; intros c' Hc'; by apply elem_of_nil in Hc'.
  - destruct IH as (l1 & l2 & Heq & Hl1 & Hl2).
    rewrite foldl_app. simpl. set (m := foldl later_caption c0 rest) in *.
    assert (Hcase : (captionTimestampMs m < captionTimestampMs c ∧ later_caption m c = c)
                    ∨ (¬ captionTimestampMs m < captionTimestampMs c ∧ later_caption m c = m)).
    { unfold later_caption. case_decide; auto. }
    destruct Hcase as [[Hlt ->]|[Hlt ->]].
    + exists (c0 :: rest), []. split_and!.
      * by rewrite app_comm_cons.
      * intros c' Hc'. rewrite Heq in Hc'.
        apply elem_of_app in Hc' as [Hc'|Hc'].
        -- specialize (Hl1 _ Hc'). lia.
        -- apply elem_of_cons in Hc' as [->|Hc']; [done|].
           specialize (Hl2 _ Hc'). lia.
      * intros c' Hc'. by apply elem_of_nil in Hc'.
    + exists l1, (l2 ++ [c]). split_and!.
      * rewrite app_comm_cons, Heq. by rewrite <- app_assoc.
      * done.
      * intros c' Hc'. apply elem_of_app in Hc' as [Hc'|Hc'].
        -- by apply Hl2.
        -- apply list_elem_of_singleton in Hc' as ->. lia.
Qed.

Lemma filter_split_inv {A} (P : A → Prop) `{∀ x, Decision (P x)} (l : list A) k1 x k2 :
  filter P l = k1 ++ x :: k2 →
  ∃ l1 l2, l = l1 ++ x :: l2 ∧ filter P l1 = k1 ∧ filter P l2 = k2 ∧ P x.
Proof.
  revert k1. induction l as [|y l IH]; intros k1 Hf.
  - by destruct k1.
  - rewrite filter_cons in Hf. case_decide as Hy.
    + destruct k1 as [|z k1]; simpl in Hf.
      * inversion Hf; subst. exists [], l. by rewrite filter_nil.
      * inversion Hf; subst.
        destruct (IH k1) as (l1 & l2 & -> & <- & <- & HP); [done|].
        exists (z :: l1), l2. rewrite filter_cons, decide_True by done. done.
    + destruct (IH k1 Hf) as (l1 & l2 & -> & <- & <- & HP).
      exists (y :: l1), l2. rewrite filter_cons, decide_False by done. done.
Qed.

Lemma getLastSpeakerId_most_recent T d p :
  DSM.getLastSpeakerIdForTimestampMs T d = Some p →
  ∃ c, most_recent_caption T (DSM.captionAudioTimes d) c ∧ speakerId c = p.
Proof.
  unfold DSM.getLastSpeakerIdForTimestampMs. cbn zeta.
  destruct (filter _ (DSM.captionAudioTimes d)) as [|c0 rest] eqn:Hf; [done|].
  intros [= <-]. fold later_caption.
  destruct (foldl_later_caption_split c0 rest) as (k1 & k2 & Heq & Hk1 & Hk2).
  set (m := foldl later_caption c0 rest) in *.
  rewrite Heq in Hf.
  apply filter_split_inv in Hf as (l1 & l2 & Hcs & <- & <- & Hm).
  exists m. split; [|done]. exists l1, l2. split_and!; [done | done | |].
  - intros c' Hc' HT. apply Hk1. by apply list_elem_of_filter.
  - intros c' Hc' HT. apply Hk2. by apply list_elem_of_filter.
Qed.

Lemma getLastSpeakerId_None T d c :
  DSM.getLastSpeakerIdForTimestampMs T d = None →
  ¬ most_recent_caption T (DSM.captionAudioTimes d) c.
Proof.
  unfold DSM.getLastSpeakerIdForTimestampMs. cbn zeta.
  destruct (filter _ (DSM.captionAudioTimes d)) as [|c0 rest] eqn:Hf; [|done].
  intros _ (l1 & l2 & Hcs & HT & _).
  assert (Hin : c ∈ filter (λ c, captionTimestampMs c <= T) (DSM.captionAudioTimes d)).
  { apply list_elem_of_filter. split; [done|]. rewrite Hcs.
    apply elem_of_app. right. apply list_elem_of_here. }
  rewrite Hf in Hin. by apply elem_of_nil in Hin.
Qed.

Lemma split_compare {A} (l1 l2 k1 k2 : list A) x y :
  l1 ++ x :: l2 = k1 ++ y :: k2 →
  (x = y ∧ l1 = k1 ∧ l2 = k2) ∨ (x ∈ k1 ∧ y ∈ l2) ∨ (y ∈ l1 ∧ x ∈ k2).
Proof.
  revert k1. induction l1 as [|a l1 IH]; intros [|b k1] Heq; simpl in Heq.
  - inversion Heq. by left.
  - inversion Heq; subst. right; left. split; [apply list_elem_of_here|].
    apply elem_of_app. right. apply list_elem_of_here.
  - inversion Heq; subst. right; right. split; [apply list_elem_of_here|].
    apply elem_of_app. right. apply list_elem_of_here.
  - inversion Heq as [[Hab Htl]]; subst.
    destruct (IH k1 Htl) as [(-> & -> & ->)|[[Hx Hy]|[Hy Hx]]].
    + by left.
    + right; left. split; [by apply list_elem_of_further | done].
    + right; right. split; [by apply list_elem_of_further | done].
Qed.

(** There is at most one most recent caption entry. *)
Lemma most_recent_caption_unique T cs c c' :
  most_recent_caption T cs c → most_recent_caption T cs c' → c = c'.
Proof.
  intros (l1 & l2 & Hcs & HT & Hb & Ha) (k1 & k2 & Hcs' & HT' & Hb' & Ha').
  rewrite Hcs in Hcs'.
  destruct (split_compare _ _ _ _ _ _ Hcs') as [(-> & _)|[[H1 H2]|[H1 H2]]]; [done| |].
  - specialize (Hb' _ H1 HT). specialize (Ha _ H2 HT'). lia.
  - specialize (Hb _ H1 HT'). specialize (Ha' _ H2 HT). lia.
Qed.

(** *** The earliest start *)

Lemma foldl_earlier_speaker s0 rest :
  let m := foldl earlier_speaker s0 rest in
  m ∈ s0 :: rest ∧
  ∀ s, s ∈ s0 :: rest →
    DSM.toNumber (DSM.timestampMsOfLastStart m) <= DSM.toNumber (DSM.timestampMsOfLastStart s).
Proof.
  cbn zeta. revert s0. induction rest as [|s1 rest IH]; intros s0; simpl.
  - split; [apply list_elem_of_here|].
    intros s Hs. apply list_elem_of_singleton in Hs as ->. lia.
  - destruct (IH (earlier_speaker s0 s1)) as [Hin Hmin]. split.
    + apply elem_of_cons in Hin as [Hin|Hin].
      * rewrite Hin. unfold earlier_speaker. case_decide.
        -- apply list_elem_of_further, list_elem_of_here.
        -- apply list_elem_of_here.
      * by do 2 apply list_elem_of_further.
    + intros s Hs.
      assert (Hle : DSM.toNumber (DSM.timestampMsOfLastStart (foldl earlier_speaker (earlier_speaker s0 s1) rest))
                    <= DSM.toNumber (DSM.timestampMsOfLastStart (earlier_speaker s0 s1))).
      { apply Hmin, list_elem_of_here. }
      assert (Hpick : DSM.toNumber (DSM.timestampMsOfLastStart (earlier_speaker s0 s1))
                        <= DSM.toNumber (DSM.timestampMsOfLastStart s0)
                      ∧ DSM.toNumber (DSM.timestampMsOfLastStart (earlier_speaker s0 s1))
                        <= DSM.toNumber (DSM.timestampMsOfLastStart s1)).
      { unfold earlier_speaker. case_decide; lia. }
      apply elem_of_cons in Hs as [->|Hs]; [lia|].
      apply elem_of_cons in Hs as [->|Hs]; [lia|].
      apply Hmin. by apply list_elem_of_further.
Qed.

(** *** The query *)

Lemma truthy_nonempty s : truthy s = true ↔ s ≠ "".
Proof. destruct s; simpl; split; done. Qed.

Lemma open_set_nonempty_id T d p t :
  well_formed_store d → (p, t) ∈ open_set T d → p ≠ "".
Proof.
  unfold well_formed_store, open_set. intros Hwf Hin.
  apply list_elem_of_omap in Hin as ([q l] & Hql & Hsome).
  rewrite Forall_forall in Hwf. destruct (Hwf _ Hql) as [Hne _].
  destruct (open_since T l); simpl in Hsome; [|done].
  inversion Hsome; subst. done.
Qed.

Lemma existsb_speaker_entry q (open : list (string * Z)) :
  existsb (fun s => bool_decide (DSM.atSpeakerId s = q)) (speaker_entry <$> open) = true
  ↔ q ∈ open.*1.
Proof.
  rewrite existsb_exists. split.
  - intros (s & Hs & Hq). apply bool_decide_eq_true in Hq.
    apply list_elem_of_In, list_elem_of_fmap in Hs as ([p t] & -> & Hin).
    simpl in Hq. subst q. apply list_elem_of_fmap. by exists (p, t).
  - intros Hq. apply list_elem_of_fmap in Hq as ([p t] & -> & Hin).
    exists (DSM.mkSpeakerAt p (Some t)). split.
    + apply list_elem_of_In, list_elem_of_fmap. by exists (p, t).
    + by apply bool_decide_eq_true.
Qed.

(** C2. On a store of well-timed interval lists, for every query timestamp
    [T]: when no participant is open at [T] the query returns none; when
    exactly one is open it returns that participant; when several are open it
    returns the participant named by the most recent caption-correlation
    entry at or before [T] if that participant is among the open ones, and
    otherwise an open participant whose current interval started earliest. *)
Theorem speaker_for_timestamp (d : DSM.t) T :
  well_formed_store d →
  let open := open_set T d in
  let r := DSM.getSpeakerIdForTimestampMsUsingSpeechIntervals T d in
  (open = [] → r = None) ∧
  (∀ p t, open = [(p, t)] → r = Some p) ∧
  ((2 ≤ length open)%nat →
     (∀ c, most_recent_caption T (DSM.captionAudioTimes d) c →
           speakerId c ∈ open.*1 → r = Some (speakerId c)) ∧
     ((∀ c, most_recent_caption T (DSM.captionAudioTimes d) c →
            speakerId c ∉ open.*1) →
      ∃ p t, (p, t) ∈ open ∧ r = Some p ∧ ∀ q t', (q, t') ∈ open → t <= t')).
Proof.
  intros Hwf. cbn zeta.
  unfold DSM.getSpeakerIdForTimestampMsUsingSpeechIntervals. cbn zeta.
  rewrite (speakersAtTimestamp_open_set T d Hwf). fold speaker_entry.
  pose proof (open_set_nonempty_id T d) as Hids.
  destruct (open_set T d) as [|[p1 t1] [|[p2 t2] rest]] eqn:Hopen.
  - split_and!; [done | done | simpl; lia].
  - split_and!; [done | by intros ? ? [= -> ->] | simpl; lia].
  - split; [done|]. split; [done|]. intros _.
    set (open := (p1, t1) :: (p2, t2) :: rest) in *.
    change (speaker_entry <$> open)
      with (speaker_entry (p1, t1) :: (speaker_entry <$> ((p2, t2) :: rest))).
    cbn iota beta.
    change (speaker_entry (p1, t1) :: (speaker_entry <$> ((p2, t2) :: rest)))
      with (speaker_entry <$> open).
    fold earlier_speaker. split.
    + intros c Hc Hin.
      assert (Hlen : (0 < length (DSM.captionAudioTimes d))%nat).
      { destruct Hc as (l1 & l2 & -> & _). rewrite length_app. simpl. lia. }
      rewrite decide_True by done.
      destruct (DSM.getLastSpeakerIdForTimestampMs T d) as [q|] eqn:Hlast.
      * apply getLastSpeakerId_most_recent in Hlast as (c' & Hc' & <-).
        rewrite (most_recent_caption_unique _ _ _ _ Hc' Hc).
        assert (Htruthy : truthy (speakerId c) = true).
        { apply truthy_nonempty. apply list_elem_of_fmap in Hin as ([p t] & -> & Hpt).
          by apply (Hids p t Hwf). }
        apply existsb_speaker_entry in Hin. by rewrite Htruthy, Hin.
      * by apply (getLastSpeakerId_None T d c) in Hlast.
    + intros Hnone.
      assert (Htie :
        (if decide (0 < length (DSM.captionAudioTimes d))%nat then
           match DSM.getLastSpeakerIdForTimestampMs T d with
           | Some q =>
               if truthy q
                  && existsb (fun s => bool_decide (DSM.atSpeakerId s = q))
                             (speaker_entry <$> open)
               then Some q else None
           | None => None
           end
         else None) = None).
      { case_decide; [|done].
        destruct (DSM.getLastSpeakerIdForTimestampMs T d) as [q|] eqn:Hlast; [|done].
        apply getLastSpeakerId_most_recent in Hlast as (c' & Hc' & <-).
        specialize (Hnone _ Hc').
        destruct (existsb _ (speaker_entry <$> open)) eqn:Hex.
        - by apply existsb_speaker_entry in Hex.
        - by rewrite andb_false_r. }
      rewrite Htie.
      destruct (foldl_earlier_speaker (speaker_entry (p1, t1))
                  (speaker_entry <$> ((p2, t2) :: rest))) as [Hin Hmin].
      set (m := foldl earlier_speaker _ _) in *.
      change (speaker_entry (p1, t1) :: (speaker_entry <$> ((p2, t2) :: rest)))
        with (speaker_entry <$> open) in Hin, Hmin.
      clearbody m.
      apply list_elem_of_fmap in Hin as ([p t] & Hm & Hpt).
      exists p, t. split; [done|]. split; [by rewrite Hm|].
      intros q t' Hq.
      assert (Hq' : speaker_entry (q, t') ∈ speaker_entry <$> open).
      { apply list_elem_of_fmap. by exists (q, t'). }
      specialize (Hmin _ Hq'). rewrite Hm in Hmin. exact Hmin.
Qed.

Lemma speaker_for_timestamp_witness :
  well_formed_store two_open_store ∧
  ∃ p t, (p, t) ∈ open_set 30 two_open_store ∧
    DSM.getSpeakerIdForTimestampMsUsingSpeechIntervals 30 two_open_store = Some p ∧
    ∀ q t', (q, t') ∈ open_set 30 two_open_store → t <= t'.
Proof.
  assert (Hwf : well_formed_store two_open_store).
  { repeat constructor; simpl; discriminate. }
  split; [exact Hwf|].
  destruct (speaker_for_timestamp two_open_store 30 Hwf) as (_ & _ & Hmany).
  destruct Hmany as [_ Hearliest]; [vm_compute; lia|].
  apply Hearliest. intros c (l1 & l2 & Hcs & _). simpl in Hcs.
  by destruct l1.
Defined.


End attribution.

(** ** The interval lists a state machine writes *)

Lemma well_timed_from_app (l1 l2 : list SpeechInterval) : ∀ isOpen a e,
  well_timed_from isOpen a e (l1 ++ l2)
  = well_timed_from isOpen a e l1
    && (let '(isOpen', a', e') := timing_after isOpen a e l1 in
        well_timed_from isOpen' a' e' l2).
Proof.
  induction l1 as [|i l1 IH]; intros isOpen a e; [done|].
  simpl. destruct (itype i), isOpen; try done; rewrite IH.
  - by rewrite !andb_assoc.
  - by rewrite !andb_assoc.
Qed.

Lemma timing_after_app (l1 l2 : list SpeechInterval) : ∀ isOpen a e,
  timing_after isOpen a e (l1 ++ l2)
  = (let '(isOpen', a', e') := timing_after isOpen a e l1 in
     timing_after isOpen' a' e' l2).
Proof.
  induction l1 as [|i l1 IH]; intros isOpen a e; simpl.
  - by destruct isOpen.
  - destruct (itype i); apply IH.
Qed.

Lemma non_decreasing_app_l (ss : list Sample) (s : Sample) :
  non_decreasing (ss ++ [s]) → non_decreasing ss.
Proof.
  intros Hmono i j a b Hij Ha Hb.
  apply (Hmono i j a b Hij); by apply lookup_app_l_Some.
Qed.

(** The first sample of the window of five. *)
Lemma first_timestamp_slice (ss : list Sample) :
  (5 ≤ length ss)%nat →
  ∃ a, ss !! (length ss - 5)%nat = Some a
       ∧ first_timestamp (slice_last 5 ss) = timestamp a.
Proof.
  intros Hlen. unfold slice_last, first_timestamp.
  destruct (lookup_lt_is_Some_2 ss (length ss - 5)%nat) as [a Ha]; [lia|].
  exists a. split; [done|].
  pose proof (lookup_drop ss (length ss - 5) 0) as Hd.
  rewrite Nat.add_0_r, Ha in Hd.
  destruct (drop (length ss - 5) ss) as [|x w]; [done|].
  simpl in Hd. by injection Hd as ->.
Qed.

(** The window of five moves forward in time. *)
Lemma first_timestamp_mono (ss : list Sample) (s : Sample) :
  non_decreasing (ss ++ [s]) → (5 ≤ length ss)%nat →
  first_timestamp (slice_last 5 ss) <= first_timestamp (slice_last 5 (ss ++ [s])).
Proof.
  intros Hmono Hlen.
  destruct (first_timestamp_slice ss Hlen) as (a & Ha & ->).
  destruct (first_timestamp_slice (ss ++ [s])) as (b & Hb & ->).
  { rewrite length_app. simpl. lia. }
  apply (Hmono (length ss - 5)%nat (length (ss ++ [s]) - 5)%nat).
  - rewrite length_app. simpl. lia.
  - by apply lookup_app_l_Some.
  - done.
Qed.

Section interval_shape.

Variable pid : string.
Variable d0 : DSM.t.
Hypothesis no_intervals_yet : DSM.intervalsOf pid d0 = [].

Lemma machine_shape (ss : list Sample) : non_decreasing ss → shape_after pid d0 ss.
Proof.
  induction ss as [|s ss IH] using rev_ind; intros Hmono.
  { unfold shape_after, machine_after. simpl. rewrite no_intervals_yet.
    split; [done|]. exists None, None. split_and!; [done|done|simpl; lia]. }
  specialize (IH (non_decreasing_app_l ss s Hmono)).
  unfold shape_after in IH |- *. cbn zeta in IH |- *.
  rewrite machine_after_snoc.
  pose proof (machine_after_samples pid d0 ss) as Hprev.
  pose proof (machine_after_participantId pid d0 ss) as Hpid.
  destruct (machine_after pid d0 ss) as [m d] eqn:Hm.
  cbn [fst snd] in IH, Hprev, Hpid.
  destruct IH as (Hwt & a & e & Htiming & Hshort & Hlong).
  pose proof (addSample_step s m d) as Hstep. cbn zeta in Hstep.
  rewrite Hprev in Hstep.
  rewrite (slice_last_push 10 ss s) in Hstep by lia.
  rewrite slice_last_slice_last in Hstep by lia.
  pose proof (slice_last_length 5 (ss ++ [s])) as Hfive.
  rewrite length_app in Hfive |- *. cbn [length] in Hfive |- *.
  destruct Hstep as [Hwarm Hrun].
  destruct (decide (length ss + 1 < 5)%nat) as [Hlt|Hge].
  - destruct Hwarm as [Hstate ->]; [lia|]. rewrite Hstate.
    split; [done|]. exists a, e. split_and!; [done| |lia].
    intros _. apply Hshort. lia.
  - destruct Hrun as (_ & _ & Hstart & Hend & Hsame); [lia|].
    rewrite Hpid in Hstart, Hend.
    set (T := first_timestamp (slice_last 5 (ss ++ [s]))) in *.
    assert (Hbounds : le_opt a T = true ∧ le_opt e (T - 100) = true).
    { destruct (decide (length ss < 5)%nat) as [H4|H5].
      - destruct Hshort as [-> ->]; done.
      - destruct Hlong as [Ha He]; [lia|].
        pose proof (first_timestamp_mono ss s Hmono ltac:(lia)) as Hle. fold T in Hle.
        split; [by eapply le_opt_trans|]. eapply le_opt_trans; [exact He|lia]. }
    destruct Hbounds as [Ha He].
    destruct (PSM.state m) eqn:Hbefore,
             (PSM.state (fst (PSM.addSample s (m, d)))) eqn:Hafter.
    + rewrite Hsame by done. split; [done|]. exists a, e.
      split_and!; [done|lia|done].
    + rewrite Hstart by done. unfold DSM.addSpeechIntervalStart.
      rewrite pushInterval_same. unfold well_timed.
      rewrite well_timed_from_app, timing_after_app, Htiming.
      rewrite bool_decide_eq_false_2 by done. cbn.
      split.
      * unfold well_timed in Hwt. rewrite Hwt, Ha. cbn.
        rewrite (le_opt_trans e (T - 100) T He) by lia. done.
      * exists (Some T), e. split_and!; [done|lia|].
        intros _. split; [cbn; by rewrite bool_decide_eq_true|done].
    + rewrite Hend by done. unfold DSM.addSpeechIntervalEnd.
      rewrite pushInterval_same. unfold well_timed.
      rewrite well_timed_from_app, timing_after_app, Htiming.
      rewrite bool_decide_eq_true_2 by done. cbn.
      split.
      * unfold well_timed in Hwt. rewrite Hwt, He. done.
      * exists a, (Some (T - 100)). split_and!; [done|lia|].
        intros _. split; [done|cbn; by rewrite bool_decide_eq_true].
    + rewrite Hsame by done. split; [done|]. exists a, e.
      split_and!; [done|lia|done].
Qed.

(** Fed samples in the order of their timestamps, the machine writes a
    well-timed list for its participant. *)
Lemma machine_writes_well_timed (ss : list Sample) :
  non_decreasing ss →
  well_timed (DSM.intervalsOf pid (snd (machine_after pid d0 ss))).
Proof. intros Hmono. by destruct (machine_shape ss Hmono) as [Hwt _]. Qed.

End interval_shape.

(** ** Wire framing *)

Section wire_framing.
Import ByteArray.

Lemma le_bytes_length n v : length (le_bytes n v) = n.
Proof. revert v. induction n as [|n IH]; intros v; simpl; [done | by rewrite IH]. Qed.

Lemma le_bytes_is_byte n v : Forall is_byte (le_bytes n v).
Proof.
  revert v. induction n as [|n IH]; intros v; simpl; constructor; [|apply IH].
  unfold is_byte. apply Z.mod_pos_bound. lia.
Qed.

(** The little-endian bytes hold the value modulo [2^(8n)]. *)
Lemma le_value_le_bytes n v : le_value (le_bytes n v) = v `mod` 2 ^ (8 * Z.of_nat n).
Proof.
  revert v. induction n as [|n IH]; intros v.
  - simpl. by rewrite Z.mod_1_r.
  - cbn [le_bytes le_value]. rewrite IH.
    replace (8 * Z.of_nat (S n)) with (8 + 8 * Z.of_nat n) by lia.
    rewrite Z.pow_add_r by lia. change (2 ^ 8) with 256.
    rewrite Z.rem_mul_r by lia. reflexivity.
Qed.

(** A value in the signed range of [n] bytes is read back as written. *)
Lemma le_signed_le_bytes n v :
  (0 < n)%nat →
  - 2 ^ (8 * Z.of_nat n - 1) <= v < 2 ^ (8 * Z.of_nat n - 1) →
  le_signed (le_bytes n v) = v.
Proof.
  intros Hn Hv. unfold le_signed. cbn zeta.
  rewrite le_value_le_bytes, le_bytes_length.
  set (m := 2 ^ (8 * Z.of_nat n)).
  assert (Hm : m = 2 * 2 ^ (8 * Z.of_nat n - 1)).
  { unfold m. rewrite <- Z.pow_succ_r by lia. f_equal. lia. }
  assert (Hhalf : m `div` 2 = 2 ^ (8 * Z.of_nat n - 1)).
  { rewrite Hm. rewrite Z.mul_comm. apply Z.div_mul. lia. }
  rewrite Hhalf. set (h := 2 ^ (8 * Z.of_nat n - 1)) in *.
  assert (0 < h) by (apply Z.pow_pos_nonneg; lia).
  destruct (decide (0 <= v)) as [Hpos|Hneg].
  - rewrite Z.mod_small by lia. rewrite decide_True by lia. done.
  - assert (Hmod : v `mod` m = v + m).
    { symmetry. apply (Z.mod_unique _ _ (-1)); lia. }
    rewrite Hmod. rewrite decide_False by lia. lia.
Qed.

Lemma set_fill off (pre mid post src : list Z) :
  length pre = off → length mid = length src →
  set src off (pre ++ mid ++ post) = Some (pre ++ src ++ post).
Proof.
  intros <- Hlen. unfold set. rewrite decide_True.
  - rewrite take_app_length. rewrite <- Hlen, (app_assoc pre mid post).
    rewrite drop_app_length'; [done | by rewrite length_app].
  - rewrite !length_app. lia.
Qed.

Lemma set_fill_head (mid post src : list Z) :
  length mid = length src → set src 0 (mid ++ post) = Some (src ++ post).
Proof. intros Hlen. by apply (set_fill 0 []). Qed.

Lemma set_fill_tail off (pre mid src : list Z) :
  length pre = off → length mid = length src →
  set src off (pre ++ mid) = Some (pre ++ src).
Proof.
  intros Hpre Hlen. pose proof (set_fill off pre mid [] src Hpre Hlen) as Hset.
  by rewrite !app_nil_r in Hset.
Qed.

Lemma create_add n k : create (n + k) = create n ++ create k.
Proof. apply replicate_add. Qed.

Lemma create_length n : length (create n) = n.
Proof. apply length_replicate. Qed.

(** The message [sendPerParticipantAudio] builds is the stated framing. *)
Lemma perParticipantAudioMessage_frame participantId audioData :
  (length (encodeText participantId) ≤ 255)%nat →
  WebSocketClient.perParticipantAudioMessage participantId audioData
  = Some (perParticipantAudioFrame participantId audioData).
Proof.
  intros Hmax. unfold WebSocketClient.perParticipantAudioMessage, perParticipantAudioFrame.
  cbn zeta. set (idBytes := encodeText participantId) in *.
  rewrite !create_add, <- !app_assoc.
  unfold setInt32, setUint8.
  set (tag := le_bytes 4 WebSocketClient.MESSAGE_TYPES_PER_PARTICIPANT_AUDIO).
  rewrite (set_fill_head (create 4) _ tag) by done.
  cbn [mbind option_bind].
  rewrite (set_fill 4 tag (create 1)) by done.
  cbn [mbind option_bind].
  rewrite (app_assoc tag).
  rewrite (set_fill 5 _ (create (length idBytes)) _ idBytes)
    by (done || apply create_length).
  cbn [mbind option_bind].
  rewrite (app_assoc _ idBytes).
  rewrite (set_fill_tail _ _ (create (length audioData)) audioData).
  - rewrite <- !app_assoc. cbn [le_bytes]. by rewrite Z.mod_small by lia.
  - by rewrite !length_app.
  - apply create_length.
Qed.

Lemma videoMessage_frame timestamp streamId width height videoData :
  WebSocketClient.videoMessage timestamp streamId width height videoData
  = Some (videoFrame timestamp streamId width height videoData).
Proof.
  unfold WebSocketClient.videoMessage, videoFrame.
  cbn zeta. set (idBytes := encodeText streamId).
  rewrite !create_add, <- !app_assoc.
  unfold setInt32, setBigInt64.
  set (tag := le_bytes 4 WebSocketClient.MESSAGE_TYPES_VIDEO).
  rewrite (set_fill_head (create 4) _ tag) by done.
  cbn [mbind option_bind].
  rewrite (set_fill 4 tag (create 8)) by (done || by rewrite le_bytes_length).
  cbn [mbind option_bind].
  rewrite (app_assoc tag).
  rewrite (set_fill 12 _ (create 4)); [| by rewrite length_app, le_bytes_length | done].
  cbn [mbind option_bind].
  rewrite (app_assoc _ (le_bytes 4 _)).
  rewrite (set_fill 16 _ (create (length idBytes)) _ idBytes);
    [| by rewrite !length_app, !le_bytes_length | apply create_length].
  cbn [mbind option_bind].
  rewrite (app_assoc _ idBytes).
  rewrite (set_fill _ _ (create 4) _ (le_bytes 4 width));
    [| by rewrite !length_app, !le_bytes_length | done].
  cbn [mbind option_bind].
  rewrite (app_assoc _ (le_bytes 4 width)).
  rewrite (set_fill _ _ (create 4) _ (le_bytes 4 height));
    [| by rewrite !length_app, !le_bytes_length | done].
  cbn [mbind option_bind].
  rewrite (app_assoc _ (le_bytes 4 height)).
  rewrite (set_fill_tail _ _ (create (length videoData)) videoData).
  - by rewrite <- !app_assoc.
  - unfold tag. rewrite !length_app, !le_bytes_length. lia.
  - apply create_length.
Qed.

Lemma decodeText_encodeText s : decodeText (encodeText s) = s.
Proof.
  unfold decodeText, encodeText. rewrite <- list_fmap_compose.
  rewrite (list_fmap_ext _ id (String.list_ascii_of_string s)).
  - rewrite list_fmap_id. apply String.string_of_list_ascii_of_string.
  - intros i a _. simpl. rewrite N2Z.id. apply Ascii.ascii_N_embedding.
Qed.

Lemma decode_perParticipantAudioFrame participantId samples :
  (length (encodeText participantId) ≤ 255)%nat →
  decode (perParticipantAudioFrame participantId samples)
  = Some (PerParticipantAudio participantId samples).
Proof.
  intros Hmax. unfold decode, perParticipantAudioFrame.
  set (idBytes := encodeText participantId) in *.
  rewrite decide_False by (rewrite length_app, le_bytes_length; lia).
  rewrite (take_app_length' (le_bytes 4 _)) by (by rewrite le_bytes_length).
  change (le_signed (le_bytes 4 WebSocketClient.MESSAGE_TYPES_PER_PARTICIPANT_AUDIO))
    with 5.
  rewrite decide_True by done.
  rewrite (drop_app_length' (le_bytes 4 _)) by (by rewrite le_bytes_length).
  cbn [app]. rewrite Nat2Z.id.
  rewrite decide_False by (rewrite length_app; lia).
  rewrite take_app_length, drop_app_length.
  subst idBytes. by rewrite decodeText_encodeText.
Qed.

Local Ltac signed_range :=
  first [ lia
        | change (8 * Z.of_nat 8 - 1) with 63; lia
        | change (8 * Z.of_nat 4 - 1) with 31; lia ].

Lemma decode_videoFrame timestamp streamId width height pixels :
  - 2 ^ 63 <= timestamp < 2 ^ 63 →
  Z.of_nat (length (encodeText streamId)) < 2 ^ 31 →
  - 2 ^ 31 <= width < 2 ^ 31 →
  - 2 ^ 31 <= height < 2 ^ 31 →
  decode (videoFrame timestamp streamId width height pixels)
  = Some (Video timestamp streamId width height pixels).
Proof.
  intros Hts Hlen Hw Hh. unfold decode, videoFrame.
  set (idBytes := encodeText streamId) in *.
  set (n := length idBytes) in *.
  rewrite decide_False by (rewrite length_app, le_bytes_length; lia).
  rewrite (take_app_length' (le_bytes 4 _)) by (by rewrite le_bytes_length).
  change (le_signed (le_bytes 4 WebSocketClient.MESSAGE_TYPES_VIDEO)) with 2.
  rewrite decide_False by done. rewrite decide_True by done.
  rewrite (drop_app_length' (le_bytes 4 _)) by (by rewrite le_bytes_length).
  cbn zeta.
  rewrite decide_False by (rewrite !length_app, !le_bytes_length; lia).
  rewrite (take_app_length' (le_bytes 8 _)) by (by rewrite le_bytes_length).
  rewrite le_signed_le_bytes by signed_range.
  rewrite (drop_app_length' (le_bytes 8 _) _ 8) by (by rewrite le_bytes_length).
  rewrite (take_app_length' (le_bytes 4 _)) by (by rewrite le_bytes_length).
  rewrite le_signed_le_bytes by signed_range.
  rewrite Nat2Z.id.
  rewrite (app_assoc (le_bytes 8 _)).
  rewrite (drop_app_length' (le_bytes 8 _ ++ le_bytes 4 _) _ 12)
    by (by rewrite length_app, !le_bytes_length).
  rewrite decide_False by (rewrite !length_app, !le_bytes_length; fold n; lia).
  rewrite (take_app_length' idBytes) by done.
  rewrite (drop_app_length' idBytes) by done.
  rewrite (take_app_length' (le_bytes 4 width)) by (by rewrite le_bytes_length).
  rewrite le_signed_le_bytes by signed_range.
  rewrite (app_assoc idBytes).
  rewrite (drop_app_length' (idBytes ++ le_bytes 4 width))
    by (by rewrite length_app, le_bytes_length).
  rewrite (take_app_length' (le_bytes 4 height)) by (by rewrite le_bytes_length).
  rewrite le_signed_le_bytes by signed_range.
  rewrite (app_assoc (idBytes ++ _)).
  rewrite (drop_app_length' ((idBytes ++ le_bytes 4 width) ++ le_bytes 4 height))
    by (rewrite !length_app, !le_bytes_length; fold n; lia).
  subst n idBytes. by rewrite decodeText_encodeText.
Qed.

(** C8. With the socket open and media sending enabled, the message sent for
    a participant's audio is the 4-byte little-endian tag 5, one byte holding
    the length of the participant id, the id bytes and the sample payload, and
    the message sent for a video frame is the 4-byte tag 2, the 8-byte
    timestamp, the 4-byte stream-id length, the stream-id bytes, the 4-byte
    width, the 4-byte height and the pixel payload, all little-endian;
    decoding either message by that layout returns every field as it was
    given, for participant ids of 0 to 255 bytes and fields within the range
    of their width. *)
Theorem wire_framing_round_trip (ws : WebSocketClient.t)
    (participantId : string) (audioData : list Z)
    (timestamp : Z) (streamId : string) (width height : Z) (videoData : list Z) :
  WebSocketClient.readyStateOpen ws = true →
  WebSocketClient.mediaSendingEnabled ws = true →
  (length (encodeText participantId) ≤ 255)%nat →
  - 2 ^ 63 <= timestamp < 2 ^ 63 →
  Z.of_nat (length (encodeText streamId)) < 2 ^ 31 →
  - 2 ^ 31 <= width < 2 ^ 31 →
  - 2 ^ 31 <= height < 2 ^ 31 →
  (WebSocketClient.outbox (WebSocketClient.sendPerParticipantAudio participantId audioData ws)
   = WebSocketClient.outbox ws
     ++ [SentBytes (perParticipantAudioFrame participantId audioData)]) ∧
  decode (perParticipantAudioFrame participantId audioData)
  = Some (PerParticipantAudio participantId audioData) ∧
  (WebSocketClient.outbox
     (WebSocketClient.sendVideo timestamp streamId width height videoData ws)
   = WebSocketClient.outbox ws
     ++ [SentBytes (videoFrame timestamp streamId width height videoData)]) ∧
  decode (videoFrame timestamp streamId width height videoData)
  = Some (Video timestamp streamId width height videoData).
Proof.
  intros Hopen Hmedia Hmax Hts Hlen Hw Hh.
  unfold WebSocketClient.sendPerParticipantAudio, WebSocketClient.sendVideo.
  rewrite Hopen, Hmedia. simpl negb. cbn iota.
  rewrite perParticipantAudioMessage_frame by done.
  rewrite videoMessage_frame.
  split_and!; [done | by apply decode_perParticipantAudioFrame | done
              | by apply decode_videoFrame].
Qed.

(** A participant id of the maximum length, 255 bytes. *)
Lemma wire_framing_round_trip_witness :
  let longest := String.string_of_list_ascii (replicate 255 (Ascii.ascii_of_nat 97)) in
  length (encodeText longest) = 255%nat ∧
  decode (perParticipantAudioFrame longest [1; 2; 3; 4])
  = Some (PerParticipantAudio longest [1; 2; 3; 4]) ∧
  decode (videoFrame 1000 "55" 640 360 [16; 128; 128])
  = Some (Video 1000 "55" 640 360 [16; 128; 128]).
Proof.
  cbn zeta. split; [vm_compute; reflexivity|].
  destruct (wire_framing_round_trip
              (WebSocketClient.mk true true [])
              (String.string_of_list_ascii (replicate 255 (Ascii.ascii_of_nat 97))) [1; 2; 3; 4]
              1000 "55" 640 360 [16; 128; 128])
    as (_ & Haudio & _ & Hvideo).
  - reflexivity.
  - reflexivity.
  - vm_compute. lia.
  - vm_compute. split; [discriminate | reflexivity].
  - vm_compute. reflexivity.
  - vm_compute. split; [discriminate | reflexivity].
  - vm_compute. split; [discriminate | reflexivity].
  - split; [exact Haudio | exact Hvideo].
Defined.

(** The empty participant id: the length byte is 0 and the payload follows
    it directly. *)
Example wire_framing_empty_id :
  perParticipantAudioFrame "" [9; 8] = [5; 0; 0; 0; 0; 9; 8] ∧
  decode [5; 0; 0; 0; 0; 9; 8] = Some (PerParticipantAudio "" [9; 8]).
Proof. split; reflexivity. Qed.

(** An id of 256 bytes does not fit the length byte: it is written as 0. *)
Example wire_framing_id_too_long :
  let id := String.string_of_list_ascii (replicate 256 (Ascii.ascii_of_nat 97)) in
  (λ m, take 5 <$> m) (WebSocketClient.perParticipantAudioMessage id [])
  = Some [5; 0; 0; 0; 0].
Proof. vm_compute. reflexivity. Qed.

End wire_framing.

(** ** Reconciliation links *)

Section reconciliation_links.

Lemma links_consistent_new : links_consistent Mgr.new.
Proof.
  split; intros p v; simpl.
  - by rewrite !lookup_empty.
  - by rewrite lookup_empty.
Qed.

(** One operation that overwrites nothing keeps the two maps inverse. *)
Local Ltac proj_simpl :=
  unfold mutual_inverses;
  cbn [Mgr.physicalClientStreamIdToVirtualStreamIdMapping
       Mgr.virtualStreamIdToPhysicalClientStreamIdMapping].

Lemma fresh_selection_consistent m op :
  links_consistent m → selection_is_fresh m op →
  links_consistent (Mgr.upsertPhysicalClientStreamIdToVirtualStreamIdMapping op.1 op.2 m).
Proof.
  destruct op as [p v]. simpl. intros [Hinv Hne] Hfresh.
  unfold Mgr.upsertPhysicalClientStreamIdToVirtualStreamIdMapping. cbn zeta.
  case_decide as Hdel.
  - destruct (Mgr.physicalClientStreamIdToVirtualStreamIdMapping m !! p) as [v0|] eqn:Hp.
    + assert (Hv0 : truthy v0 = true) by (apply truthy_nonempty; eauto).
      rewrite Hv0. split; proj_simpl.
      * intros p' v'. destruct (decide (p' = p)) as [->|Hpp].
        -- rewrite lookup_delete_eq. split; [done|].
           destruct (decide (v' = v0)) as [->|Hvv].
           ++ by rewrite lookup_delete_eq.
           ++ rewrite lookup_delete_ne by done. intros Hr. apply Hinv in Hr. congruence.
        -- rewrite lookup_delete_ne by done. destruct (decide (v' = v0)) as [->|Hvv].
           ++ rewrite lookup_delete_eq. split; [|done].
              intros Hf. apply Hinv in Hf. apply Hinv in Hp. congruence.
           ++ rewrite lookup_delete_ne by done. apply Hinv.
      * intros p' v'. destruct (decide (p' = p)) as [->|Hpp].
        -- by rewrite lookup_delete_eq.
        -- rewrite lookup_delete_ne by done. apply Hne.
    + split; proj_simpl.
      * intros p' v'. destruct (decide (p' = p)) as [->|Hpp].
        -- rewrite lookup_delete_eq. split; [done|].
           intros Hr. apply Hinv in Hr. congruence.
        -- rewrite lookup_delete_ne by done. apply Hinv.
      * intros p' v'. destruct (decide (p' = p)) as [->|Hpp].
        -- by rewrite lookup_delete_eq.
        -- rewrite lookup_delete_ne by done. apply Hne.
  - destruct Hfresh as [Hsent|(Hv & Hp & Hr)]; [done|]. simpl in Hv, Hp, Hr.
    split; proj_simpl.
    + intros p' v'. destruct (decide (p' = p)) as [->|Hpp].
      * rewrite lookup_insert_eq. destruct (decide (v' = v)) as [->|Hvv].
        -- by rewrite lookup_insert_eq.
        -- rewrite lookup_insert_ne by done. split; [congruence|].
           intros Hr'. apply Hinv in Hr'. congruence.
      * rewrite lookup_insert_ne by done. destruct (decide (v' = v)) as [->|Hvv].
        -- rewrite lookup_insert_eq. split; [|congruence].
           intros Hf. apply Hinv in Hf. congruence.
        -- rewrite lookup_insert_ne by done. apply Hinv.
    + intros p' v'. destruct (decide (p' = p)) as [->|Hpp].
      * rewrite lookup_insert_eq. congruence.
      * rewrite lookup_insert_ne by done. apply Hne.
Qed.

(** Without overwrites the forward and the reverse map stay mutual inverses. *)
Lemma fresh_selections_mutual_inverses ops : ∀ m,
  links_consistent m → selections_are_fresh m ops →
  mutual_inverses (apply_selections ops m).
Proof.
  induction ops as [|op ops IH]; intros m Hc Hfresh; simpl.
  - apply Hc.
  - destruct Hfresh as [Hop Hrest]. apply IH; [|done].
    by apply fresh_selection_consistent.
Qed.

(** C6 (the code departs from it). Re-linking a local description identifier
    that is already linked, here "55" from roster source "9" to roster source
    "10", leaves the old entry in the reverse map: the reverse map still sends
    "9" to "55" while the forward map sends "55" to "10", so the two maps are
    not mutual inverses. *)
Theorem overwrite_breaks_mutual_inverses :
  let m := apply_selections [("55", "9"); ("55", "10")] Mgr.new in
  Mgr.physicalClientStreamIdToVirtualStreamIdMapping m !! "55" = Some "10" ∧
  Mgr.virtualStreamIdToPhysicalClientStreamIdMapping m !! "9" = Some "55" ∧
  ¬ mutual_inverses m.
Proof.
  cbn zeta.
  assert (Hf : Mgr.physicalClientStreamIdToVirtualStreamIdMapping
                 (apply_selections [("55", "9"); ("55", "10")] Mgr.new) !! "55"
               = Some "10") by (vm_compute; reflexivity).
  assert (Hr : Mgr.virtualStreamIdToPhysicalClientStreamIdMapping
                 (apply_selections [("55", "9"); ("55", "10")] Mgr.new) !! "9"
               = Some "55") by (vm_compute; reflexivity).
  split_and!; [done | done |].
  intros Hinv. apply Hinv in Hr. congruence.
Qed.

End reconciliation_links.

(** ** Selection of the video source *)

Section video_source_selection.
Variable dsm : DSM.t.
Variable m : Mgr.t.





(** The roster lookup of the code finds the stream the roster holds under
    the identifier. *)
Lemma jsmap_get_first {V} (k : string) (v : V) (o : JsMap.t string V) :
  JsMap.get k o = Some v ↔
  ∃ before after, o = before ++ (k, v) :: after ∧ k ∉ before.*1.
Proof.
  induction o as [|[k' v'] o IH]; simpl.
  - split; [done|]. intros (before & after & Heq & _). by destruct before.
  - destruct (decide (k = k')) as [->|Hne].
    + split.
      * intros [= ->]. exists [], o. split; [done|]. apply not_elem_of_nil.
      * intros (before & after & Heq & Hfresh). destruct before as [|[k0 v0] before].
        -- simpl in Heq. by injection Heq as ->.
        -- simpl in Heq. injection Heq as <- <- _. exfalso. apply Hfresh.
           apply list_elem_of_here.
    + rewrite IH. split.
      * intros (before & after & -> & Hfresh). exists ((k', v') :: before), after.
        split; [done|]. simpl. rewrite not_elem_of_cons. done.
      * intros (before & after & Heq & Hfresh). destruct before as [|[k0 v0] before].
        -- simpl in Heq. injection Heq as <- _. done.
        -- simpl in Heq. injection Heq as <- <- ->. exists before, after.
           split; [done|]. simpl in Hfresh. rewrite not_elem_of_cons in Hfresh. tauto.
Qed.

(** The getter of the code answers with the signalled dominant speaker. *)
Lemma getDominantSpeaker_signalled (speaker : Participant) :
  Mgr.getDominantSpeaker dsm m = Some speaker ↔ signalled_dominant_speaker dsm m speaker.
Proof.
  unfold Mgr.getDominantSpeaker, Mgr.virtualStreamIdToParticipant,
    signalled_dominant_speaker, roster_stream, JsMap.entries.
  destruct (DSM.dominantSpeakerStreamId dsm) as [id|].
  - split.
    + intros Hget. destruct (JsMap.get id (Mgr.virtualStreams m)) as [v|] eqn:Hv; [|done].
      injection Hget as <-. exists id, v. split_and!; [done| |done].
      by apply jsmap_get_first.
    + intros (id' & v & [= <-] & Hroster & <-).
      apply jsmap_get_first in Hroster. by rewrite Hroster.
  - split; [done|]. by intros (id' & v & ? & _).
Qed.



Lemma find_some_first_such {A} (b : A → bool) (P : A → Prop) l x :
  (∀ y, P y ↔ b y = true) → List.find b l = Some x → first_such P l x.
Proof.
  intros Hpb. induction l as [|y l IH]; [done|]. simpl.
  destruct (b y) eqn:Hy.
  - intros [= ->]. exists [], l. split_and!; [done | by apply Hpb |].
    intros z Hz. by apply elem_of_nil in Hz.
  - intros Hf. destruct (IH Hf) as (l1 & l2 & -> & Hx & Hl1).
    exists (y :: l1), l2. split_and!; [done | done |].
    intros z Hz. apply elem_of_cons in Hz as [->|Hz]; [|by apply Hl1].
    rewrite Hpb. congruence.
Qed.

Lemma find_none_none_such {A} (b : A → bool) (P : A → Prop) l :
  (∀ y, P y ↔ b y = true) → List.find b l = None → ∀ y, y ∈ l → ¬ P y.
Proof.
  intros Hpb Hf y Hy. rewrite Hpb.
  apply list_elem_of_In in Hy. pose proof (find_none _ _ Hf _ Hy). congruence.
Qed.

Lemma active_screenshare_bool v :
  active_screenshare v ↔ isScreenShare v && isActive v = true.
Proof. unfold active_screenshare. by rewrite andb_true_iff. Qed.

Lemma active_webcam_of_bool speaker v :
  active_webcam_of speaker v ↔
  bool_decide (participantUuid (participant v) = participantUuid speaker)
  && isWebcam v && isActive v = true.
Proof.
  unfold active_webcam_of. rewrite !andb_true_iff, bool_decide_eq_true. tauto.
Qed.


(** Whenever there is a source to select among, the specification selects
    one. *)
Lemma selected_among_exists (sources : list VirtualStream) :
  sources ≠ [] → ∃ x, selected_among dsm m sources x.
Proof.
  intros Hne.
  destruct (List.find (fun v => isScreenShare v && isActive v) sources)
    as [x|] eqn:Hshare.
  { exists x. apply select_screenshare.
    by apply (find_some_first_such _ _ _ _ active_screenshare_bool). }
  pose proof (find_none_none_such _ _ _ active_screenshare_bool Hshare) as Hnoshare.
  destruct (Mgr.getDominantSpeaker dsm m) as [speaker|] eqn:Hspeaker.
  - destruct (List.find (fun v =>
                 bool_decide (participantUuid (participant v) = participantUuid speaker)
                 && isWebcam v && isActive v) sources) as [x|] eqn:Hcam.
    + exists x. apply (select_dominant_speaker _ _ _ speaker); [done | |].
      * by apply getDominantSpeaker_signalled.
      * by apply (find_some_first_such _ _ _ _ (active_webcam_of_bool speaker)).
    + destruct sources as [|x rest]; [done|].
      exists x. apply (select_first _ _ _ x rest); [done | | done].
      intros speaker' y Hsp Hy. apply getDominantSpeaker_signalled in Hsp.
      rewrite Hspeaker in Hsp. injection Hsp as <-.
      by apply (find_none_none_such _ _ _ (active_webcam_of_bool speaker) Hcam).
  - destruct sources as [|x rest]; [done|].
    exists x. apply (select_first _ _ _ x rest); [done | | done].
    intros speaker y Hsp. apply getDominantSpeaker_signalled in Hsp. congruence.
Qed.

(** A list has one first element with a given property. *)
Lemma first_such_unique {A} (P : A → Prop) (l : list A) (x y : A) :
  first_such P l x → first_such P l y → x = y.
Proof.
  intros (l1 & l2 & -> & Hx & Hl1) (k1 & k2 & Heq & Hy & Hk1).
  revert k1 Heq Hk1. induction l1 as [|z l1 IH]; intros [|w k1] Heq Hk1.
  - simpl in Heq. by injection Heq as ->.
  - simpl in Heq. injection Heq as <- _. exfalso.
    apply (Hk1 x); [apply list_elem_of_here|done].
  - simpl in Heq. injection Heq as -> _. exfalso.
    apply (Hl1 y); [apply list_elem_of_here|done].
  - simpl in Heq. injection Heq as <- Heq.
    apply (IH (fun u Hu => Hl1 u (list_elem_of_further _ _ _ Hu)) k1 Heq).
    intros u Hu. apply Hk1. by apply list_elem_of_further.
Qed.



End video_source_selection.



(** ** Upserts into an insertion-ordered map *)

Section jsmap_upsert.
Context {K V : Type} `{EqDecision K}.
Variable key : V → K.
Implicit Types (m : JsMap.t K V) (l : list V).

Lemma upsertAll_snoc l x m :
  upsertAll key (l ++ [x]) m = JsMap.set (key x) x (upsertAll key l m).
Proof. unfold upsertAll. by rewrite foldl_app. Qed.

Lemma lastWithKey_snoc k l x :
  lastWithKey key k (l ++ [x]) = if decide (key x = k) then Some x else lastWithKey key k l.
Proof.
  unfold lastWithKey. rewrite filter_app, filter_cons, filter_nil.
  case_decide; [apply last_snoc | by rewrite app_nil_r].
Qed.

Lemma get_upsertAll k l m :
  JsMap.get k (upsertAll key l m) =
    match lastWithKey key k l with Some x => Some x | None => JsMap.get k m end.
Proof.
  induction l as [|x l IH] using rev_ind; [done|].
  rewrite upsertAll_snoc, lastWithKey_snoc. case_decide as Hk.
  - subst k. apply jsmap_get_set_eq.
  - by rewrite jsmap_get_set_ne.
Qed.

Lemma upsertAll_NoDup l m :
  NoDup (JsMap.keys m) → NoDup (JsMap.keys (upsertAll key l m)).
Proof.
  intros Hnd. induction l as [|x l IH] using rev_ind; [done|].
  rewrite upsertAll_snoc. by apply jsmap_set_NoDup.
Qed.

Lemma keys_upsertAll_present l m :
  (∀ x, x ∈ l → is_Some (JsMap.get (key x) m)) →
  JsMap.keys (upsertAll key l m) = JsMap.keys m.
Proof.
  induction l as [|x l IH] using rev_ind; intros Hall; [done|].
  rewrite upsertAll_snoc.
  assert (Hl : ∀ y, y ∈ l → is_Some (JsMap.get (key y) m)).
  { intros y Hy. apply Hall, elem_of_app. by left. }
  rewrite jsmap_keys_set_present; [by apply IH|].
  rewrite get_upsertAll. destruct (lastWithKey key (key x) l); [by eexists|].
  apply Hall, elem_of_app. right. apply list_elem_of_here.
Qed.

Lemma upserted_present l m x :
  x ∈ l → is_Some (JsMap.get (key x) (upsertAll key l m)).
Proof.
  intros Hx. rewrite get_upsertAll.
  destruct (lastWithKey key (key x) l) as [y|] eqn:Hlast; [by eexists|].
  unfold lastWithKey in Hlast. apply last_None in Hlast.
  assert (Hin : x ∈ filter (λ y, key y = key x) l) by (by apply list_elem_of_filter).
  rewrite Hlast in Hin. by apply elem_of_nil in Hin.
Qed.

(** Two maps with the same keys in the same order and the same lookups are
    equal. *)
Lemma jsmap_ext (m1 m2 : JsMap.t K V) :
  NoDup (JsMap.keys m1) →
  JsMap.keys m1 = JsMap.keys m2 →
  (∀ k, JsMap.get k m1 = JsMap.get k m2) →
  m1 = m2.
Proof.
  revert m2. induction m1 as [|[k v] m1 IH]; intros [|[k' v'] m2] Hnd Hkeys Hget;
    try done.
  simpl in Hkeys. injection Hkeys as <- Hkeys.
  apply NoDup_cons in Hnd as [Hk Hnd].
  pose proof (Hget k) as Hv. simpl in Hv. rewrite !decide_True in Hv by done.
  injection Hv as <-. f_equal. apply IH; [done | done |].
  intros k0. destruct (decide (k0 = k)) as [->|Hne].
  - transitivity (@None V); [|symmetry]; apply jsmap_get_None_keys; [done|].
    unfold JsMap.keys in *. by rewrite <- Hkeys.
  - specialize (Hget k0). simpl in Hget. by rewrite !decide_False in Hget by done.
Qed.

(** Upserting the same records a second time changes nothing. *)
Lemma upsertAll_idempotent l m :
  NoDup (JsMap.keys m) → upsertAll key l (upsertAll key l m) = upsertAll key l m.
Proof.
  intros Hnd. apply jsmap_ext.
  - by do 2 apply upsertAll_NoDup.
  - apply keys_upsertAll_present. intros x Hx. by apply upserted_present.
  - intros k. rewrite (get_upsertAll k l (upsertAll key l m)).
    destruct (lastWithKey key k l) as [x|] eqn:Hlast; [|done].
    by rewrite get_upsertAll, Hlast.
Qed.
End jsmap_upsert.

(** ** Session-description ingestion *)

Section sdp_ingestion.

Lemma mgr_ext (m1 m2 : Mgr.t) :
  Mgr.virtualStreams m1 = Mgr.virtualStreams m2 →
  Mgr.physicalStreamsByClientStreamId m1 = Mgr.physicalStreamsByClientStreamId m2 →
  Mgr.physicalStreamsByServerStreamId m1 = Mgr.physicalStreamsByServerStreamId m2 →
  Mgr.physicalClientStreamIdToVirtualStreamIdMapping m1
  = Mgr.physicalClientStreamIdToVirtualStreamIdMapping m2 →
  Mgr.virtualStreamIdToPhysicalClientStreamIdMapping m1
  = Mgr.virtualStreamIdToPhysicalClientStreamIdMapping m2 →
  m1 = m2.
Proof. destruct m1, m2. simpl. by intros -> -> -> -> ->. Qed.

(** [upsertPhysicalStreams] upserts into its two indexes and touches nothing
    else. *)
Lemma upsertPhysicalStreams_fields l : ∀ m,
  Mgr.virtualStreams (Mgr.upsertPhysicalStreams l m) = Mgr.virtualStreams m ∧
  Mgr.physicalStreamsByClientStreamId (Mgr.upsertPhysicalStreams l m)
  = upsertAll clientStreamId l (Mgr.physicalStreamsByClientStreamId m) ∧
  Mgr.physicalStreamsByServerStreamId (Mgr.upsertPhysicalStreams l m)
  = upsertAll serverStreamId l (Mgr.physicalStreamsByServerStreamId m) ∧
  Mgr.physicalClientStreamIdToVirtualStreamIdMapping (Mgr.upsertPhysicalStreams l m)
  = Mgr.physicalClientStreamIdToVirtualStreamIdMapping m ∧
  Mgr.virtualStreamIdToPhysicalClientStreamIdMapping (Mgr.upsertPhysicalStreams l m)
  = Mgr.virtualStreamIdToPhysicalClientStreamIdMapping m.
Proof.
  induction l as [|ps l IH]; intros m; [done|].
  unfold Mgr.upsertPhysicalStreams, upsertAll in *. simpl.
  destruct (IH (Mgr.mk (Mgr.virtualStreams m)
                  (JsMap.set (clientStreamId ps) ps (Mgr.physicalStreamsByClientStreamId m))
                  (JsMap.set (serverStreamId ps) ps (Mgr.physicalStreamsByServerStreamId m))
                  (Mgr.physicalClientStreamIdToVirtualStreamIdMapping m)
                  (Mgr.virtualStreamIdToPhysicalClientStreamIdMapping m)))
    as (H1 & H2 & H3 & H4 & H5).
  by rewrite H1, H2, H3, H4, H5.
Qed.

Lemma upsertPhysicalStreams_wf l m :
  store_indexes_wf m → store_indexes_wf (Mgr.upsertPhysicalStreams l m).
Proof.
  intros [Hc Hs]. destruct (upsertPhysicalStreams_fields l m) as (_ & H2 & H3 & _).
  unfold store_indexes_wf. rewrite H2, H3. split; by apply upsertAll_NoDup.
Qed.

(** Upserting the same records twice is upserting them once. *)
Lemma upsertPhysicalStreams_idempotent l m :
  store_indexes_wf m →
  Mgr.upsertPhysicalStreams l (Mgr.upsertPhysicalStreams l m)
  = Mgr.upsertPhysicalStreams l m.
Proof.
  intros [Hc Hs].
  destruct (upsertPhysicalStreams_fields l (Mgr.upsertPhysicalStreams l m))
    as (H1 & H2 & H3 & H4 & H5).
  destruct (upsertPhysicalStreams_fields l m) as (G1 & G2 & G3 & G4 & G5).
  apply mgr_ext.
  - done.
  - rewrite H2, G2. by apply upsertAll_idempotent.
  - rewrite H3, G3. by apply upsertAll_idempotent.
  - done.
  - done.
Qed.

Lemma distinct_subset {A} `{EqDecision A} (seen xs : list A) x :
  x ∈ distinct seen xs → x ∈ xs.
Proof.
  revert seen. induction xs as [|y xs IH]; intros seen; simpl; [done|].
  case_decide.
  - intros Hx. apply list_elem_of_further. by apply (IH seen).
  - intros Hx. apply elem_of_cons in Hx as [->|Hx]; [apply list_elem_of_here|].
    apply list_elem_of_further. by apply (IH (y :: seen)).
Qed.

Lemma omap_cons {A B} (f : A → option B) x (l : list A) :
  omap f (x :: l) = match f x with Some y => y :: omap f l | None => omap f l end.
Proof. reflexivity. Qed.

(** Lines sharing one identifier leave one record after [new Set]. *)
Lemma records_of_shared_id streamId g ps (msids : list (option string)) : ∀ seen,
  recordFor streamId (Some g) = Some ps →
  (∀ x, x ∈ msids → x = Some g ∨ x = None) →
  omap (recordFor streamId) (distinct seen msids)
  = if decide (Some g ∈ msids ∧ Some g ∉ seen) then [ps] else [].
Proof.
  intros seen Hps. revert seen.
  induction msids as [|x xs IH]; intros seen Hall.
  - done.
  - assert (Hxs : ∀ y, y ∈ xs → y = Some g ∨ y = None).
    { intros y Hy. apply Hall. by apply list_elem_of_further. }
    cbn [distinct]. destruct (decide (x ∈ seen)) as [Hseen|Hseen].
    + rewrite (IH seen Hxs).
      destruct (Hall x (list_elem_of_here _ _)) as [->| ->].
      * repeat case_decide; try done; exfalso; tauto.
      * apply decide_ext. rewrite elem_of_cons. split; [tauto|].
        intros [[Hx|Hx] Hn]; [done | tauto].
    + rewrite omap_cons.
      destruct (Hall x (list_elem_of_here _ _)) as [->| ->].
      * rewrite Hps. rewrite (IH (Some g :: seen) Hxs).
        assert (Hhere : Some g ∈ Some g :: xs) by apply list_elem_of_here.
        assert (Hseen' : Some g ∈ Some g :: seen) by apply list_elem_of_here.
        repeat case_decide; try done; exfalso; tauto.
      * replace (recordFor streamId None) with (@None PhysicalStream) by done.
        rewrite (IH (None :: seen) Hxs).
        apply decide_ext. rewrite !elem_of_cons. split.
        -- intros [Hin Hn]. split; [tauto|]. intros Hs. apply Hn. tauto.
        -- intros [[Hx|Hin] Hn]; [done|]. split; [done|].
           intros [Hx|Hs]; [done | tauto].
Qed.

Lemma omap_all_None {A B} (f : A → option B) (l : list A) :
  (∀ x, x ∈ l → f x = None) → omap f l = [].
Proof.
  induction l as [|x l IH]; intros Hall; [done|]. simpl.
  rewrite (Hall x) by apply list_elem_of_here.
  apply IH. intros y Hy. apply Hall. by apply list_elem_of_further.
Qed.

(** A media section missing either identifier pushes no record. *)
Lemma mappingOfMediaEntry_missing section :
  ¬ has_grouping_id section ∨ ¬ has_roster_id section →
  Sdp.mappingOfMediaEntry section = None ∨ Sdp.mappingOfMediaEntry section = Some [].
Proof.
  intros Hmissing. unfold Sdp.mappingOfMediaEntry. cbn zeta.
  fold (ssrcLines section).
  destruct (mapM Sdp.extractMSID (ssrcLines section)) as [msids|] eqn:Hm; [|by left].
  right. simpl. f_equal. fold (recordFor
    (head (default [] (Sdp.attributes section !! "x-source-streamid")))).
  apply omap_all_None. intros x Hx. apply distinct_subset in Hx.
  destruct x as [msid|]; [|done].
  destruct (head (default [] (Sdp.attributes section !! "x-source-streamid")))
    as [sid|] eqn:Hsid; [|done].
  simpl. destruct (truthy msid) eqn:Hmsid; [|done].
  destruct (Sdp.truthyAttr sid) eqn:Htruthy; [|done]. exfalso.
  destruct Hmissing as [Hno|Hno]; apply Hno.
  - apply mapM_Some in Hm.
    apply list_elem_of_lookup in Hx as [i Hi].
    destruct (Forall2_lookup_r _ _ _ _ _ Hm Hi) as (raw & Hraw & Hext).
    exists raw, msid. split_and!; [by eapply list_elem_of_lookup_2 | done |].
    by apply truthy_nonempty.
  - by exists sid.
Qed.

(** A media section whose lines share one stream-grouping identifier and
    that has one roster-correlation identifier pushes one record. *)
Lemma mappingOfMediaEntry_shared section group roster :
  shares_grouping_id section group →
  Sdp.attributes section !! "x-source-streamid" = Some [AStr roster] →
  group ≠ "" → roster ≠ "" →
  Sdp.mappingOfMediaEntry section = Some [mkPhysicalStream (AStr roster) group].
Proof.
  intros [Hall (raw0 & Hraw0 & Hext0)] Hroster Hgroup Hrid.
  unfold Sdp.mappingOfMediaEntry. cbn zeta. fold (ssrcLines section).
  rewrite Hroster. cbn [default head].
  destruct (mapM Sdp.extractMSID (ssrcLines section)) as [msids|] eqn:Hm.
  - apply mapM_Some in Hm. simpl. f_equal.
    fold (recordFor (Some (AStr roster))).
    rewrite (records_of_shared_id (Some (AStr roster)) group
               (mkPhysicalStream (AStr roster) group)).
    + rewrite decide_True; [done|]. split; [|apply not_elem_of_nil].
      apply list_elem_of_lookup in Hraw0 as [i Hi].
      destruct (Forall2_lookup_l _ _ _ _ _ Hm Hi) as (y & Hy & Hext).
      rewrite Hext0 in Hext. injection Hext as <-.
      by eapply list_elem_of_lookup_2.
    + simpl. apply truthy_nonempty in Hgroup, Hrid. by rewrite Hgroup, Hrid.
    + intros x Hx. apply list_elem_of_lookup in Hx as [i Hi].
      destruct (Forall2_lookup_r _ _ _ _ _ Hm Hi) as (raw & Hraw & Hext).
      apply list_elem_of_lookup_2 in Hraw.
      destruct (Hall raw Hraw) as [Hr|Hr]; rewrite Hr in Hext; injection Hext as <-; tauto.
  - exfalso. apply mapM_None in Hm. apply Exists_exists in Hm as (raw & Hraw & Hnone).
    destruct (Hall raw Hraw) as [Hr|Hr]; congruence.
Qed.

(** Sections missing an identifier contribute nothing to the mapping of
    the description, however many sections it has. *)
Lemma mapping_of_sections (sections : list Sdp.MediaEntry)
    (pushed : list (list PhysicalStream)) :
  mapM Sdp.mappingOfMediaEntry sections = Some pushed →
  Forall2 (fun section records =>
             Sdp.mappingOfMediaEntry section = Some records ∧
             (¬ has_grouping_id section ∨ ¬ has_roster_id section → records = []))
          sections pushed.
Proof.
  intros Hm. apply mapM_Some in Hm.
  eapply Forall2_impl; [exact Hm|]. intros section records Hrecords.
  split; [done|]. intros Hmissing.
  destruct (mappingOfMediaEntry_missing section Hmissing) as [Hnone|Hnil]; congruence.
Qed.

Lemma mapping_of_missing_sections (sections : list Sdp.MediaEntry) :
  (∀ section, section ∈ sections →
     ¬ has_grouping_id section ∨ ¬ has_roster_id section) →
  (fun pushed => mjoin pushed) <$> mapM Sdp.mappingOfMediaEntry sections = None ∨
  (fun pushed => mjoin pushed) <$> mapM Sdp.mappingOfMediaEntry sections = Some [].
Proof.
  intros Hall.
  destruct (mapM Sdp.mappingOfMediaEntry sections) as [pushed|] eqn:Hm; [|by left].
  right. simpl. f_equal.
  apply mapping_of_sections in Hm.
  induction Hm as [|section records sections pushed [_ Hrecords] _ IH]; [done|].
  simpl. rewrite Hrecords by (apply Hall, list_elem_of_here). simpl.
  apply IH. intros section' Hin. apply Hall. by apply list_elem_of_further.
Qed.

(** C5. A session description whose single media section has
    synchronization-source lines sharing one stream-grouping identifier and
    one roster-correlation identifier yields exactly one PhysicalStream
    record, held by both indexes of a fresh store; in any description, of
    any number of media sections, a section missing either identifier
    produces no record: the mapping of the description is made of the
    records of its sections, a section missing an identifier has none, and a
    description all of whose sections miss one leaves any store as it was;
    and ingesting any description a second time leaves the store equal to
    ingesting it once. *)
Theorem session_description_ingestion (sdp : string) (section : Sdp.MediaEntry)
    (group roster : string) :
  Sdp.media (Sdp.parseSDP sdp) = [section] →
  shares_grouping_id section group →
  Sdp.attributes section !! "x-source-streamid" = Some [AStr roster] →
  group ≠ "" → roster ≠ "" →
  let record := mkPhysicalStream (AStr roster) group in
  Sdp.extractStreamIdToSSRCMappingFromSDP sdp = Some [record] ∧
  Mgr.physicalStreamsByClientStreamId (Sdp.setRemoteDescription sdp Mgr.new)
  = [(AStr roster, record)] ∧
  Mgr.physicalStreamsByServerStreamId (Sdp.setRemoteDescription sdp Mgr.new)
  = [(group, record)] ∧
  (∀ sdp' mapping,
     Sdp.extractStreamIdToSSRCMappingFromSDP sdp' = Some mapping →
     ∃ pushed,
       mapping = mjoin pushed ∧
       Forall2 (fun section' records =>
                  Sdp.mappingOfMediaEntry section' = Some records ∧
                  (¬ has_grouping_id section' ∨ ¬ has_roster_id section' →
                   records = []))
               (Sdp.media (Sdp.parseSDP sdp')) pushed) ∧
  (∀ sdp' store,
     (∀ section', section' ∈ Sdp.media (Sdp.parseSDP sdp') →
        ¬ has_grouping_id section' ∨ ¬ has_roster_id section') →
     Sdp.setRemoteDescription sdp' store = store) ∧
  (∀ sdp' store,
     store_indexes_wf store →
     Sdp.setRemoteDescription sdp' (Sdp.setRemoteDescription sdp' store)
     = Sdp.setRemoteDescription sdp' store).
Proof.
  intros Hmedia Hshared Hroster Hgroup Hrid. cbn zeta.
  assert (Hextract : Sdp.extractStreamIdToSSRCMappingFromSDP sdp
                     = Some [mkPhysicalStream (AStr roster) group]).
  { unfold Sdp.extractStreamIdToSSRCMappingFromSDP. rewrite Hmedia.
    cbn [mapM]. by rewrite (mappingOfMediaEntry_shared section group roster). }
  split; [exact Hextract|].
  unfold Sdp.setRemoteDescription at 1 2. rewrite Hextract.
  split; [reflexivity|]. split; [reflexivity|]. split; [|split].
  - intros sdp' mapping. unfold Sdp.extractStreamIdToSSRCMappingFromSDP.
    destruct (mapM Sdp.mappingOfMediaEntry (Sdp.media (Sdp.parseSDP sdp')))
      as [pushed|] eqn:Hm; [|done].
    intros [= <-]. exists pushed. split; [done|]. by apply mapping_of_sections.
  - intros sdp' store Hmissing.
    unfold Sdp.setRemoteDescription, Sdp.extractStreamIdToSSRCMappingFromSDP.
    by destruct (mapping_of_missing_sections _ Hmissing) as [-> | ->].
  - intros sdp' store Hwf. unfold Sdp.setRemoteDescription.
    destruct (Sdp.extractStreamIdToSSRCMappingFromSDP sdp') as [mapping|]; [|done].
    by apply upsertPhysicalStreams_idempotent.
Qed.

End sdp_ingestion.

Lemma session_description_ingestion_witness :
  Sdp.setRemoteDescription sample_sdp Mgr.new
  = Mgr.mk [] [(AStr "55", mkPhysicalStream (AStr "55") "stream-55")]
              [("stream-55", mkPhysicalStream (AStr "55") "stream-55")] ∅ ∅ ∧
  Sdp.setRemoteDescription sample_sdp_without_roster_id Mgr.new = Mgr.new ∧
  Sdp.setRemoteDescription sample_sdp_without_grouping_id Mgr.new = Mgr.new ∧
  (∃ pushed,
     Sdp.extractStreamIdToSSRCMappingFromSDP sample_sdp_two_sections
     = Some (mjoin pushed) ∧
     pushed = [[]; [mkPhysicalStream (AStr "55") "stream-55"]]) ∧
  Sdp.setRemoteDescription sample_sdp (Sdp.setRemoteDescription sample_sdp Mgr.new)
  = Sdp.setRemoteDescription sample_sdp Mgr.new.
Proof.
  destruct (Sdp.media (Sdp.parseSDP sample_sdp)) as [|section rest] eqn:Hmedia;
    [vm_compute in Hmedia; discriminate|].
  assert (Hrest : rest = []) by (vm_compute in Hmedia; by injection Hmedia).
  subst rest.
  assert (Hsection :
    Sdp.attributes section
    = {[ "mid" := [AStr "2"];
         "recvonly" := [AFlag];
         "x-source-streamid" := [AStr "55"];
         "ssrc" := [AStr "1001 cname:abc"; AStr "1001 msid:stream-55 track-a";
                    AStr "1002 cname:abc"; AStr "1002 msid:stream-55 track-a"] ]}).
  { vm_compute in Hmedia. injection Hmedia as <-. vm_compute. reflexivity. }
  destruct (session_description_ingestion sample_sdp section "stream-55" "55")
    as (_ & Hclient & Hserver & Hsections & Hmissing & Hidem).
  - exact Hmedia.
  - unfold shares_grouping_id, ssrcLines. rewrite Hsection. split.
    + intros raw Hraw. vm_compute in Hraw.
      repeat (apply elem_of_cons in Hraw as [->|Hraw]; [vm_compute; tauto|]).
      by apply elem_of_nil in Hraw.
    + exists (AStr "1001 msid:stream-55 track-a"). split; [|vm_compute; reflexivity].
      vm_compute. apply list_elem_of_further, list_elem_of_here.
  - rewrite Hsection. vm_compute. reflexivity.
  - discriminate.
  - discriminate.
  - split_and!.
    + vm_compute. reflexivity.
    + apply Hmissing. intros section' Hin. right. intros (sid & Hsid & _).
      destruct (Sdp.media (Sdp.parseSDP sample_sdp_without_roster_id))
        as [|only rest] eqn:Hparsed; [by apply elem_of_nil in Hin|].
      vm_compute in Hparsed. injection Hparsed as <- <-.
      apply list_elem_of_singleton in Hin as ->. vm_compute in Hsid. discriminate.
    + apply Hmissing. intros section' Hin. left. intros (raw & g & Hraw & Hext & _).
      destruct (Sdp.media (Sdp.parseSDP sample_sdp_without_grouping_id))
        as [|only rest] eqn:Hparsed; [by apply elem_of_nil in Hin|].
      vm_compute in Hparsed. injection Hparsed as <- <-.
      apply list_elem_of_singleton in Hin as ->. vm_compute in Hraw.
      apply list_elem_of_singleton in Hraw as ->. vm_compute in Hext. discriminate.
    + destruct (Hsections sample_sdp_two_sections
                  [mkPhysicalStream (AStr "55") "stream-55"]) as (pushed & Hjoin & Hall);
        [vm_compute; reflexivity|].
      exists pushed. 
      destruct (Sdp.media (Sdp.parseSDP sample_sdp_two_sections))
        as [|audio rest] eqn:Hparsed; [vm_compute in Hparsed; discriminate|].
      apply Forall2_cons_inv_l in Hall as (none & pushed' & [Haudio _] & Hall & ->).
      destruct rest as [|video rest]; [vm_compute in Hparsed; discriminate|].
      apply Forall2_cons_inv_l in Hall as (one & pushed'' & [Hvideo _] & Hall & ->).
      destruct rest; [|vm_compute in Hparsed; discriminate].
      apply Forall2_nil_inv_l in Hall as ->.
      vm_compute in Hparsed. injection Hparsed as <- <-.
      vm_compute in Haudio, Hvideo. injection Haudio as <-. injection Hvideo as <-.
      split; [vm_compute; reflexivity|done].
    + apply Hidem. split; apply NoDup_nil_2.
Defined.

(** ** The audio queue *)

Section audio_queue.
Variable clock : nat → Z.
Variable bufferBytes : list float → list Z.

#[local] Abbreviation step' := (step clock bufferBytes).
#[local] Abbreviation run' := (run clock bufferBytes).

(** *** The socket *)

Lemma sameFlags_refl s : sameFlags s s.
Proof. by split. Qed.

Local Ltac trivial_send :=
  split_and!;
  first [ done | apply sameFlags_refl | by eexists | (exists []; by rewrite app_nil_r) ].

Lemma audioMessages_app l k : audioMessages (l ++ k) = audioMessages l ++ audioMessages k.
Proof. apply omap_app. Qed.

Lemma sendJson_facts data s :
  sameFlags s (WebSocketClient.sendJson data s) ∧
  audioMessages (WebSocketClient.outbox (WebSocketClient.sendJson data s))
  = audioMessages (WebSocketClient.outbox s) ∧
  (∃ more, WebSocketClient.outbox (WebSocketClient.sendJson data s)
           = WebSocketClient.outbox s ++ more) ∧
  (WebSocketClient.readyStateOpen s = true →
   WebSocketClient.outbox (WebSocketClient.sendJson data s)
   = WebSocketClient.outbox s ++ [SentJson data]).
Proof.
  unfold WebSocketClient.sendJson, sameFlags.
  destruct (WebSocketClient.readyStateOpen s) eqn:Hopen; simpl.
  - rewrite audioMessages_app, Hopen. simpl. rewrite app_nil_r.
    split_and!; [done | done | done | by eexists | done].
  - split_and!; [done | done | done | exists []; by rewrite app_nil_r | done].
Qed.

Lemma sendPerParticipantAudio_facts speaker data s :
  sameFlags s (WebSocketClient.sendPerParticipantAudio speaker data s) ∧
  audioMessages (WebSocketClient.outbox (WebSocketClient.sendPerParticipantAudio speaker data s))
  = audioMessages (WebSocketClient.outbox s)
    ++ (if WebSocketClient.readyStateOpen s && WebSocketClient.mediaSendingEnabled s
        then option_list (WebSocketClient.perParticipantAudioMessage speaker data)
        else []) ∧
  (∃ more, WebSocketClient.outbox (WebSocketClient.sendPerParticipantAudio speaker data s)
           = WebSocketClient.outbox s ++ more).
Proof.
  unfold WebSocketClient.sendPerParticipantAudio, sameFlags.
  destruct (WebSocketClient.readyStateOpen s) eqn:Hopen; simpl;
    [destruct (WebSocketClient.mediaSendingEnabled s) eqn:Hmedia; simpl;
     [destruct (WebSocketClient.perParticipantAudioMessage speaker data); simpl|]|];
    rewrite ?audioMessages_app, ?Hopen, ?Hmedia, ?app_nil_r; simpl;
    (split_and!; [done | done | done | (by eexists) || (exists []; by rewrite app_nil_r)]).
Qed.

(** *** One chunk *)

Lemma processChunk_facts queued dsm s d now :
  let '(s', d', speaker) := AP.processChunk bufferBytes queued dsm (s, d) in
  sameFlags s s' ∧
  audioMessages (WebSocketClient.outbox s')
  = audioMessages (WebSocketClient.outbox s)
    ++ emission bufferBytes s (AP.mkDequeued now queued speaker) ∧
  (∃ more, WebSocketClient.outbox s' = WebSocketClient.outbox s ++ more).
Proof.
  unfold AP.processChunk, emission. simpl.
  destruct (DSM.getSpeakerIdForTimestampMsUsingSpeechIntervals _ dsm) as [speaker|].
  - destruct (truthy speaker).
    + apply sendPerParticipantAudio_facts.
    + simpl. rewrite app_nil_r. trivial_send.
  - simpl. rewrite app_nil_r. trivial_send.
Qed.


(** *** The loop *)

Lemma sameFlags_emission s s' e :
  sameFlags s s' → emission bufferBytes s' e = emission bufferBytes s e.
Proof. intros [Ho Hm]. unfold emission. by rewrite Ho, Hm. Qed.

Lemma sameFlags_trans s1 s2 s3 : sameFlags s1 s2 → sameFlags s2 s3 → sameFlags s1 s3.
Proof. intros [? ?] [? ?]. split; congruence. Qed.

Lemma drainLoop_facts dsm queue : ∀ n s d log,
  let '(queue', n', (s', d'), log') := AP.drainLoop clock bufferBytes dsm queue n (s, d) log in
  ∃ admitted,
    log' = log ++ admitted ∧
    queue = (AP.chunk <$> admitted) ++ queue' ∧
    Forall admittedInTime admitted ∧
    sameFlags s s' ∧
    audioMessages (WebSocketClient.outbox s')
    = audioMessages (WebSocketClient.outbox s) ++ (admitted ≫= emission bufferBytes s) ∧
    (∃ more, WebSocketClient.outbox s' = WebSocketClient.outbox s ++ more).
Proof.
  induction queue as [|queued rest IH]; intros n s d log.
  - simpl. exists []. rewrite !app_nil_r.
    split_and!; [done | done | constructor | apply sameFlags_refl | done |].
    exists []. by rewrite app_nil_r.
  - cbn [AP.drainLoop]. cbn zeta. case_decide as Hready.
    + pose proof (processChunk_facts queued dsm s d (clock n)) as Hchunk.
      destruct (AP.processChunk bufferBytes queued dsm (s, d)) as [[s1 d1] speaker].
      destruct Hchunk as (Hflags1 & Haudio1 & more1 & Hout1).
      specialize (IH (S n) s1 d1 (log ++ [AP.mkDequeued (clock n) queued speaker])).
      destruct (AP.drainLoop clock bufferBytes dsm rest (S n) (s1, d1) _)
        as [[[queue' n'] [s' d']] log'].
      destruct IH as (admitted & Hlog & Hqueue & Htime & Hflags & Haudio & more & Hout).
      exists (AP.mkDequeued (clock n) queued speaker :: admitted).
      split_and!.
      * by rewrite Hlog, <- app_assoc.
      * simpl. by rewrite Hqueue.
      * constructor; [|done]. unfold admittedInTime. simpl. lia.
      * by apply (sameFlags_trans s s1 s').
      * rewrite Haudio, Haudio1, <- app_assoc. f_equal. simpl. f_equal.
        apply list_bind_ext; [|done]. intros e. by apply sameFlags_emission.
      * exists (more1 ++ more). by rewrite Hout, Hout1, <- app_assoc.
    + exists []. rewrite !app_nil_r.
      split_and!; [done | done | constructor | apply sameFlags_refl | done |].
      exists []. by rewrite app_nil_r.
Qed.

(** *** The callbacks *)

Lemma processAudioQueue_facts t w :
  let '(t', w') := AP.processAudioQueue clock bufferBytes t w in
  ∃ admitted,
    AP.dequeued t' = AP.dequeued t ++ admitted ∧
    AP.audioDataQueue t = (AP.chunk <$> admitted) ++ AP.audioDataQueue t' ∧
    Forall admittedInTime admitted ∧
    sameFlags (AP.ws w) (AP.ws w') ∧
    audioMessages (WebSocketClient.outbox (AP.ws w'))
    = audioMessages (WebSocketClient.outbox (AP.ws w))
      ++ (admitted ≫= emission bufferBytes (AP.ws w)) ∧
    (∃ more, WebSocketClient.outbox (AP.ws w') = WebSocketClient.outbox (AP.ws w) ++ more) ∧
    AP.queueProcessingInterval t' = AP.queueProcessingInterval t ∧
    AP.trackIsNonSilent t' = AP.trackIsNonSilent t ∧
    sameTimers w w'.
Proof.
  unfold AP.processAudioQueue.
  pose proof (drainLoop_facts (AP.dominantSpeakerManager w) (AP.audioDataQueue t)
                (AP.tick w) (AP.ws w) (AP.handleAudioTrackDebugInfo t) (AP.dequeued t))
    as Hloop.
  destruct (AP.drainLoop _ _ _ _ _ _ _) as [[[queue' n'] [s' d']] log'].
  destruct Hloop as (admitted & Hlog & Hqueue & Htime & Hflags & Haudio & more & Hout).
  cbn zeta. case_decide; simpl.
  - destruct (sendJson_facts
                (AP.jsonMessage "HandleAudioTrackDebugInfo"
                   [JField "trackId" (JString (AP.trackId t));
                    JField "debugInfo" (AP.debugInfoJson d')]) s')
      as (Hflags' & Haudio' & (more' & Hout') & _).
    exists admitted. split_and!; try done.
    + by apply (sameFlags_trans _ s').
    + by rewrite Haudio'.
    + exists (more ++ more'). by rewrite Hout', Hout, <- app_assoc.
  - exists admitted. split_and!; try done. by exists more.
Qed.

Lemma transform_facts frame t w :
  let '(t', w') := AP.transform clock frame t w in
  AP.dequeued t' = AP.dequeued t ∧
  (∃ pushed, AP.audioDataQueue t' = AP.audioDataQueue t ++ pushed ∧
             (pushed = [] ∨ ∃ at_, pushed = [AP.mkQueued at_ (AP.frameAudioData frame)])) ∧
  sameFlags (AP.ws w) (AP.ws w') ∧
  audioMessages (WebSocketClient.outbox (AP.ws w'))
  = audioMessages (WebSocketClient.outbox (AP.ws w)) ∧
  (∃ more, WebSocketClient.outbox (AP.ws w') = WebSocketClient.outbox (AP.ws w) ++ more) ∧
  AP.queueProcessingInterval t' = AP.queueProcessingInterval t ∧
  sameTimers w w'.
Proof.
  unfold AP.transform. destruct (AP.controllerActive frame); simpl.
  2:{ split_and!; try done; [exists []; rewrite app_nil_r; auto | exists []; by rewrite app_nil_r]. }
  set (s1 := if (match AP.lastAudioFormat t with
                 | Some f => negb (bool_decide (AP.frameFormat frame = f))
                 | None => true
                 end) then _ else AP.ws w).
  assert (H1 : sameFlags (AP.ws w) s1
               ∧ audioMessages (WebSocketClient.outbox s1)
                 = audioMessages (WebSocketClient.outbox (AP.ws w))
               ∧ ∃ more, WebSocketClient.outbox s1 = WebSocketClient.outbox (AP.ws w) ++ more).
  { unfold s1. destruct (match AP.lastAudioFormat t with Some _ => _ | None => _ end).
    - destruct (sendJson_facts
                  (AP.jsonMessage "AudioFormatUpdate"
                     [JField "format" (AP.formatJson (AP.frameFormat frame))]) (AP.ws w))
        as (? & ? & ? & _). done.
    - split_and!; [apply sameFlags_refl | done | exists []; by rewrite app_nil_r]. }
  destruct H1 as (Hf1 & Ha1 & more1 & Ho1).
  set (s2 := if negb (AP.trackIsNonSilent t) && AP.someNonZero (AP.frameAudioData frame)
             then _ else s1).
  assert (H2 : sameFlags (AP.ws w) s2
               ∧ audioMessages (WebSocketClient.outbox s2)
                 = audioMessages (WebSocketClient.outbox (AP.ws w))
               ∧ ∃ more, WebSocketClient.outbox s2 = WebSocketClient.outbox (AP.ws w) ++ more).
  { unfold s2. destruct (negb (AP.trackIsNonSilent t) && _).
    - destruct (sendJson_facts (AP.trackMessage "WebRTCTrackIsNonSilent" (AP.trackId t)) s1)
        as (Hf & Ha & (more & Ho) & _).
      split_and!; [by apply (sameFlags_trans _ s1) | by rewrite Ha |].
      exists (more1 ++ more). by rewrite Ho, Ho1, <- app_assoc.
    - split_and!; [done | done | by exists more1]. }
  destruct H2 as (Hf2 & Ha2 & more2 & Ho2).
  repeat match goal with |- context [if ?b then _ else _] =>
    destruct b; simpl end;
    (split_and!; try done;
     first [ by exists more2
           | (exists []; rewrite app_nil_r; by auto)
           | (eexists; split; [reflexivity | right; by eexists]) ]).
Qed.

Lemma handleAudioTrack_facts id receiver w :
  let '(t, w') := AP.handleAudioTrack id receiver w in
  AP.dequeued t = [] ∧ AP.audioDataQueue t = [] ∧ AP.trackIsNonSilent t = false ∧
  AP.queueProcessingInterval t = AP.nextTimerId w ∧
  sameFlags (AP.ws w) (AP.ws w') ∧
  audioMessages (WebSocketClient.outbox (AP.ws w'))
  = audioMessages (WebSocketClient.outbox (AP.ws w)) ∧
  (∃ more, WebSocketClient.outbox (AP.ws w') = WebSocketClient.outbox (AP.ws w) ++ more) ∧
  AP.globalAudioQueueIntervalsSet w'
  = {[AP.nextTimerId w]} ∪ AP.globalAudioQueueIntervalsSet w ∧
  AP.nextTimerId w' = S (AP.nextTimerId w) ∧
  AP.clearedIntervals w' = AP.clearedIntervals w.
Proof.
  unfold AP.handleAudioTrack. cbn zeta.
  assert (Hrecv : sameFlags (AP.ws w) (AP.ws (AP.addReceiver receiver w))
            ∧ audioMessages (WebSocketClient.outbox (AP.ws (AP.addReceiver receiver w)))
              = audioMessages (WebSocketClient.outbox (AP.ws w))
            ∧ (∃ more, WebSocketClient.outbox (AP.ws (AP.addReceiver receiver w))
                       = WebSocketClient.outbox (AP.ws w) ++ more)
            ∧ AP.globalAudioQueueIntervalsSet (AP.addReceiver receiver w)
              = AP.globalAudioQueueIntervalsSet w
            ∧ AP.nextTimerId (AP.addReceiver receiver w) = AP.nextTimerId w
            ∧ AP.clearedIntervals (AP.addReceiver receiver w) = AP.clearedIntervals w).
  { unfold AP.addReceiver. destruct (negb (truthy receiver) || _); simpl.
    - trivial_send.
    - destruct (sendJson_facts
                  (AP.jsonMessage "ReceiverManagerUpdate"
                     [JField "update" (JString "addReceiver");
                      JField "receiverTrackId" (JString receiver)]) (AP.ws w))
        as (? & ? & ? & _). done. }
  destruct Hrecv as (Hf & Ha & (more & Ho) & Hset & Hnext & Hcleared).
  simpl. rewrite Hset, Hnext, Hcleared. case_decide.
  - destruct (sendJson_facts (AP.trackMessage "MultipleAudioQueuesDetected" id)
                (AP.ws (AP.addReceiver receiver w))) as (Hf' & Ha' & (more' & Ho') & _).
    split_and!; try done.
    + by apply (sameFlags_trans _ (AP.ws (AP.addReceiver receiver w))).
    + by rewrite Ha'.
    + exists (more ++ more'). by rewrite Ho', Ho, <- app_assoc.
  - split_and!; try done. by exists more.
Qed.

(** *** Tracks in the system *)

Lemma trackOf_Some interval sys t :
  trackOf interval sys = Some t →
  t ∈ tracks sys ∧ AP.queueProcessingInterval t = interval.
Proof.
  unfold trackOf. intros Hfind. apply find_some in Hfind as [Hin Hb].
  apply bool_decide_eq_true in Hb. by rewrite list_elem_of_In.
Qed.


Lemma find_replaceTrack interval t' ts :
  List.find (fun t => bool_decide (AP.queueProcessingInterval t = interval))
            (replaceTrack t' ts)
  = if decide (interval = AP.queueProcessingInterval t')
    then (fun _ => t') <$> List.find
           (fun t => bool_decide (AP.queueProcessingInterval t = interval)) ts
    else List.find (fun t => bool_decide (AP.queueProcessingInterval t = interval)) ts.
Proof.
  unfold replaceTrack. induction ts as [|t ts IH]; [by case_decide|].
  cbn [fmap list_fmap List.find]. rewrite IH.
  destruct (decide (AP.queueProcessingInterval t = AP.queueProcessingInterval t'))
    as [Heq|Hne].
  - destruct (decide (interval = AP.queueProcessingInterval t')) as [->|Hi].
    + by rewrite !bool_decide_eq_true_2.
    + rewrite !bool_decide_eq_false_2; [done | congruence | congruence].
  - destruct (decide (interval = AP.queueProcessingInterval t')) as [->|Hi].
    + by rewrite bool_decide_eq_false_2.
    + done.
Qed.


(** *** One callback *)







(** *** Executions *)

Lemma run_snoc events ev sys :
  run clock bufferBytes (events ++ [ev]) sys
  = step clock bufferBytes (run clock bufferBytes events sys) ev.
Proof. unfold run. by rewrite foldl_app. Qed.



End audio_queue.

(** ** Several audio queues, and silent tracks *)

Section audio_sources.
Variable clock : nat → Z.
Variable bufferBytes : list float → list Z.

Lemma intervals_replaceTrack t' ts :
  fmap AP.queueProcessingInterval (replaceTrack t' ts)
  = fmap AP.queueProcessingInterval ts.
Proof.
  unfold replaceTrack. rewrite <- list_fmap_compose. apply list_fmap_ext.
  intros k t _. simpl. by case_decide.
Qed.


(** *** Silent tracks *)




(** *** Timers *)

Lemma step_timers sys ev :
  let sys' := step clock bufferBytes sys ev in
  (AP.globalAudioQueueIntervalsSet (world sys') = AP.globalAudioQueueIntervalsSet (world sys)
   ∧ AP.nextTimerId (world sys') = AP.nextTimerId (world sys)
   ∧ fmap AP.queueProcessingInterval (tracks sys')
     = fmap AP.queueProcessingInterval (tracks sys))
  ∨ (∃ id receiver, ev = EvTrack id receiver
     ∧ AP.globalAudioQueueIntervalsSet (world sys')
       = {[AP.nextTimerId (world sys)]} ∪ AP.globalAudioQueueIntervalsSet (world sys)
     ∧ AP.nextTimerId (world sys') = S (AP.nextTimerId (world sys))
     ∧ fmap AP.queueProcessingInterval (tracks sys')
       = fmap AP.queueProcessingInterval (tracks sys) ++ [AP.nextTimerId (world sys)]).
Proof.
  cbn zeta. destruct ev as [id receiver|j frame|j|j|d|open enabled]; unfold step.
  - right. exists id, receiver.
    pose proof (handleAudioTrack_facts id receiver (world sys)) as Hnew.
    destruct (AP.handleAudioTrack id receiver (world sys)) as [t w'].
    destruct Hnew as (_ & _ & _ & Hint & _ & _ & _ & Hset & Hnext & _).
    cbn [world tracks]. rewrite fmap_app. simpl. by rewrite Hint.
  - left. destruct (trackOf j sys) as [tj|]; [|done].
    pose proof (transform_facts clock frame tj (world sys)) as Hfacts.
    destruct (AP.transform clock frame tj (world sys)) as [tj' w'].
    destruct Hfacts as (_ & _ & _ & _ & _ & _ & Hset & Hnext & _).
    cbn [world tracks]. by rewrite intervals_replaceTrack.
  - left. case_decide; [done|]. destruct (trackOf j sys) as [tj|]; [|done].
    pose proof (processAudioQueue_facts clock bufferBytes tj (world sys)) as Hfacts.
    destruct (AP.processAudioQueue clock bufferBytes tj (world sys)) as [tj' w'].
    destruct Hfacts as (admitted & _ & _ & _ & _ & _ & _ & _ & _ & Hset & Hnext & _).
    cbn [world tracks]. by rewrite intervals_replaceTrack.
  - left. by destruct (trackOf j sys).
  - by left.
  - by left.
Qed.

Lemma run_timersRegistered ws0 events :
  timersRegistered (run clock bufferBytes events (initialSystem ws0)).
Proof.
  induction events as [|ev events IH] using rev_ind.
  - split_and!; [constructor | |]; intros x Hx; [by apply elem_of_nil in Hx | set_solver].
  - rewrite run_snoc. set (sys := run clock bufferBytes events (initialSystem ws0)) in *.
    destruct IH as (Hnd & Hreg & Hlt).
    assert (Hregi : ∀ j, j ∈ fmap AP.queueProcessingInterval (tracks sys) →
                         j ∈ AP.globalAudioQueueIntervalsSet (world sys)).
    { intros j Hj. apply list_elem_of_fmap in Hj as (t & -> & Ht). by apply Hreg. }
    unfold timersRegistered.
    destruct (step_timers sys ev)
      as [(Hset & Hnext & Hints)|(id & receiver & _ & Hset & Hnext & Hints)];
      cbn zeta in *; rewrite Hset, Hnext.
    + rewrite Hints. split_and!; [done | | done].
      intros t Ht. apply Hregi. rewrite <- Hints. apply list_elem_of_fmap. by exists t.
    + rewrite Hints. split_and!.
      * apply NoDup_app. split_and!; [done | | apply NoDup_singleton].
        intros j Hj Hj'. apply list_elem_of_singleton in Hj' as ->.
        apply Hregi, Hlt in Hj. lia.
      * intros t Ht.
        assert (Hin : AP.queueProcessingInterval t
                      ∈ fmap AP.queueProcessingInterval (tracks sys)
                        ++ [AP.nextTimerId (world sys)]).
        { rewrite <- Hints. apply list_elem_of_fmap. by exists t. }
        apply elem_of_union. apply elem_of_app in Hin as [Hin|Hin].
        -- right. by apply Hregi.
        -- left. apply list_elem_of_singleton in Hin. by apply elem_of_singleton.
      * intros j Hj. apply elem_of_union in Hj as [Hj|Hj].
        -- apply elem_of_singleton in Hj as ->. lia.
        -- apply Hlt in Hj. lia.
Qed.

(** More than one queue active at once means more than one timer in the
    global set. *)
Lemma active_queues_registered sys :
  timersRegistered sys →
  (length (activeQueues sys) ≤ size (AP.globalAudioQueueIntervalsSet (world sys)))%nat.
Proof.
  intros (Hnd & Hreg & _).
  transitivity (length (tracks sys)).
  { unfold activeQueues. apply length_filter. }
  rewrite <- (length_fmap AP.queueProcessingInterval).
  rewrite <- (size_list_to_set (C := gset nat)) by done.
  apply subseteq_size. intros j Hj. apply elem_of_list_to_set in Hj.
  apply list_elem_of_fmap in Hj as (t & -> & Ht). by apply Hreg.
Qed.

(** *** The diagnostic for several queues *)

Lemma handleAudioTrack_diagnostic id receiver w :
  WebSocketClient.readyStateOpen (AP.ws w) = true →
  let w' := snd (AP.handleAudioTrack id receiver w) in
  (1 < size (AP.globalAudioQueueIntervalsSet w'))%nat →
  SentJson (AP.trackMessage "MultipleAudioQueuesDetected" id)
  ∈ WebSocketClient.outbox (AP.ws w').
Proof.
  intros Hopen. unfold AP.handleAudioTrack. cbn zeta. cbn [snd AP.ws AP.globalAudioQueueIntervalsSet].
  intros Hsize. rewrite decide_True by done.
  assert (Hopen' : WebSocketClient.readyStateOpen (AP.ws (AP.addReceiver receiver w)) = true).
  { unfold AP.addReceiver. destruct (negb (truthy receiver) || _); [done|]. simpl.
    unfold WebSocketClient.sendJson. by rewrite Hopen. }
  destruct (sendJson_facts (AP.trackMessage "MultipleAudioQueuesDetected" id)
              (AP.ws (AP.addReceiver receiver w))) as (_ & _ & _ & Hsent).
  rewrite (Hsent Hopen'). apply elem_of_app. right. apply list_elem_of_here.
Qed.

(** What one callback does to the socket. *)
Lemma step_socket sys ev :
  let sys' := step clock bufferBytes sys ev in
  (∃ more, WebSocketClient.outbox (AP.ws (world sys'))
           = WebSocketClient.outbox (AP.ws (world sys)) ++ more) ∧
  WebSocketClient.readyStateOpen (AP.ws (world sys'))
  = match ev with
    | EvSocket open _ => open
    | _ => WebSocketClient.readyStateOpen (AP.ws (world sys))
    end.
Proof.
  cbn zeta. destruct ev as [id receiver|j frame|j|j|d|open enabled]; unfold step.
  - pose proof (handleAudioTrack_facts id receiver (world sys)) as Hnew.
    destruct (AP.handleAudioTrack id receiver (world sys)) as [t w'].
    destruct Hnew as (_ & _ & _ & _ & [Hopen _] & _ & Hmore & _). by split.
  - destruct (trackOf j sys) as [tj|]; [|split; [exists []; by rewrite app_nil_r | done]].
    pose proof (transform_facts clock frame tj (world sys)) as Hfacts.
    destruct (AP.transform clock frame tj (world sys)) as [tj' w'].
    destruct Hfacts as (_ & _ & [Hopen _] & _ & Hmore & _). by split.
  - case_decide; [split; [exists []; by rewrite app_nil_r | done]|].
    destruct (trackOf j sys) as [tj|]; [|split; [exists []; by rewrite app_nil_r | done]].
    pose proof (processAudioQueue_facts clock bufferBytes tj (world sys)) as Hfacts.
    destruct (AP.processAudioQueue clock bufferBytes tj (world sys)) as [tj' w'].
    destruct Hfacts as (admitted & _ & _ & _ & [Hopen _] & _ & Hmore & _). by split.
  - destruct (trackOf j sys) as [tj|]; [|split; [exists []; by rewrite app_nil_r | done]].
    destruct (sendJson_facts (AP.trackMessage "AudioTrackEnded" (AP.trackId tj))
                (AP.ws (world sys))) as ([Hopen _] & _ & Hmore & _). by split.
  - split; [exists []; by rewrite app_nil_r | done].
  - split; [exists []; by rewrite app_nil_r | done].
Qed.

Lemma run_events_app events events' sys :
  run clock bufferBytes (events ++ events') sys
  = run clock bufferBytes events' (run clock bufferBytes events sys).
Proof. unfold run. by rewrite foldl_app. Qed.

(** Nothing leaves the log of what the socket sent. *)
Lemma run_outbox_grows events sys :
  ∃ more, WebSocketClient.outbox (AP.ws (world (run clock bufferBytes events sys)))
          = WebSocketClient.outbox (AP.ws (world sys)) ++ more.
Proof.
  induction events as [|ev events [more IH]] using rev_ind.
  - exists []. by rewrite app_nil_r.
  - rewrite run_snoc.
    destruct (step_socket (run clock bufferBytes events sys) ev) as [(more' & Hmore) _].
    cbn zeta in Hmore. exists (more ++ more'). by rewrite Hmore, IH, app_assoc.
Qed.

(** With a second timer registered, the set-up of a track hands the
    diagnostic to [sendJson]; on a socket that is not open it sends
    nothing. *)
Lemma handleAudioTrack_handoff id receiver w :
  let w' := snd (AP.handleAudioTrack id receiver w) in
  (1 < size (AP.globalAudioQueueIntervalsSet w'))%nat →
  AP.ws w'
  = WebSocketClient.sendJson (AP.trackMessage "MultipleAudioQueuesDetected" id)
      (AP.ws (AP.addReceiver receiver w)) ∧
  (WebSocketClient.readyStateOpen (AP.ws w) = false →
   WebSocketClient.outbox (AP.ws w') = WebSocketClient.outbox (AP.ws w)).
Proof.
  unfold AP.handleAudioTrack. cbn zeta.
  cbn [snd AP.ws AP.globalAudioQueueIntervalsSet].
  intros Hsize. rewrite decide_True by done. split; [done|].
  intros Hclosed.
  assert (Hrecv : AP.ws (AP.addReceiver receiver w) = AP.ws w).
  { unfold AP.addReceiver. destruct (negb (truthy receiver) || _); [done|]. simpl.
    unfold WebSocketClient.sendJson. by rewrite Hclosed. }
  rewrite Hrecv. unfold WebSocketClient.sendJson. by rewrite Hclosed.
Qed.

(** More than one timer is registered only after the set-up of a track that
    found another timer registered. *)
Lemma run_second_timer ws0 events :
  (1 < size (AP.globalAudioQueueIntervalsSet
               (world (run clock bufferBytes events (initialSystem ws0)))))%nat →
  ∃ before id receiver after,
    events = before ++ EvTrack id receiver :: after ∧
    (1 < size (AP.globalAudioQueueIntervalsSet
                 (world (step clock bufferBytes
                           (run clock bufferBytes before (initialSystem ws0))
                           (EvTrack id receiver)))))%nat.
Proof.
  induction events as [|ev events IH] using rev_ind.
  - cbn [run foldl initialSystem world AP.globalAudioQueueIntervalsSet].
    intros Hsize. vm_compute in Hsize. lia.
  - rewrite run_snoc. intros Hsize.
    destruct (step_timers (run clock bufferBytes events (initialSystem ws0)) ev)
      as [(Hset & _)|(id & receiver & -> & _)]; cbn zeta in *.
    + rewrite Hset in Hsize.
      destruct (IH Hsize) as (before & id & receiver & after & -> & Hstep).
      exists before, id, receiver, (after ++ [ev]). split; [|done].
      by rewrite <- app_assoc.
    + exists events, id, receiver, []. done.
Qed.

(** *** The filter on frames *)

Lemma transform_found sys j frame tj :
  trackOf j sys = Some tj →
  trackOf j (step clock bufferBytes sys (EvFrame j frame))
  = Some (fst (AP.transform clock frame tj (world sys))).
Proof.
  intros Hj. unfold step. rewrite Hj.
  pose proof (transform_facts clock frame tj (world sys)) as Hfacts.
  destruct (AP.transform clock frame tj (world sys)) as [tj' w'].
  destruct Hfacts as (_ & _ & _ & _ & _ & Hint & _).
  destruct (trackOf_Some _ _ _ Hj) as [_ Hintj].
  unfold trackOf. cbn [tracks fst]. rewrite find_replaceTrack. fold (trackOf j sys).
  rewrite Hj. rewrite decide_True; [done | congruence].
Qed.

(** With more than one timer in the global set, [transform] enqueues a
    frame only if it is not silent, and does enqueue a frame that is not
    silent. *)
Lemma transform_multiple_queues frame t w :
  (1 < size (AP.globalAudioQueueIntervalsSet w))%nat →
  let t' := fst (AP.transform clock frame t w) in
  (∃ pushed, AP.audioDataQueue t' = AP.audioDataQueue t ++ pushed ∧
             Forall (fun q => AP.someNonZero (AP.audioData q) = true) pushed) ∧
  (AP.controllerActive frame = true →
   AP.someNonZero (AP.frameAudioData frame) = true →
   AP.audioDataQueue t'
   = AP.audioDataQueue t ++ [AP.mkQueued (clock (AP.tick w)) (AP.frameAudioData frame)]).
Proof.
  intros Hsize. unfold AP.transform. cbn zeta.
  rewrite (bool_decide_eq_true_2 _ Hsize).
  destruct (AP.controllerActive frame); simpl.
  2:{ split; [|done]. exists []. by rewrite app_nil_r. }
  destruct (AP.someNonZero (AP.frameAudioData frame)) eqn:Hdata;
    destruct (AP.trackIsNonSilent t); simpl.
  - split; [|done]. eexists. split; [reflexivity|]. by repeat constructor.
  - split; [|done]. eexists. split; [reflexivity|]. by repeat constructor.
  - split; [|done]. exists []. by rewrite app_nil_r.
  - split; [|done]. exists []. by rewrite app_nil_r.
Qed.

(** C9, as amended.  Whenever more than one audio queue is being polled at
    once, the set-up of one of the tracks has handed a
    MultipleAudioQueuesDetected diagnostic to [sendJson]: it is among the
    messages sent if the socket was open at that set-up, and the set-up sent
    nothing if the socket was not open.  In that condition every source,
    hence every source but the canonical one, enqueues for attribution and
    relay only frames with a non-zero sample, while a frame with a non-zero
    sample is still enqueued: relay is not given up. *)
Theorem multiple_audio_queues (ws0 : WebSocketClient.t) (events : list Event) :
  let sys := run clock bufferBytes events (initialSystem ws0) in
  (2 ≤ length (activeQueues sys))%nat →
  (∃ before id receiver after,
     events = before ++ EvTrack id receiver :: after ∧
     let sys0 := run clock bufferBytes before (initialSystem ws0) in
     let sys1 := step clock bufferBytes sys0 (EvTrack id receiver) in
     let diagnostic := AP.trackMessage "MultipleAudioQueuesDetected" id in
     AP.ws (world sys1)
     = WebSocketClient.sendJson diagnostic (AP.ws (AP.addReceiver receiver (world sys0))) ∧
     (WebSocketClient.readyStateOpen (AP.ws (world sys0)) = true →
      SentJson diagnostic ∈ WebSocketClient.outbox (AP.ws (world sys))) ∧
     (WebSocketClient.readyStateOpen (AP.ws (world sys0)) = false →
      WebSocketClient.outbox (AP.ws (world sys1))
      = WebSocketClient.outbox (AP.ws (world sys0)))) ∧
  (∀ i t frame,
     trackOf i sys = Some t →
     let t' := fst (AP.transform clock frame t (world sys)) in
     trackOf i (step clock bufferBytes sys (EvFrame i frame)) = Some t' ∧
     (∃ pushed, AP.audioDataQueue t' = AP.audioDataQueue t ++ pushed ∧
                Forall (fun q => AP.someNonZero (AP.audioData q) = true) pushed) ∧
     (AP.controllerActive frame = true →
      AP.someNonZero (AP.frameAudioData frame) = true →
      AP.audioDataQueue t'
      = AP.audioDataQueue t
        ++ [AP.mkQueued (clock (AP.tick (world sys))) (AP.frameAudioData frame)])).
Proof.
  cbn zeta. intros Hactive.
  assert (Hsize : (1 < size (AP.globalAudioQueueIntervalsSet
                     (world (run clock bufferBytes events (initialSystem ws0)))))%nat).
  { pose proof (active_queues_registered _ (run_timersRegistered ws0 events)). lia. }
  split.
  - destruct (run_second_timer ws0 events Hsize)
      as (before & id & receiver & after & -> & Hstep).
    exists before, id, receiver, after. split; [done|].
    rewrite (run_events_app before (EvTrack id receiver :: after)).
    set (sys0 := run clock bufferBytes before (initialSystem ws0)) in *.
    change (run clock bufferBytes (EvTrack id receiver :: after) sys0)
      with (run clock bufferBytes after (step clock bufferBytes sys0 (EvTrack id receiver))).
    pose proof (handleAudioTrack_handoff id receiver (world sys0)) as Hhandoff.
    pose proof (handleAudioTrack_diagnostic id receiver (world sys0)) as Hsent.
    assert (Hworld : world (step clock bufferBytes sys0 (EvTrack id receiver))
                     = snd (AP.handleAudioTrack id receiver (world sys0))).
    { unfold step. by destruct (AP.handleAudioTrack id receiver (world sys0)). }
    rewrite Hworld in *. cbn zeta in Hhandoff, Hsent.
    destruct (Hhandoff Hstep) as [Hws Hclosed].
    split_and!; [done | | done].
    intros Hopen. specialize (Hsent Hopen Hstep).
    destruct (run_outbox_grows after (step clock bufferBytes sys0 (EvTrack id receiver)))
      as [more ->].
    apply elem_of_app. left. by rewrite Hworld.
  - intros i t frame Ht. split; [by apply transform_found|].
    by apply transform_multiple_queues.
Qed.

(** *** The first frame that is not silent *)




End audio_sources.

Lemma multiple_audio_queues_witness :
  let events := [EvTrack "audio-1" "receiver-1"; EvTrack "audio-2" "receiver-2"] in
  let sys := run sample_clock sample_bufferBytes events
                 (initialSystem (WebSocketClient.mk true true [])) in
  length (activeQueues sys) = 2%nat ∧
  SentJson (AP.trackMessage "MultipleAudioQueuesDetected" "audio-2")
  ∈ WebSocketClient.outbox (AP.ws (world sys)).
Proof.
  cbn zeta. split; [vm_compute; reflexivity|].
  destruct (multiple_audio_queues sample_clock sample_bufferBytes
              (WebSocketClient.mk true true [])
              [EvTrack "audio-1" "receiver-1"; EvTrack "audio-2" "receiver-2"])
    as [(before & id & receiver & after & Hevents & Hhandoff & Hopen & _) _].
  - vm_compute. lia.
  - cbn zeta in Hhandoff, Hopen.
    destruct before as [|first [|second [|third before]]].
    + injection Hevents as <- <- <-. vm_compute in Hhandoff. discriminate Hhandoff.
    + injection Hevents as <- <- <- <-. apply Hopen. reflexivity.
    + injection Hevents as _ _ Hnil. discriminate Hnil.
    + injection Hevents as _ _ Hnil. discriminate Hnil.
Defined.

(** The claim as it stands fails where tracks are set up before the socket
    is open: two queues are being polled, the diagnostic was handed to
    [sendJson] on a socket that was not open, and nothing has been sent,
    also once the socket has opened. *)
Lemma diagnostic_dropped_on_closed_socket :
  let events := [EvTrack "audio-1" "receiver-1"; EvTrack "audio-2" "receiver-2";
                 EvSocket true true] in
  let sys := run sample_clock sample_bufferBytes events
                 (initialSystem (WebSocketClient.mk false true [])) in
  length (activeQueues sys) = 2%nat ∧
  WebSocketClient.readyStateOpen (AP.ws (world sys)) = true ∧
  WebSocketClient.outbox (AP.ws (world sys)) = [] ∧
  ¬ ∃ id, SentJson (AP.trackMessage "MultipleAudioQueuesDetected" id)
          ∈ WebSocketClient.outbox (AP.ws (world sys)).
Proof.
  cbn zeta.
  assert (Houtbox :
    WebSocketClient.outbox
      (AP.ws (world (run sample_clock sample_bufferBytes
                       [EvTrack "audio-1" "receiver-1"; EvTrack "audio-2" "receiver-2";
                        EvSocket true true]
                       (initialSystem (WebSocketClient.mk false true [])))))
    = []) by (vm_compute; reflexivity).
  split_and!; [by vm_compute | by vm_compute | done |].
  intros [id Hin]. rewrite Houtbox in Hin. by apply elem_of_nil in Hin.
Qed.


(** The first frame with a non-zero sample opens the track: it is enqueued
    and the diagnostic is sent. *)
Example speech_frame_opens_the_track :
  let events := [EvTrack "audio-1" "receiver-1"; EvFrame 0 silent_frame;
                 EvFrame 0 speech_frame] in
  let sys := run sample_clock sample_bufferBytes events
                 (initialSystem (WebSocketClient.mk true true [])) in
  ∃ t, trackOf 0 sys = Some t ∧
       AP.trackIsNonSilent t = true ∧
       AP.audioData <$> AP.audioDataQueue t = [AP.frameAudioData speech_frame] ∧
       SentJson (AP.trackMessage "WebRTCTrackIsNonSilent" "audio-1")
       ∈ WebSocketClient.outbox (AP.ws (world sys)).
Proof.
  cbn zeta. eexists. split; [vm_compute; reflexivity|].
  split; [reflexivity|]. split; [reflexivity|].
  vm_compute. repeat first [apply list_elem_of_here | apply list_elem_of_further].
Qed.

(** ** The output scheduler *)

Section float_order.

Lemma ltb_irrefl (x : float) : PrimFloat.ltb x x = false.
Proof.
  rewrite FloatAxioms.ltb_spec. unfold SFltb, SFcompare.
  destruct (Prim2SF x) as [?|[]| |[] m e]; try done;
    by rewrite Z.compare_refl, Pos.compare_cont_refl.
Qed.

Lemma ltb_asym (x y : float) : PrimFloat.ltb x y = true → PrimFloat.ltb y x = false.
Proof.
  rewrite !FloatAxioms.ltb_spec. unfold SFltb, SFcompare.
  destruct (Prim2SF x) as [?|[]| |[] m e], (Prim2SF y) as [?|[]| |[] m' e']; try done.
  all: pose proof (Pos.compare_antisym m m') as Hm; unfold Pos.compare in Hm.
  all: rewrite (Z.compare_antisym e e'), Hm.
  all: destruct (e ?= e'); simpl; try done.
  all: by destruct (Pos.compare_cont Eq m m').
Qed.

Lemma ltb_falsy (r a : float) :
  BotOutputManager.falsy a = true → PrimFloat.ltb r 0 = false → PrimFloat.ltb r a = false.
Proof.
  unfold BotOutputManager.falsy, BotOutputManager.isNaN.
  rewrite !FloatAxioms.ltb_spec, !FloatAxioms.eqb_spec.
  replace (Prim2SF 0) with (S754_zero false) by reflexivity.
  unfold SFltb, SFeqb, SFcompare.
  destruct (Prim2SF a) as [?|[]| |[] m e], (Prim2SF r) as [?|[]| |[] m' e']; try done.
  all: rewrite ?Z.compare_refl, ?Pos.compare_cont_refl; done.
Qed.

Lemma eqb_finite_eq (x y : float) :
  isFinite y = true → PrimFloat.eqb x y = true → x = y.
Proof.
  unfold isFinite. rewrite FloatAxioms.eqb_spec. intros Hy Heq.
  rewrite <- (SF2Prim_Prim2SF x), <- (SF2Prim_Prim2SF y). f_equal.
  unfold SFeqb, SFcompare in Heq.
  destruct (Prim2SF y) as [?|[]| |s' m' e']; try done.
  destruct (Prim2SF x) as [?|[]| |s m e]; try done; try by destruct s'.
  destruct s, s'; try done.
  - destruct (e ?= e') eqn:He; try done. apply Z.compare_eq in He. subst.
    destruct (Pos.compare_cont Eq m m') eqn:Hm; try done.
    by apply Pos.compare_eq in Hm; subst.
  - destruct (e ?= e') eqn:He; try done. apply Z.compare_eq in He. subst.
    destruct (Pos.compare_cont Eq m m') eqn:Hm; try done.
    by apply Pos.compare_eq in Hm; subst.
Qed.

End float_order.

(** *** The rule for the start times *)

Section start_times.

Variable D : float.

Lemma startsFrom_length (a : float) (rs : list float) :
  length (startsFrom D a rs) = length rs.
Proof. revert a. induction rs as [|r rs IH]; intros a; simpl; [done|]. by rewrite IH. Qed.

(** A start is the start before it plus [D], or the clock reading of a drain
    that found [nextPlayTime] unset or behind the clock. *)
Lemma starts_step (s0 : float) (rs : list float) (k : nat) (s s' : float) :
  (s0 :: startsFrom D (s0 + D) rs) !! k = Some s →
  (s0 :: startsFrom D (s0 + D) rs) !! S k = Some s' →
  s' = (s + D)%float
  ∨ (rs !! k = Some s' ∧ BOM.unsetOrBehind (s + D) s' = true).
Proof.
  revert s0 k. induction rs as [|r rs IH]; intros s0 k Hs Hs'.
  - by destruct k.
  - destruct k as [|k].
    + simpl in Hs, Hs'. injection Hs as <-. injection Hs' as <-.
      destruct (BOM.unsetOrBehind (s0 + D) r) eqn:Hreset; [by right|by left].
    + exact (IH _ k Hs Hs').
Qed.

Lemma starts_exactlyApart (s0 : float) (rs : list float) :
  onTime D (s0 + D) rs → exactlyApart D (s0 :: startsFrom D (s0 + D) rs).
Proof.
  revert s0. induction rs as [|r rs IH]; intros s0 Htime k s s' Hs Hs'.
  - by destruct k.
  - destruct Htime as [Hr Htime]. simpl in Hs, Hs'. rewrite Hr in Hs, Hs'.
    destruct k as [|k].
    + simpl in Hs, Hs'. by injection Hs as <-; injection Hs' as <-.
    + exact (IH _ Htime k s s' Hs Hs').
Qed.

Lemma starts_nonOverlapping (s0 : float) (rs : list float) :
  clockNotNegative rs → nonOverlapping D (s0 :: startsFrom D (s0 + D) rs).
Proof.
  intros Hclock k s s' Hs Hs'.
  destruct (starts_step s0 rs k s s' Hs Hs') as [->|[Hr Hreset]].
  - apply ltb_irrefl.
  - unfold clockNotNegative in Hclock. rewrite Forall_lookup in Hclock.
    specialize (Hclock k s' Hr). cbn beta in Hclock.
    unfold BOM.unsetOrBehind in Hreset. apply orb_true_iff in Hreset as [Hunset|Hbehind].
    + by apply ltb_falsy.
    + by apply ltb_asym.
Qed.

End start_times.

(** *** The queue *)

Section output_scheduler.

Variable createBuffer : float → float → float → bool.
Variables sampleRate numChannels : float.

#[local] Abbreviation chunkOf' := (fun pcmData => chunkOf pcmData sampleRate numChannels).

Lemma drainAll_cons (r : float) (rs : list float) (m : BOM.t) :
  drainAll createBuffer (r :: rs) m
  = drainAll createBuffer rs (BOM._processAudioQueue createBuffer r m).
Proof. reflexivity. Qed.

Lemma enqueueAll_cons (p : BOM.PcmData) (ps : list BOM.PcmData) (now : float) (m : BOM.t) :
  enqueueAll createBuffer (p :: ps) sampleRate numChannels now m
  = enqueueAll createBuffer ps sampleRate numChannels now
      (BOM.playPCMAudio createBuffer p sampleRate numChannels now m).
Proof. reflexivity. Qed.

(** A drain of a queue that is not empty, when the buffer is made. *)
Lemma processAudioQueue_head (now : float) (m : BOM.t) (c : BOM.Chunk) (rest : list BOM.Chunk) :
  BOM.audioQueue m = c :: rest →
  createBuffer (BOM.numChannels m) (BOM.lengthOf (BOM.data c) / BOM.numChannels m)%float
               (BOM.sampleRate m) = true →
  let m' := BOM._processAudioQueue createBuffer now m in
  let start := if BOM.unsetOrBehind (BOM.nextPlayTime m) now
               then now else BOM.nextPlayTime m in
  BOM.audioQueue m' = rest ∧
  BOM.isPlayingAudioQueue m' = true ∧
  BOM.nextPlayTime m' = (start + BOM.duration c)%float ∧
  BOM.started m' = BOM.started m ++ [BOM.mkStarted start c] ∧
  BOM.sampleRate m' = BOM.sampleRate m ∧
  BOM.numChannels m' = BOM.numChannels m ∧
  BOM.turnOffMicTimeout m' = BOM.turnOffMicTimeout m.
Proof.
  intros Hq Hbuf. unfold BOM._processAudioQueue. rewrite Hq. cbn zeta.
  rewrite Hbuf. by simpl.
Qed.

Lemma drainAll_starts (D : float) (rs : list float) (m : BOM.t) :
  queueAccepted createBuffer m D →
  (length rs ≤ length (BOM.audioQueue m))%nat →
  scheduledStarts (drainAll createBuffer rs m)
  = scheduledStarts m ++ startsFrom D (BOM.nextPlayTime m) rs.
Proof.
  revert m. induction rs as [|r rs IH]; intros m Hq Hlen.
  - simpl. by rewrite app_nil_r.
  - unfold queueAccepted in Hq.
    destruct (BOM.audioQueue m) as [|c rest] eqn:Hqueue; [simpl in Hlen; lia|].
    apply Forall_cons in Hq as [[Hd Hbuf] Hrest].
    destruct (processAudioQueue_head r m c rest Hqueue Hbuf)
      as (Hq' & _ & Hnext & Hstarted & Hsr & Hnc & _).
    rewrite drainAll_cons, IH.
    + unfold scheduledStarts at 1. rewrite Hstarted, fmap_app, Hnext, Hd.
      cbn [fmap list_fmap BOM.when startsFrom]. by rewrite <- app_assoc.
    + unfold queueAccepted. by rewrite Hq', Hsr, Hnc.
    + rewrite Hq'. simpl in Hlen. lia.
Qed.

Hypothesis sampleRate_finite : isFinite sampleRate = true.
Hypothesis numChannels_finite : isFinite numChannels = true.

(** [playPCMAudio] leaves the settings it was called with. *)
Lemma updateSettings_eq (m : BOM.t) :
  BOM.updateSettings sampleRate numChannels m
  = BOM.mk (BOM.sourceAudioTrack m) (BOM.audioQueue m) (BOM.isPlayingAudioQueue m)
           (BOM.nextPlayTime m) sampleRate numChannels (BOM.turnOffMicTimeout m)
           (BOM.timeouts m) (BOM.clearedTimeouts m) (BOM.micCallbacks m) (BOM.started m).
Proof.
  unfold BOM.updateSettings.
  destruct (negb (PrimFloat.eqb (BOM.sampleRate m) sampleRate)
            || negb (PrimFloat.eqb (BOM.numChannels m) numChannels)) eqn:Hcfg; [done|].
  apply orb_false_iff in Hcfg as [Hsr Hnc]. apply negb_false_iff in Hsr, Hnc.
  apply eqb_finite_eq in Hsr; [|done]. apply eqb_finite_eq in Hnc; [|done].
  rewrite <- Hsr, <- Hnc. by destruct m.
Qed.

(** Evaluation of the statements of [playPCMAudio] on a manager given by its
    fields. *)
Local Ltac fields :=
  cbv [BOM._createSourceAudioTrack BOM.ensureMicOn BOM.callMic BOM.pushChunk
       BOM.cancelTurnOffMic BOM.withTurnOffMicTimeout BOM.clearTimeout
       BOM.sourceAudioTrack BOM.audioQueue BOM.isPlayingAudioQueue BOM.nextPlayTime
       BOM.sampleRate BOM.numChannels BOM.turnOffMicTimeout BOM.timeouts
       BOM.clearedTimeouts BOM.micCallbacks BOM.started BOM.data BOM.duration app].

(** While the queue is playing, [playPCMAudio] only appends its chunk. *)
Lemma playPCMAudio_playing (pcmData : BOM.PcmData) (now : float) (m : BOM.t) :
  BOM.isPlayingAudioQueue m = true →
  let m' := BOM.playPCMAudio createBuffer pcmData sampleRate numChannels now m in
  playing sampleRate numChannels m' ∧
  BOM.audioQueue m' = BOM.audioQueue m ++ [chunkOf' pcmData] ∧
  BOM.nextPlayTime m' = BOM.nextPlayTime m ∧
  BOM.started m' = BOM.started m.
Proof.
  intros Hplaying.
  destruct m as [track q isPlaying next sr nc timer tms cleared mic st].
  cbn [BOM.isPlayingAudioQueue] in Hplaying. subst.
  unfold BOM.playPCMAudio. cbv zeta. rewrite updateSettings_eq.
  unfold playing, chunkOf, chunkDuration.
  destruct track, timer; fields; done.
Qed.

Lemma enqueueAll_playing (chunks : list BOM.PcmData) (now : float) (m : BOM.t) :
  BOM.isPlayingAudioQueue m = true →
  let m' := enqueueAll createBuffer chunks sampleRate numChannels now m in
  BOM.isPlayingAudioQueue m' = true ∧
  (chunks ≠ [] → playing sampleRate numChannels m') ∧
  BOM.audioQueue m' = BOM.audioQueue m ++ (chunkOf' <$> chunks) ∧
  BOM.nextPlayTime m' = BOM.nextPlayTime m ∧
  BOM.started m' = BOM.started m.
Proof.
  revert m. induction chunks as [|p ps IH]; intros m Hm.
  - simpl. by rewrite app_nil_r.
  - destruct (playPCMAudio_playing p now m Hm) as (Hm' & Hq & Hnext & Hstarted).
    destruct (IH _ (proj1 Hm')) as (Hplaying & Hm'' & Hq' & Hnext' & Hstarted').
    cbn zeta. rewrite enqueueAll_cons.
    split_and!; [done| |..].
    + intros _. destruct ps as [|p' ps]; [exact Hm'|]. by apply Hm''.
    + rewrite Hq', Hq, <- app_assoc. done.
    + by rewrite Hnext'.
    + by rewrite Hstarted'.
Qed.

(** On a manager that is not playing and has nothing queued, [playPCMAudio]
    drains at once: the chunk starts at [nextPlayTime], reset to the clock
    reading when unset or behind it. *)
Lemma playPCMAudio_idle (pcmData : BOM.PcmData) (now : float) (m : BOM.t) :
  BOM.isPlayingAudioQueue m = false →
  BOM.audioQueue m = [] →
  bufferAccepted createBuffer sampleRate numChannels pcmData →
  let m' := BOM.playPCMAudio createBuffer pcmData sampleRate numChannels now m in
  let start := if BOM.unsetOrBehind (BOM.nextPlayTime m) now
               then now else BOM.nextPlayTime m in
  playing sampleRate numChannels m' ∧
  BOM.audioQueue m' = [] ∧
  BOM.nextPlayTime m' = (start + chunkDuration pcmData sampleRate numChannels)%float ∧
  BOM.started m' = BOM.started m ++ [BOM.mkStarted start (chunkOf' pcmData)].
Proof.
  intros Hidle Hq Hbuf. unfold bufferAccepted in Hbuf.
  destruct m as [track q isPlaying next sr nc timer tms cleared mic st].
  cbn [BOM.isPlayingAudioQueue BOM.audioQueue] in Hidle, Hq. subst.
  unfold BOM.playPCMAudio. cbv zeta. rewrite updateSettings_eq.
  unfold playing, chunkOf, chunkDuration.
  destruct track, timer; fields;
    unfold BOM._processAudioQueue; fields; rewrite Hbuf; fields; done.
Qed.

(** The start times of chunks enqueued back to back follow the rule of the
    specification. *)
Lemma backToBack_starts (D now : float) (m0 : BOM.t)
    (chunks : list BOM.PcmData) (readings : list float) :
  BOM.audioQueue m0 = [] →
  Forall (fun p => chunkDuration p sampleRate numChannels = D) chunks →
  Forall (bufferAccepted createBuffer sampleRate numChannels) chunks →
  length (drainReadings m0 now readings) = length chunks →
  scheduledStarts (backToBack createBuffer m0 chunks sampleRate numChannels now readings)
  = scheduledStarts m0
    ++ startsFrom D (BOM.nextPlayTime m0) (drainReadings m0 now readings).
Proof.
  intros Hq0 Hd Hbuf Hlen. unfold backToBack, drainReadings in *.
  assert (Hqueue : ∀ ps m,
            Forall (fun p => chunkDuration p sampleRate numChannels = D) ps →
            Forall (bufferAccepted createBuffer sampleRate numChannels) ps →
            BOM.audioQueue m = chunkOf' <$> ps →
            BOM.sampleRate m = sampleRate → BOM.numChannels m = numChannels →
            queueAccepted createBuffer m D).
  { intros ps m Hds Hbufs Hq Hsr Hnc. unfold queueAccepted. rewrite Hq, Hsr, Hnc.
    apply Forall_fmap, Forall_forall. intros p Hp.
    rewrite Forall_forall in Hds, Hbufs. split; [by apply Hds|by apply Hbufs]. }
  destruct (BOM.isPlayingAudioQueue m0) eqn:Hplaying.
  - destruct (enqueueAll_playing chunks now m0 Hplaying)
      as (_ & Hm & Hq & Hnext & Hstarted).
    rewrite Hq0 in Hq. simpl in Hq.
    destruct chunks as [|p ps].
    { destruct readings; [|done]. simpl. by rewrite app_nil_r. }
    destruct Hm as (_ & _ & Hsr & Hnc); [done|].
    rewrite (drainAll_starts D).
    + rewrite Hnext. unfold scheduledStarts. by rewrite Hstarted.
    + by apply (Hqueue (p :: ps)).
    + rewrite Hq, length_fmap. lia.
  - destruct chunks as [|p ps]; [done|].
    apply Forall_cons in Hd as [Hdp Hds]. apply Forall_cons in Hbuf as [Hbufp Hbufs].
    destruct (playPCMAudio_idle p now m0 Hplaying Hq0 Hbufp)
      as (Hm1 & Hq1 & Hnext1 & Hstarted1).
    destruct (enqueueAll_playing ps now _ (proj1 Hm1))
      as (_ & _ & Hq & Hnext & Hstarted).
    rewrite Hq1 in Hq. simpl in Hq.
    assert (Hfields : BOM.sampleRate
                        (enqueueAll createBuffer (p :: ps) sampleRate numChannels now m0)
                      = sampleRate
                      ∧ BOM.numChannels
                          (enqueueAll createBuffer (p :: ps) sampleRate numChannels now m0)
                        = numChannels).
    { rewrite enqueueAll_cons. destruct ps as [|p' ps'].
      - destruct Hm1 as (_ & _ & Hsr & Hnc). done.
      - destruct (enqueueAll_playing (p' :: ps') now _ (proj1 Hm1))
          as (_ & Hm & _); destruct Hm as (_ & _ & Hsr & Hnc); done. }
    rewrite enqueueAll_cons in Hfields |- *.
    rewrite (drainAll_starts D).
    + rewrite Hnext, Hnext1, Hdp. unfold scheduledStarts.
      rewrite Hstarted, Hstarted1, fmap_app. cbn [startsFrom fmap list_fmap BOM.when].
      by rewrite <- app_assoc.
    + by apply (Hqueue ps); [..|apply Hfields|apply Hfields].
    + rewrite Hq, length_fmap. simpl in Hlen. lia.
Qed.

End output_scheduler.

(** C7, as amended.  Chunks of one duration [D] are enqueued back to back on
    a manager with nothing queued, and the drains that take them run at any
    clock readings (on a manager that is not playing the first chunk is
    drained at once, by [playPCMAudio] itself).  There is one start per
    chunk, and the starts follow the rule: a drain starts the head chunk
    exactly at [nextPlayTime], which it first resets to the clock reading
    when it is unset or behind the clock, and then advances [nextPlayTime]
    by [D].  So each start is the start before it plus [D], or the reading
    of a drain that came too late; the starts never overlap (the clock not
    being negative), and they are exactly [D] apart when every drain after
    the first is in time. *)
Theorem back_to_back_start_times (createBuffer : float → float → float → bool)
    (sampleRate numChannels D now : float) (m0 : BOM.t)
    (chunks : list BOM.PcmData) (readings : list float) :
  isFinite sampleRate = true →
  isFinite numChannels = true →
  BOM.audioQueue m0 = [] →
  Forall (fun p => chunkDuration p sampleRate numChannels = D) chunks →
  Forall (bufferAccepted createBuffer sampleRate numChannels) chunks →
  let drains := drainReadings m0 now readings in
  length drains = length chunks →
  let starts := startsFrom D (BOM.nextPlayTime m0) drains in
  scheduledStarts (backToBack createBuffer m0 chunks sampleRate numChannels now readings)
  = scheduledStarts m0 ++ starts ∧
  length starts = length chunks ∧
  (∀ k s s', starts !! k = Some s → starts !! S k = Some s' →
     s' = (s + D)%float
     ∨ (drains !! S k = Some s' ∧ BOM.unsetOrBehind (s + D) s' = true)) ∧
  (clockNotNegative drains → nonOverlapping D starts) ∧
  (laterDrainsOnTime D (BOM.nextPlayTime m0) drains → exactlyApart D starts).
Proof.
  intros Hsr Hnc Hq0 Hd Hbuf. cbn zeta. intros Hlen. split_and!.
  - by apply backToBack_starts.
  - by rewrite startsFrom_length.
  - destruct (drainReadings m0 now readings) as [|r rs]; [by intros []|].
    intros k s s' Hs Hs'. exact (starts_step D _ rs k s s' Hs Hs').
  - destruct (drainReadings m0 now readings) as [|r rs]; [by intros _ []|].
    intros Hclock. apply starts_nonOverlapping.
    by apply Forall_cons in Hclock as [_ Hclock].
  - unfold laterDrainsOnTime.
    destruct (drainReadings m0 now readings) as [|r rs]; [by intros _ []|].
    apply starts_exactlyApart.
Qed.

Lemma back_to_back_start_times_witness :
  exactlyApart 1
    (startsFrom 1 (BOM.nextPlayTime BOM.new)
       (drainReadings BOM.new 10 [10.8%float; 11.76%float])).
Proof.
  destruct (back_to_back_start_times standardCreateBuffer 8000 1 1 10 BOM.new
              [secondOfSilence; secondOfSilence; secondOfSilence]
              [10.8%float; 11.76%float])
    as (_ & _ & _ & _ & Hapart).
  - reflexivity.
  - reflexivity.
  - reflexivity.
  - repeat (constructor; [vm_compute; reflexivity|]). constructor.
  - repeat (constructor; [vm_compute; reflexivity|]). constructor.
  - reflexivity.
  - apply Hapart. vm_compute. tauto.
Defined.

(** A drain that comes late leaves a gap.  Two chunks of one second are
    enqueued at clock 10 on a new manager and the timer set for 800ms fires
    at clock 15: the starts are 10 and 15.  The same on a manager that is
    playing, where no drain runs between the two calls: the chunks follow a
    chunk started at 10, the first drain is in time (at 10.875) and the second is late,
    and they start at 11 and 15. *)
Lemma late_drain_leaves_gap :
  let chunks := [secondOfSilence; secondOfSilence] in
  let fresh := backToBack standardCreateBuffer BOM.new chunks 8000 1 10 [15%float] in
  let busy := BOM.playPCMAudio standardCreateBuffer secondOfSilence 8000 1 10 BOM.new in
  let queued :=
    backToBack standardCreateBuffer busy chunks 8000 1 10.5 [10.875%float; 15%float] in
  Forall (fun p => chunkDuration p 8000 1 = 1%float) chunks ∧
  Forall (bufferAccepted standardCreateBuffer 8000 1) chunks ∧
  scheduledStarts fresh = [10%float; 15%float] ∧
  ¬ exactlyApart 1 (scheduledStarts fresh) ∧
  BOM.audioQueue busy = [] ∧
  BOM.isPlayingAudioQueue busy = true ∧
  scheduledStarts queued = [10%float; 11%float; 15%float] ∧
  ¬ exactlyApart 1 (drop 1 (scheduledStarts queued)).
Proof.
  cbn zeta.
  assert (Hfresh : scheduledStarts
                     (backToBack standardCreateBuffer BOM.new
                        [secondOfSilence; secondOfSilence] 8000 1 10 [15%float])
                   = [10%float; 15%float]) by (vm_compute; reflexivity).
  assert (Hqueued : scheduledStarts
                      (backToBack standardCreateBuffer
                         (BOM.playPCMAudio standardCreateBuffer secondOfSilence 8000 1 10 BOM.new)
                         [secondOfSilence; secondOfSilence] 8000 1 10.5
                         [10.875%float; 15%float])
                    = [10%float; 11%float; 15%float]) by (vm_compute; reflexivity).
  rewrite Hfresh, Hqueued.
  split_and!.
  - repeat (constructor; [vm_compute; reflexivity|]). constructor.
  - repeat (constructor; [vm_compute; reflexivity|]). constructor.
  - reflexivity.
  - intros H. specialize (H 0%nat 10%float 15%float eq_refl eq_refl).
    apply (f_equal (fun x => PrimFloat.eqb x 15)) in H. by vm_compute in H.
  - by vm_compute.
  - by vm_compute.
  - reflexivity.
  - intros H. specialize (H 0%nat 11%float 15%float eq_refl eq_refl).
    apply (f_equal (fun x => PrimFloat.eqb x 15)) in H. by vm_compute in H.
Qed.

(** ** The other websocket messages *)

Section websocket_frames.
Import ByteArray.

Lemma jsonMessage_frame (jsonBytes : list Z) :
  WSF.jsonMessage jsonBytes = Some ([1; 0; 0; 0] ++ jsonBytes).
Proof.
  unfold WSF.jsonMessage. cbn zeta. rewrite create_add. unfold setInt32.
  rewrite (set_fill_head (create 4) _ (le_bytes 4 WebSocketClient.MESSAGE_TYPES_JSON)) by done.
  cbn [mbind option_bind].
  rewrite (set_fill_tail 4 _ (create (length jsonBytes)) jsonBytes);
    [done | done | apply create_length].
Qed.

Lemma mixedAudioMessage_frame (audioData : list Z) :
  WSF.mixedAudioMessage audioData = Some ([3; 0; 0; 0] ++ audioData).
Proof.
  unfold WSF.mixedAudioMessage. cbn zeta. rewrite create_add. unfold setInt32.
  rewrite (set_fill_head (create 4) _ (le_bytes 4 WebSocketClient.MESSAGE_TYPES_AUDIO)) by done.
  cbn [mbind option_bind].
  rewrite (set_fill_tail 4 _ (create (length audioData)) audioData);
    [done | done | apply create_length].
Qed.

Lemma audioMessage_frame (timestamp streamId : Z) (audioData : list Z) :
  WSF.audioMessage timestamp streamId audioData
  = Some ([3; 0; 0; 0] ++ le_bytes 8 timestamp ++ le_bytes 4 streamId ++ audioData).
Proof.
  unfold WSF.audioMessage. cbn zeta. rewrite !create_add, <- !app_assoc.
  unfold setInt32, setBigInt64.
  set (tag := le_bytes 4 WebSocketClient.MESSAGE_TYPES_AUDIO).
  rewrite (set_fill_head (create 4) _ tag) by done.
  cbn [mbind option_bind].
  rewrite (set_fill 4 tag (create 8)) by (done || by rewrite le_bytes_length).
  cbn [mbind option_bind].
  rewrite (app_assoc tag).
  rewrite (set_fill 12 _ (create 4)); [| by rewrite length_app, le_bytes_length | done].
  cbn [mbind option_bind].
  rewrite (app_assoc _ (le_bytes 4 _)).
  rewrite (set_fill_tail 16 _ (create (length audioData)) audioData).
  - by rewrite <- !app_assoc.
  - by rewrite !length_app, !le_bytes_length.
  - apply create_length.
Qed.


(** The mixed-audio message: the type tag 3 in four little-endian bytes, then
    the audio bytes as they are.  The message always fits, so it is sent
    whenever the socket is open and media sending is on, and the [timestamp]
    argument does not reach the wire. *)
Theorem sendMixedAudio_frame (timestamp : Z) (audioData : list Z)
    (ws : WebSocketClient.t) :
  WSF.sendMixedAudio timestamp audioData ws
  = (if WebSocketClient.readyStateOpen ws && WebSocketClient.mediaSendingEnabled ws
     then WebSocketClient.send (SentBytes ([3; 0; 0; 0] ++ audioData)) ws
     else ws)
  ∧ ∀ timestamp', WSF.sendMixedAudio timestamp' audioData ws
                  = WSF.sendMixedAudio timestamp audioData ws.
Proof.
  split; [|done].
  unfold WSF.sendMixedAudio. rewrite mixedAudioMessage_frame.
  by destruct (WebSocketClient.readyStateOpen ws),
              (WebSocketClient.mediaSendingEnabled ws).
Qed.

(** The stream-audio message of [sendAudio] is a 16-byte header and the audio
    bytes: the type tag 3, the timestamp in eight bytes and the stream id in
    four, little-endian; a timestamp and a stream id within their signed
    widths are read back from it as written. *)
Theorem sendAudio_round_trip (timestamp streamId : Z) (audioData : list Z)
    (ws : WebSocketClient.t) :
  WebSocketClient.readyStateOpen ws = true →
  WebSocketClient.mediaSendingEnabled ws = true →
  - 2 ^ 63 <= timestamp < 2 ^ 63 →
  - 2 ^ 31 <= streamId < 2 ^ 31 →
  ∃ message,
    WSF.sendAudio timestamp streamId audioData ws
    = WebSocketClient.send (SentBytes message) ws ∧
    length message = (16 + length audioData)%nat ∧
    WSF.getInt32 0 message = Some WebSocketClient.MESSAGE_TYPES_AUDIO ∧
    getBigInt64 4 message = timestamp ∧
    WSF.getInt32 12 message = Some streamId ∧
    drop 16 message = audioData.
Proof.
  intros Hopen Hmedia Hts Hid.
  exists ([3; 0; 0; 0] ++ le_bytes 8 timestamp ++ le_bytes 4 streamId ++ audioData).
  assert (H8 : length (le_bytes 8 timestamp) = 8%nat) by apply le_bytes_length.
  assert (H4 : length (le_bytes 4 streamId) = 4%nat) by apply le_bytes_length.
  split_and!.
  - unfold WSF.sendAudio. by rewrite audioMessage_frame, Hopen, Hmedia.
  - rewrite !length_app, H8, H4. simpl. lia.
  - unfold WSF.getInt32. rewrite decide_True by (rewrite !length_app; simpl; lia). done.
  - unfold getBigInt64. rewrite (drop_app_length' [3; 0; 0; 0]) by done.
    rewrite take_app_length' by done.
    apply le_signed_le_bytes; [lia|]. simpl. lia.
  - unfold WSF.getInt32. rewrite decide_True by (rewrite !length_app, H8, H4; simpl; lia).
    f_equal. rewrite (app_assoc [3; 0; 0; 0]).
    rewrite drop_app_length' by (rewrite length_app, H8; done).
    rewrite take_app_length' by done.
    apply le_signed_le_bytes; [lia|]. simpl. lia.
  - rewrite (app_assoc [3; 0; 0; 0]), (app_assoc _ (le_bytes 4 streamId)).
    rewrite drop_app_length' by (rewrite !length_app, H8, H4; done). done.
Qed.

Lemma sendAudio_round_trip_witness :
  ∃ message,
    WSF.sendAudio 1700000000000 7 [1; 2] open_client
    = WebSocketClient.send (SentBytes message) open_client ∧
    length message = 18%nat ∧
    WSF.getInt32 0 message = Some 3 ∧
    getBigInt64 4 message = 1700000000000 ∧
    WSF.getInt32 12 message = Some 7 ∧
    drop 16 message = [1; 2].
Proof.
  apply (sendAudio_round_trip 1700000000000 7 [1; 2] open_client);
    [reflexivity | reflexivity | lia | lia].
Defined.

(** *** The media switch *)

Lemma senderCall_flags (ws : WebSocketClient.t) (c : SenderCall) :
  WebSocketClient.readyStateOpen (senderCall ws c) = WebSocketClient.readyStateOpen ws ∧
  WebSocketClient.mediaSendingEnabled (senderCall ws c)
  = WebSocketClient.mediaSendingEnabled ws.
Proof.
  destruct c; simpl;
    unfold WebSocketClient.sendJson, WSF.sendClosedCaptionUpdate, WSF.sendMixedAudio,
      WSF.sendAudio, WebSocketClient.sendPerParticipantAudio, WebSocketClient.sendVideo,
      WebSocketClient.sendJson;
    destruct (WebSocketClient.readyStateOpen ws) eqn:Hopen,
             (WebSocketClient.mediaSendingEnabled ws) eqn:Hmedia;
    cbn [negb]; rewrite ?Hopen; cbn [negb]; try done;
    repeat case_match; done.
Qed.

Lemma senderCall_closed (ws : WebSocketClient.t) (c : SenderCall) :
  WebSocketClient.readyStateOpen ws = false → senderCall ws c = ws.
Proof.
  intros Hclosed. destruct c; simpl;
    unfold WebSocketClient.sendJson, WSF.sendClosedCaptionUpdate, WSF.sendMixedAudio,
      WSF.sendAudio, WebSocketClient.sendPerParticipantAudio, WebSocketClient.sendVideo,
      WebSocketClient.sendJson;
    rewrite ?Hclosed; cbn [negb]; try done.
  by destruct (WebSocketClient.mediaSendingEnabled ws).
Qed.

Lemma senderCall_media_off (ws : WebSocketClient.t) (c : SenderCall) :
  WebSocketClient.readyStateOpen ws = true →
  WebSocketClient.mediaSendingEnabled ws = false →
  WebSocketClient.outbox (senderCall ws c) = WebSocketClient.outbox ws ++ jsonCalls [c].
Proof.
  intros Hopen Hoff. destruct c; simpl;
    unfold WebSocketClient.sendJson, WSF.sendClosedCaptionUpdate, WSF.sendMixedAudio,
      WSF.sendAudio, WebSocketClient.sendPerParticipantAudio, WebSocketClient.sendVideo;
    rewrite ?Hopen, ?Hoff; cbn [negb]; by rewrite ?app_nil_r.
Qed.

Lemma jsonCalls_app (cs1 cs2 : list SenderCall) :
  jsonCalls (cs1 ++ cs2) = jsonCalls cs1 ++ jsonCalls cs2.
Proof. unfold jsonCalls. apply omap_app. Qed.

(** Through any sequence of sender calls: on a socket that is not open
    nothing is sent; and while media sending is off, what goes out on an open
    socket is exactly the messages of the [sendJson] calls, in their order:
    no audio, no video and no caption update. *)
Theorem media_switch_off (cs : list SenderCall) (ws : WebSocketClient.t) :
  (WebSocketClient.readyStateOpen ws = false → senderCalls cs ws = ws) ∧
  (WebSocketClient.readyStateOpen ws = true →
   WebSocketClient.mediaSendingEnabled ws = false →
   WebSocketClient.outbox (senderCalls cs ws) = WebSocketClient.outbox ws ++ jsonCalls cs).
Proof.
  split.
  - intros Hclosed. unfold senderCalls.
    induction cs as [|c cs IH] using rev_ind; [done|].
    rewrite foldl_app. simpl. rewrite IH. by apply senderCall_closed.
  - intros Hopen Hoff. unfold senderCalls.
    induction cs as [|c cs IH] using rev_ind.
    { simpl. by rewrite app_nil_r. }
    rewrite foldl_app. cbn [foldl].
    assert (Hflags : WebSocketClient.readyStateOpen (foldl senderCall ws cs) = true ∧
                     WebSocketClient.mediaSendingEnabled (foldl senderCall ws cs) = false).
    { clear IH. induction cs as [|c' cs IH] using rev_ind; [done|].
      rewrite foldl_app. cbn [foldl].
      destruct (senderCall_flags (foldl senderCall ws cs) c') as [-> ->]. exact IH. }
    destruct Hflags as [Hopen' Hoff'].
    rewrite senderCall_media_off, IH, jsonCalls_app, app_assoc by done. done.
Qed.

Lemma media_switch_off_witness :
  let cs := [CallSendMixedAudio 0 [1; 2]; CallSendJson (JString "hello");
             CallSendClosedCaptionUpdate (JString "caption");
             CallSendVideo 0 "s" 2 2 [0]] in
  senderCalls cs (WebSocketClient.mk false true []) = WebSocketClient.mk false true [] ∧
  WebSocketClient.outbox (senderCalls cs (WebSocketClient.mk true false []))
  = [SentJson (JString "hello")].
Proof.
  cbn zeta. split.
  - exact (proj1 (media_switch_off _ (WebSocketClient.mk false true [])) eq_refl).
  - exact (proj2 (media_switch_off _ (WebSocketClient.mk true false [])) eq_refl eq_refl).
Defined.

(** *** The receiver *)

Lemma getInt32_tag (v : Z) (rest : list Z) :
  - 2 ^ 31 <= v < 2 ^ 31 →
  WSF.getInt32 0 (le_bytes 4 v ++ rest) = Some v.
Proof.
  intros Hv. unfold WSF.getInt32.
  rewrite decide_True by (rewrite length_app, le_bytes_length; lia).
  rewrite drop_0, take_app_length' by (by rewrite le_bytes_length).
  f_equal. apply le_signed_le_bytes; [lia|]. simpl. lia.
Qed.

Lemma handleMessage_tag (v : Z) (rest : list Z) :
  - 2 ^ 31 <= v < 2 ^ 31 →
  WSF.handleMessage (le_bytes 4 v ++ rest)
  = Some (if decide (v = WebSocketClient.MESSAGE_TYPES_JSON)
          then WSF.ReceivedJson rest else WSF.UnknownMessageType v).
Proof.
  intros Hv. unfold WSF.handleMessage. rewrite getInt32_tag by done.
  cbn [mbind option_bind]. case_decide; [|done].
  by rewrite drop_app_length' by (by rewrite le_bytes_length).
Qed.

(** [handleMessage] reads back the frames of the senders: a JSON frame as
    JSON with the text it was built from, and the frames of the audio and
    video senders as messages of an unknown type, with their type tag; on
    fewer than four bytes it fails (a [RangeError]). *)
Theorem handleMessage_frames :
  (∀ jsonBytes,
     WSF.jsonMessage jsonBytes ≫= WSF.handleMessage
     = Some (WSF.ReceivedJson jsonBytes)) ∧
  (∀ audioData,
     WSF.mixedAudioMessage audioData ≫= WSF.handleMessage
     = Some (WSF.UnknownMessageType 3)) ∧
  (∀ timestamp streamId audioData,
     WSF.audioMessage timestamp streamId audioData ≫= WSF.handleMessage
     = Some (WSF.UnknownMessageType 3)) ∧
  (∀ participantId audioData,
     WebSocketClient.perParticipantAudioMessage participantId audioData
       ≫= WSF.handleMessage
     = Some (WSF.UnknownMessageType 5)) ∧
  (∀ timestamp streamId width height videoData,
     WebSocketClient.videoMessage timestamp streamId width height videoData
       ≫= WSF.handleMessage
     = Some (WSF.UnknownMessageType 2)) ∧
  (∀ data, WSF.handleMessage (take 3 data) = None).
Proof.
  split_and!.
  - intros jsonBytes. rewrite jsonMessage_frame.
    exact (handleMessage_tag 1 jsonBytes ltac:(lia)).
  - intros audioData. rewrite mixedAudioMessage_frame.
    exact (handleMessage_tag 3 audioData ltac:(lia)).
  - intros timestamp streamId audioData. rewrite audioMessage_frame.
    exact (handleMessage_tag 3 _ ltac:(lia)).
  - intros participantId audioData.
    unfold WebSocketClient.perParticipantAudioMessage. cbn zeta.
    set (idBytes := encodeText participantId).
    rewrite !create_add, <- !app_assoc. unfold setInt32, setUint8.
    rewrite (set_fill_head (create 4) _
               (le_bytes 4 WebSocketClient.MESSAGE_TYPES_PER_PARTICIPANT_AUDIO)) by done.
    cbn [mbind option_bind].
    rewrite (set_fill 4 _ (create 1)) by done.
    cbn [mbind option_bind].
    rewrite (app_assoc (le_bytes 4 _)).
    rewrite (set_fill 5 _ (create (length idBytes)) _ idBytes)
      by (done || apply create_length).
    cbn [mbind option_bind].
    rewrite (app_assoc _ idBytes).
    rewrite (set_fill_tail _ _ (create (length audioData)) audioData);
      [| by rewrite !length_app | apply create_length].
    rewrite <- !app_assoc. exact (handleMessage_tag 5 _ ltac:(lia)).
  - intros timestamp streamId width height videoData.
    rewrite videoMessage_frame. exact (handleMessage_tag 2 _ ltac:(lia)).
  - intros data. unfold WSF.handleMessage, WSF.getInt32.
    rewrite decide_False; [done|]. rewrite length_take. lia.
Qed.

End websocket_frames.
(** ** The roster and the mapping manager *)

Section roster_streams.

Implicit Types (vs : JsMap.t string VirtualStream) (m : Mgr.t).

Lemma streams_keyed_set vs (v : VirtualStream) :
  streams_keyed vs → streams_keyed (JsMap.set (sourceId v) v vs).
Proof.
  intros [Hnd Hkeyed]. split; [by apply jsmap_set_NoDup|].
  clear Hnd. induction vs as [|[k v'] vs IH]; simpl.
  - by repeat constructor.
  - apply Forall_cons in Hkeyed as [Hk Hrest].
    destruct (decide (sourceId v = k)); constructor; auto.
Qed.

Lemma streams_keyed_get vs (v : VirtualStream) :
  streams_keyed vs → v ∈ JsMap.values vs → JsMap.get (sourceId v) vs = Some v.
Proof.
  intros [Hnd Hkeyed] Hin. apply jsmap_get_entry; [done|].
  unfold JsMap.values in Hin. apply list_elem_of_fmap in Hin as ([k v'] & -> & Hin).
  rewrite Forall_forall in Hkeyed. specialize (Hkeyed _ Hin). simpl in Hkeyed.
  by subst.
Qed.

Lemma jsmap_get_values {K V} `{EqDecision K} (k : K) (v : V) (mp : JsMap.t K V) :
  JsMap.get k mp = Some v → v ∈ JsMap.values mp.
Proof.
  intros Hget. apply jsmap_entry_get in Hget. unfold JsMap.values.
  apply list_elem_of_fmap. by exists (k, v).
Qed.

(** Deleting, by their own key, the values that satisfy [P] leaves the other
    entries, in their order. *)
Lemma delete_others (rest : list VirtualStream) k v vs :
  k ∉ sourceId <$> rest →
  foldl (fun vs v' => JsMap.delete (sourceId v') vs) ((k, v) :: vs) rest
  = (k, v) :: foldl (fun vs v' => JsMap.delete (sourceId v') vs) vs rest.
Proof.
  revert vs. induction rest as [|r rest IH]; intros vs Hk; [done|].
  rewrite fmap_cons, not_elem_of_cons in Hk. destruct Hk as [Hne Hk].
  cbn [foldl JsMap.delete]. rewrite decide_False by done. by apply IH.
Qed.

Lemma delete_matching (P : VirtualStream → bool) vs :
  streams_keyed vs →
  foldl (fun vs v => JsMap.delete (sourceId v) vs) vs (List.filter P (JsMap.values vs))
  = List.filter (fun e => negb (P (snd e))) vs.
Proof.
  intros [Hnd Hkeyed]. unfold JsMap.values, JsMap.keys in *.
  induction vs as [|[k v] vs IH]; [done|].
  apply Forall_cons in Hkeyed as [Hk Hrest]. simpl in Hk. subst k.
  cbn [fmap list_fmap fst] in Hnd. apply NoDup_cons in Hnd as [Hnotin Hnd].
  cbn [fmap list_fmap snd List.filter].
  destruct (P v) eqn:HP; cbn [negb].
  - cbn [foldl JsMap.delete]. rewrite decide_True by done. by apply IH.
  - rewrite delete_others; [by rewrite IH|].
    intros Hin. apply Hnotin. apply list_elem_of_fmap in Hin as (v' & Heq & Hin).
    apply list_elem_of_In, filter_In in Hin as [Hin _]. apply list_elem_of_In in Hin.
    apply list_elem_of_fmap in Hin as ([k' v''] & -> & Hin).
    rewrite Forall_forall in Hrest. pose proof (Hrest _ Hin) as Hk'. simpl in Hk'.
    rewrite Heq. simpl. rewrite <- Hk'.
    apply list_elem_of_fmap. by exists (k', v'').
Qed.

Lemma removeVirtualStreams_fold (rest : list VirtualStream) m :
  foldl (fun m v => SM.withVirtualStreams (JsMap.delete (sourceId v) (Mgr.virtualStreams m)) m)
        m rest
  = SM.withVirtualStreams
      (foldl (fun vs v => JsMap.delete (sourceId v) vs) (Mgr.virtualStreams m) rest) m.
Proof.
  revert m. induction rest as [|r rest IH]; intros m; [by destruct m|].
  cbn [foldl]. rewrite IH. by destruct m.
Qed.

(** What [removeVirtualStreamsForParticipant] leaves, on streams stored under
    their own [sourceId]. *)
Lemma removeVirtualStreams_filter (participantId : string) m :
  streams_keyed (Mgr.virtualStreams m) →
  SM.removeVirtualStreamsForParticipant participantId m
  = SM.withVirtualStreams
      (List.filter (fun e => negb (belongs_to participantId (snd e))) (Mgr.virtualStreams m))
      m.
Proof.
  intros Hkeyed. unfold SM.removeVirtualStreamsForParticipant. cbn zeta.
  rewrite removeVirtualStreams_fold. f_equal.
  exact (delete_matching (belongs_to participantId) _ Hkeyed).
Qed.

Lemma streams_keyed_filter (P : string * VirtualStream → bool) vs :
  streams_keyed vs → streams_keyed (List.filter P vs).
Proof.
  intros [Hnd Hkeyed]. split.
  - unfold JsMap.keys in *. clear Hkeyed.
    induction vs as [|e vs IH]; [done|].
    cbn [fmap list_fmap] in Hnd. apply NoDup_cons in Hnd as [Hnotin Hnd].
    cbn [List.filter]. destruct (P e); [|by apply IH].
    cbn [fmap list_fmap]. apply NoDup_cons. split; [|by apply IH].
    intros Hin. apply Hnotin. apply list_elem_of_fmap in Hin as (e' & -> & Hin).
    apply list_elem_of_In, filter_In in Hin as [Hin _]. apply list_elem_of_In in Hin.
    apply list_elem_of_fmap. by exists e'.
  - rewrite Forall_forall in Hkeyed |- *. intros e Hin.
    apply list_elem_of_In, filter_In in Hin as [Hin _]. apply Hkeyed.
    by apply list_elem_of_In.
Qed.

Lemma upsertPhysicalStreams_virtualStreams (l : list PhysicalStream) m :
  Mgr.virtualStreams (Mgr.upsertPhysicalStreams l m) = Mgr.virtualStreams m.
Proof.
  unfold Mgr.upsertPhysicalStreams. revert m.
  induction l as [|p l IH]; intros m; [done|]. cbn [foldl]. by rewrite IH.
Qed.

Lemma upsertLink_virtualStreams (p v : string) m :
  Mgr.virtualStreams (Mgr.upsertPhysicalClientStreamIdToVirtualStreamIdMapping p v m)
  = Mgr.virtualStreams m.
Proof.
  unfold Mgr.upsertPhysicalClientStreamIdToVirtualStreamIdMapping. by case_decide.
Qed.

Lemma upsertVirtualStreams_keyed (l : list VirtualStream) m :
  streams_keyed (Mgr.virtualStreams m) →
  streams_keyed (Mgr.virtualStreams (foldl (fun m v => Mgr.upsertVirtualStream v m) m l)).
Proof.
  revert m. induction l as [|v l IH]; intros m Hkeyed; [done|].
  cbn [foldl]. apply IH. unfold Mgr.upsertVirtualStream. cbn [Mgr.virtualStreams].
  by apply streams_keyed_set.
Qed.

Lemma managerOp_keyed m (op : ManagerOp) :
  streams_keyed (Mgr.virtualStreams m) → streams_keyed (Mgr.virtualStreams (managerOp m op)).
Proof.
  intros Hkeyed. destruct op as [l|v|pid|p v|p|s k]; cbn [managerOp].
  - by rewrite upsertPhysicalStreams_virtualStreams.
  - unfold Mgr.upsertVirtualStream. cbn [Mgr.virtualStreams]. by apply streams_keyed_set.
  - rewrite removeVirtualStreams_filter by done. by apply streams_keyed_filter.
  - by rewrite upsertLink_virtualStreams.
  - unfold SM.syncVirtualStreamsFromParticipant. case_decide.
    + rewrite removeVirtualStreams_filter by done. by apply streams_keyed_filter.
    + rewrite <- (foldl_fmap (fun m v => Mgr.upsertVirtualStream v m)).
      by apply upsertVirtualStreams_keyed.
  - unfold SM.processSourceRequest. destruct s as [s|], k as [k|]; try done.
    destruct (_ || _); [done|]. by rewrite upsertLink_virtualStreams.
Qed.

(** Whatever happened to the manager, every roster stream is stored under its
    own [sourceId]. *)
Lemma managerAfter_keyed (ops : list ManagerOp) :
  streams_keyed (Mgr.virtualStreams (managerAfter ops)).
Proof.
  unfold managerAfter. induction ops as [|op ops IH] using rev_ind.
  - split; [constructor|constructor].
  - rewrite foldl_app. by apply managerOp_keyed.
Qed.

(** The selected roster source is one of the stored streams. *)
Lemma getVirtualVideoStreamIdToSend_stored (dsm : DSM.t) m (sid : string) :
  Mgr.getVirtualVideoStreamIdToSend dsm m = Some sid →
  ∃ v, v ∈ JsMap.values (Mgr.virtualStreams m) ∧ sourceId v = sid.
Proof.
  unfold Mgr.getVirtualVideoStreamIdToSend. cbn zeta.
  set (candidates := Mgr.virtualSteamsThatHavePhysicalStreams m).
  assert (Hsub : ∀ v, v ∈ candidates → v ∈ JsMap.values (Mgr.virtualStreams m)).
  { intros v Hv. apply list_elem_of_In, filter_In in Hv as [Hv _]. by apply list_elem_of_In. }
  assert (Hfind : ∀ P v, List.find P candidates = Some v → v ∈ candidates).
  { intros P v Hf. apply find_some in Hf as [Hin _]. by apply list_elem_of_In. }
  destruct candidates as [|first rest] eqn:Hc; [done|].
  destruct (List.find _ (first :: rest)) as [s|] eqn:Hscreen.
  { intros [= <-]. exists s. split; [|done]. eapply Hsub, Hfind, Hscreen. }
  destruct (Mgr.getDominantSpeaker dsm m) as [dominant|]; cbn beta iota.
  - match goal with
    | |- context [List.find ?P (first :: rest)] =>
        destruct (List.find P (first :: rest)) as [d|] eqn:Hdom
    end.
    + intros [= <-]. exists d. split; [|done]. eapply Hsub, Hfind, Hdom.
    + intros [= <-]. exists first. split; [|done]. apply Hsub, list_elem_of_here.
  - intros [= <-]. exists first. split; [|done]. apply Hsub, list_elem_of_here.
Qed.

End roster_streams.

(** Whatever operations the manager went through, after
    [removeVirtualStreamsForParticipant] no roster stream of the participant
    is left and the streams of the others are kept in their order; so the
    participant is no longer found by a stream id, and no source of theirs is
    selected for video. *)
Theorem removed_participant_is_gone (ops : list ManagerOp) (participantId : string) :
  let m := managerAfter ops in
  let m' := SM.removeVirtualStreamsForParticipant participantId m in
  JsMap.values (Mgr.virtualStreams m')
  = List.filter (fun v => negb (belongs_to participantId v)) (JsMap.values (Mgr.virtualStreams m))
  ∧ (∀ virtualStreamId p,
       Mgr.virtualStreamIdToParticipant virtualStreamId m' = Some p →
       participantUuid p ≠ participantId)
  ∧ (∀ dsm sid,
       Mgr.getVirtualVideoStreamIdToSend dsm m' = Some sid →
       ∃ p, Mgr.virtualStreamIdToParticipant (Some sid) m' = Some p
            ∧ participantUuid p ≠ participantId).
Proof.
  cbn zeta. pose proof (managerAfter_keyed ops) as Hkeyed.
  set (m := managerAfter ops) in *.
  rewrite removeVirtualStreams_filter by done.
  set (kept := List.filter _ (Mgr.virtualStreams m)).
  assert (Hkept : streams_keyed kept) by by apply streams_keyed_filter.
  assert (Hothers : ∀ v, v ∈ JsMap.values kept →
                         participantUuid (participant v) ≠ participantId).
  { intros v Hv. unfold JsMap.values in Hv.
    apply list_elem_of_fmap in Hv as (e & -> & He).
    apply list_elem_of_In, filter_In in He as [_ He].
    apply negb_true_iff in He. unfold belongs_to in He.
    by apply bool_decide_eq_false in He. }
  split_and!.
  - cbn [SM.withVirtualStreams Mgr.virtualStreams]. unfold kept, JsMap.values.
    generalize (Mgr.virtualStreams m). intros l.
    induction l as [|e l IH]; [done|].
    cbn [List.filter fmap list_fmap]. destruct (negb _); cbn [fmap list_fmap]; by rewrite IH.
  - intros [sid|] p; [|done]. cbn [Mgr.virtualStreamIdToParticipant SM.withVirtualStreams
                                    Mgr.virtualStreams].
    destruct (JsMap.get sid kept) as [v|] eqn:Hget; [|done].
    intros [= <-]. eapply Hothers, jsmap_get_values, Hget.
  - intros dsm sid Hsel.
    apply getVirtualVideoStreamIdToSend_stored in Hsel as (v & Hv & <-).
    cbn [SM.withVirtualStreams Mgr.virtualStreams] in Hv.
    exists (participant v). cbn [Mgr.virtualStreamIdToParticipant SM.withVirtualStreams
                                   Mgr.virtualStreams].
    rewrite (streams_keyed_get kept v) by done. split; [done|]. by apply Hothers.
Qed.

(** ** Decimal identifiers *)

Section decimal_ids.

Lemma pretty_N_go_nonempty (x : N) (s : string) : s ≠ "" → pretty_N_go x s ≠ "".
Proof.
  revert s. induction (N.lt_wf_0 x) as [x _ IH]; intros s Hs.
  assert (x = 0 ∨ 0 < x)%N as [->|Hpos] by lia.
  - by rewrite pretty_N_go_0.
  - rewrite pretty_N_go_step by done. apply IH; [|done].
    by apply N.div_lt.
Qed.

(** The decimal text of a number is not the empty string: it is truthy. *)
Lemma truthy_pretty (z : Z) : truthy (pretty z) = true.
Proof.
  assert (Hpos : ∀ p : positive, pretty p ≠ "").
  { intros p. unfold pretty, pretty_positive, pretty, pretty_N.
    rewrite decide_False by done.
    rewrite pretty_N_go_step by lia. by apply pretty_N_go_nonempty. }
  destruct z as [|p|p]; [done| |done].
  unfold pretty, pretty_Z. specialize (Hpos p). by destruct (pretty p).
Qed.

Lemma pretty_minus_one (z : Z) : z ≠ -1 → pretty z ≠ "-1".
Proof. intros Hz Heq. apply Hz. by apply (inj pretty). Qed.

End decimal_ids.

Section resolution.

Implicit Types (m : Mgr.t).

Lemma eta_participant (p : Participant) :
  mkParticipant (displayName p) (participantUuid p) = p.
Proof. by destruct p. Qed.

(** An active participant's sync stores each of its media streams under the
    stream's [sourceId]. *)
Lemma sync_active_streams (p : SM.RosterParticipant) m :
  SM.state p ≠ "inactive" →
  SM.syncVirtualStreamsFromParticipant p m
  = SM.withVirtualStreams
      (upsertAll sourceId (SM.virtualStreamOf p <$> SM.collectMediaStreams p)
                 (Mgr.virtualStreams m)) m.
Proof.
  intros Hactive. unfold SM.syncVirtualStreamsFromParticipant.
  rewrite decide_False by done.
  rewrite <- (foldl_fmap (fun m v => Mgr.upsertVirtualStream v m)).
  unfold upsertAll. generalize (SM.virtualStreamOf p <$> SM.collectMediaStreams p).
  intros l. revert m. induction l as [|v l IH]; intros m; [by destruct m|].
  cbn [foldl]. rewrite IH. by destruct m.
Qed.

Lemma sync_lookup (p : SM.RosterParticipant) m (sid : string) :
  SM.state p ≠ "inactive" →
  Mgr.virtualStreamIdToParticipant (Some sid) (SM.syncVirtualStreamsFromParticipant p m)
  = if bool_decide (sid ∈ mediaSourceIds p) then Some (SM.details p)
    else Mgr.virtualStreamIdToParticipant (Some sid) m.
Proof.
  intros Hactive. rewrite sync_active_streams by done.
  cbn [Mgr.virtualStreamIdToParticipant SM.withVirtualStreams Mgr.virtualStreams].
  rewrite get_upsertAll. unfold lastWithKey, mediaSourceIds.
  set (l := SM.collectMediaStreams p).
  destruct (last (filter _ (SM.virtualStreamOf p <$> l))) as [v|] eqn:Hlast.
  - apply last_Some_elem_of, list_elem_of_filter in Hlast as [Hkey Hin].
    apply list_elem_of_fmap in Hin as (ms & -> & Hin).
    rewrite bool_decide_eq_true_2.
    + cbn. by rewrite eta_participant.
    + rewrite <- Hkey. apply list_elem_of_fmap. by exists ms.
  - apply last_None in Hlast. rewrite bool_decide_eq_false_2; [done|].
    intros Hin. apply list_elem_of_fmap in Hin as (ms & -> & Hin).
    assert (Hv : SM.virtualStreamOf p ms
                 ∈ filter (fun x => sourceId x = SM.mediaSourceId ms)
                          (SM.virtualStreamOf p <$> l)).
    { apply list_elem_of_filter. split; [done|]. apply list_elem_of_fmap. by exists ms. }
    rewrite Hlast in Hv. by apply elem_of_nil in Hv.
Qed.

End resolution.

(** The sync of a roster participant who is not inactive makes each of their
    media streams resolve to them by its id and leaves the streams with
    other ids as they were; the sync of an inactive participant is the
    removal of their streams. *)
Theorem roster_sync_lookup (p : SM.RosterParticipant) (m : Mgr.t) :
  (SM.state p ≠ "inactive" →
   ∀ sid,
     Mgr.virtualStreamIdToParticipant (Some sid) (SM.syncVirtualStreamsFromParticipant p m)
     = if bool_decide (sid ∈ mediaSourceIds p) then Some (SM.details p)
       else Mgr.virtualStreamIdToParticipant (Some sid) m) ∧
  (SM.state p = "inactive" →
   SM.syncVirtualStreamsFromParticipant p m
   = SM.removeVirtualStreamsForParticipant (participantUuid (SM.details p)) m).
Proof.
  split.
  - intros Hactive sid. by apply sync_lookup.
  - intros Hinactive. unfold SM.syncVirtualStreamsFromParticipant.
    by rewrite decide_True.
Qed.

Lemma roster_sync_lookup_witness :
  Mgr.virtualStreamIdToParticipant (Some "1054")
    (SM.syncVirtualStreamsFromParticipant sample_roster_participant Mgr.new)
  = Some (mkParticipant "Ada" "8:ada").
Proof.
  destruct (roster_sync_lookup sample_roster_participant Mgr.new) as [Hactive _].
  rewrite Hactive by done. reflexivity.
Defined.

(** From a frame's stream to its participant.  Once a session description
    has brought the physical stream [rec], a source request has linked its
    description id to a roster source, and the roster has been synced with a
    participant who owns that source, [physicalServerStreamIdToParticipant]
    resolves the server stream id of [rec] to that participant. *)
Theorem participant_resolved (m : Mgr.t) (rec : PhysicalStream) (streamMsid src : Z)
    (p : SM.RosterParticipant) :
  clientStreamId rec = AStr (pretty streamMsid) →
  streamMsid ≠ 0 → src ≠ 0 → src ≠ -1 →
  SM.state p ≠ "inactive" →
  pretty src ∈ mediaSourceIds p →
  SM.physicalServerStreamIdToParticipant (serverStreamId rec)
    (SM.syncVirtualStreamsFromParticipant p
       (SM.processSourceRequest (Some src) (Some streamMsid)
          (Mgr.upsertPhysicalStreams [rec] m)))
  = Some (SM.details p).
Proof.
  intros Hclient Hmsid Hsrc0 Hsrc1 Hactive Hown.
  set (m1 := SM.processSourceRequest (Some src) (Some streamMsid)
               (Mgr.upsertPhysicalStreams [rec] m)).
  assert (Hserver : JsMap.get (serverStreamId rec) (Mgr.physicalStreamsByServerStreamId m1)
                    = Some rec).
  { unfold m1, SM.processSourceRequest.
    rewrite !bool_decide_eq_false_2 by done. cbn [orb].
    unfold Mgr.upsertPhysicalClientStreamIdToVirtualStreamIdMapping.
    rewrite decide_False by by apply pretty_minus_one.
    cbn [Mgr.physicalStreamsByServerStreamId Mgr.upsertPhysicalStreams foldl].
    apply jsmap_get_set_eq. }
  assert (Hlink : Mgr.physicalClientStreamIdToVirtualStreamIdMapping m1
                  !! pretty streamMsid = Some (pretty src)).
  { unfold m1, SM.processSourceRequest.
    rewrite !bool_decide_eq_false_2 by done. cbn [orb].
    unfold Mgr.upsertPhysicalClientStreamIdToVirtualStreamIdMapping.
    rewrite decide_False by by apply pretty_minus_one.
    cbn [Mgr.physicalClientStreamIdToVirtualStreamIdMapping].
    apply lookup_insert_eq. }
  pose proof (sync_lookup p m1 (pretty src) Hactive) as Hlookup.
  rewrite bool_decide_eq_true_2 in Hlookup by done.
  clearbody m1.
  rewrite sync_active_streams in Hlookup |- * by done.
  unfold SM.physicalServerStreamIdToParticipant.
  cbn [SM.withVirtualStreams Mgr.physicalStreamsByServerStreamId
       Mgr.physicalClientStreamIdToVirtualStreamIdMapping Mgr.virtualStreams].
  cbn [Mgr.virtualStreamIdToParticipant SM.withVirtualStreams Mgr.virtualStreams] in Hlookup.
  rewrite Hserver. cbn zeta. rewrite Hclient.
  cbn [SM.propertyKey Sdp.truthyAttr]. rewrite truthy_pretty. cbn [negb].
  rewrite Hlink, truthy_pretty. cbn [negb]. exact Hlookup.
Qed.

Lemma participant_resolved_witness :
  SM.physicalServerStreamIdToParticipant "mainVideo-39016"
    (SM.syncVirtualStreamsFromParticipant sample_roster_participant
       (SM.processSourceRequest (Some 1053) (Some 2331)
          (Mgr.upsertPhysicalStreams [sample_physical_stream] Mgr.new)))
  = Some (mkParticipant "Ada" "8:ada").
Proof.
  apply (participant_resolved Mgr.new sample_physical_stream 2331 1053
           sample_roster_participant); try done.
  vm_compute. apply list_elem_of_here.
Defined.

(** A source request that pairs a description id with a roster source and a
    later request for the same description id with source [-1] leave the
    manager as it was, when neither id was linked before; a request whose
    source id or description id is missing or [0] changes nothing. *)
Theorem source_request_release (m : Mgr.t) (src streamMsid : Z) :
  (src ≠ 0 → src ≠ -1 → streamMsid ≠ 0 →
   Mgr.physicalClientStreamIdToVirtualStreamIdMapping m !! pretty streamMsid = None →
   Mgr.virtualStreamIdToPhysicalClientStreamIdMapping m !! pretty src = None →
   SM.processSourceRequest (Some (-1)) (Some streamMsid)
     (SM.processSourceRequest (Some src) (Some streamMsid) m) = m) ∧
  SM.processSourceRequest None (Some streamMsid) m = m ∧
  SM.processSourceRequest (Some src) None m = m ∧
  SM.processSourceRequest (Some 0) (Some streamMsid) m = m ∧
  SM.processSourceRequest (Some src) (Some 0) m = m.
Proof.
  split_and!; try done.
  - intros Hsrc0 Hsrc1 Hmsid Hforward Hinverse. unfold SM.processSourceRequest.
    rewrite !bool_decide_eq_false_2 by done. cbn [orb].
    unfold Mgr.upsertPhysicalClientStreamIdToVirtualStreamIdMapping.
    rewrite (decide_False (P := pretty src = "-1")) by by apply pretty_minus_one.
    rewrite (decide_True (P := pretty (-1) = "-1")) by done.
    cbn [Mgr.physicalClientStreamIdToVirtualStreamIdMapping
         Mgr.virtualStreamIdToPhysicalClientStreamIdMapping Mgr.virtualStreams
         Mgr.physicalStreamsByClientStreamId Mgr.physicalStreamsByServerStreamId].
    rewrite lookup_insert_eq, truthy_pretty.
    rewrite !delete_insert_id by done. by destruct m.
  - unfold SM.processSourceRequest. by rewrite orb_true_r.
Qed.

Lemma source_request_release_witness :
  SM.processSourceRequest (Some (-1)) (Some 2331)
    (SM.processSourceRequest (Some 1053) (Some 2331) Mgr.new) = Mgr.new.
Proof.
  destruct (source_request_release Mgr.new 1053 2331) as [Hrelease _].
  apply Hrelease; done.
Defined.
(** ** Utterance ids *)

Section utterance_ids.

Variable generate : nat → string.
Hypothesis generate_inj : ∀ n n', generate n = generate n' → n = n'.
Hypothesis generate_truthy : ∀ n, truthy (generate n) = true.

Implicit Types (g : UIG.t) (chunks : list (string * bool)).

#[local] Abbreviation next := (UIG.next generate).
#[local] Abbreviation run := (utteranceIds generate).

#[local] Abbreviation wf := (generator_wf generate).
#[local] Abbreviation fresh_since := (fresh_since generate).

Lemma jsmap_get_delete_eq {K V} `{EqDecision K} (k : K) (mp : JsMap.t K V) :
  NoDup (JsMap.keys mp) → JsMap.get k (JsMap.delete k mp) = None.
Proof.
  intros Hnd. unfold JsMap.keys in Hnd. induction mp as [|[k' v] mp IH]; [done|].
  cbn [fmap list_fmap fst] in Hnd. apply NoDup_cons in Hnd as [Hnotin Hnd].
  simpl. destruct (decide (k = k')) as [->|Hne].
  - apply jsmap_get_None_keys. done.
  - simpl. rewrite decide_False by done. by apply IH.
Qed.

Lemma jsmap_get_delete_ne {K V} `{EqDecision K} (k k' : K) (mp : JsMap.t K V) :
  k ≠ k' → JsMap.get k' (JsMap.delete k mp) = JsMap.get k' mp.
Proof.
  intros Hne. induction mp as [|[k0 v] mp IH]; [done|].
  simpl. destruct (decide (k = k0)) as [->|Hne0].
  - by rewrite decide_False by done.
  - simpl. by rewrite IH.
Qed.

Lemma jsmap_delete_NoDup {K V} `{EqDecision K} (k : K) (mp : JsMap.t K V) :
  NoDup (JsMap.keys mp) → NoDup (JsMap.keys (JsMap.delete k mp)).
Proof.
  unfold JsMap.keys. induction mp as [|[k' v] mp IH]; [done|].
  cbn [fmap list_fmap fst]. rewrite NoDup_cons. intros [Hnotin Hnd].
  simpl. destruct (decide (k = k')); [done|].
  cbn [fmap list_fmap fst]. apply NoDup_cons. split; [|by apply IH].
  intros Hin. apply Hnotin. clear -Hin.
  induction mp as [|[k0 v0] mp IH]; [done|].
  simpl in Hin. destruct (decide (k = k0)).
  - by apply list_elem_of_further.
  - cbn [fmap list_fmap fst] in Hin |- *. apply elem_of_cons in Hin as [->|Hin].
    + apply list_elem_of_here.
    + by apply list_elem_of_further, IH.
Qed.

Lemma wf_new : wf UIG.new.
Proof.
  unfold generator_wf. split; [constructor|]. by intros k a.
Qed.

(** One call: the id is known afterwards; it is the speaker's active id when
    there is one, and a new one otherwise; the speaker has an active id
    afterwards exactly when the chunk is not final. *)
Lemma next_spec (s : string) (isFinal : bool) g :
  wf g →
  let '(id, g') := next s isFinal g in
  wf g' ∧
  (UIG.generated g ≤ UIG.generated g')%nat ∧
  (∃ n, (n < UIG.generated g')%nat ∧ id = generate n) ∧
  (∀ a, JsMap.get s (UIG._activeIds g) = Some a → id = a) ∧
  (JsMap.get s (UIG._activeIds g) = None →
     id = generate (UIG.generated g) ∧ UIG.generated g' = S (UIG.generated g)) ∧
  JsMap.get s (UIG._activeIds g') = (if isFinal then None else Some id) ∧
  (∀ s', s' ≠ s → JsMap.get s' (UIG._activeIds g') = JsMap.get s' (UIG._activeIds g)).
Proof.
  intros Hwf. destruct Hwf as [Hnd Hknown]. unfold UIG.next. cbn zeta.
  destruct (JsMap.get s (UIG._activeIds g)) as [a|] eqn:Hget.
  - destruct (Hknown s a Hget) as (n & Hn & ->). rewrite generate_truthy.
    destruct isFinal.
    + split_and!; cbn [UIG._activeIds UIG.generated].
      * split; unfold ids_known; cbn [UIG._activeIds UIG.generated]; [by apply jsmap_delete_NoDup|].
        intros k a Hk. destruct (decide (s = k)) as [<-|Hne].
        -- by rewrite jsmap_get_delete_eq in Hk.
        -- rewrite jsmap_get_delete_ne in Hk by done. by apply Hknown in Hk.
      * done.
      * by exists n.
      * by intros a [= <-].
      * done.
      * by apply jsmap_get_delete_eq.
      * intros s' Hne. by apply jsmap_get_delete_ne.
    + split_and!; try done.
      * by exists n.
      * by intros a [= <-].
  - destruct isFinal; cbn [negb].
    + split_and!; cbn [UIG._activeIds UIG.generated]; try done.
      * split; unfold ids_known; cbn [UIG._activeIds UIG.generated]; [done|].
        intros k a Hk. destruct (Hknown k a Hk) as (n & Hn & ->). exists n. split; [lia|done].
      * lia.
      * exists (UIG.generated g). split; [lia|done].
    + split_and!; cbn [UIG._activeIds UIG.generated]; try done.
      * split; unfold ids_known; cbn [UIG._activeIds UIG.generated]; [by apply jsmap_set_NoDup|].
        intros k a Hk. destruct (decide (s = k)) as [<-|Hne].
        -- rewrite jsmap_get_set_eq in Hk. injection Hk as <-.
           exists (UIG.generated g). split; [lia|done].
        -- rewrite jsmap_get_set_ne in Hk by done.
           destruct (Hknown k a Hk) as (n & Hn & ->). exists n. split; [lia|done].
      * lia.
      * exists (UIG.generated g). split; [lia|done].
      * apply jsmap_get_set_eq.
      * intros s' Hne. by apply jsmap_get_set_ne.
Qed.

Lemma run_cons (s : string) (isFinal : bool) chunks g :
  run ((s, isFinal) :: chunks) g
  = (fst (next s isFinal g) :: fst (run chunks (snd (next s isFinal g))),
     snd (run chunks (snd (next s isFinal g)))).
Proof.
  cbn [utteranceIds]. destruct (next s isFinal g) as [id g1]. cbn [fst snd].
  by destruct (run chunks g1).
Qed.

Lemma run_app chunks1 chunks2 g :
  run (chunks1 ++ chunks2) g
  = (fst (run chunks1 g) ++ fst (run chunks2 (snd (run chunks1 g))),
     snd (run chunks2 (snd (run chunks1 g)))).
Proof.
  revert g. induction chunks1 as [|[s f] chunks1 IH]; intros g.
  - simpl. by destruct (run chunks2 g).
  - rewrite <- app_comm_cons, !run_cons, IH. done.
Qed.

Lemma run_length chunks g : length (fst (run chunks g)) = length chunks.
Proof.
  revert g. induction chunks as [|[s f] chunks IH]; intros g; [done|].
  rewrite run_cons. cbn [fst length]. by rewrite IH.
Qed.

Lemma run_wf chunks g :
  wf g →
  wf (snd (run chunks g)) ∧ (UIG.generated g ≤ UIG.generated (snd (run chunks g)))%nat.
Proof.
  revert g. induction chunks as [|[s f] chunks IH]; intros g Hwf; [done|].
  rewrite run_cons. cbn [snd].
  pose proof (next_spec s f g Hwf) as Hnext.
  destruct (next s f g) as [id g1]. destruct Hnext as (Hwf1 & Hle & _).
  destruct (IH g1 Hwf1) as [Hwf2 Hle2]. cbn [snd]. split; [done|lia].
Qed.

(** While no chunk of the speaker is final, the speaker keeps its id. *)
Lemma run_keeps_id (s a : string) chunks g :
  wf g →
  JsMap.get s (UIG._activeIds g) = Some a →
  (s, true) ∉ chunks →
  JsMap.get s (UIG._activeIds (snd (run chunks g))) = Some a.
Proof.
  revert g. induction chunks as [|[s' f] chunks IH]; intros g Hwf Hget Hnone; [done|].
  rewrite not_elem_of_cons in Hnone. destruct Hnone as [Hne Hnone].
  rewrite run_cons. cbn [snd].
  pose proof (next_spec s' f g Hwf) as Hnext.
  destruct (next s' f g) as [id g1].
  destruct Hnext as (Hwf1 & _ & _ & Hreuse & _ & Hafter & Hother). cbn [snd].
  apply IH; [done| |done].
  destruct (decide (s' = s)) as [->|Hs].
  - destruct f; [done|]. rewrite Hafter. f_equal. by apply Hreuse.
  - by rewrite Hother.
Qed.

Lemma fresh_since_weaken (s : string) (n0 n1 : nat) g :
  (n0 ≤ n1)%nat → fresh_since s n1 g → fresh_since s n0 g.
Proof.
  intros Hle [Hnone|(n & Hn & Hget)]; [by left|].
  right. exists n. split; [lia|done].
Qed.

Lemma run_fresh_since (s : string) (n0 : nat) chunks g :
  wf g → (n0 ≤ UIG.generated g)%nat →
  fresh_since s n0 g → fresh_since s n0 (snd (run chunks g)).
Proof.
  revert g. induction chunks as [|[s' f] chunks IH]; intros g Hwf Hn0 Hfresh; [done|].
  rewrite run_cons. cbn [snd].
  pose proof (next_spec s' f g Hwf) as Hnext.
  destruct (next s' f g) as [id g1].
  destruct Hnext as (Hwf1 & Hle & _ & Hreuse & Hnew & Hafter & Hother). cbn [snd].
  apply IH; [done|lia|].
  destruct (decide (s' = s)) as [->|Hs].
  - destruct f; [left; exact Hafter|].
    right. destruct Hfresh as [Hnone|(n & Hn & Hget)].
    + destruct (Hnew Hnone) as [-> Hcount].
      exists (UIG.generated g). rewrite Hafter. split; [lia|done].
    + exists n. rewrite Hafter, (Hreuse _ Hget). split; [lia|done].
  - destruct Hfresh as [Hnone|(n & Hn & Hget)].
    + left. by rewrite Hother.
    + right. exists n. rewrite Hother by done. split; [lia|done].
Qed.

(** After a final chunk of the speaker, the speaker's id, if any, is new. *)
Lemma run_final_fresh (s : string) chunks g :
  wf g → (s, true) ∈ chunks →
  fresh_since s (UIG.generated g) (snd (run chunks g)).
Proof.
  revert g. induction chunks as [|[s' f] chunks IH]; intros g Hwf Hin.
  { by apply elem_of_nil in Hin. }
  rewrite run_cons. cbn [snd].
  pose proof (next_spec s' f g Hwf) as Hnext.
  destruct (next s' f g) as [id g1].
  destruct Hnext as (Hwf1 & Hle & _ & _ & _ & Hafter & _). cbn [snd].
  apply elem_of_cons in Hin as [[= <- <-]|Hin].
  - apply run_fresh_since; [done|done|]. by left.
  - apply (fresh_since_weaken s _ (UIG.generated g1)); [done|]. by apply IH.
Qed.

(** Two chunks of one speaker get the same utterance id exactly when no
    final chunk of that speaker lies between them, the earlier chunk
    included: ids are shared within an utterance and never across two. *)
Theorem utterance_ids_shared (pre mid post : list (string * bool)) (s : string)
    (isFinal isFinal' : bool) :
  ∃ ids_pre a ids_mid b ids_post,
    fst (run (pre ++ (s, isFinal) :: mid ++ (s, isFinal') :: post) UIG.new)
    = ids_pre ++ a :: ids_mid ++ b :: ids_post ∧
    length ids_pre = length pre ∧
    length ids_mid = length mid ∧
    (a = b ↔ isFinal = false ∧ (s, true) ∉ mid).
Proof.
  rewrite run_app, run_cons, run_app, run_cons. cbn [fst snd].
  destruct (run_wf pre UIG.new wf_new) as [Hwf0 _].
  set (g0 := snd (run pre UIG.new)) in *.
  pose proof (next_spec s isFinal g0 Hwf0) as Hnext.
  destruct (next s isFinal g0) as [a g1].
  destruct Hnext as (Hwf1 & _ & (na & Hna & ->) & _ & _ & Hafter & _). cbn [fst snd].
  destruct (run_wf mid g1 Hwf1) as [Hwf2 Hle2].
  set (g2 := snd (run mid g1)) in *.
  pose proof (next_spec s isFinal' g2 Hwf2) as Hnext'.
  destruct (next s isFinal' g2) as [b g3].
  destruct Hnext' as (_ & _ & _ & Hreuse & Hnew & _). cbn [fst snd].
  eexists _, _, _, _, _. split; [reflexivity|].
  split; [apply run_length|]. split; [apply run_length|].
  destruct (decide (isFinal = false ∧ (s, true) ∉ mid)) as [[-> Hnone]|Hnot].
  - split; [done|]. intros _. symmetry. apply Hreuse.
    by apply run_keeps_id.
  - split; [|done]. intros Heq. exfalso.
    assert (Hfresh : fresh_since s (UIG.generated g1) g2).
    { destruct isFinal.
      - apply run_fresh_since; [done|done|]. by left.
      - apply run_final_fresh; [done|].
        destruct (decide ((s, true) ∈ mid)) as [Hin|Hout]; [done|].
        exfalso. by apply Hnot. }
    destruct Hfresh as [Hnone|(n & Hn & Hget)].
    + destruct (Hnew Hnone) as [-> _]. apply generate_inj in Heq. lia.
    + rewrite (Hreuse _ Hget) in Heq. apply generate_inj in Heq. lia.
Qed.

End utterance_ids.

Lemma counted_id_inj (n n' : nat) : counted_id n = counted_id n' → n = n'.
Proof. unfold counted_id. intros [= Heq]. by apply (inj pretty). Qed.

Lemma utterance_ids_shared_witness :
  ∃ ids_pre a ids_mid b ids_post,
    fst (utteranceIds counted_id
           ([("ada", false)] ++ ("bob", false) :: [("ada", true); ("bob", false)]
            ++ ("bob", true) :: [("bob", false)]) UIG.new)
    = ids_pre ++ a :: ids_mid ++ b :: ids_post ∧
    length ids_pre = 1%nat ∧
    length ids_mid = 2%nat ∧
    (a = b ↔ false = false ∧ ("bob", true) ∉ [("ada", true); ("bob", false)]).
Proof.
  apply (utterance_ids_shared counted_id counted_id_inj (fun n => eq_refl)
           [("ada", false)] [("ada", true); ("bob", false)] [("bob", false)]
           "bob" false true).
Defined.
(** ** Finalization of transcript messages *)

Section transcript_finalization.

Implicit Types (st : TMF.t) (m : TMF.Message).

Lemma finalized_before_next_snoc (updates : list TMF.Caption) (c' : TMF.Caption) :
  finalized_before_next updates →
  (∀ c, last updates = Some c → TMF.captionId c ≠ TMF.captionId c' → TMF.isFinal c = true) →
  finalized_before_next (updates ++ [c']).
Proof.
  intros Hprev Hlast i c c'' Hi HSi Hne.
  destruct (decide (S i < length updates)%nat) as [Hlt|Hge].
  - rewrite lookup_app_l in Hi, HSi by lia. by eapply Hprev.
  - assert (HSi' : S i = length updates).
    { apply lookup_lt_Some in HSi. rewrite length_app in HSi. simpl in HSi. lia. }
    rewrite lookup_app_l in Hi by lia.
    rewrite HSi', lookup_app_r, Nat.sub_diag in HSi by lia. injection HSi as <-.
    apply Hlast; [|done]. rewrite last_lookup.
    replace (pred (length updates)) with i by lia. done.
Qed.

Lemma updatesOf_snoc (device : string) (sent : list TMF.Caption) (c : TMF.Caption) :
  updatesOf device (sent ++ [c])
  = if decide (TMF.deviceId c = device) then updatesOf device sent ++ [c]
    else updatesOf device sent.
Proof.
  unfold updatesOf. rewrite filter_app, filter_cons, filter_nil.
  case_decide; [done|by rewrite app_nil_r].
Qed.

(** Sending one more update of a device: the other devices are not concerned,
    and the new update must agree with the last one of its device. *)
Lemma send_keeps_order (st : TMF.t) m :
  (∀ device, finalized_before_next (updatesOf device (TMF.sent st))) →
  (∀ c, last (updatesOf (pretty (TMF.userId m)) (TMF.sent st)) = Some c →
        TMF.captionId c ≠ TMF.msgId m → TMF.isFinal c = true) →
  ∀ device, finalized_before_next (updatesOf device (TMF.sent (TMF.sendMessage m st))).
Proof.
  intros Hall Hlast device. unfold TMF.sendMessage. cbn [TMF.sent].
  rewrite updatesOf_snoc. cbn [TMF.messageConverted TMF.deviceId].
  case_decide as Hdev; [|apply Hall].
  subst device. apply finalized_before_next_snoc; [apply Hall|].
  intros c Hc Hne. by apply Hlast.
Qed.

Lemma addMessage_invariant m st :
  active_is_last_update st →
  (∀ device, finalized_before_next (updatesOf device (TMF.sent st))) →
  active_is_last_update (TMF.addMessage m st) ∧
  (∀ device, finalized_before_next (updatesOf device (TMF.sent (TMF.addMessage m st)))) ∧
  ∃ finalizing, TMF.sent (TMF.addMessage m st)
                = TMF.sent st ++ finalizing ++ [TMF.messageConverted m].
Proof.
  intros [Hnd Hactive] Horder.
  set (u := TMF.userId m).
  (* the state after the optional finalization of the previous message *)
  set (st1 := match JsMap.get u (TMF._activeMessages st) with
              | Some e =>
                  if decide (TMF.msgId e ≠ TMF.msgId m) then
                    TMF.mk (JsMap.delete u (TMF._activeMessages st))
                           (TMF.sent st ++ [TMF.messageConverted
                                              (TMF.mkMessage (TMF.userId e) (TMF.msgId e)
                                                             (TMF.text e) true)])
                  else st
              | None => st
              end).
  assert (Hst1 :
    NoDup (JsMap.keys (TMF._activeMessages st1)) ∧
    (∀ device, finalized_before_next (updatesOf device (TMF.sent st1))) ∧
    (∀ c, last (updatesOf (pretty u) (TMF.sent st1)) = Some c →
          TMF.captionId c ≠ TMF.msgId m → TMF.isFinal c = true) ∧
    (∀ u', u' ≠ u →
       JsMap.get u' (TMF._activeMessages st1) = JsMap.get u' (TMF._activeMessages st) ∧
       updatesOf (pretty u') (TMF.sent st1) = updatesOf (pretty u') (TMF.sent st)) ∧
    ∃ finalizing, TMF.sent st1 = TMF.sent st ++ finalizing).
  { unfold st1. pose proof (Hactive u) as Hu.
    destruct (JsMap.get u (TMF._activeMessages st)) as [e|] eqn:Hget.
    - destruct Hu as (Hue & Hdone & Hlast).
      case_decide as Hid.
      + cbn [TMF._activeMessages TMF.sent]. split_and!.
        * by apply jsmap_delete_NoDup.
        * apply (send_keeps_order st (TMF.mkMessage (TMF.userId e) (TMF.msgId e)
                                                     (TMF.text e) true)); [done|].
          cbn [TMF.userId TMF.msgId]. rewrite Hue, Hlast. intros c [= <-]. done.
        * rewrite updatesOf_snoc. cbn [TMF.messageConverted TMF.deviceId TMF.userId].
          rewrite Hue, decide_True by done. rewrite last_snoc. by intros c [= <-].
        * intros u' Hne. split; [by apply jsmap_get_delete_ne|].
          rewrite updatesOf_snoc. cbn [TMF.messageConverted TMF.deviceId TMF.userId].
          rewrite Hue, decide_False; [done|]. intros Heq. apply Hne. by apply (inj pretty).
        * by eexists.
      + split_and!; [done|done| |done|exists []; by rewrite app_nil_r].
        rewrite Hlast. intros c [= <-]. cbn [TMF.messageConverted TMF.captionId]. done.
    - split_and!; [done|done| |done|exists []; by rewrite app_nil_r].
      intros c Hc _. by apply Hu. }
  assert (Hadd : TMF.addMessage m st
                 = if TMF.done m
                   then TMF.mk (JsMap.delete u (JsMap.set u m (TMF._activeMessages st1)))
                               (TMF.sent st1 ++ [TMF.messageConverted m])
                   else TMF.mk (JsMap.set u m (TMF._activeMessages st1))
                               (TMF.sent st1 ++ [TMF.messageConverted m])).
  { unfold TMF.addMessage, st1, u, TMF.sendMessage. cbn zeta.
    destruct (JsMap.get (TMF.userId m) (TMF._activeMessages st)) as [e|];
      [case_decide|]; cbn [TMF._activeMessages TMF.sent]; by destruct (TMF.done m). }
  destruct Hst1 as (Hnd1 & Horder1 & Hagree & Hothers & finalizing & Hsent1).
  assert (Horder2 : ∀ device,
            finalized_before_next (updatesOf device (TMF.sent st1 ++ [TMF.messageConverted m]))).
  { exact (send_keeps_order st1 m Horder1 Hagree). }
  assert (Hlast2 : last (updatesOf (pretty u) (TMF.sent st1 ++ [TMF.messageConverted m]))
                   = Some (TMF.messageConverted m)).
  { rewrite updatesOf_snoc. cbn [TMF.messageConverted TMF.deviceId].
    rewrite decide_True by done. apply last_snoc. }
  assert (Hother2 : ∀ u', u' ≠ u →
            updatesOf (pretty u') (TMF.sent st1 ++ [TMF.messageConverted m])
            = updatesOf (pretty u') (TMF.sent st)).
  { intros u' Hne. rewrite updatesOf_snoc. cbn [TMF.messageConverted TMF.deviceId].
    rewrite decide_False; [by apply Hothers|].
    intros Heq. apply Hne. symmetry. by apply (inj pretty). }
  rewrite Hadd. split_and!.
  - destruct (TMF.done m) eqn:Hdone; split; cbn [TMF._activeMessages TMF.sent].
    + by apply jsmap_delete_NoDup, jsmap_set_NoDup.
    + intros u'. destruct (decide (u = u')) as [<-|Hne].
      * rewrite jsmap_get_delete_eq by by apply jsmap_set_NoDup.
        rewrite Hlast2. intros c [= <-]. done.
      * rewrite jsmap_get_delete_ne, jsmap_get_set_ne by done.
        rewrite Hother2 by done. destruct (Hothers u' ltac:(done)) as [-> _]. apply Hactive.
    + by apply jsmap_set_NoDup.
    + intros u'. destruct (decide (u = u')) as [<-|Hne].
      * rewrite jsmap_get_set_eq. by rewrite Hlast2.
      * rewrite jsmap_get_set_ne by done.
        rewrite Hother2 by done. destruct (Hothers u' ltac:(done)) as [-> _]. apply Hactive.
  - destruct (TMF.done m); exact Horder2.
  - exists finalizing. destruct (TMF.done m); cbn [TMF.sent]; by rewrite Hsent1, app_assoc.
Qed.

End transcript_finalization.

(** Whatever messages are added to a new manager: among the caption updates
    sent for one device, an update that is followed by an update of another
    caption is final, so a caption is always finalized before the next one
    of that device starts; every message added is sent, in the order of the
    calls; and a user has an active message exactly when the last update
    sent for them is not final. *)
Theorem captions_finalized_in_order (messages : list TMF.Message) :
  let st := addMessages messages TMF.new in
  (∀ device, finalized_before_next (updatesOf device (TMF.sent st))) ∧
  sublist (TMF.messageConverted <$> messages) (TMF.sent st) ∧
  active_is_last_update st.
Proof.
  cbn zeta. unfold addMessages.
  induction messages as [|m messages IH] using rev_ind.
  - split_and!.
    + intros device i c c' Hi. done.
    + done.
    + split; [constructor|]. intros u. cbn. by intros c.
  - rewrite foldl_app. cbn [foldl]. destruct IH as (Horder & Hsub & Hinv).
    destruct (addMessage_invariant m _ Hinv Horder) as (Hinv' & Horder' & finalizing & Hsent).
    split_and!; [done| |done].
    rewrite Hsent, fmap_app. apply sublist_app; [done|].
    apply sublist_inserts_l. done.
Qed.
(** ** Chat messages *)

Section strip_html.

Implicit Types (s : string).

Lemma append_String (c : ascii) s s' : String c s +:+ s' = String c (s +:+ s').
Proof. done. Qed.

Lemma append_empty s : "" +:+ s = s.
Proof. done. Qed.

Lemma afterTagEnd_length s behind :
  CMM.afterTagEnd s = Some behind → (String.length behind < String.length s)%nat.
Proof.
  revert behind. induction s as [|c s IH]; intros behind; [done|].
  simpl. case_decide.
  - intros [= <-]. lia.
  - intros Hb. apply IH in Hb. lia.
Qed.

(** The text behind the first [>]: a decomposition of the string. *)
Lemma afterTagEnd_Some s behind :
  CMM.afterTagEnd s = Some behind →
  ∃ inside, s = inside +:+ String ">" behind ∧ CMM.afterTagEnd inside = None.
Proof.
  revert behind. induction s as [|c s IH]; intros behind; [done|].
  simpl. case_decide as Hc.
  - intros [= <-]. exists "". by subst.
  - intros Hb. destruct (IH _ Hb) as (inside & -> & Hnone).
    exists (String c inside). split; [done|]. simpl. by rewrite decide_False.
Qed.

Lemma afterTagEnd_app_None inside behind :
  CMM.afterTagEnd (inside +:+ String ">" behind) ≠ None.
Proof.
  induction inside as [|c inside IH].
  - by rewrite append_empty.
  - rewrite append_String. simpl. by case_decide.
Qed.

(** More fuel than characters changes nothing. *)
Lemma stripHtmlFrom_enough (n n' : nat) s :
  (String.length s ≤ n)%nat → (String.length s ≤ n')%nat →
  CMM.stripHtmlFrom n s = CMM.stripHtmlFrom n' s.
Proof.
  revert n' s. induction n as [|n IH]; intros n' s Hn Hn'.
  - destruct s; [|simpl in Hn; lia]. by destruct n'.
  - destruct s as [|c rest]; [by destruct n'|].
    destruct n' as [|n']; [simpl in Hn'; lia|].
    simpl in Hn, Hn'. cbn [CMM.stripHtmlFrom].
    case_decide.
    + destruct (CMM.afterTagEnd rest) as [behind|] eqn:Hb.
      * apply afterTagEnd_length in Hb. apply IH; lia.
      * f_equal. apply IH; lia.
    + f_equal. apply IH; lia.
Qed.

(** The equations of the scan. *)
Lemma stripHtml_nil : CMM.stripHtml "" = "".
Proof. done. Qed.

Lemma stripHtml_cons (c : ascii) s :
  CMM.stripHtml (String c s)
  = if decide (c = "<"%char) then
      match CMM.afterTagEnd s with
      | Some behind => CMM.stripHtml behind
      | None => String c (CMM.stripHtml s)
      end
    else String c (CMM.stripHtml s).
Proof.
  unfold CMM.stripHtml. cbn [String.length CMM.stripHtmlFrom].
  case_decide; [|done].
  destruct (CMM.afterTagEnd s) as [behind|] eqn:Hb; [|done].
  apply afterTagEnd_length in Hb. apply stripHtmlFrom_enough; lia.
Qed.

(** A text in which no [>] follows keeps all its characters. *)
Lemma stripHtml_no_end s : CMM.afterTagEnd s = None → CMM.stripHtml s = s.
Proof.
  induction s as [|c s IH]; [done|].
  simpl. case_decide as Hc; [done|]. intros Hnone.
  rewrite stripHtml_cons, Hnone, IH by done. by case_decide.
Qed.

(** What is left holds a [>] only where the text behind the scan held one. *)
Lemma afterTagEnd_stripHtml s :
  CMM.afterTagEnd s = None → CMM.afterTagEnd (CMM.stripHtml s) = None.
Proof. intros Hnone. by rewrite stripHtml_no_end. Qed.

Lemma has_tag_cons (c : ascii) s :
  has_tag (String c s) ↔ (c = "<"%char ∧ CMM.afterTagEnd s ≠ None) ∨ has_tag s.
Proof.
  split.
  - intros (before & inside & behind & Heq). destruct before as [|b before].
    + rewrite append_empty in Heq. injection Heq as -> ->. left. split; [done|].
      apply afterTagEnd_app_None.
    + rewrite append_String in Heq. injection Heq as -> ->. right. by exists before, inside, behind.
  - intros [[-> Hsome]|(before & inside & behind & ->)].
    + destruct (CMM.afterTagEnd s) as [behind|] eqn:Hb; [|done].
      apply afterTagEnd_Some in Hb as (inside & -> & _).
      by exists "", inside, behind.
    + by exists (String c before), inside, behind.
Qed.

Lemma stripHtml_no_tag_strong (n : nat) s :
  (String.length s ≤ n)%nat → ¬ has_tag (CMM.stripHtml s).
Proof.
  revert s. induction n as [|n IH]; intros s Hn.
  { destruct s; [|simpl in Hn; lia]. intros (before & inside & behind & Heq).
    by destruct before. }
  destruct s as [|c s]; [apply (IH ""); simpl; lia|].
  simpl in Hn. rewrite stripHtml_cons. case_decide as Hc.
  - destruct (CMM.afterTagEnd s) as [behind|] eqn:Hb.
    + apply afterTagEnd_length in Hb. apply IH. lia.
    + rewrite has_tag_cons. intros [[_ Hsome]|Htag].
      * apply Hsome. by apply afterTagEnd_stripHtml.
      * revert Htag. apply IH. lia.
  - rewrite has_tag_cons. intros [[Hlt _]|Htag]; [done|].
    revert Htag. apply IH. lia.
Qed.

Lemma stripHtml_unchanged s : ¬ has_tag s → CMM.stripHtml s = s.
Proof.
  induction s as [|c s IH]; [done|].
  rewrite has_tag_cons. intros Hno. rewrite stripHtml_cons.
  assert (Hs : ¬ has_tag s) by tauto.
  case_decide as Hc.
  - destruct (CMM.afterTagEnd s) as [behind|] eqn:Hb.
    + exfalso. apply Hno. by left.
    + by rewrite IH.
  - by rewrite IH.
Qed.

End strip_html.

(** [stripHtml] leaves no tag: in its result no [<] has a [>] behind it.  So
    it changes nothing when applied again, and a text without a tag comes
    back unchanged. *)
Theorem stripHtml_removes_tags (html : string) :
  ¬ has_tag (CMM.stripHtml html) ∧
  CMM.stripHtml (CMM.stripHtml html) = CMM.stripHtml html ∧
  (¬ has_tag html → CMM.stripHtml html = html).
Proof.
  assert (Hno : ¬ has_tag (CMM.stripHtml html)).
  { by apply (stripHtml_no_tag_strong (String.length html)). }
  split_and!; [done| |apply stripHtml_unchanged].
  by apply stripHtml_unchanged.
Qed.

Lemma stripHtml_removes_tags_witness :
  CMM.stripHtml "a > b" = "a > b" ∧ CMM.stripHtml "<p>hi <b>there</b></p> 1 < 2" = "hi there 1 < 2".
Proof.
  split; [|reflexivity].
  apply (stripHtml_removes_tags "a > b").
  intros (before & inside & behind & Heq).
  destruct before as [|c0 [|c1 [|c2 [|c3 [|c4 [|c5 before]]]]]];
    cbv [String.append] in Heq; congruence.
Defined.

Section chat_messages.

Variable getTime : string → option Z.

Implicit Types (c : CMM.ChatMessage) (st : CMM.t).

Lemma truthy_false s : truthy s = false ↔ s = "".
Proof. by destruct s. Qed.

Lemma eta_chat_message c c' :
  CMM.clientMessageId c = CMM.clientMessageId c' → CMM.from c = CMM.from c' →
  CMM.content c = CMM.content c' → CMM.originalArrivalTime c = CMM.originalArrivalTime c' →
  c = c'.
Proof. destruct c, c'; simpl; congruence. Qed.

(** The three outcomes of the handler. *)
Lemma handleChatMessage_cases c st :
  (incomplete c ∧ CMM.handleChatMessage getTime c st = st) ∨
  (¬ incomplete c ∧ CMM.isNewOrUpdatedChatMessage c st = false
   ∧ CMM.handleChatMessage getTime c st = st) ∨
  (¬ incomplete c ∧ CMM.isNewOrUpdatedChatMessage c st = true
   ∧ CMM.handleChatMessage getTime c st
     = CMM.mk (<[CMM.clientMessageId c := c]> (CMM.chatMessages st))
              (CMM.sent st ++ [chatUpdateOf getTime c])).
Proof.
  unfold CMM.handleChatMessage, incomplete.
  destruct (truthy (CMM.clientMessageId c)) eqn:H1; cbn [negb];
    [|apply truthy_false in H1; left; tauto].
  destruct (truthy (CMM.from c)) eqn:H2; cbn [negb];
    [|apply truthy_false in H2; left; tauto].
  destruct (truthy (CMM.content c)) eqn:H3; cbn [negb];
    [|apply truthy_false in H3; left; tauto].
  destruct (truthy (CMM.originalArrivalTime c)) eqn:H4; cbn [negb];
    [|apply truthy_false in H4; left; tauto].
  assert (Hcomplete : ¬ (CMM.clientMessageId c = "" ∨ CMM.from c = ""
                         ∨ CMM.content c = "" ∨ CMM.originalArrivalTime c = "")).
  { intros [E|[E|[E|E]]]; rewrite E in *; done. }
  right. destruct (CMM.isNewOrUpdatedChatMessage c st); cbn [negb]; [right|left]; done.
Qed.

(** The message stored last is not new. *)
Lemma stored_not_new c chatMessages sent :
  CMM.isNewOrUpdatedChatMessage c
    (CMM.mk (<[CMM.clientMessageId c := c]> chatMessages) sent) = false.
Proof.
  unfold CMM.isNewOrUpdatedChatMessage. cbn [CMM.chatMessages].
  rewrite lookup_insert_eq. by rewrite !bool_decide_eq_true_2.
Qed.

Lemma handleChatMessage_twice c st :
  CMM.handleChatMessage getTime c (CMM.handleChatMessage getTime c st)
  = CMM.handleChatMessage getTime c st.
Proof.
  destruct (handleChatMessage_cases c st) as [[_ E]|[(_ & _ & E)|(Hc & _ & E)]];
    [by rewrite !E..|].
  rewrite E.
  match goal with |- CMM.handleChatMessage _ _ ?st' = _ =>
    destruct (handleChatMessage_cases c st') as [[_ E']|[(_ & _ & E')|(_ & Hn & _)]]
  end; first [done | by rewrite stored_not_new in Hn].
Qed.

Lemma handleChatMessages_snoc cs c st :
  handleChatMessages getTime (cs ++ [c]) st
  = CMM.handleChatMessage getTime c (handleChatMessages getTime cs st).
Proof. unfold handleChatMessages. by rewrite foldl_snoc. Qed.

Lemma completeWithId_snoc id cs c :
  completeWithId id (cs ++ [c])
  = completeWithId id cs
    ++ (if decide (¬ incomplete c ∧ CMM.clientMessageId c = id) then [c] else []).
Proof.
  unfold completeWithId. by rewrite filter_app.
Qed.

(** The store keeps, under every id, the last complete message that came with
    that id. *)
Lemma stored_is_last cs id :
  CMM.chatMessages (handleChatMessages getTime cs CMM.new) !! id
  = last (completeWithId id cs).
Proof.
  induction cs as [|c cs IH] using rev_ind; [done|].
  rewrite handleChatMessages_snoc, completeWithId_snoc.
  set (st := handleChatMessages getTime cs CMM.new) in *.
  destruct (handleChatMessage_cases c st) as [[Hi ->]|[(Hc & Hn & ->)|(Hc & Hn & ->)]].
  - rewrite decide_False by tauto. by rewrite app_nil_r.
  - case_decide as Hid; [|by rewrite app_nil_r].
    destruct Hid as [_ <-]. rewrite last_snoc.
    unfold CMM.isNewOrUpdatedChatMessage in Hn.
    destruct (CMM.chatMessages st !! CMM.clientMessageId c) as [cur|] eqn:Hcur; [|done].
    assert (Hin : cur ∈ completeWithId (CMM.clientMessageId c) cs).
    { symmetry in IH. apply last_Some in IH as [l' ->]. set_solver. }
    apply list_elem_of_filter in Hin as [[_ Hcid] _].
    apply orb_false_iff in Hn as [Hn Hfrom]. apply orb_false_iff in Hn as [Hcontent Harr].
    apply negb_false_iff, bool_decide_eq_true in Hcontent, Harr, Hfrom.
    f_equal. by apply eta_chat_message.
  - cbn [CMM.chatMessages]. case_decide as Hid.
    + destruct Hid as [_ <-]. by rewrite lookup_insert_eq, last_snoc.
    + rewrite lookup_insert_ne by tauto. by rewrite app_nil_r.
Qed.

(** What was sent: updates of complete messages of the list, in their order. *)
Lemma sent_sublist cs :
  sublist (CMM.sent (handleChatMessages getTime cs CMM.new))
          (chatUpdateOf getTime <$> filter (fun c => ¬ incomplete c) cs).
Proof.
  induction cs as [|c cs IH] using rev_ind; [done|].
  rewrite handleChatMessages_snoc, filter_app, fmap_app.
  set (st := handleChatMessages getTime cs CMM.new) in *.
  destruct (handleChatMessage_cases c st) as [[Hi ->]|[(Hc & Hn & ->)|(Hc & Hn & ->)]].
  - by apply sublist_inserts_r.
  - by apply sublist_inserts_r.
  - cbn [CMM.sent]. apply sublist_app; [done|].
    rewrite filter_cons, filter_nil, decide_True by done. done.
Qed.

End chat_messages.

(** The chat manager filters duplicates on the message as it came.  A message
    handled any number of times in a row has the effect of handling it once,
    and a message that lacks an id, a sender, a content or an arrival time
    changes nothing.  After any sequence of messages the store holds, under
    every id, the last complete message that came with that id, and what was
    handed to [sendJson] are updates of complete messages of the sequence, in
    the order they came, each with a text that holds no tag. *)
Theorem chat_duplicates_filtered (getTime : string → option Z)
    (cs : list CMM.ChatMessage) (c : CMM.ChatMessage) (n : nat) :
  let st := handleChatMessages getTime cs CMM.new in
  handleChatMessages getTime (replicate (S n) c) st = CMM.handleChatMessage getTime c st ∧
  (incomplete c → CMM.handleChatMessage getTime c st = st) ∧
  (∀ id, CMM.chatMessages st !! id = last (completeWithId id cs)) ∧
  sublist (CMM.sent st) (chatUpdateOf getTime <$> filter (fun c => ¬ incomplete c) cs) ∧
  (∀ u, u ∈ CMM.sent st → ¬ has_tag (CMM.text u)).
Proof.
  intros st. split_and!.
  - induction n as [|n IH]; [done|].
    rewrite replicate_S_end, handleChatMessages_snoc, IH.
    apply handleChatMessage_twice.
  - intros Hi.
    destruct (handleChatMessage_cases getTime c st) as [[_ ->]|[(_ & _ & ->)|(Hc & _)]];
      tauto.
  - intros id. apply stored_is_last.
  - apply sent_sublist.
  - intros u Hu.
    pose proof (sent_sublist getTime cs) as Hsub.
    apply (elem_of_sublist _ _ u Hu) in Hsub.
    apply list_elem_of_fmap in Hsub as (c' & -> & _).
    apply (stripHtml_no_tag_strong (String.length (CMM.content c'))). done.
Qed.

Lemma chat_duplicates_filtered_witness :
  CMM.handleChatMessage (fun _ => Some 1714557600000) (CMM.mkChatMessage "m2" "" "x" "y")
    (handleChatMessages (fun _ => Some 1714557600000) [sample_chat_message] CMM.new)
  = handleChatMessages (fun _ => Some 1714557600000) [sample_chat_message] CMM.new.
Proof.
  apply (chat_duplicates_filtered (fun _ => Some 1714557600000) [sample_chat_message]
           (CMM.mkChatMessage "m2" "" "x" "y") 0).
  right. by left.
Defined.

(** ** The output manager on the event loop of the page *)

Section output_events.

Variable createBuffer : float → float → float → bool.

Implicit Types (p : Page) (m : BOM.t) (id : nat) (t : BOM.Timeout).

Lemma playPCMAudio_prepared pcmData sampleRate numChannels now m :
  BOM.playPCMAudio createBuffer pcmData sampleRate numChannels now m
  = if BOM.isPlayingAudioQueue (prepared pcmData sampleRate numChannels m)
    then prepared pcmData sampleRate numChannels m
    else BOM._processAudioQueue createBuffer now
           (prepared pcmData sampleRate numChannels m).
Proof. reflexivity. Qed.

Lemma prepared_fields pcmData sampleRate numChannels m :
  let m1 := prepared pcmData sampleRate numChannels m in
  BOM.audioQueue m1 = BOM.audioQueue m ++ [chunkOf pcmData sampleRate numChannels] ∧
  BOM.isPlayingAudioQueue m1 = BOM.isPlayingAudioQueue m ∧
  BOM.timeouts m1 = BOM.timeouts m ∧
  BOM.clearedTimeouts m1
  = BOM.clearedTimeouts m ++ option_list (BOM.turnOffMicTimeout m) ∧
  BOM.turnOffMicTimeout m1 = None ∧
  BOM.micCallbacks m1 = BOM.micCallbacks m ++ [BOM.TurnOnMic] ∧
  BOM.started m1 = BOM.started m.
Proof.
  destruct m as [track q isPlaying next sr nc timer tms cleared mic st].
  unfold prepared, BOM.updateSettings.
  destruct (negb _ || negb _); destruct track, timer; cbn; rewrite ?app_nil_r; done.
Qed.

(** The two ways of a drain. *)
Lemma processAudioQueue_effect now m :
  let m' := BOM._processAudioQueue createBuffer now m in
  match BOM.audioQueue m with
  | [] =>
      BOM.audioQueue m' = [] ∧ BOM.isPlayingAudioQueue m' = false ∧
      BOM.timeouts m' = BOM.timeouts m ++ [BOM.TurnOffMicAfter 2000] ∧
      BOM.turnOffMicTimeout m' = Some (S (length (BOM.timeouts m))) ∧
      BOM.clearedTimeouts m'
      = BOM.clearedTimeouts m ++ option_list (BOM.turnOffMicTimeout m) ∧
      BOM.micCallbacks m' = BOM.micCallbacks m ∧
      BOM.started m' = BOM.started m
  | c :: rest =>
      BOM.audioQueue m' = rest ∧ BOM.isPlayingAudioQueue m' = true ∧
      BOM.turnOffMicTimeout m' = BOM.turnOffMicTimeout m ∧
      BOM.clearedTimeouts m' = BOM.clearedTimeouts m ∧
      BOM.micCallbacks m' = BOM.micCallbacks m ∧
      ((∃ start ms, BOM.timeouts m' = BOM.timeouts m ++ [BOM.ProcessQueueAfter ms] ∧
                    BOM.started m' = BOM.started m ++ [BOM.mkStarted start c]) ∨
       (¬ alwaysCreates createBuffer ∧ BOM.timeouts m' = BOM.timeouts m ∧
        BOM.started m' = BOM.started m))
  end.
Proof.
  destruct m as [track q isPlaying next sr nc timer tms cleared mic st].
  unfold BOM._processAudioQueue. cbn [BOM.audioQueue].
  destruct q as [|c rest].
  - destruct timer; cbn; rewrite ?app_nil_r; done.
  - cbn zeta. cbn [BOM.numChannels BOM.sampleRate].
    destruct (createBuffer nc _ sr) eqn:Hbuf; cbn; split_and!; try done.
    + left. eauto.
    + right. split; [|done]. intros Hall. by rewrite Hall in Hbuf.
Qed.

Lemma timerOf_is_Some id m :
  is_Some (timerOf id m) ↔ (1 ≤ id ≤ length (BOM.timeouts m))%nat.
Proof.
  destruct id as [|k]; simpl.
  - split; [by intros [? ?]|lia].
  - rewrite lookup_lt_is_Some. lia.
Qed.

Lemma timerOf_same id m m' :
  BOM.timeouts m' = BOM.timeouts m → timerOf id m' = timerOf id m.
Proof. intros E. destruct id; simpl; by rewrite ?E. Qed.

Lemma timerOf_snoc id m m' t :
  BOM.timeouts m' = BOM.timeouts m ++ [t] →
  timerOf id m'
  = if decide (id = S (length (BOM.timeouts m))) then Some t else timerOf id m.
Proof.
  intros E. destruct id as [|k]; cbn [timerOf]; [by rewrite decide_False|]. rewrite E.
  case_decide as Hk.
  - injection Hk as ->. by rewrite lookup_app_r, Nat.sub_diag.
  - destruct (decide (k < length (BOM.timeouts m))%nat).
    + by rewrite lookup_app_l.
    + rewrite !lookup_ge_None_2; [done|lia|rewrite length_app; simpl; lia].
Qed.

Lemma noDoubleOff_snoc (calls : list BOM.MicCallback) (c : BOM.MicCallback) :
  noDoubleOff calls →
  (c = BOM.TurnOffMic → last calls ≠ Some BOM.TurnOffMic) →
  noDoubleOff (calls ++ [c]).
Proof.
  intros Hno Hlast i Hi Hsi.
  destruct (decide (S i < length calls)%nat) as [Hlt|Hge].
  - rewrite lookup_app_l in Hi, Hsi by lia. by apply (Hno i).
  - assert (Hlen : S i = length calls).
    { apply lookup_lt_Some in Hsi. rewrite length_app in Hsi. simpl in Hsi. lia. }
    rewrite lookup_app_r, Hlen, Nat.sub_diag in Hsi by lia. injection Hsi as ->.
    rewrite lookup_app_l in Hi by lia.
    apply Hlast; [done|]. rewrite last_lookup, <- Hlen. done.
Qed.

(** A drain that is due leaves the page in order. *)
Lemma drain_preserves now p :
  drain_due p →
  page_inv createBuffer
    (mkPage (BOM._processAudioQueue createBuffer now (manager p)) (firedTimers p)).
Proof.
  destruct p as [m fired]. unfold drain_due, page_inv. cbn [manager firedTimers].
  intros (Hvalid & Hoff & Hnone & Hlast & Hdouble).
  pose proof (processAudioQueue_effect now m) as Heff. cbn zeta in Heff.
  set (m' := BOM._processAudioQueue createBuffer now m) in *. clearbody m'.
  assert (Hfresh : ∀ id, id ∈ fired ∨ id ∈ BOM.clearedTimeouts m
                         ∨ BOM.turnOffMicTimeout m = Some id →
                         id ≠ S (length (BOM.timeouts m)) ∧ is_Some (timerOf id m)).
  { intros id Hid.
    assert (Hs : is_Some (timerOf id m)).
    { destruct Hid as [Hid|[Hid|Hid]]; [apply Hvalid; tauto..|].
      destruct (Hoff id Hid) as [ms ->]. done. }
    split; [|done]. apply timerOf_is_Some in Hs. lia. }
  assert (Hdead : ∀ id t, timerOf id m = Some t → id ∉ fired →
                          id ∉ BOM.clearedTimeouts m → False).
  { intros id t Ht Hf Hc. apply (Hnone id). by exists t. }
  destruct (BOM.audioQueue m) as [|c rest] eqn:Hq.
  - destruct Heff as (Hq' & Hpl & Htm & Hoff' & Hcl & Hmic & _).
    rewrite Hq', Hpl, Hoff', Hcl, Hmic.
    assert (Hcl_in : ∀ id, id ∈ BOM.clearedTimeouts m ++ option_list (BOM.turnOffMicTimeout m)
                           → id ∈ BOM.clearedTimeouts m ∨ BOM.turnOffMicTimeout m = Some id).
    { intros id [Hin|Hin]%elem_of_app; [by left|right].
      destruct (BOM.turnOffMicTimeout m) as [x|]; simpl in Hin.
      - apply list_elem_of_singleton in Hin. by subst.
      - by apply elem_of_nil in Hin. }
    assert (Hcl_out : ∀ id, id ∉ BOM.clearedTimeouts m ++ option_list (BOM.turnOffMicTimeout m)
                            → id ∉ BOM.clearedTimeouts m).
    { intros id Hc Hin. apply Hc, elem_of_app. by left. }
    split_and!.
    + intros id Hid. rewrite (timerOf_snoc id m m' _ Htm).
      case_decide; [done|]. apply Hfresh.
      destruct Hid as [?|Hid]; [tauto|]. apply Hcl_in in Hid. tauto.
    + intros id [= <-]. exists 2000%float.
      rewrite (timerOf_snoc _ m m' _ Htm). by rewrite decide_True.
    + intros id [ms (Ht & Hf & Hc)]. cbn [manager firedTimers] in *.
      rewrite (timerOf_snoc id m m' _ Htm) in Ht. rewrite Hcl in Hc.
      case_decide as Hid; [by subst|].
      exfalso. by apply (Hdead id _ Ht Hf), Hcl_out.
    + intros _ id [ms (Ht & Hf & Hc)]. cbn [manager firedTimers] in *.
      rewrite (timerOf_snoc id m m' _ Htm) in Ht. rewrite Hcl in Hc.
      case_decide as Hid; [done|].
      by apply (Hdead id _ Ht Hf), Hcl_out.
    + intros id id' [ms (Ht & Hf & Hc)] _. cbn [manager firedTimers] in *.
      rewrite (timerOf_snoc id m m' _ Htm) in Ht. rewrite Hcl in Hc.
      case_decide as Hid; [done|].
      exfalso. by apply (Hdead id _ Ht Hf), Hcl_out.
    + done.
    + done.
    + done.
    + done.
  - destruct Heff as (Hq' & Hpl & Hoff' & Hcl & Hmic & Htimers).
    rewrite Hq', Hpl, Hoff', Hcl, Hmic.
    assert (Hold : ∀ id t, timerOf id m' = Some t → id ∉ fired →
                           id ∉ BOM.clearedTimeouts m →
                           id = S (length (BOM.timeouts m)) ∧
                           ∃ ms, t = BOM.ProcessQueueAfter ms).
    { intros id t Ht Hf Hc.
      destruct Htimers as [(start & ms & Htm & _)|(_ & Htm & _)].
      - rewrite (timerOf_snoc id m m' _ Htm) in Ht.
        case_decide as Hid; [|by destruct (Hdead id _ Ht Hf Hc)].
        injection Ht as <-. eauto.
      - rewrite (timerOf_same id m m' Htm) in Ht. by destruct (Hdead id _ Ht Hf Hc). }
    split_and!.
    + intros id Hid. destruct (Hfresh id) as [Hne Hs]; [tauto|].
      destruct Htimers as [(start & ms & Htm & _)|(_ & Htm & _)].
      * rewrite (timerOf_snoc id m m' _ Htm). by rewrite decide_False.
      * by rewrite (timerOf_same id m m' Htm).
    + intros id Hid. destruct (Hfresh id) as [Hne Hs]; [tauto|].
      destruct (Hoff id Hid) as [ms' Hms].
      destruct Htimers as [(start & ms & Htm & _)|(_ & Htm & _)].
      * rewrite (timerOf_snoc id m m' _ Htm), decide_False by done. eauto.
      * rewrite (timerOf_same id m m' Htm). eauto.
    + intros id [ms (Ht & Hf & Hc)]. cbn [manager firedTimers] in *.
      rewrite Hcl in Hc. destruct (Hold id _ Ht Hf Hc) as [_ [ms' ?]]. done.
    + done.
    + intros id id' [ms (Ht & Hf & Hc)] [ms' (Ht' & Hf' & Hc')].
      cbn [manager firedTimers] in *. rewrite Hcl in Hc, Hc'.
      destruct (Hold id _ Ht Hf Hc) as [-> _].
      destruct (Hold id' _ Ht' Hf' Hc') as [-> _]. done.
    + done.
    + done.
    + done.
    + intros Hall _.
      destruct Htimers as [(start & ms & Htm & _)|(Hnot & _)]; [|done].
      exists (S (length (BOM.timeouts m))), ms. split_and!; cbn [manager firedTimers].
      * rewrite (timerOf_snoc _ m m' _ Htm). by rewrite decide_True.
      * intros Hin. destruct (Hfresh (S (length (BOM.timeouts m)))); tauto.
      * rewrite Hcl. intros Hin. destruct (Hfresh (S (length (BOM.timeouts m)))); tauto.
Qed.


Lemma option_list_elem {A} (o : option A) (x : A) : x ∈ option_list o ↔ o = Some x.
Proof.
  destruct o as [y|]; simpl.
  - rewrite list_elem_of_singleton. split; [by intros ->|by intros [= ->]].
  - split; [by intros ?%elem_of_nil|done].
Qed.

(** [playPCMAudio] while the queue is played. *)
Lemma prepared_playing pcmData sampleRate numChannels p :
  page_inv createBuffer p →
  BOM.isPlayingAudioQueue (manager p) = true →
  page_inv createBuffer
    (mkPage (prepared pcmData sampleRate numChannels (manager p)) (firedTimers p)).
Proof.
  destruct p as [m fired]. unfold page_inv. cbn [manager firedTimers].
  intros (Hvalid & Hoff & Hmic & Hidle & Hone & Hlast & Hdouble & Hqueue & Hprogress) Hpl.
  destruct (prepared_fields pcmData sampleRate numChannels m)
    as (Hq' & Hpl' & Htm & Hcl & Hoff' & Hmic' & _).
  set (m' := prepared pcmData sampleRate numChannels m) in *. clearbody m'.
  rewrite Hq', Hpl', Hcl, Hoff', Hmic', Hpl.
  assert (Hdrain : ∀ id, pendingDrain (mkPage m' fired) id ↔ pendingDrain (mkPage m fired) id).
  { intros id. unfold pendingDrain, liveTimer. cbn [manager firedTimers].
    rewrite Hcl. split; intros [ms (Ht & Hf & Hc)]; exists ms.
    - rewrite (timerOf_same id m m' Htm) in Ht. split_and!; [done..|].
      intros Hin. apply Hc, elem_of_app. by left.
    - rewrite (timerOf_same id m m' Htm). split_and!; [done..|].
      intros [Hin|Hin]%elem_of_app; [done|].
      apply option_list_elem in Hin. destruct (Hoff id Hin) as [ms' Hms]. congruence. }
  split_and!.
  - intros id Hid. rewrite (timerOf_same id m m' Htm).
    destruct Hid as [Hid|[Hid|Hid%option_list_elem]%elem_of_app];
      [apply Hvalid; tauto..|].
    destruct (Hoff id Hid) as [ms ->]. done.
  - done.
  - intros id [ms (Ht & Hf & Hc)]. cbn [manager firedTimers] in *. exfalso.
    rewrite (timerOf_same id m m' Htm) in Ht. rewrite Hcl in Hc.
    destruct (Hmic id) as (Hcur & _).
    { exists ms. split_and!; [done..|]. intros Hin. apply Hc, elem_of_app. by left. }
    apply Hc, elem_of_app. right. by apply option_list_elem.
  - done.
  - intros id id' Hid Hid'. apply Hone; by apply Hdrain.
  - rewrite last_snoc. done.
  - apply noDoubleOff_snoc; done.
  - done.
  - intros Hall _. destruct (Hprogress Hall Hpl) as [id Hid]. exists id. by apply Hdrain.
Qed.

(** [playPCMAudio] while the queue is not played: the drain is due. *)
Lemma prepared_idle pcmData sampleRate numChannels p :
  page_inv createBuffer p →
  BOM.isPlayingAudioQueue (manager p) = false →
  drain_due (mkPage (prepared pcmData sampleRate numChannels (manager p)) (firedTimers p)).
Proof.
  destruct p as [m fired]. unfold page_inv, drain_due. cbn [manager firedTimers].
  intros (Hvalid & Hoff & Hmic & Hidle & Hone & Hlast & Hdouble & Hqueue & Hprogress) Hpl.
  destruct (prepared_fields pcmData sampleRate numChannels m)
    as (Hq' & Hpl' & Htm & Hcl & Hoff' & Hmic' & _).
  set (m' := prepared pcmData sampleRate numChannels m) in *. clearbody m'.
  rewrite Hcl, Hoff', Hmic'.
  split_and!.
  - intros id Hid. rewrite (timerOf_same id m m' Htm).
    destruct Hid as [Hid|[Hid|Hid%option_list_elem]%elem_of_app];
      [apply Hvalid; tauto..|].
    destruct (Hoff id Hid) as [ms ->]. done.
  - done.
  - intros id [t (Ht & Hf & Hc)]. cbn [manager firedTimers] in *.
    rewrite (timerOf_same id m m' Htm) in Ht. rewrite Hcl in Hc.
    assert (Hc' : id ∉ BOM.clearedTimeouts m).
    { intros Hin. apply Hc, elem_of_app. by left. }
    destruct t as [ms|ms].
    + apply (Hidle Hpl id). by exists ms.
    + destruct (Hmic id) as (Hcur & _); [by exists ms|].
      apply Hc, elem_of_app. right. by apply option_list_elem.
  - rewrite last_snoc. done.
  - apply noDoubleOff_snoc; done.
Qed.

(** The timer of a drain runs out: the drain is due. *)
Lemma drain_timer_fired id p :
  page_inv createBuffer p → pendingDrain p id →
  drain_due (mkPage (manager p) (id :: firedTimers p)).
Proof.
  destruct p as [m fired]. unfold page_inv, drain_due. cbn [manager firedTimers].
  intros (Hvalid & Hoff & Hmic & Hidle & Hone & Hlast & Hdouble & Hqueue & Hprogress) Hid.
  assert (Hpl : BOM.isPlayingAudioQueue m = true).
  { destruct (BOM.isPlayingAudioQueue m) eqn:Hpl; [done|]. by destruct (Hidle eq_refl id). }
  split_and!.
  - intros id' [[->|Hin]%elem_of_cons|Hin]; [|apply Hvalid; tauto..].
    destruct Hid as [ms (Ht & _)]. cbn [manager] in Ht. by rewrite Ht.
  - done.
  - intros id' [t (Ht & Hf & Hc)]. cbn [manager firedTimers] in *.
    apply not_elem_of_cons in Hf as [Hne Hf].
    destruct t as [ms|ms].
    + apply Hne, Hone; [|done]. by exists ms.
    + destruct (Hmic id') as (_ & _ & Hpl'); [by exists ms|]. congruence.
  - intros Hoff'. destruct (Hlast Hoff') as (_ & Hpl' & _). congruence.
  - done.
Qed.

(** The timer of the microphone runs out while it is pending: the callback
    finds the queue empty and turns the microphone off. *)
Lemma mic_timer_fired id p :
  page_inv createBuffer p → pendingTurnOffMic p id →
  BOM.turnOffMicTimeoutFired id (manager p) = BOM.disableMic (manager p) ∧
  page_inv createBuffer (mkPage (BOM.disableMic (manager p)) (id :: firedTimers p)).
Proof.
  destruct p as [m fired]. unfold page_inv. cbn [manager firedTimers].
  intros (Hvalid & Hoff & Hmic & Hidle & Hone & Hlast & Hdouble & Hqueue & Hprogress) Hid.
  destruct (Hmic id Hid) as (Hcur & Hq & Hpl).
  destruct Hid as [ms (Ht & Hf & Hc)]. cbn [manager firedTimers] in *.
  split.
  { unfold BOM.turnOffMicTimeoutFired. rewrite bool_decide_eq_false_2 by done.
    by rewrite Hq. }
  destruct m as [track q isPlaying next sr nc timer tms cleared mic st].
  cbn [BOM.disableMic BOM.callMic BOM.sourceAudioTrack BOM.audioQueue
       BOM.isPlayingAudioQueue BOM.nextPlayTime BOM.sampleRate BOM.numChannels
       BOM.turnOffMicTimeout BOM.timeouts BOM.clearedTimeouts BOM.micCallbacks
       BOM.started] in *.
  subst q isPlaying timer.
  assert (Hdead : ∀ id', ¬ pending (mkPage (BOM.mk track [] false next sr nc (Some id)
                                     tms cleared (mic ++ [BOM.TurnOffMic]) st)
                                   (id :: fired)) id').
  { intros id' [t (Ht' & Hf' & Hc')]. cbn [manager firedTimers BOM.clearedTimeouts] in *.
    apply not_elem_of_cons in Hf' as [Hne Hf'].
    destruct t as [ms'|ms'].
    - apply (Hidle eq_refl id'). by exists ms'.
    - destruct (Hmic id') as (Hcur & _); [by exists ms'|]. congruence. }
  split_and!.
  - intros id' [[->|Hin]%elem_of_cons|Hin]; [|apply Hvalid; tauto..].
    change (is_Some (timerOf id (BOM.mk track [] false next sr nc (Some id)
                                   tms cleared mic st))).
    by rewrite Ht.
  - intros id' Hid'. apply (Hoff id' Hid').
  - intros id' [ms' Hlive]. destruct (Hdead id'). by exists (BOM.TurnOffMicAfter ms').
  - intros _ id' [ms' Hlive]. destruct (Hdead id'). by exists (BOM.ProcessQueueAfter ms').
  - intros id' id'' [ms' Hlive]. destruct (Hdead id'). by exists (BOM.ProcessQueueAfter ms').
  - intros _. done.
  - apply noDoubleOff_snoc; [done|]. intros _ Hoff'.
    destruct (Hlast Hoff') as (_ & _ & Hnone). apply (Hnone id).
    by exists (BOM.TurnOffMicAfter ms).
  - done.
  - done.
Qed.

Lemma page_inv_new : page_inv createBuffer (mkPage BOM.new []).
Proof.
  unfold page_inv. cbn [manager firedTimers]. split_and!; try done.
  - intros id [Hin|Hin]; by apply elem_of_nil in Hin.
  - intros id [ms (Ht & _)]. by destruct id as [|[|k]].
  - intros _ id [ms (Ht & _)]. by destruct id as [|[|k]].
  - intros id id' [ms (Ht & _)]. by destruct id as [|[|k]].
Qed.

Lemma pageStep_inv p e :
  page_inv createBuffer p → page_inv createBuffer (pageStep createBuffer p e).
Proof.
  intros Hinv. destruct e as [pcmData sampleRate numChannels now|id now]; cbn [pageStep].
  - rewrite playPCMAudio_prepared.
    destruct (BOM.isPlayingAudioQueue (prepared pcmData sampleRate numChannels (manager p)))
      eqn:Hpl.
    + apply prepared_playing; [done|].
      by rewrite <- Hpl, (proj1 (proj2 (prepared_fields pcmData sampleRate numChannels _))).
    + apply (drain_preserves now
               (mkPage (prepared pcmData sampleRate numChannels (manager p)) (firedTimers p))).
      apply prepared_idle; [done|].
      by rewrite <- Hpl, (proj1 (proj2 (prepared_fields pcmData sampleRate numChannels _))).
  - destruct (bool_decide (id ∈ firedTimers p)) eqn:Hf; [done|].
    destruct (bool_decide (id ∈ BOM.clearedTimeouts (manager p))) eqn:Hc; [done|].
    apply bool_decide_eq_false in Hf, Hc. cbn [orb].
    destruct (timerOf id (manager p)) as [[ms|ms]|] eqn:Ht; [| |done].
    + apply (drain_preserves now (mkPage (manager p) (id :: firedTimers p))).
      apply drain_timer_fired; [done|]. by exists ms.
    + destruct (mic_timer_fired id p Hinv) as [-> Hinv']; [by exists ms|done].
Qed.

Lemma pageAfter_inv (events : list OutputEvent) :
  page_inv createBuffer (pageAfter createBuffer events).
Proof.
  unfold pageAfter. induction events as [|e events IH] using rev_ind.
  - apply page_inv_new.
  - rewrite foldl_snoc. by apply pageStep_inv.
Qed.

(** The queue is first in, first out. *)
Lemma fifo_prepared pcmData sampleRate numChannels chunks m :
  fifo_inv createBuffer chunks m →
  fifo_inv createBuffer (chunks ++ [chunkOf pcmData sampleRate numChannels])
           (prepared pcmData sampleRate numChannels m).
Proof.
  intros (taken & -> & Hsub & Hall).
  destruct (prepared_fields pcmData sampleRate numChannels m)
    as (Hq' & _ & _ & _ & _ & _ & Hst).
  exists taken. rewrite Hq', Hst, app_assoc. done.
Qed.

Lemma fifo_drain now chunks m :
  fifo_inv createBuffer chunks m →
  fifo_inv createBuffer chunks (BOM._processAudioQueue createBuffer now m).
Proof.
  intros (taken & -> & Hsub & Hall).
  pose proof (processAudioQueue_effect now m) as Heff. cbn zeta in Heff.
  destruct (BOM.audioQueue m) as [|c rest] eqn:Hq.
  - destruct Heff as (Hq' & _ & _ & _ & _ & _ & Hst).
    exists taken. by rewrite Hq', Hst.
  - destruct Heff as (Hq' & _ & _ & _ & _ & [(start & ms & _ & Hst)|(Hnot & _ & Hst)]).
    + exists (taken ++ [c]). rewrite Hq', Hst, fmap_app, <- app_assoc.
      split_and!; [done|by apply sublist_app|].
      intros Hyes. by rewrite (Hall Hyes).
    + exists (taken ++ [c]). rewrite Hq', Hst, <- app_assoc.
      split_and!; [done|by apply sublist_inserts_r|done].
Qed.

Lemma enqueuedChunks_snoc (events : list OutputEvent) (e : OutputEvent) :
  enqueuedChunks (events ++ [e])
  = enqueuedChunks events
    ++ match e with
       | PlayPCMAudio pcmData sampleRate numChannels _ =>
           [chunkOf pcmData sampleRate numChannels]
       | TimerFired _ _ => []
       end.
Proof. unfold enqueuedChunks. rewrite bind_app. simpl. by rewrite app_nil_r. Qed.

Lemma pageAfter_fifo (events : list OutputEvent) :
  fifo_inv createBuffer (enqueuedChunks events)
           (manager (pageAfter createBuffer events)).
Proof.
  unfold pageAfter. induction events as [|e events IH] using rev_ind.
  - exists []. done.
  - rewrite foldl_snoc, enqueuedChunks_snoc.
    set (p := foldl (pageStep createBuffer) (mkPage BOM.new []) events) in *.
    pose proof (pageAfter_inv events) as Hinv. unfold pageAfter in Hinv. fold p in Hinv.
    destruct e as [pcmData sampleRate numChannels now|id now]; cbn [pageStep].
    + cbn [manager]. rewrite playPCMAudio_prepared.
      destruct (BOM.isPlayingAudioQueue _); [|apply fifo_drain]; by apply fifo_prepared.
    + rewrite app_nil_r.
      destruct (bool_decide (id ∈ firedTimers p)) eqn:Hf; [done|].
      destruct (bool_decide (id ∈ BOM.clearedTimeouts (manager p))) eqn:Hc; [done|].
      apply bool_decide_eq_false in Hf, Hc. cbn [orb].
      destruct (timerOf id (manager p)) as [[ms|ms]|] eqn:Ht; [| |done].
      * cbn [manager]. by apply fifo_drain.
      * cbn [manager]. destruct (mic_timer_fired id p Hinv) as [-> _]; [by exists ms|].
        destruct IH as (taken & Heq & Hsub & Hall). by exists taken.
Qed.

End output_events.

(** The microphone follows the audio.  Whatever calls of [playPCMAudio] and
    timers come in whatever order: a queue that is not empty is being played;
    at most one timer of the microphone is pending, the one the manager
    remembers, and only while nothing is queued or played; when it runs out
    the microphone is turned off, and a call of [playPCMAudio] leaves no such
    timer pending.  When the last call to the microphone turned it off,
    nothing is queued, played or pending; it is never turned off twice in a
    row. *)
Theorem microphone_off_only_when_idle (createBuffer : float → float → float → bool)
    (events : list OutputEvent) :
  let p := pageAfter createBuffer events in
  let m := manager p in
  (BOM.audioQueue m ≠ [] → BOM.isPlayingAudioQueue m = true) ∧
  (∀ id, pendingTurnOffMic p id →
         BOM.turnOffMicTimeout m = Some id ∧ BOM.audioQueue m = []
         ∧ BOM.isPlayingAudioQueue m = false
         ∧ ∀ now, manager (pageStep createBuffer p (TimerFired id now))
                  = BOM.disableMic m) ∧
  (∀ pcmData sampleRate numChannels now id,
     ¬ pendingTurnOffMic
         (pageStep createBuffer p (PlayPCMAudio pcmData sampleRate numChannels now)) id) ∧
  (last (BOM.micCallbacks m) = Some BOM.TurnOffMic →
   BOM.audioQueue m = [] ∧ BOM.isPlayingAudioQueue m = false ∧ ∀ id, ¬ pending p id) ∧
  noDoubleOff (BOM.micCallbacks m).
Proof.
  intros p m.
  pose proof (pageAfter_inv createBuffer events) as Hinv. fold p in Hinv.
  subst m. clearbody p.
  pose proof Hinv as (_ & _ & Hmic & _ & _ & Hlast & Hdouble & Hqueue & _).
  split_and!; [done| | |done..].
  - intros id Hid. destruct (Hmic id Hid) as (Hcur & Hq & Hpl). split_and!; [done..|].
    intros now. destruct (mic_timer_fired createBuffer id p Hinv Hid) as [Hfired _].
    destruct Hid as [ms (Ht & Hf & Hc)]. cbn [pageStep].
    rewrite !bool_decide_eq_false_2 by done. cbn [orb]. by rewrite Ht.
  - intros pcmData sampleRate numChannels now id Hid.
    pose proof (pageStep_inv createBuffer p
                  (PlayPCMAudio pcmData sampleRate numChannels now) Hinv)
      as (_ & _ & Hmic' & _).
    destruct (Hmic' id Hid) as (Hcur & _). revert Hcur. cbn [pageStep manager].
    rewrite playPCMAudio_prepared.
    destruct (prepared_fields pcmData sampleRate numChannels (manager p))
      as (Hq' & _ & _ & _ & Hoff' & _).
    destruct (BOM.isPlayingAudioQueue
                (prepared pcmData sampleRate numChannels (manager p)));
      [by rewrite Hoff'|].
    pose proof (processAudioQueue_effect createBuffer now
                  (prepared pcmData sampleRate numChannels (manager p))) as Heff.
    cbn zeta in Heff. rewrite Hq' in Heff.
    destruct (BOM.audioQueue (manager p) ++ _) as [|c rest] eqn:Hq.
    + by apply app_eq_nil in Hq as [_ ?].
    + destruct Heff as (_ & _ & -> & _). by rewrite Hoff'.
Qed.

Lemma microphone_off_only_when_idle_witness :
  BOM.micCallbacks
    (manager (pageStep (fun _ _ _ => true)
                (pageAfter (fun _ _ _ => true)
                   [PlayPCMAudio (BOM.Float32Array [0.5%float]) 8000 1 0; TimerFired 1 1])
                (TimerFired 2 3)))
  = [BOM.TurnOnMic; BOM.TurnOffMic].
Proof.
  destruct (microphone_off_only_when_idle (fun _ _ _ => true)
              [PlayPCMAudio (BOM.Float32Array [0.5%float]) 8000 1 0; TimerFired 1 1])
    as (_ & Hmic & _).
  destruct (Hmic 2%nat) as (_ & _ & _ & Hfired).
  - exists 2000%float. split_and!; [reflexivity|..];
      apply (bool_decide_unpack _); by vm_compute.
  - by rewrite Hfired.
Defined.

(** The queue is first in, first out.  Whatever calls of [playPCMAudio] and
    timers come in whatever order: the chunks enqueued are the chunks taken
    from the queue followed by the chunks still in it, and the chunks started
    are among the chunks taken, in their order.  At most one timer of a drain
    is pending, and none when the queue is not played.  When the audio
    context makes every buffer, every chunk taken is started, a timer of a
    drain is pending while the queue is played, and once the queue is not
    played any more every chunk enqueued was started. *)
Theorem chunks_started_in_order (createBuffer : float → float → float → bool)
    (events : list OutputEvent) :
  let p := pageAfter createBuffer events in
  let m := manager p in
  (∃ taken, enqueuedChunks events = taken ++ BOM.audioQueue m ∧
            sublist (BOM.chunk <$> BOM.started m) taken ∧
            (alwaysCreates createBuffer → BOM.chunk <$> BOM.started m = taken)) ∧
  (BOM.isPlayingAudioQueue m = false → ∀ id, ¬ pendingDrain p id) ∧
  (∀ id id', pendingDrain p id → pendingDrain p id' → id = id') ∧
  (alwaysCreates createBuffer → BOM.isPlayingAudioQueue m = true →
   ∃ id, pendingDrain p id) ∧
  (alwaysCreates createBuffer → BOM.isPlayingAudioQueue m = false →
   BOM.chunk <$> BOM.started m = enqueuedChunks events).
Proof.
  intros p m.
  pose proof (pageAfter_inv createBuffer events)
    as (_ & _ & _ & Hidle & Hone & _ & _ & Hqueue & Hprogress).
  pose proof (pageAfter_fifo createBuffer events) as Hfifo.
  fold p in Hidle, Hone, Hqueue, Hprogress, Hfifo.
  fold m in Hidle, Hqueue, Hprogress, Hfifo.
  split_and!; [done..|].
  intros Hall Hpl. destruct Hfifo as (taken & -> & _ & Htaken).
  destruct (BOM.audioQueue m) as [|c rest] eqn:Hq.
  - by rewrite app_nil_r, Htaken.
  - rewrite Hqueue in Hpl; done.
Qed.

Lemma chunks_started_in_order_witness :
  BOM.chunk <$> BOM.started
    (manager (pageAfter (fun _ _ _ => true)
                [PlayPCMAudio (BOM.Float32Array [0.5%float]) 8000 1 0;
                 PlayPCMAudio (BOM.NumberArray [16384%float]) 8000 1 0;
                 TimerFired 1 1; TimerFired 2 2]))
  = [chunkOf (BOM.Float32Array [0.5%float]) 8000 1;
     chunkOf (BOM.NumberArray [16384%float]) 8000 1].
Proof.
  destruct (chunks_started_in_order (fun _ _ _ => true)
              [PlayPCMAudio (BOM.Float32Array [0.5%float]) 8000 1 0;
               PlayPCMAudio (BOM.NumberArray [16384%float]) 8000 1 0;
               TimerFired 1 1; TimerFired 2 2])
    as (_ & _ & _ & _ & Hdone).
  rewrite Hdone; [reflexivity|by intros ? ? ?|by vm_compute].
Defined.

(** ** Who is speaking *)

Section receivers.

Variable clock : nat → Z.
Hypothesis clock_monotone : monotone clock.

Implicit Types (st : RM.t) (dsm : DSM.t) (m : PSM.t) (machines : JsMap.t string PSM.t).

(** What a sample does to the machine does not depend on the store, and the
    store gets at most one interval, for the participant of the machine. *)
Lemma addSample_frame (s : Sample) m dsm dsm' :
  fst (PSM.addSample s (m, dsm)) = fst (PSM.addSample s (m, dsm')) ∧
  ((snd (PSM.addSample s (m, dsm)) = dsm ∧ snd (PSM.addSample s (m, dsm')) = dsm') ∨
   ∃ i, snd (PSM.addSample s (m, dsm)) = DSM.pushInterval i (PSM.participantId m) dsm ∧
        snd (PSM.addSample s (m, dsm')) = DSM.pushInterval i (PSM.participantId m) dsm').
Proof.
  unfold PSM.addSample. case_decide; [by split; [|left]|].
  destruct (PSM.state m); case_bool_decide; cbn [fst snd]; (split; [done|]);
    first [by left | right; by eexists].
Qed.

Lemma jsmap_set_absent {V} (k : string) (v : V) (o : JsMap.t string V) :
  JsMap.get k o = None → JsMap.set k v o = o ++ [(k, v)].
Proof.
  induction o as [|[k' v'] o IH]; simpl; [done|].
  destruct (decide (k = k')); [done|]. intros Hg. by rewrite IH.
Qed.

Lemma pushInterval_keys (i : SpeechInterval) (p : string) dsm :
  let keys := JsMap.keys (DSM.speechIntervalsPerParticipant dsm) in
  let keys' := JsMap.keys (DSM.speechIntervalsPerParticipant (DSM.pushInterval i p dsm)) in
  (NoDup keys → NoDup keys') ∧ (∀ k, k ∈ keys' → k ∈ keys ∨ k = p).
Proof.
  cbn zeta. unfold DSM.pushInterval. cbn zeta.
  destruct (JsMap.get p (DSM.speechIntervalsPerParticipant dsm)) as [l|] eqn:Hg.
  - rewrite Hg. cbn [DSM.speechIntervalsPerParticipant DSM.with_intervals].
    rewrite jsmap_keys_set_present by (by eexists). split; [done|by left].
  - rewrite jsmap_get_set_eq. cbn [DSM.speechIntervalsPerParticipant DSM.with_intervals].
    rewrite jsmap_keys_set_present by (rewrite jsmap_get_set_eq; by eexists).
    split; [apply jsmap_set_NoDup|].
    rewrite jsmap_keys_set_absent by done.
    intros k [Hk|Hk%list_elem_of_singleton]%elem_of_app; [by left|by right].
Qed.

Lemma non_decreasing_snoc (ss : list Sample) (s : Sample) :
  non_decreasing ss → (∀ a, a ∈ ss → timestamp a <= timestamp s) →
  non_decreasing (ss ++ [s]).
Proof.
  intros Hmono Hle i j a b Hij Ha Hb.
  destruct (decide (j < length ss)%nat) as [Hj|Hj].
  - rewrite lookup_app_l in Ha, Hb by lia. by apply (Hmono i j).
  - assert (j = length ss) as ->.
    { apply lookup_lt_Some in Hb. rewrite length_app in Hb. simpl in Hb. lia. }
    rewrite lookup_app_r, Nat.sub_diag in Hb by lia. injection Hb as <-.
    destruct (decide (i < length ss)%nat) as [Hi|Hi].
    + rewrite lookup_app_l in Ha by lia. apply Hle. by eapply list_elem_of_lookup_2.
    + assert (i = length ss) as -> by lia.
      rewrite lookup_app_r, Nat.sub_diag in Ha by lia. injection Ha as <-. lia.
Qed.

Lemma tracked_later (k k' : nat) dsm dsm' (entry : string * PSM.t) :
  (k ≤ k')%nat →
  DSM.intervalsOf (fst entry) dsm' = DSM.intervalsOf (fst entry) dsm →
  tracked clock k dsm entry → tracked clock k' dsm' entry.
Proof.
  destruct entry as [pid m]. unfold tracked. cbn [fst snd].
  intros Hk Hsame (Hne & ss & Hmono & Hle & Hm & Hd).
  split; [done|]. exists ss. split_and!; [done| |done|congruence].
  intros s Hs. pose proof (Hle s Hs). pose proof (clock_monotone k k' Hk). lia.
Qed.

Lemma addSamples_spec (ids : list string) (k : nat) (entries : list (string * PSM.t)) :
  ∀ dsm,
  NoDup (JsMap.keys entries) →
  Forall (tracked clock k dsm) entries →
  NoDup (JsMap.keys (DSM.speechIntervalsPerParticipant dsm)) →
  ∃ entries' dsm',
    RM.addSamples ids (clock k) entries dsm = (entries', dsm') ∧
    JsMap.keys entries' = JsMap.keys entries ∧
    Forall (tracked clock (S k) dsm') entries' ∧
    NoDup (JsMap.keys (DSM.speechIntervalsPerParticipant dsm')) ∧
    (∀ x, x ∈ JsMap.keys (DSM.speechIntervalsPerParticipant dsm') →
          x ∈ JsMap.keys (DSM.speechIntervalsPerParticipant dsm) ∨ x ∈ JsMap.keys entries) ∧
    (∀ q, q ∉ JsMap.keys entries → DSM.intervalsOf q dsm' = DSM.intervalsOf q dsm).
Proof.
  induction entries as [|[pid m] entries IH]; intros dsm Hnd Hall Hstore.
  { exists [], dsm. split_and!; [done..| |done]. intros x Hx. by left. }
  unfold JsMap.keys in Hnd. cbn [fmap list_fmap fst] in Hnd.
  apply NoDup_cons in Hnd as [Hpid Hnd].
  apply Forall_cons in Hall as [(Hne & ss & Hmono & Hle & Hm & Hd) Hall].
  cbn [fst snd] in Hne, Hle, Hm, Hd.
  set (s := mkSample (bool_decide (pid ∈ ids)) (clock k)).
  assert (Hid : PSM.participantId m = pid).
  { rewrite <- Hm. apply machine_after_participantId. }
  destruct (addSample_frame s m dsm (snd (machine_after pid DSM.new ss))) as [Hfst Hsnd].
  rewrite Hid in Hsnd.
  assert (Hiso : machine_after pid DSM.new (ss ++ [s])
                 = PSM.addSample s (m, snd (machine_after pid DSM.new ss))).
  { rewrite machine_after_snoc. rewrite <- Hm. by destruct (machine_after pid DSM.new ss). }
  destruct (PSM.addSample s (m, dsm)) as [m1 dsm1] eqn:Hstep. cbn [fst snd] in Hfst, Hsnd.
  assert (Hkeys1 : NoDup (JsMap.keys (DSM.speechIntervalsPerParticipant dsm1)) ∧
                   ∀ x, x ∈ JsMap.keys (DSM.speechIntervalsPerParticipant dsm1) →
                        x ∈ JsMap.keys (DSM.speechIntervalsPerParticipant dsm) ∨ x = pid).
  { destruct Hsnd as [[-> _]|(i & -> & _)].
    - split; [done|]. intros x Hx. by left.
    - destruct (pushInterval_keys i pid dsm) as [Hn Hk]. split; [by apply Hn|done]. }
  assert (Hother1 : ∀ q, q ≠ pid → DSM.intervalsOf q dsm1 = DSM.intervalsOf q dsm).
  { intros q Hq. destruct Hsnd as [[-> _]|(i & -> & _)]; [done|].
    by apply pushInterval_other. }
  assert (Hown1 : DSM.intervalsOf pid (snd (machine_after pid DSM.new (ss ++ [s])))
                  = DSM.intervalsOf pid dsm1).
  { rewrite Hiso. destruct Hsnd as [[-> ->]|(i & -> & ->)]; [done|].
    by rewrite !pushInterval_same, Hd. }
  destruct (IH dsm1) as (entries' & dsm' & Hrun & Hkeys & Htracked & Hnd' & Hsub & Hframe).
  - done.
  - apply Forall_forall. intros [q mq] Hin. rewrite Forall_forall in Hall.
    apply (tracked_later k k dsm); [lia| |by apply Hall].
    cbn [fst]. apply Hother1. intros ->. apply Hpid.
    apply list_elem_of_fmap. by exists (pid, mq).
  - apply Hkeys1.
  - exists ((pid, m1) :: entries'), dsm'. split_and!.
    + cbn [RM.addSamples]. fold s. by rewrite Hstep, Hrun.
    + unfold JsMap.keys in *. cbn [fmap list_fmap fst]. by rewrite Hkeys.
    + apply Forall_cons. split; [|done].
      unfold tracked. cbn [fst snd].
      split; [done|]. exists (ss ++ [s]). split_and!.
      * apply non_decreasing_snoc; [done|]. intros a Ha. by apply Hle.
      * intros a [Ha|Ha%list_elem_of_singleton]%elem_of_app.
        -- pose proof (Hle a Ha). pose proof (clock_monotone k (S k)). lia.
        -- subst a. apply (clock_monotone k (S k)). lia.
      * by rewrite Hiso, <- Hfst.
      * rewrite Hown1. symmetry. by apply Hframe.
    + done.
    + intros x Hx. unfold JsMap.keys at 2. cbn [fmap list_fmap fst].
      destruct (Hsub x Hx) as [Hx1|Hx1].
      * destruct (proj2 Hkeys1 x Hx1) as [?|Heq]; [by left|].
        subst x. right. apply list_elem_of_here.
      * right. by apply list_elem_of_further.
    + intros q Hq. unfold JsMap.keys in Hq. cbn [fmap list_fmap fst] in Hq.
      apply not_elem_of_cons in Hq as [Hq1 Hq2].
      rewrite Hframe by done. by apply Hother1.
Qed.

(** The ids of the set are ids of participants, not empty. *)
Lemma getSpeakingParticipantIds_truthy (participants : option (list RM.Participant))
    (contributingSources : list RM.ContributingSource) (ids : list string) :
  RM.getSpeakingParticipantIds participants contributingSources = RM.IdSet ids →
  ∀ id, id ∈ ids → id ≠ "".
Proof.
  destruct participants as [ps|]; [|done]. cbn [RM.getSpeakingParticipantIds].
  intros [= <-]. induction ps as [|p ps IH] using rev_ind.
  - intros id Hid. by apply elem_of_nil in Hid.
  - rewrite foldl_snoc. destruct (existsb _ _ && truthy (RM.id p)) eqn:Hp; [|done].
    apply andb_true_iff in Hp as [_ Hp]. unfold RM.add. case_bool_decide; [done|].
    intros id [Hid|Hid%list_elem_of_singleton]%elem_of_app; [by apply IH|].
    subst id. by destruct (RM.id p).
Qed.

(** The machines made for the ids that have none yet. *)
Lemma newMachines_spec (k : nat) dsm (ids : list string) machines :
  (∀ id, id ∈ ids → id ≠ "") →
  NoDup (JsMap.keys machines) →
  Forall (tracked clock k dsm) machines →
  (∀ x, x ∈ JsMap.keys (DSM.speechIntervalsPerParticipant dsm) → x ∈ JsMap.keys machines) →
  let machines' :=
    foldl (fun machines speakingParticipantId =>
             if JsMap.has speakingParticipantId machines then machines
             else JsMap.set speakingParticipantId (PSM.new speakingParticipantId) machines)
          machines ids in
  NoDup (JsMap.keys machines') ∧ Forall (tracked clock k dsm) machines' ∧
  (∀ x, x ∈ JsMap.keys (DSM.speechIntervalsPerParticipant dsm) → x ∈ JsMap.keys machines').
Proof.
  intros Hids Hnd Hall Hsub. cbn zeta.
  induction ids as [|id ids IH] using rev_ind; [done|].
  rewrite foldl_snoc.
  destruct IH as (Hnd' & Hall' & Hsub').
  { intros x Hx. apply Hids, elem_of_app. by left. }
  set (ms := foldl _ machines ids) in *.
  unfold JsMap.has. case_bool_decide as Hhas; [done|].
  assert (Hnone : JsMap.get id ms = None).
  { destruct (JsMap.get id ms); [|done]. destruct Hhas. by eexists. }
  split_and!.
  - by apply jsmap_set_NoDup.
  - rewrite jsmap_set_absent by done. apply Forall_app. split; [done|].
    apply Forall_singleton. unfold tracked. cbn [fst snd]. split.
    { apply Hids, elem_of_app. right. by apply list_elem_of_singleton. }
    exists []. split_and!; [by intros [|?] ? ? ? ? ?|by intros ? ?%elem_of_nil|done|].
    cbn [machine_after PSM.addSamples foldl snd]. unfold DSM.intervalsOf at 2.
    assert (Hstore : JsMap.get id (DSM.speechIntervalsPerParticipant dsm) = None).
    { apply jsmap_get_None_keys. intros Hin. apply Hsub' in Hin.
      by apply jsmap_get_None_keys in Hnone. }
    by rewrite Hstore.
  - intros x Hx. rewrite jsmap_keys_set_absent by done. apply elem_of_app. left.
    by apply Hsub'.
Qed.

Lemma pollReceiver_inv (page : RM.Snapshot) (entry : string * bool) st :
  receivers_inv clock st →
  receivers_inv clock (RM.stateOf (RM.pollReceiver clock page entry st)).
Proof.
  intros Hinv. destruct entry as [receiver isActive]. unfold RM.pollReceiver.
  set (st1 := if _ : bool then _ else st).
  assert (Hinv1 : receivers_inv clock st1).
  { subst st1. by destruct (_ && _). }
  clearbody st1. clear Hinv st.
  destruct isActive; cbn [negb]; [|exact Hinv1].
  destruct Hinv1 as (Hnd & Hstore & Hsub & Hall).
  set (k := RM.dateNowCalls st1) in *.
  set (speaking := RM.getSpeakingParticipantIds _ _).
  destruct speaking as [|ids] eqn:Hspeaking.
  - cbn [foldl].
    destruct (RM.participantSpeakingStateMachineMap st1) as [|e machines] eqn:Hmachines.
    + cbn [JsMap.entries RM.addSamples RM.stateOf]. unfold receivers_inv.
      cbn [RM.participantSpeakingStateMachineMap RM.dominantSpeakerManager RM.dateNowCalls].
      split_and!; [done..|]. apply Forall_nil_2.
    + cbn [RM.stateOf]. unfold receivers_inv.
      cbn [RM.participantSpeakingStateMachineMap RM.dominantSpeakerManager RM.dateNowCalls].
      split_and!; [done..|].
      eapply Forall_impl; [exact Hall|]. intros x. apply tracked_later; [lia|done].
  - destruct (newMachines_spec k (RM.dominantSpeakerManager st1) ids
                (RM.participantSpeakingStateMachineMap st1))
      as (Hnd' & Hall' & Hsub'); [|done|done|done|].
    { by apply (getSpeakingParticipantIds_truthy _ _ _ Hspeaking). }
    set (machines := foldl _ (RM.participantSpeakingStateMachineMap st1) ids) in *.
    destruct (addSamples_spec ids k machines (RM.dominantSpeakerManager st1))
      as (machines' & dsm' & Hrun & Hkeys & Htracked & Hstore' & Hsub'' & _); [done..|].
    unfold JsMap.entries. rewrite Hrun.
    assert (Hgoal : receivers_inv clock
                      (RM.mk (RM.receiverMap st1) machines' dsm' (RM.ws st1) (S k))).
    { unfold receivers_inv.
      cbn [RM.participantSpeakingStateMachineMap RM.dominantSpeakerManager RM.dateNowCalls].
      split_and!; [by rewrite Hkeys|done| |done].
      intros x Hx. rewrite Hkeys. destruct (Hsub'' x Hx) as [?|?]; [by apply Hsub'|done]. }
    by destruct machines.
Qed.

Lemma pollEntries_inv (page : RM.Snapshot) (entries : list (string * bool)) st :
  receivers_inv clock st →
  receivers_inv clock (RM.stateOf (RM.pollEntries clock page entries st)).
Proof.
  revert st. induction entries as [|entry entries IH]; intros st Hinv; [done|].
  cbn [RM.pollEntries].
  pose proof (pollReceiver_inv page entry st Hinv) as Hstep.
  destruct (RM.pollReceiver clock page entry st) as [st'|st']; [by apply IH|done].
Qed.

Lemma receiversAfter_inv (ops : list ReceiverOp) :
  receivers_inv clock (receiversAfter clock ops).
Proof.
  unfold receiversAfter. induction ops as [|op ops IH] using rev_ind.
  - unfold receivers_inv. cbn. split_and!; [apply NoDup_nil_2..| |done].
    intros x Hx. by apply elem_of_nil in Hx.
  - rewrite foldl_snoc. destruct op as [receiver|page]; cbn [receiverOp].
    + unfold RM.addReceiver. by destruct (_ || _).
    + by apply pollEntries_inv.
Qed.

End receivers.

(** The store that polling fills is well formed.  Receivers are added and
    polled in any order, on any page, and the clock does not run backwards.
    Then every list of the store of the dominant speaker manager is well
    timed and belongs to a participant with a state machine and an id that is
    not empty.  The machines do not disturb each other: the machine of a
    participant and the intervals of that participant are what a machine of
    its own, writing to an empty store, makes of some samples in the order of
    their timestamps. *)
Theorem polled_store_well_formed (clock : nat → Z) (ops : list ReceiverOp) :
  monotone clock →
  let st := receiversAfter clock ops in
  well_formed_store (RM.dominantSpeakerManager st) ∧
  (∀ pid intervals,
     (pid, intervals)
       ∈ JsMap.entries (DSM.speechIntervalsPerParticipant (RM.dominantSpeakerManager st)) →
     is_Some (JsMap.get pid (RM.participantSpeakingStateMachineMap st))) ∧
  (∀ pid m,
     (pid, m) ∈ JsMap.entries (RM.participantSpeakingStateMachineMap st) →
     pid ≠ "" ∧
     ∃ ss, non_decreasing ss ∧
           m = fst (machine_after pid DSM.new ss) ∧
           DSM.intervalsOf pid (RM.dominantSpeakerManager st)
           = DSM.intervalsOf pid (snd (machine_after pid DSM.new ss))).
Proof.
  intros Hclock st.
  destruct (receiversAfter_inv clock Hclock ops) as (Hnd & Hstore & Hsub & Hall).
  fold st in Hnd, Hstore, Hsub, Hall.
  assert (Hmachine : ∀ pid m,
            (pid, m) ∈ JsMap.entries (RM.participantSpeakingStateMachineMap st) →
            pid ≠ "" ∧
            ∃ ss, non_decreasing ss ∧
                  m = fst (machine_after pid DSM.new ss) ∧
                  DSM.intervalsOf pid (RM.dominantSpeakerManager st)
                  = DSM.intervalsOf pid (snd (machine_after pid DSM.new ss))).
  { intros pid m Hin. rewrite Forall_forall in Hall.
    destruct (Hall _ Hin) as (Hne & ss & Hmono & _ & Hm & Hd). cbn [fst snd] in *.
    split; [done|]. by exists ss. }
  assert (Hkey : ∀ pid intervals,
            (pid, intervals)
              ∈ JsMap.entries (DSM.speechIntervalsPerParticipant
                                 (RM.dominantSpeakerManager st)) →
            ∃ m, JsMap.get pid (RM.participantSpeakingStateMachineMap st) = Some m).
  { intros pid intervals Hin.
    assert (Hk : pid ∈ JsMap.keys (RM.participantSpeakingStateMachineMap st)).
    { apply Hsub, list_elem_of_fmap. by exists (pid, intervals). }
    destruct (JsMap.get pid (RM.participantSpeakingStateMachineMap st)) as [m|] eqn:Hg;
      [by exists m|].
    by apply jsmap_get_None_keys in Hg. }
  split_and!; [|intros pid intervals Hin; by destruct (Hkey pid intervals Hin) as [m ->]|done].
  unfold well_formed_store. apply Forall_forall. intros [pid intervals] Hin. cbn [fst snd].
  destruct (Hkey pid intervals Hin) as [m Hm].
  destruct (Hmachine pid m (jsmap_entry_get _ _ _ Hm)) as (Hne & ss & Hmono & _ & Hd).
  split; [done|].
  assert (Hl : DSM.intervalsOf pid (RM.dominantSpeakerManager st) = intervals).
  { unfold DSM.intervalsOf. by rewrite (jsmap_get_entry pid intervals _ Hstore Hin). }
  rewrite <- Hl, Hd. by apply machine_writes_well_timed.
Qed.

Lemma polled_store_well_formed_witness :
  well_formed_store
    (RM.dominantSpeakerManager
       (receiversAfter (fun n => 1000 + Z.of_nat n)
          (AddReceiver "audio-1" :: replicate 7 (PollReceivers heard_participant)))).
Proof.
  apply (polled_store_well_formed (fun n => 1000 + Z.of_nat n)
           (AddReceiver "audio-1" :: replicate 7 (PollReceivers heard_participant))).
  intros i j Hij. lia.
Defined.

Section no_active_call.

Variable clock : nat → Z.

Lemma pollEntries_inactive (page : RM.Snapshot) (entries : list (string * bool)) (st : RM.t) :
  Forall (fun entry => snd entry = false) entries →
  ∃ st', RM.pollEntries clock page entries st = RM.Normal st' ∧
         RM.participantSpeakingStateMachineMap st' = RM.participantSpeakingStateMachineMap st ∧
         RM.dominantSpeakerManager st' = RM.dominantSpeakerManager st ∧
         RM.dateNowCalls st' = RM.dateNowCalls st.
Proof.
  revert st. induction entries as [|[receiver isActive] entries IH]; intros st Hall.
  { by exists st. }
  apply Forall_cons in Hall as [Hfalse Hall]. cbn [snd] in Hfalse. subst isActive.
  cbn [RM.pollEntries RM.pollReceiver negb]. rewrite andb_true_r.
  match goal with
  | |- context [RM.pollEntries clock page entries ?st1] =>
      destruct (IH st1 Hall) as (st' & Hrun & Hm & Hd & Hk)
  end.
  exists st'. split; [exact Hrun|].
  rewrite Hm, Hd, Hk. by destruct (bool_decide _).
Qed.

End no_active_call.

(** Polling without an active call.  When the page has no active call (or a
    call without participants) and a state machine exists, [pollReceivers]
    ends with an exception at the first receiver that is active: no machine
    gets a sample, the store is as before, and the receivers behind it are
    not looked at.  When no receiver is active it ends normally, and then too
    the machines and the store are as before. *)
Theorem poll_without_call_throws (clock : nat → Z) (page : RM.Snapshot) (st : RM.t) :
  RM.participants page = None →
  RM.participantSpeakingStateMachineMap st ≠ [] →
  let outcome := RM.pollReceivers clock page st in
  RM.participantSpeakingStateMachineMap (RM.stateOf outcome)
  = RM.participantSpeakingStateMachineMap st ∧
  RM.dominantSpeakerManager (RM.stateOf outcome) = RM.dominantSpeakerManager st ∧
  (Forall (fun entry => snd entry = false) (JsMap.entries (RM.receiverMap st)) →
   ∃ st', outcome = RM.Normal st') ∧
  (∀ earlier receiver later,
     JsMap.entries (RM.receiverMap st) = earlier ++ (receiver, true) :: later →
     Forall (fun entry => snd entry = false) earlier →
     ∃ st', outcome = RM.Thrown st' ∧
            RM.pollEntries clock page earlier st
            = RM.Normal (RM.mk (RM.receiverMap st') (RM.participantSpeakingStateMachineMap st')
                               (RM.dominantSpeakerManager st') (RM.ws st')
                               (RM.dateNowCalls st))).
Proof.
  intros Hcall Hmachines outcome. subst outcome. unfold RM.pollReceivers.
  assert (Hsplit : Forall (fun entry => snd entry = false) (JsMap.entries (RM.receiverMap st))
                   ∨ ∃ earlier receiver later,
                       JsMap.entries (RM.receiverMap st) = earlier ++ (receiver, true) :: later
                       ∧ Forall (fun entry => snd entry = false) earlier).
  { induction (JsMap.entries (RM.receiverMap st)) as [|[r b] l IH]; [by left|].
    destruct b.
    - right. by exists [], r, l.
    - destruct IH as [IH|(earlier & receiver & later & -> & Hall)].
      + left. by apply Forall_cons.
      + right. exists ((r, false) :: earlier), receiver, later. split; [done|].
        by apply Forall_cons. }
  assert (Hthrown : ∀ earlier receiver later,
            JsMap.entries (RM.receiverMap st) = earlier ++ (receiver, true) :: later →
            Forall (fun entry => snd entry = false) earlier →
            ∃ st', RM.pollEntries clock page (JsMap.entries (RM.receiverMap st)) st
                   = RM.Thrown st' ∧
                   RM.participantSpeakingStateMachineMap st'
                   = RM.participantSpeakingStateMachineMap st ∧
                   RM.dominantSpeakerManager st' = RM.dominantSpeakerManager st ∧
                   RM.pollEntries clock page earlier st
                   = RM.Normal (RM.mk (RM.receiverMap st')
                                  (RM.participantSpeakingStateMachineMap st')
                                  (RM.dominantSpeakerManager st') (RM.ws st')
                                  (RM.dateNowCalls st))).
  { intros earlier receiver later -> Hall.
    destruct (pollEntries_inactive clock page earlier st Hall) as (st1 & Hrun & Hm & Hd & Hk).
    assert (Happ : ∀ l st0 st0', RM.pollEntries clock page l st0 = RM.Normal st0' →
                     ∀ l', RM.pollEntries clock page (l ++ l') st0
                           = RM.pollEntries clock page l' st0').
    { induction l as [|e l IHl]; intros st0 st0' Hl l'; cbn [app RM.pollEntries] in *.
      - by injection Hl as ->.
      - destruct (RM.pollReceiver clock page e st0); [by apply IHl|done]. }
    rewrite (Happ _ _ _ Hrun). cbn [RM.pollEntries RM.pollReceiver negb].
    rewrite andb_false_r, Hcall. cbn [RM.getSpeakingParticipantIds foldl].
    destruct (RM.participantSpeakingStateMachineMap st1) as [|e ms] eqn:Hms;
      [by rewrite Hm in Hms|].
    eexists. split; [reflexivity|].
    cbn [RM.participantSpeakingStateMachineMap RM.dominantSpeakerManager RM.receiverMap
         RM.ws].
    split_and!; [exact Hm|exact Hd|]. rewrite Hrun, <- Hms, <- Hk. by destruct st1. }
  destruct Hsplit as [Hall|(earlier & receiver & later & Heq & Hall)].
  - destruct (pollEntries_inactive clock page _ st Hall) as (st1 & Hrun & Hm & Hd & Hk).
    rewrite Hrun. cbn [RM.stateOf]. split_and!; [done|done|by exists st1|].
    intros earlier receiver later Heq Hearlier. exfalso.
    rewrite Heq in Hall. apply Forall_app in Hall as [_ Hall].
    by apply Forall_cons in Hall as [? _].
  - destruct (Hthrown earlier receiver later Heq Hall) as (st' & Hrun & Hm & Hd & Hpre).
    rewrite Hrun. cbn [RM.stateOf]. split_and!; [done|done| |].
    + intros Hnone. exfalso. rewrite Heq in Hnone. apply Forall_app in Hnone as [_ Hnone].
      by apply Forall_cons in Hnone as [? _].
    + intros earlier' receiver' later' Heq' Hall'.
      destruct (Hthrown earlier' receiver' later' Heq' Hall') as (st'' & Hrun' & _ & _ & Hpre').
      rewrite Hrun in Hrun'. injection Hrun' as <-. by exists st'.
Qed.

Lemma poll_without_call_throws_witness :
  ∃ st', RM.pollReceivers (fun n => 1000 + Z.of_nat n) (RM.mkSnapshot (fun _ => []) None)
           (receiversAfter (fun n => 1000 + Z.of_nat n)
              (AddReceiver "audio-1" :: replicate 2 (PollReceivers heard_participant)))
         = RM.Thrown st'.
Proof.
  destruct (poll_without_call_throws (fun n => 1000 + Z.of_nat n)
              (RM.mkSnapshot (fun _ => []) None)
              (receiversAfter (fun n => 1000 + Z.of_nat n)
                 (AddReceiver "audio-1" :: replicate 2 (PollReceivers heard_participant))))
    as (_ & _ & _ & Hthrown); [reflexivity|by vm_compute|].
  destruct (Hthrown [] "audio-1" []) as (st' & Hrun & _); [by vm_compute|done|].
  by exists st'.
Defined.

(** ** The users of the meeting *)

Section users.

Implicit Types (st : UM.t) (current : JsMap.t UM.JsValue UM.JsObject)
  (user : UM.JsObject) (k : UM.JsValue).

Lemma jsmap_set_fresh {K V} `{EqDecision K} (k : K) (v : V) (o : JsMap.t K V) :
  JsMap.get k o = None → JsMap.set k v o = o ++ [(k, v)].
Proof.
  induction o as [|[k' v'] o IH]; simpl; [done|].
  destruct (decide (k = k')); [done|]. intros Hg. by rewrite IH.
Qed.

(** Mapping the values of a map commutes with [set]. *)
Lemma jsmap_set_fmap {K V} `{EqDecision K} (f : V → V) (k : K) (v : V) (o : JsMap.t K V) :
  prod_map id f <$> JsMap.set k v o = JsMap.set k (f v) (prod_map id f <$> o).
Proof.
  induction o as [|[k' v'] o IH]; [done|].
  cbn [JsMap.set fmap list_fmap prod_map fst snd id].
  destruct (decide (k = k')); [done|]. cbn [fmap list_fmap prod_map fst snd id].
  f_equal. exact IH.
Qed.

(** Filling a map from the values of a map with distinct keys, each stored
    under its own key, gives the map again, value by value. *)
Lemma refill (key : UM.JsObject → UM.JsValue) (f : UM.JsObject → UM.JsObject) current :
  NoDup (JsMap.keys current) →
  Forall (fun entry => key (snd entry) = fst entry) current →
  foldl (fun map user => JsMap.set (key user) (f user) map) JsMap.empty (JsMap.values current)
  = prod_map id f <$> current.
Proof.
  unfold JsMap.keys, JsMap.values.
  induction current as [|[k v] current IH] using rev_ind; intros Hnd Hkeys; [done|].
  rewrite fmap_app in Hnd. apply NoDup_app in Hnd as (Hnd & Hfresh & _).
  apply Forall_app in Hkeys as [Hkeys Hk]. apply Forall_cons in Hk as [Hk _].
  cbn [fst snd] in Hk.
  rewrite !fmap_app. cbn [fmap list_fmap snd prod_map fst id].
  rewrite foldl_snoc, IH, Hk by done. apply jsmap_set_fresh.
  apply jsmap_get_None_keys. unfold JsMap.keys. rewrite <- list_fmap_compose.
  intros Hin. apply (Hfresh k); [|apply list_elem_of_here].
  apply list_elem_of_fmap in Hin as ([k' v'] & -> & Hin). cbn.
  apply list_elem_of_fmap. by exists (k', v').
Qed.

Lemma fmap_id_on {A} (f : A → A) (l : list A) :
  Forall (fun x => f x = x) l → f <$> l = l.
Proof.
  induction 1 as [|x l Hx _ IH]; [done|]. cbn [fmap list_fmap]. by rewrite Hx, IH.
Qed.

Lemma currentUsersEntry_deviceId user :
  UM.prop "deviceId" (UM.currentUsersEntry user) = UM.prop "deviceId" user.
Proof. reflexivity. Qed.

Lemma currentUsersEntry_idem user :
  UM.currentUsersEntry (UM.currentUsersEntry user) = UM.currentUsersEntry user.
Proof. reflexivity. Qed.

Lemma convertUser_deviceId (currentUserId : UM.JsValue) (u : UM.User) :
  UM.prop "deviceId" (UM.convertUser currentUserId u) = UM.id (UM.details u).
Proof. reflexivity. Qed.

(** A converted user never reads like a stored one: it has a [profile]. *)
Lemma stringify_converted_stored (currentUserId : UM.JsValue) (u : UM.User) user :
  UM.stringify (UM.currentUsersEntry user) ≠ UM.stringify (UM.convertUser currentUserId u).
Proof.
  intros Heq.
  assert (Hin : ("profile"%string, UM.VString "")
                  ∈ UM.stringify (UM.convertUser currentUserId u)).
  { unfold UM.stringify. apply list_elem_of_filter. split; [done|].
    unfold UM.convertUser. do 3 apply list_elem_of_further. apply list_elem_of_here. }
  rewrite <- Heq in Hin. unfold UM.stringify in Hin.
  apply list_elem_of_filter in Hin as [_ Hin]. unfold UM.currentUsersEntry in Hin.
  repeat (apply elem_of_cons in Hin as [Hin|Hin]; [by inversion Hin|]).
  by apply elem_of_nil in Hin.
Qed.


Lemma filter_none {A} (P : A → Prop) `{∀ x, Decision (P x)} (l : list A) :
  Forall (fun x => ¬ P x) l → filter P l = [].
Proof.
  induction 1 as [|x l Hx _ IH]; [done|]. by rewrite filter_cons, decide_False.
Qed.

Lemma jsmap_set_Forall {K V} `{EqDecision K} (P : K * V → Prop) (k : K) (v : V)
    (o : JsMap.t K V) :
  Forall P o → P (k, v) → Forall P (JsMap.set k v o).
Proof.
  intros Hall Hv. induction Hall as [|[k' v'] o Hx Hall IH]; cbn [JsMap.set].
  - by apply Forall_singleton.
  - destruct (decide (k = k')); apply Forall_cons; by split.
Qed.

Lemma jsmap_keys_values {K V} `{EqDecision K} (key : V → K) (o : JsMap.t K V) :
  Forall (fun entry => key (snd entry) = fst entry) o →
  key <$> JsMap.values o = JsMap.keys o.
Proof.
  unfold JsMap.values, JsMap.keys. induction 1 as [|[k v] o Hk _ IH]; [done|].
  cbn [fmap list_fmap fst snd] in *. by rewrite Hk, IH.
Qed.

(** The value found under a key is the only value of the map with that key. *)
Lemma filter_values_key (key : UM.JsObject → UM.JsValue) current k user :
  NoDup (JsMap.keys current) →
  Forall (fun entry => key (snd entry) = fst entry) current →
  JsMap.get k current = Some user →
  filter (fun u => key u = k) (JsMap.values current) = [user].
Proof.
  unfold JsMap.keys, JsMap.values.
  induction current as [|[k' v'] current IH]; [done|].
  cbn [fmap list_fmap fst snd JsMap.get]. intros Hnd Hkeys Hget.
  apply NoDup_cons in Hnd as [Hfresh Hnd]. apply Forall_cons in Hkeys as [Hk Hkeys].
  cbn [fst snd] in Hk. rewrite filter_cons, Hk.
  destruct (decide (k = k')) as [->|Hne].
  - injection Hget as ->. rewrite decide_True by done. f_equal.
    apply filter_none, Forall_forall. intros u Hu Hkey.
    apply Hfresh. apply list_elem_of_fmap in Hu as ([k0 v0] & -> & Hin).
    rewrite Forall_forall in Hkeys. specialize (Hkeys _ Hin). cbn [fst snd] in *.
    apply list_elem_of_fmap. exists (k0, v0). split; [cbn; congruence|done].
  - rewrite decide_False by done. by apply IH.
Qed.

Lemma get_fold_set (key : UM.JsObject → UM.JsValue) (g : UM.JsObject → UM.JsObject)
    (users : list UM.JsObject) (o : JsMap.t UM.JsValue UM.JsObject) k :
  JsMap.get k (foldl (fun map user => JsMap.set (key user) (g user) map) o users)
  = match last (filter (fun u => key u = k) users) with
    | Some u => Some (g u)
    | None => JsMap.get k o
    end.
Proof.
  induction users as [|u users IH] using rev_ind; [done|].
  rewrite foldl_snoc, filter_app, filter_cons, filter_nil.
  case_decide as Hk.
  - subst k. by rewrite last_snoc, jsmap_get_set_eq.
  - by rewrite app_nil_r, jsmap_get_set_ne.
Qed.

(** The ids that are reported as updated, when at most one id can be. *)
Lemma fold_updated (P : UM.JsObject → bool) (users : list UM.JsObject) k :
  (∀ u, u ∈ users → P u = true → UM.prop "deviceId" u = k) →
  foldl (fun updatedUserIds user =>
           if P user then UM.add (UM.prop "deviceId" user) updatedUserIds
           else updatedUserIds) [] users
  = if existsb P users then [k] else [].
Proof.
  induction users as [|u users IH] using rev_ind; intros Hk; [done|].
  rewrite foldl_snoc, existsb_app, IH.
  2:{ intros u' Hu'. apply Hk, elem_of_app. by left. }
  cbn [existsb]. rewrite orb_false_r.
  destruct (P u) eqn:Hu.
  - rewrite (Hk u) by (done || apply elem_of_app; right; apply list_elem_of_here).
    rewrite orb_true_r. unfold UM.add. destruct (existsb P users).
    + rewrite bool_decide_eq_true_2; [done|apply list_elem_of_here].
    + by rewrite bool_decide_eq_false_2 by apply not_elem_of_nil.
  - by rewrite orb_false_r.
Qed.

Lemma newUsersListSynced_wf (newUsersList : list UM.JsObject) st :
  current_users_wf (UM.currentUsersMap (UM.newUsersListSynced newUsersList st)).
Proof.
  unfold UM.newUsersListSynced. cbn [UM.currentUsersMap].
  induction newUsersList as [|u users IH] using rev_ind.
  - split; [apply NoDup_nil_2|apply Forall_nil_2].
  - rewrite foldl_snoc. destruct IH as [Hnd Hall]. split.
    + by apply jsmap_set_NoDup.
    + by apply jsmap_set_Forall.
Qed.

Lemma usersAfter_wf (ops : list UserOp) : current_users_wf (UM.currentUsersMap (usersAfter ops)).
Proof.
  unfold usersAfter. destruct ops as [|op ops] using rev_ind.
  - split; [apply NoDup_nil_2|apply Forall_nil_2].
  - rewrite foldl_snoc. destruct op; apply newUsersListSynced_wf.
Qed.

(** [singleUserSynced] on well-formed current users. *)
Lemma singleUserSynced_spec (currentUserId : UM.JsValue) (u : UM.User) st :
  current_users_wf (UM.currentUsersMap st) →
  let st' := UM.singleUserSynced currentUserId u st in
  let converted := UM.convertUser currentUserId u in
  let deviceId := UM.id (UM.details u) in
  UM.currentUsersMap st'
  = JsMap.set deviceId (UM.currentUsersEntry converted) (UM.currentUsersMap st) ∧
  UM.getUserByDeviceId deviceId st' = Some (UM.allUsersEntry converted) ∧
  UM.sent st'
  = UM.sent st
    ++ [if bool_decide (is_Some (JsMap.get deviceId (UM.currentUsersMap st)))
        then UM.mkUsersUpdate [] [] [Some (UM.currentUsersEntry converted)]
        else UM.mkUsersUpdate [converted] [] []].
Proof.
  intros [Hnd Hall]. cbn zeta.
  set (c := UM.convertUser currentUserId u).
  set (k := UM.id (UM.details u)).
  set (current := UM.currentUsersMap st) in *.
  assert (Hkeyed : Forall (fun entry => UM.prop "deviceId" (snd entry) = fst entry) current).
  { eapply Forall_impl; [exact Hall|]. by intros e [? _]. }
  assert (Hshape : Forall (fun entry => prod_map id UM.currentUsersEntry entry = entry) current).
  { eapply Forall_impl; [exact Hall|]. intros [k' v'] [_ Hv]. cbn in *. by rewrite Hv. }
  set (M := JsMap.set k c current).
  assert (HM : NoDup (JsMap.keys M)
               ∧ Forall (fun entry => UM.prop "deviceId" (snd entry) = fst entry) M).
  { split; [by apply jsmap_set_NoDup|by apply jsmap_set_Forall]. }
  destruct HM as [HndM HkeyedM].
  assert (Hunique : foldl (fun map singleUser =>
                             JsMap.set (UM.prop "deviceId" singleUser) singleUser map)
                          JsMap.empty (JsMap.values current ++ [c]) = M).
  { rewrite foldl_snoc.
    rewrite (refill (UM.prop "deviceId") (fun user => user)) by done.
    rewrite fmap_id_on; [done|]. apply Forall_forall. by intros [? ?] _. }
  unfold UM.singleUserSynced. fold c current. rewrite Hunique.
  unfold UM.newUsersListSynced, UM.getUserByDeviceId. fold current.
  cbn [UM.currentUsersMap UM.allUsersMap UM.sent].
  (* the current users afterwards *)
  assert (Hcurrent' : foldl (fun currentUsersMap user =>
                               JsMap.set (UM.prop "deviceId" user) (UM.currentUsersEntry user)
                                         currentUsersMap)
                            JsMap.empty (JsMap.values M)
                      = JsMap.set k (UM.currentUsersEntry c) current).
  { rewrite (refill (UM.prop "deviceId") UM.currentUsersEntry) by done.
    unfold M. rewrite jsmap_set_fmap. by rewrite (fmap_id_on _ current). }
  rewrite Hcurrent'.
  assert (HgetM : JsMap.get k M = Some c) by apply jsmap_get_set_eq.
  assert (Hids : UM.prop "deviceId" <$> JsMap.values M = JsMap.keys M).
  { by apply jsmap_keys_values. }
  (* nobody is removed *)
  assert (Hremoved : filter (fun id => id ∉ UM.prop "deviceId" <$> JsMap.values M)
                            (JsMap.keys current) = []).
  { apply filter_none, Forall_forall. intros id Hid Hnot. apply Hnot.
    rewrite Hids. unfold M.
    destruct (JsMap.get k current) as [old|] eqn:Hold.
    - rewrite jsmap_keys_set_present by (by eexists). done.
    - rewrite jsmap_keys_set_absent by done. apply elem_of_app. by left. }
  rewrite Hremoved. cbn [fmap list_fmap length].
  (* the users other than the synced one are not reported *)
  set (P := fun user : UM.JsObject =>
              bool_decide (UM.prop "deviceId" user ∈ JsMap.keys current)
              && negb (bool_decide
                         (UM.stringify <$> JsMap.get (UM.prop "deviceId" user) current
                          = Some (UM.stringify user)))).
  assert (Hothers : ∀ user, user ∈ JsMap.values M → user ≠ c → P user = false).
  { intros user Hin Hne. unfold P.
    apply list_elem_of_fmap in Hin as ([k' v'] & -> & Hin). cbn [snd] in *.
    rewrite Forall_forall in HkeyedM. pose proof (HkeyedM _ Hin) as Hk'. cbn [fst snd] in Hk'.
    rewrite Hk'. pose proof (jsmap_get_entry k' v' M HndM Hin) as Hget.
    unfold M in Hget. destruct (decide (k = k')) as [<-|Hkk'].
    - rewrite jsmap_get_set_eq in Hget. by injection Hget as <-.
    - rewrite jsmap_get_set_ne in Hget by done. rewrite Hget. cbn [fmap option_fmap option_map].
      rewrite (bool_decide_eq_true_2 (Some _ = Some _)) by done. by rewrite andb_false_r. }
  assert (Honly : ∀ user, user ∈ JsMap.values M → P user = true →
                          UM.prop "deviceId" user = k).
  { intros user Hin HP. destruct (decide (user = c)) as [->|Hne]; [done|].
    by rewrite Hothers in HP. }
  match goal with
  | |- context [foldl ?f [] (JsMap.values M)] =>
      replace (foldl f [] (JsMap.values M))
        with (if existsb P (JsMap.values M) then [k] else [])
        by (symmetry; exact (fold_updated P (JsMap.values M) k Honly))
  end.
  assert (HcM : c ∈ JsMap.values M).
  { apply list_elem_of_fmap. exists (k, c). split; [done|]. by apply jsmap_entry_get. }
  split_and!.
  - done.
  - rewrite (get_fold_set (UM.prop "deviceId") UM.allUsersEntry).
    by rewrite (filter_values_key (UM.prop "deviceId") M k c).
  - destruct (JsMap.get k current) as [old|] eqn:Hold.
    + rewrite (bool_decide_eq_true_2 (is_Some _)) by (by eexists).
      assert (HPc : P c = true).
      { unfold P. change (UM.prop "deviceId" c) with k. rewrite Hold.
        rewrite bool_decide_eq_true_2 by (by eapply jsmap_get_Some_keys).
        cbn [fmap option_fmap option_map andb]. apply negb_true_iff, bool_decide_eq_false.
        intros [= Heq]. rewrite Forall_forall in Hall.
        destruct (Hall (k, old) (jsmap_entry_get _ _ _ Hold)) as [_ Hshape'].
        cbn [snd] in Hshape'. rewrite <- Hshape' in Heq.
        by apply stringify_converted_stored in Heq. }
      assert (Hex : existsb P (JsMap.values M) = true).
      { apply existsb_exists. exists c. split; [by apply list_elem_of_In|done]. }
      rewrite Hex. cbn [fmap list_fmap length]. rewrite jsmap_get_set_eq.
      assert (Hnew : filter (fun user => UM.prop "deviceId" user ∉ JsMap.keys current)
                            (JsMap.values M) = []).
      { apply filter_none, Forall_forall. intros user Hin Hnot. apply Hnot.
        replace (JsMap.keys current) with (JsMap.keys M)
          by (unfold M; apply jsmap_keys_set_present; by eexists).
        rewrite <- Hids. by apply list_elem_of_fmap_2. }
      rewrite Hnew. done.
    + rewrite (bool_decide_eq_false_2 (is_Some _)) by (by intros [? ?]).
      assert (Hex : existsb P (JsMap.values M) = false).
      { apply not_true_is_false. intros [user [Hin HP]]%existsb_exists.
        apply list_elem_of_In in Hin. destruct (decide (user = c)) as [->|Hne].
        - unfold P in HP. change (UM.prop "deviceId" c) with k in HP.
          rewrite bool_decide_eq_false_2 in HP; [done|].
          by apply jsmap_get_None_keys.
        - by rewrite Hothers in HP. }
      rewrite Hex. cbn [fmap list_fmap length].
      assert (Hnew : filter (fun user => UM.prop "deviceId" user ∉ JsMap.keys current)
                            (JsMap.values M) = [c]).
      { unfold M. rewrite jsmap_set_fresh by done. unfold JsMap.values.
        rewrite fmap_app, filter_app. cbn [fmap list_fmap snd].
        rewrite filter_cons, filter_nil, decide_True by (by apply jsmap_get_None_keys).
        rewrite filter_none; [done|].
        apply Forall_forall. intros user Hin Hnot. apply Hnot.
        rewrite <- (jsmap_keys_values (UM.prop "deviceId") current Hkeyed).
        by apply list_elem_of_fmap_2. }
      rewrite Hnew. done.
Qed.

End users.

(** [singleUserSynced] reports the participant and nobody else.  After any
    calls, the current users are as before with the converted participant
    stored under its id, in the place of the entry it had or behind the
    others; [getUserByDeviceId] finds it; and one [UsersUpdate] is sent, with
    nobody removed: the participant is a new user when its id was not
    current, and an updated user when it was, also when nothing about it
    changed, so that the same participant synced again is reported again. *)
Theorem singleUserSynced_reports (ops : list UserOp) (currentUserId : UM.JsValue)
    (user : UM.User) :
  let st := usersAfter ops in
  let st' := UM.singleUserSynced currentUserId user st in
  let converted := UM.convertUser currentUserId user in
  let deviceId := UM.id (UM.details user) in
  UM.currentUsersMap st'
  = JsMap.set deviceId (UM.currentUsersEntry converted) (UM.currentUsersMap st) ∧
  UM.getUserByDeviceId deviceId st' = Some (UM.allUsersEntry converted) ∧
  UM.sent st'
  = UM.sent st
    ++ [if bool_decide (is_Some (JsMap.get deviceId (UM.currentUsersMap st)))
        then UM.mkUsersUpdate [] [] [Some (UM.currentUsersEntry converted)]
        else UM.mkUsersUpdate [converted] [] []] ∧
  UM.currentUsersMap (UM.singleUserSynced currentUserId user st') = UM.currentUsersMap st' ∧
  UM.sent (UM.singleUserSynced currentUserId user st')
  = UM.sent st' ++ [UM.mkUsersUpdate [] [] [Some (UM.currentUsersEntry converted)]].
Proof.
  intros st st' converted deviceId.
  destruct (singleUserSynced_spec currentUserId user st (usersAfter_wf ops))
    as (Hcurrent & Hget & Hsent).
  fold st' converted deviceId in Hcurrent, Hget, Hsent.
  assert (Hwf' : current_users_wf (UM.currentUsersMap st')).
  { apply newUsersListSynced_wf. }
  destruct (singleUserSynced_spec currentUserId user st' Hwf') as (Hcurrent' & _ & Hsent').
  fold converted deviceId in Hcurrent', Hsent'.
  assert (Hknown : JsMap.get deviceId (UM.currentUsersMap st')
                   = Some (UM.currentUsersEntry converted)).
  { rewrite Hcurrent. apply jsmap_get_set_eq. }
  split_and!; [done..| |].
  - rewrite Hcurrent'. rewrite Hcurrent at 1.
    destruct Hwf' as [Hnd' _]. rewrite Hcurrent in Hnd' |- *.
    apply jsmap_ext.
    + by apply jsmap_set_NoDup.
    + rewrite jsmap_keys_set_present; [done|]. rewrite jsmap_get_set_eq. by eexists.
    + intros k. destruct (decide (deviceId = k)) as [->|Hne].
      * by rewrite !jsmap_get_set_eq.
      * by rewrite !jsmap_get_set_ne.
  - rewrite Hsent', Hknown. by rewrite bool_decide_eq_true_2 by (by eexists).
Qed.

(** ** The frames of a video track *)

Section video_track.

Implicit Types (st : VT.t * WebSocketClient.t) (e : FrameEvent).

Lemma spaced_snoc (previous t : float) (readings : list float) :
  spaced previous readings →
  PrimFloat.leb VT.frameInterval (t - default previous (last readings)) = true →
  spaced previous (readings ++ [t]).
Proof.
  revert previous. induction readings as [|r readings IH]; intros previous Hsp Hle.
  - done.
  - destruct Hsp as [Hr Hsp]. split; [done|]. apply IH; [done|].
    rewrite last_cons in Hle. by destruct (last readings).
Qed.

(** What one call of the transform does. *)
Lemma transform_cases st e :
  let st' := frameEvent st e in
  VT.firstStreamId (fst st') = VT.firstStreamId (fst st) ∧
  ((st' = st ∧ frame e = None) ∨
   ∃ f, frame e = Some f ∧
     ((VT.enqueued (fst st') = VT.enqueued (fst st) ++ [f]
       ∧ VT.closed (fst st') = VT.closed (fst st))
      ∨ (VT.enqueued (fst st') = VT.enqueued (fst st)
         ∧ VT.closed (fst st') = VT.closed (fst st) ++ [f])) ∧
     ((VT.relayedAt (fst st') = VT.relayedAt (fst st)
       ∧ VT.lastFrameTime (fst st') = VT.lastFrameTime (fst st)
       ∧ snd st' = snd st)
      ∨ (VT.relayedAt (fst st') = VT.relayedAt (fst st) ++ [currentTime e]
         ∧ VT.lastFrameTime (fst st') = currentTime e
         ∧ PrimFloat.leb VT.frameInterval (currentTime e - VT.lastFrameTime (fst st)) = true
         ∧ desiredSizeIsNull e = false
         ∧ VT.enqueued (fst st') = VT.enqueued (fst st) ++ [f]
         ∧ (∃ id, id ≠ "" ∧ VT.firstStreamId (fst st) = Some id
                  ∧ Mgr.getVideoStreamIdToSend (speakers e) (streams e) = Some id)
         ∧ ∃ data micros, VT.i420 f = Some data ∧
             snd st' = WebSocketClient.sendVideo micros
                         (default "" (VT.firstStreamId (fst st)))
                         (VT.displayWidth f) (VT.displayHeight f) data (snd st)))).
Proof.
  destruct st as [track ws], e as [isNull now dsm m [f|]]; unfold frameEvent;
    cbn [desiredSizeIsNull currentTime speakers streams frame VT.transform fst snd];
    [|by split; [|left]].
  destruct isNull; [split; [done|]; right; exists f; split; [done|]; split; [by right|by left]|].
  destruct (truthy_opt (VT.firstStreamId track)) eqn:Hfirst; cbn [andb];
    [|split; [done|]; right; exists f; split; [done|]; split; by left].
  case_bool_decide as Hsel;
    [|split; [done|]; right; exists f; split; [done|]; split; by left].
  destruct (PrimFloat.leb _ _) eqn:Hle;
    [|split; [done|]; right; exists f; split; [done|]; split; by left].
  destruct (VT.i420 f) as [data|] eqn:Hdata;
    [|split; [done|]; right; exists f; split; [done|]; split; [by right|by left]].
  destruct (VT.floor _) as [micros|];
    [|split; [done|]; right; exists f; split; [done|]; split; [by right|by left]].
  split; [done|]. right. exists f. split; [done|]. split; [by left|]. right.
  cbn [VT.enqueue VT.relayedAt VT.lastFrameTime VT.enqueued VT.firstStreamId fst snd].
  split_and!; [done..| |by exists data, micros].
  destruct (VT.firstStreamId track) as [id|] eqn:Hid; [|done].
  exists id. split_and!; [by destruct id|done|done].
Qed.

Lemma framesAfter_snoc (firstStreamId : option string) (ws : WebSocketClient.t)
    (events : list FrameEvent) e :
  framesAfter firstStreamId ws (events ++ [e])
  = frameEvent (framesAfter firstStreamId ws events) e.
Proof. unfold framesAfter. by rewrite foldl_snoc. Qed.

Lemma framesAfter_invariant (firstStreamId : option string) (ws : WebSocketClient.t)
    (events : list FrameEvent) :
  let st := framesAfter firstStreamId ws events in
  VT.firstStreamId (fst st) = firstStreamId ∧
  omap frame events ≡ₚ VT.enqueued (fst st) ++ VT.closed (fst st) ∧
  spaced 0 (VT.relayedAt (fst st)) ∧
  VT.lastFrameTime (fst st) = default 0%float (last (VT.relayedAt (fst st))) ∧
  VT.relayedAt (fst st) `sublist_of` (currentTime <$> events) ∧
  (length (WebSocketClient.outbox (snd st))
   ≤ length (WebSocketClient.outbox ws) + length (VT.relayedAt (fst st)))%nat.
Proof.
  induction events as [|e events IH] using rev_ind.
  { cbn. split_and!; [done..|lia]. }
  rewrite framesAfter_snoc. cbn zeta in IH |- *.
  set (st := framesAfter firstStreamId ws events) in *.
  destruct IH as (Hfirst & Hperm & Hspaced & Hlast & Hsub & Hout).
  destruct (transform_cases st e) as [Hfirst' Hcases]. cbn zeta in Hfirst', Hcases.
  rewrite omap_app, fmap_app. cbn [omap list_omap fmap list_fmap].
  destruct Hcases as [[-> Hnone]|(f & Hf & Hframes & Hrelay)].
  { rewrite Hnone. cbn. rewrite !app_nil_r. split_and!; [done..| |done].
    by apply sublist_inserts_r. }
  rewrite Hf. cbn [option_list app].
  assert (Hperm' : omap frame events ++ [f]
                   ≡ₚ VT.enqueued (fst (frameEvent st e)) ++ VT.closed (fst (frameEvent st e))).
  { destruct Hframes as [[-> ->]|[-> ->]]; rewrite Hperm.
    - rewrite <- !app_assoc. apply Permutation_app_head, Permutation_app_comm.
    - by rewrite <- !app_assoc. }
  destruct Hrelay as [(-> & -> & ->)|(-> & -> & Hle & _ & _ & _ & data & micros & _ & ->)].
  - split_and!; [congruence|done..|by apply sublist_inserts_r|done].
  - split_and!; [congruence|done| | | |].
    + apply spaced_snoc; [done|]. by rewrite <- Hlast.
    + by rewrite last_snoc.
    + by apply sublist_app.
    + rewrite length_app. cbn [length].
      unfold WebSocketClient.sendVideo.
      destruct (negb _); [lia|]. destruct (negb _); [lia|].
      destruct (WebSocketClient.videoMessage _ _ _ _ _); [|lia].
      cbn [WebSocketClient.send WebSocketClient.outbox]. rewrite length_app. cbn [length]. lia.
Qed.

End video_track.

(** The relay of a video track is limited to 24 frames a second and to the
    selected stream.  Whatever frames the transform gets, at whatever clock
    readings: every frame is handed on to the video element or closed, never
    both; the clock readings of the frames handed to [sendVideo] are a frame
    interval (1000/24 ms) apart, the first one from 0, and at most one
    message per such frame goes out.  A frame is relayed only when the id of
    the first stream of the track is not empty and is what
    [getVideoStreamIdToSend] returns then, so that of two tracks with
    different first streams at most one relays a frame of the same event. *)
Theorem video_relay_limited (firstStreamId : option string) (ws : WebSocketClient.t)
    (events : list FrameEvent) :
  let st := framesAfter firstStreamId ws events in
  omap frame events ≡ₚ VT.enqueued (fst st) ++ VT.closed (fst st) ∧
  spaced 0 (VT.relayedAt (fst st)) ∧
  VT.relayedAt (fst st) `sublist_of` (currentTime <$> events) ∧
  (length (WebSocketClient.outbox (snd st))
   ≤ length (WebSocketClient.outbox ws) + length (VT.relayedAt (fst st)))%nat ∧
  (∀ e, relays st e →
        desiredSizeIsNull e = false ∧
        ∃ id, id ≠ "" ∧ firstStreamId = Some id ∧
              Mgr.getVideoStreamIdToSend (speakers e) (streams e) = Some id) ∧
  (∀ firstStreamId' ws' events' e,
     firstStreamId' ≠ firstStreamId →
     relays st e → ¬ relays (framesAfter firstStreamId' ws' events') e).
Proof.
  intros st.
  destruct (framesAfter_invariant firstStreamId ws events)
    as (Hfirst & Hperm & Hspaced & _ & Hsub & Hout).
  fold st in Hfirst, Hperm, Hspaced, Hsub, Hout.
  assert (Hrelays : ∀ first0 ws0 events0 e,
            relays (framesAfter first0 ws0 events0) e →
            desiredSizeIsNull e = false ∧
            ∃ id, id ≠ "" ∧ first0 = Some id ∧
                  Mgr.getVideoStreamIdToSend (speakers e) (streams e) = Some id).
  { intros first0 ws0 events0 e Hrel. unfold relays in Hrel.
    destruct (framesAfter_invariant first0 ws0 events0) as (Hfirst0 & _).
    destruct (transform_cases (framesAfter first0 ws0 events0) e) as [_ Hcases].
    cbn zeta in Hcases.
    destruct Hcases as [[Heq _]|(f & _ & _ & [(Hsame & _)|(_ & _ & _ & Hnull & _ & Hid & _)])].
    - rewrite Heq in Hrel. apply (f_equal length) in Hrel.
      rewrite length_app in Hrel. cbn [length] in Hrel. lia.
    - rewrite Hsame in Hrel. apply (f_equal length) in Hrel.
      rewrite length_app in Hrel. cbn [length] in Hrel. lia.
    - split; [done|]. destruct Hid as (id & Hne & Hid & Hsel). exists id.
      split_and!; [done|congruence|done]. }
  split_and!; [done..| |].
  - intros e. apply Hrelays.
  - intros firstStreamId' ws' events' e Hne Hrel Hrel'.
    destruct (Hrelays _ _ _ _ Hrel) as (_ & id & _ & -> & Hsel).
    destruct (Hrelays _ _ _ _ Hrel') as (_ & id' & _ & -> & Hsel').
    congruence.
Qed.

Lemma video_relay_limited_witness :
  VT.relayedAt
    (fst (framesAfter (Some "stream-55") (WebSocketClient.mk true true [])
            [mkFrameEvent false 50 DSM.new scenario_manager (Some sample_frame);
             mkFrameEvent false 60 DSM.new scenario_manager (Some sample_frame);
             mkFrameEvent false 100 DSM.new scenario_manager (Some sample_frame)]))
  = [50%float; 100%float].
Proof.
  destruct (video_relay_limited (Some "stream-55") (WebSocketClient.mk true true [])
              [mkFrameEvent false 50 DSM.new scenario_manager (Some sample_frame);
               mkFrameEvent false 60 DSM.new scenario_manager (Some sample_frame)])
    as (_ & _ & _ & _ & Hrel & _).
  destruct (Hrel (mkFrameEvent false 100 DSM.new scenario_manager (Some sample_frame)))
    as (_ & id & _ & _ & _); [by vm_compute|].
  by vm_compute.
Defined.

(** ** Joining and leaving a Zoom meeting *)

Section zoom_meeting.

Variable onBehalfToken : bool.

Implicit Types (st : ZM.t) (e : ZoomEvent).

Local Ltac finish :=
  unfold meeting_ended, ready_to_send, ZM.meetingStatusChange;
  cbn; (split; [done|]); (split; [done|]);
  first [ exists []; rewrite ?app_nil_r; split; [done|]
        | eexists [_]; split; [done|]
        | eexists [_; _]; split; [by rewrite <- ?app_assoc|] ];
  split_and!; try tauto; try (intros _; right; apply list_elem_of_here);
  intros Hin; repeat (apply elem_of_cons in Hin as [Hin|Hin]; [done|]);
  by apply elem_of_nil in Hin.

(** What an event does to the flag and to the messages. *)
Lemma zoomEvent_cases st e :
  let st' := zoomEvent st e in
  ZM.onBehalfToken st' = ZM.onBehalfToken st ∧
  (ZM.userEnteredMeeting st = true → ZM.userEnteredMeeting st' = true) ∧
  ∃ more, ZM.sendJsonCalls st' = ZM.sendJsonCalls st ++ more ∧
          (ZM.userEnteredMeeting st' = true →
           ZM.userEnteredMeeting st = true ∨ ready_to_send ∈ more) ∧
          (ready_to_send ∈ more → ZM.userEnteredMeeting st' = true) ∧
          (meeting_ended ∈ more → ZM.userEnteredMeeting st = true).
Proof.
  destruct st as [obf entered e1 e2 calls], e as [code err|code reason|level|status|reason];
    cbv [zoomEvent ZM.joinError ZM.handleJoinFailureFromConsoleIntercept ZM.onJoinSpeed
         ZM.onMeetingStatus ZM.onUserLeave ZM.isGenericJoinError ZM.sendJson
         ZM.onBehalfToken ZM.userEnteredMeeting ZM.sendJsonCalls
         ZM.userEncounteredOnBehalfTokenUserNotInMeetingError
         ZM.userEncounteredGenericJoinError].
  - destruct (bool_decide (code = Some 1)), entered; finish.
  - destruct (bool_decide (code = 1)), obf, entered; cbn [andb negb];
      rewrite ?bool_decide_eq_true_2 by done; cbn [andb negb]; try finish.
    all: case_bool_decide; finish.
  - case_bool_decide; finish.
  - destruct (bool_decide (status = 3)), entered; finish.
  - do 4 case_bool_decide; finish.
Qed.

Lemma zoomAfter_snoc (events : list ZoomEvent) e :
  zoomAfter onBehalfToken (events ++ [e]) = zoomEvent (zoomAfter onBehalfToken events) e.
Proof. unfold zoomAfter. by rewrite foldl_snoc. Qed.

Lemma zoomAfter_invariant (events : list ZoomEvent) :
  let st := zoomAfter onBehalfToken events in
  ZM.onBehalfToken st = onBehalfToken ∧
  (ZM.userEnteredMeeting st = true ↔ ready_to_send ∈ ZM.sendJsonCalls st) ∧
  (∀ i, ZM.sendJsonCalls st !! i = Some meeting_ended →
        ∃ j, (j < i)%nat ∧ ZM.sendJsonCalls st !! j = Some ready_to_send).
Proof.
  induction events as [|e events IH] using rev_ind.
  { cbn. split_and!; [done| |by intros [|?] ?].
    split; [done|]. by intros ?%elem_of_nil. }
  rewrite zoomAfter_snoc. cbn zeta in IH |- *.
  set (st := zoomAfter onBehalfToken events) in *.
  destruct IH as (Hobf & Hentered & Hended).
  destruct (zoomEvent_cases st e) as (Hobf' & Hmono & more & Hcalls & Hin & Hready & Hend).
  cbn zeta in *. rewrite Hcalls. split_and!.
  - congruence.
  - rewrite elem_of_app. split.
    + intros H'. destruct (Hin H') as [?|?]; [left; by apply Hentered|by right].
    + intros [H'|H']; [by apply Hmono, Hentered|by apply Hready].
  - intros i Hi. destruct (decide (i < length (ZM.sendJsonCalls st))%nat) as [Hlt|Hge].
    + rewrite lookup_app_l in Hi by done. destruct (Hended i Hi) as (j & Hj & Hjr).
      exists j. split; [done|]. by apply lookup_app_l_Some.
    + rewrite lookup_app_r in Hi by lia.
      assert (Hwas : ZM.userEnteredMeeting st = true).
      { apply Hend. by eapply list_elem_of_lookup_2. }
      apply Hentered, list_elem_of_lookup in Hwas as [j Hj].
      exists j. split; [apply lookup_lt_Some in Hj; lia|by apply lookup_app_l_Some].
Qed.

End zoom_meeting.

(** The status messages of the Zoom payload follow the meeting.  After any
    events: the bot counts as having entered the meeting exactly when
    [ready_to_send] was reported, and every [meeting_ended] comes after a
    [ready_to_send].  As long as the bot has not entered, a join error with
    code 1 is not reported: it only raises a flag, the one for the on-behalf
    token when there is such a token and the error came through the console,
    and the generic one otherwise. *)
Theorem zoom_status_follows_meeting (onBehalfToken : bool) (events : list ZoomEvent) :
  let st := zoomAfter onBehalfToken events in
  (ZM.userEnteredMeeting st = true ↔ ready_to_send ∈ ZM.sendJsonCalls st) ∧
  (∀ i, ZM.sendJsonCalls st !! i = Some meeting_ended →
        ∃ j, (j < i)%nat ∧ ZM.sendJsonCalls st !! j = Some ready_to_send) ∧
  (ZM.userEnteredMeeting st = false →
   (∀ error,
      ZM.sendJsonCalls (ZM.joinError (Some 1) error st) = ZM.sendJsonCalls st ∧
      ZM.userEncounteredGenericJoinError (ZM.joinError (Some 1) error st) = true) ∧
   (∀ reason,
      let st' := ZM.handleJoinFailureFromConsoleIntercept 1 reason st in
      ZM.sendJsonCalls st' = ZM.sendJsonCalls st ∧
      if onBehalfToken
      then ZM.userEncounteredOnBehalfTokenUserNotInMeetingError st' = true
           ∧ ZM.userEncounteredGenericJoinError st' = ZM.userEncounteredGenericJoinError st
      else ZM.userEncounteredGenericJoinError st' = true
           ∧ ZM.userEncounteredOnBehalfTokenUserNotInMeetingError st'
             = ZM.userEncounteredOnBehalfTokenUserNotInMeetingError st)) ∧
  (ZM.userEnteredMeeting st = true →
   ∀ reason,
     ZM.sendJsonCalls (ZM.handleJoinFailureFromConsoleIntercept 1 reason st)
     = ZM.sendJsonCalls st
       ++ [ZM.meetingStatusChange "failed_to_join"
             [JField "reason"
                (JObject [JField "errorCode" (JNumber 1);
                          JField "errorMessage" (JString reason);
                          JField "method" (JString "join")])]]).
Proof.
  intros st.
  destruct (zoomAfter_invariant onBehalfToken events) as (Hobf & Hentered & Hended).
  fold st in Hobf, Hentered, Hended.
  split_and!; [done|done| |].
  - intros Hnot. split.
    + intros error. unfold ZM.joinError, ZM.isGenericJoinError. by rewrite Hnot.
    + intros reason. cbn zeta.
      unfold ZM.handleJoinFailureFromConsoleIntercept, ZM.isGenericJoinError.
      rewrite Hnot, Hobf. by destruct onBehalfToken.
  - intros Hyes reason.
    unfold ZM.handleJoinFailureFromConsoleIntercept, ZM.isGenericJoinError.
    rewrite Hyes. cbn [negb]. by rewrite !andb_false_r.
Qed.

Lemma zoom_status_follows_meeting_witness :
  ZM.sendJsonCalls
    (ZM.handleJoinFailureFromConsoleIntercept 1 "Fail to join the meeting."
       (zoomAfter true [JoinFailureFromConsole 3008 "Not started"; OnJoinSpeed 6]))
  = ZM.sendJsonCalls (zoomAfter true [JoinFailureFromConsole 3008 "Not started"; OnJoinSpeed 6]).
Proof.
  destruct (zoom_status_follows_meeting true
              [JoinFailureFromConsole 3008 "Not started"; OnJoinSpeed 6])
    as (_ & _ & Hnot & _).
  destruct Hnot as [_ Hconsole]; [reflexivity|].
  apply (Hconsole "Fail to join the meeting.").
Defined.
